(** * Orchestration core of the Veo3 automation tool

    A shallow embedding of the multi-account request orchestration layer,
    followed by its properties.

    Models:
    - [JS]         : the JavaScript values and string functions used below;
    - [Double]     : JavaScript numbers as IEEE 754 binary64 values, with
                     [parseFloat], addition, multiplication and [toFixed];
    - [TokenPool]  : [getNextToken], [getTokenByName] and the
                     [/api/load-token-pool] handler of [server.js];
    - [Dedup]      : [isDuplicateRequest] of [server.js];
    - [Provider]   : the payloads exchanged with the provider;
    - [Executor]   : [parseProxy] and [axiosWithRetry] of [server.js];
    - [StartEnd]   : the [/api/veo3/generate-start-end] handler of
                     [server.js];
    - [Poller]     : [pollOperation] of [video-veo3.js];
    - [AutoLogger] : the prompt loop of [runAutoLogger] in [index.js] (head
                     of an iteration, batch poll loop, downloads, clip
                     construction, scene update);
    - [Lanes]      : requests to the token pool of [server.js] as data;
    - [Proxy]      : proxy strings by their fields;
    - [Counters]   : readings of [rateLimitStats] in [server.js], and
                     [/api/reset-rate-limit-stats];
    - [ServerLog]  : [log], [/api/logs] and [/api/logs/clear] of
                     [server.js];
    - [TokenFile], [Csv] : the token file and [/api/tokens/export-csv];
    - [Credentials], [LaneManager], [EditProxy] : the handlers of
                     [server.js] that rewrite the token file;
    - [AccessToken]: [getAccessToken] of [server.js];
    - [Client]     : [postJson] of [video-veo3.js];
    - [StatusCheck], [PollChain] : [/api/veo3/check-status] of
                     [server.js], and [pollOperation] running over it;
    - [PollerRun]  : readings of a run of [pollOperation];
    - [RandomId]   : [cryptoRandomId] of [video-veo3.js];
    - [Uploads]    : [buildUploadLog], [fileToMediaId] and
                     [filesToMediaIds] of [video-veo3.js];
    - [Crop]       : the cover crop of [fileToCroppedDataUrl];
    - [PromptLoop] : the generate request of the prompt loop of [index.js].

    Mutable module-level variables of the JavaScript become explicit state
    records that every operation takes and returns.  The outside world
    (provider responses, the clock, the file system) is an argument of the
    operations.  Logging and the Telegram notifications change no state and
    are left out.

    Properties: one module [...Spec] per model. *)

From Stdlib Require Import ZArith String Ascii.
From Stdlib Require PrimFloat SpecFloat FloatOps.
From stdpp Require Import gmap strings list fin_maps pretty.
From Equations Require Import Equations.

Local Open Scope string_scope.
Local Open Scope Z_scope.
Local Open Scope list_scope.

(** ** JavaScript values *)

Module JS.

(** What [parseInt] reads: a mathematical integer, or [NaN].  The
    JavaScript value is the Number nearest to the integer ([Double.of_num]),
    which is the integer itself as long as its magnitude stays below
    [2^53]. *)
Inductive num : Type :=
| Int (z : Z)
| NaN.

#[global] Instance num_eq_dec : EqDecision num.
Proof. solve_decision. Defined.

(** Truthiness of a string value: only the empty string is falsy. *)
Definition truthy_string (s : string) : bool :=
  match s with
  | EmptyString => false
  | String _ _ => true
  end.

(** Truthiness of a possibly undefined string. *)
Definition truthy (v : option string) : bool :=
  match v with
  | Some s => truthy_string s
  | None => false
  end.

(** [a || b] on possibly undefined strings. *)
Definition or_else (a b : option string) : option string :=
  if truthy a then a else b.

(** White space skipped by [parseInt] and [parseFloat] (the ASCII part of
    the StrWhiteSpaceChar production). *)
Definition is_white_space (c : ascii) : bool :=
  let n := nat_of_ascii c in
  ((9 <=? n)%nat && (n <=? 13)%nat) || (n =? 32)%nat.

Fixpoint trim_start (s : string) : string :=
  match s with
  | String c r => if is_white_space c then trim_start r else s
  | EmptyString => s
  end.

(** Value of a character as a digit (also beyond 9, for radix 16). *)
Definition digit_value (c : ascii) : option Z :=
  let n := Z.of_nat (nat_of_ascii c) in
  if ((48 <=? n) && (n <=? 57))%Z then Some (n - 48)
  else if ((97 <=? n) && (n <=? 122))%Z then Some (n - 87)
  else if ((65 <=? n) && (n <=? 90))%Z then Some (n - 55)
  else None.

(** Longest prefix of digits of the given radix, read as a number;
    [seen] records whether a digit was consumed. *)
Fixpoint read_digits (radix : Z) (s : string) (acc : Z) (seen : bool) : Z * bool :=
  match s with
  | String c r =>
      match digit_value c with
      | Some d => if (d <? radix)%Z then read_digits radix r (acc * radix + d) true
                  else (acc, seen)
      | None => (acc, seen)
      end
  | EmptyString => (acc, seen)
  end.

Definition strip_sign (s : string) : Z * string :=
  match s with
  | String "-" r => (-1, r)
  | String "+" r => (1, r)
  | _ => (1, s)
  end.

Definition strip_hex_prefix (s : string) : Z * string :=
  match s with
  | String "0" (String "x" r) => (16, r)
  | String "0" (String "X" r) => (16, r)
  | _ => (10, s)
  end.

(** [parseInt(s)] with no radix argument, before the conversion of the
    integer it has read to a Number. *)
Definition parseInt (s : string) : num :=
  let '(sign, s1) := strip_sign (trim_start s) in
  let '(radix, s2) := strip_hex_prefix s1 in
  let '(n, seen) := read_digits radix s2 0 false in
  if seen then Int (sign * n) else NaN.

(** [s.split(sep)] for a one-character separator. *)
Fixpoint split (sep : ascii) (s : string) : list string :=
  match s with
  | EmptyString => [EmptyString]
  | String c r =>
      if Ascii.eqb c sep then EmptyString :: split sep r
      else match split sep r with
           | h :: t => String c h :: t
           | [] => [String c EmptyString]
           end
  end.

(** A string between double quotes. *)
Definition quoted (s : string) : string :=
  String (ascii_of_nat 34) (s ++ String (ascii_of_nat 34) EmptyString).

(** [s.includes(t)]. *)
Fixpoint includes (t s : string) : bool :=
  String.prefix t s ||
  match s with
  | String _ r => includes t r
  | EmptyString => false
  end.

(** [s.toLowerCase()], on the ASCII letters. *)
Definition lower (c : ascii) : ascii :=
  let n := nat_of_ascii c in
  if ((65 <=? n) && (n <=? 90))%nat then ascii_of_nat (n + 32) else c.

Fixpoint toLowerCase (s : string) : string :=
  match s with
  | EmptyString => EmptyString
  | String c r => String (lower c) (toLowerCase r)
  end.

End JS.

(** ** JavaScript numbers as IEEE 754 binary64 values *)

Module Double.

(** Every finite binary64 value is an integer multiple of [2^-1074], the
    smallest subnormal.  A finite value [x] is kept as the integer
    [x * 2^1074]; negative zero is identified with zero (the operations
    modelled here, addition, multiplication and [toFixed], produce the same
    result for both, up to the sign of a zero). *)
Inductive t : Type :=
| Fin (n : Z)
| Inf (negative : bool)
| NaN.

#[global] Instance t_eq_dec : EqDecision t.
Proof. solve_decision. Defined.

(** [2^1074]: the number of units in [1.0]. *)
Definition unit : Z := 2 ^ 1074.

(** [2^2098]: the first magnitude (in units) that overflows to infinity. *)
Definition overflow : Z := 2 ^ 2098.

(** Nearest integer to [a / b], ties to even ([0 <= a], [0 < b]). *)
Definition rne (a b : Z) : Z :=
  let q := a / b in
  let r := a mod b in
  if (2 * r <? b)%Z then q
  else if (b <? 2 * r)%Z then q + 1
  else if Z.even q then q else q + 1.

(** Spacing of the binary64 values around a magnitude of [m] units: one
    unit up to [2^53] (subnormals and the first binade), then a 53-bit
    significand. *)
Definition quantum (m : Z) : Z :=
  if (m <? 2 ^ 53)%Z then 1 else 2 ^ (Z.log2 m - 52).

(** The binary64 value nearest to [a / b] units ([0 <= a], [0 < b]),
    ties to even, as a number of units. *)
Definition nearest (a b : Z) : Z :=
  let q := quantum (a / b) in
  q * rne a (b * q).

(** Rounding of the real number [(-1)^negative * a / b] units. *)
Definition round (negative : bool) (a b : Z) : t :=
  let n := nearest a b in
  if (overflow <=? n)%Z then Inf negative
  else Fin (if negative then - n else n).

(** Rounding of an exact integer number of units. *)
Definition round_units (s : Z) : t :=
  round (s <? 0)%Z (Z.abs s) 1.

(** [x + y] *)
Definition add (x y : t) : t :=
  match x, y with
  | NaN, _ | _, NaN => NaN
  | Inf sx, Inf sy => if Bool.eqb sx sy then Inf sx else NaN
  | Inf sx, Fin _ => Inf sx
  | Fin _, Inf sy => Inf sy
  | Fin a, Fin b => round_units (a + b)
  end.

(** [x * y] *)
Definition mul (x y : t) : t :=
  match x, y with
  | NaN, _ | _, NaN => NaN
  | Inf s, Inf s' => Inf (xorb s s')
  | Inf s, Fin b | Fin b, Inf s => if (b =? 0)%Z then NaN else Inf (xorb s (b <? 0)%Z)
  | Fin a, Fin b => round (xorb (a <? 0)%Z (b <? 0)%Z) (Z.abs a * Z.abs b) unit
  end.

(** The Number for a mathematical integer: the binary64 value nearest to
    it. *)
Definition of_integer (z : Z) : t := round_units (z * unit).

(** The Number that [parseInt] returns. *)
Definition of_num (x : JS.num) : t :=
  match x with
  | JS.Int z => of_integer z
  | JS.NaN => NaN
  end.

(** The value nearest to [(-1)^negative * digits * 10^exponent]. *)
Definition of_decimal (negative : bool) (digits exponent : Z) : t :=
  if (0 <=? exponent)%Z then round negative (digits * 10 ^ exponent * unit) 1
  else round negative (digits * unit) (10 ^ (- exponent)).

(** *** [parseFloat] *)

Definition is_digit (c : ascii) : bool :=
  let n := nat_of_ascii c in (48 <=? n)%nat && (n <=? 57)%nat.

(** Reads the longest prefix of decimal digits: its value after [acc],
    the number of digits read and the rest of the string. *)
Fixpoint scan_digits (s : string) (acc : Z) (count : nat) : Z * nat * string :=
  match s with
  | String c r =>
      if is_digit c
      then scan_digits r (acc * 10 + (Z.of_nat (nat_of_ascii c) - 48)) (S count)
      else (acc, count, s)
  | EmptyString => (acc, count, s)
  end.

(** The exponent part [e|E [+|-] digits], or [0] when there is none. *)
Definition scan_exponent (s : string) : Z :=
  match s with
  | String c r =>
      if Ascii.eqb c "e" || Ascii.eqb c "E" then
        let '(sign, r1) := JS.strip_sign r in
        let '(e, count, _) := scan_digits r1 0 0 in
        if (count =? 0)%nat then 0 else sign * e
      else 0
  | EmptyString => 0
  end.

(** The rest of the string after a leading decimal point. *)
Definition after_point (s : string) : option string :=
  match s with
  | String c r => if Ascii.eqb c "." then Some r else None
  | EmptyString => None
  end.

(** The longest prefix that is a StrDecimalLiteral, after the sign. *)
Definition parse_unsigned (negative : bool) (s : string) : t :=
  if String.prefix "Infinity" s then Inf negative
  else
    let '(int_value, int_count, r) := scan_digits s 0 0 in
    match after_point r with
    | Some r1 =>
        let '(value, frac_count, r2) := scan_digits r1 int_value 0 in
        if ((int_count + frac_count)%nat =? 0)%nat then NaN
        else of_decimal negative value (scan_exponent r2 - Z.of_nat frac_count)
    | None =>
        if (int_count =? 0)%nat then NaN
        else of_decimal negative int_value (scan_exponent r)
    end.

(** [parseFloat(s)] *)
Definition parseFloat (s : string) : t :=
  match JS.trim_start s with
  | String "-" r => parse_unsigned true r
  | String "+" r => parse_unsigned false r
  | r => parse_unsigned false r
  end.

(** *** [toFixed] *)

(** [count] zeros. *)
Fixpoint zeros (count : nat) : string :=
  match count with
  | O => EmptyString
  | S count' => String "0" (zeros count')
  end.

(** [m] padded with zeros on the left to at least [width] characters. *)
Definition pad_left (width : nat) (m : string) : string :=
  (zeros (width - String.length m) ++ m)%string.

(** The first [n] characters of a string, and the rest. *)
Fixpoint take (n : nat) (s : string) : string :=
  match n, s with
  | S n', String c r => String c (take n' r)
  | _, _ => EmptyString
  end.

Fixpoint drop (n : nat) (s : string) : string :=
  match n, s with
  | S n', String c r => drop n' r
  | _, _ => s
  end.

(** The decimal string of [n / 10^f] with [f] fractional digits ([0 <= n]):
    the digits of [n], padded to [f + 1] of them, with a point before the
    last [f]. *)
Definition fixed_string (f : nat) (n : Z) : string :=
  let m := pad_left (S f) (pretty n) in
  let k := String.length m in
  if (f =? 0)%nat then m
  else (take (k - f) m ++ "." ++ drop (k - f) m)%string.

Section ToFixed.

(** [Number::toString] for magnitudes of [10^21] and more (exponent
    notation), which [toFixed] falls back to. *)
Variable toString_large : Z -> string.

(** [x.toFixed(f)] *)
Definition toFixed (f : nat) (x : t) : string :=
  match x with
  | NaN => "NaN"
  | Inf false => "Infinity"
  | Inf true => "-Infinity"
  | Fin v =>
      if (10 ^ 21 * unit <=? Z.abs v)%Z then toString_large v
      else
        let n := (2 * Z.abs v * 10 ^ Z.of_nat f + unit) / (2 * unit) in
        (if (v <? 0)%Z then "-" else EmptyString) ++ fixed_string f n
  end.

End ToFixed.

(** *** Vocabulary of the statements *)

(** The value of a binary64 number in the representation of the standard
    library ([spec_float] with a 53-bit significand). *)
Definition of_spec (x : SpecFloat.spec_float) : t :=
  match x with
  | SpecFloat.S754_zero _ => Fin 0
  | SpecFloat.S754_infinity negative => Inf negative
  | SpecFloat.S754_nan => NaN
  | SpecFloat.S754_finite negative m e =>
      Fin ((if negative then -1 else 1) * Z.pos m * 2 ^ (e + 1074))
  end.

(** Every character is a decimal digit. *)
Fixpoint all_digits (s : string) : bool :=
  match s with
  | String c r => is_digit c && all_digits r
  | EmptyString => true
  end.

(** The number spelled by the digits of [s] after the digits that gave
    [acc]. *)
Fixpoint spell (s : string) (acc : Z) : Z :=
  match s with
  | String c r => spell r (acc * 10 + (Z.of_nat (nat_of_ascii c) - 48))
  | EmptyString => acc
  end.

(** [text] is a plain decimal numeral: one or more digits, optionally
    followed by a point and [k] more digits; [d] is the number that all its
    digits spell, so that the numeral denotes [d / 10^k]. *)
Definition read_decimal (text : string) : option (Z * nat) :=
  let '(int_value, int_count, r) := scan_digits text 0 0 in
  if (int_count =? 0)%nat then None
  else
    match r with
    | EmptyString => Some (int_value, 0%nat)
    | String c r1 =>
        if Ascii.eqb c "." then
          let '(value, frac_count, r2) := scan_digits r1 int_value 0 in
          match r2 with
          | EmptyString => Some (value, frac_count)
          | String _ _ => None
          end
        else None
    end.

End Double.

(** ** Token pool ([server.js], [getNextToken], [/api/load-token-pool]) *)

Module TokenPool.

(** A row of the token file. *)
Record stored_token : Type := StoredToken {
  st_name : string;
  st_cookies : option string;
  st_sessionToken : option string;
  st_authorization : option string;
  st_projectId : option string;
  st_sceneId : option string;
  st_proxy : option string
}.

(** An entry of [tokenPool]; also the shape of the fallback record that
    [getNextToken] builds from the global session. *)
Record token : Type := Token {
  name : string;
  cookies : option string;
  sessionToken : option string;
  authorization : option string;
  accessToken : option string;
  lastUpdate : option Z;
  projectId : option string;
  sceneId : option string;
  proxy : option string
}.

#[global] Instance token_eq_dec : EqDecision token.
Proof. solve_decision. Defined.

(** The ambient [session] object, as far as the pool reads it. *)
Record session : Type := Session {
  s_cookies : option string;
  s_sessionToken : option string;
  s_accessToken : option string
}.

(** The two module-level variables [tokenPool] and [currentTokenIndex]. *)
Record pool_state : Type := PoolState {
  tokenPool : list token;
  currentTokenIndex : nat
}.

Definition initial : pool_state :=
  {| tokenPool := []; currentTokenIndex := 0 |}.

Definition keep_truthy (v : option string) : option string :=
  if JS.truthy v then v else None.

(** The [poolToken] object built for a row of the token file. *)
Definition poolToken (t : stored_token) : token :=
  {| name := st_name t;
     cookies := st_cookies t;
     sessionToken := st_sessionToken t;
     authorization := st_authorization t;
     accessToken := None;
     lastUpdate := None;
     projectId := keep_truthy (st_projectId t);
     sceneId := keep_truthy (st_sceneId t);
     proxy := keep_truthy (st_proxy t) |}.

(** [allTokens.find(t => t.name === tokenName)] *)
Definition find_stored (allTokens : list stored_token) (tokenName : string)
  : option stored_token :=
  List.find (fun t => bool_decide (st_name t = tokenName)) allTokens.

(** An element of [allTokens] as the pool loader meets it: a row object;
    a row object whose [proxy] is truthy without being a string (a number
    cell of the sheet, say), so that [token.proxy.split] is no function; or
    [null], of which the callback of [find] cannot read the name.  (An
    element that is a number or a string has no name, matches no request
    and is as good as absent.) *)
Inductive file_row : Type :=
| Row (t : stored_token)
| RowOddProxy (t : stored_token)
| NullRow.

(** What [readTokensFromFile] gives the loader: an array; another JSON
    value, which [tokens.txt] may hold and which has no [find]; or an
    exception. *)
Inductive token_file : Type :=
| Tokens (allTokens : list file_row)
| NotArray
| Unreadable (message : string).

(** [allTokens.find(t => t.name === tokenName)] in the loader, together
    with what [token.proxy.split] will do for the row found. *)
Inductive lookup : Type :=
| Throws
| Missing
| Found (t : stored_token) (proxy_splits : bool).

Fixpoint find_row (allTokens : list file_row) (tokenName : string) : lookup :=
  match allTokens with
  | [] => Missing
  | Row t :: rest =>
      if bool_decide (st_name t = tokenName) then Found t true
      else find_row rest tokenName
  | RowOddProxy t :: rest =>
      if bool_decide (st_name t = tokenName) then Found t false
      else find_row rest tokenName
  | NullRow :: _ => Throws
  end.

(** The loop of [/api/load-token-pool]: names without a row are skipped.
    The result is the pool as the loop leaves it and whether the loop ran
    to its end: an iteration that throws, in [find] or at
    [token.proxy.split], does so before its [push]. *)
Fixpoint load_loop (allTokens : list file_row) (tokenNames : list string)
  (acc : list token) : list token * bool :=
  match tokenNames with
  | [] => (acc, true)
  | tokenName :: rest =>
      match find_row allTokens tokenName with
      | Found t true => load_loop allTokens rest (acc ++ [poolToken t])
      | Missing => load_loop allTokens rest acc
      | Found _ false | Throws => (acc, false)
      end
  end.

(** The reply of [/api/load-token-pool]: the names of the pool, an error
    with a message of the server's own or of the file system, or the
    [TypeError] of the loop, with the message of the engine. *)
Inductive load_reply : Type :=
| Loaded (tokens : list string)
| LoadError (error : string)
| LoadThrew.

(** [/api/load-token-pool].  [tokenNames] is the array of the request body,
    [None] when the body has none.  The handler empties [tokenPool] before
    the loop and resets [currentTokenIndex] after it; its [catch] only
    replies. *)
Definition loadTokenPool (tokenNames : option (list string)) (file : token_file)
  (st : pool_state) : load_reply * pool_state :=
  match tokenNames with
  | None | Some [] => (LoadError "Token names array is required", st)
  | Some tokenNames =>
      match file with
      | Unreadable message => (LoadError message, st)
      | NotArray =>
          (LoadThrew, {| tokenPool := []; currentTokenIndex := currentTokenIndex st |})
      | Tokens allTokens =>
          let '(pool, completed) := load_loop allTokens tokenNames [] in
          if completed
          then (Loaded (name <$> pool), {| tokenPool := pool; currentTokenIndex := 0 |})
          else (LoadThrew, {| tokenPool := pool; currentTokenIndex := currentTokenIndex st |})
      end
  end.

(** [getNextToken()].  The result is [None] where the JavaScript yields
    [undefined] (an index outside the array). *)
Definition getNextToken (sess : session) (st : pool_state)
  : option token * pool_state :=
  if (length (tokenPool st) =? 0)%nat then
    (Some {| name := "default";
             cookies := s_cookies sess;
             sessionToken := s_sessionToken sess;
             authorization := None;
             accessToken := s_accessToken sess;
             lastUpdate := None;
             projectId := None;
             sceneId := None;
             proxy := None |}, st)
  else
    let token := tokenPool st !! currentTokenIndex st in
    (token,
     {| tokenPool := tokenPool st;
        currentTokenIndex := (currentTokenIndex st + 1) mod length (tokenPool st) |}).

(** [getTokenByName(tokenName)] *)
Definition getTokenByName (sess : session) (tokenName : option string)
  (st : pool_state) : option token * pool_state :=
  if negb (JS.truthy tokenName) then getNextToken sess st
  else
    match List.find (fun t => bool_decide (Some (name t) = tokenName)) (tokenPool st) with
    | Some t => (Some t, st)
    | None => getNextToken sess st
    end.

(** [n] successive calls of [getNextToken], with the results in call order. *)
Fixpoint next_n (sess : session) (n : nat) (st : pool_state)
  : list (option token) * pool_state :=
  match n with
  | O => ([], st)
  | S k =>
      let '(t, st1) := getNextToken sess st in
      let '(ts, st2) := next_n sess k st1 in
      (t :: ts, st2)
  end.

(** *** Sample data *)

(** A pool entry that has a name only, and a session without credentials. *)
Definition lane (n : string) : token :=
  {| name := n; cookies := None; sessionToken := None; authorization := None;
     accessToken := None; lastUpdate := None; projectId := None; sceneId := None;
     proxy := None |}.

Definition no_session : session :=
  {| s_cookies := None; s_sessionToken := None; s_accessToken := None |}.

End TokenPool.

(** ** Request deduplication ([server.js], [isDuplicateRequest]) *)

Module Dedup.

Definition REQUEST_DEDUP_WINDOW_MS : Z := 3000.

(** The clean-up loop: every entry of the map is visited and deleted when
    [now - timestamp > REQUEST_DEDUP_WINDOW_MS]. *)
Definition cleanup (now : Z) (recentRequests : gmap string Z) : gmap string Z :=
  map_fold
    (fun hash timestamp acc =>
       if (now - timestamp >? REQUEST_DEDUP_WINDOW_MS)%Z then delete hash acc else acc)
    recentRequests recentRequests.

(** [isDuplicateRequest(requestHash)], with [now] the value of [Date.now()].
    Returns the answer and the map [recentRequests] after the call. *)
Definition isDuplicateRequest (requestHash : string) (now : Z)
  (recentRequests : gmap string Z) : bool * gmap string Z :=
  let cleaned := cleanup now recentRequests in
  if bool_decide (is_Some (cleaned !! requestHash)) then (true, cleaned)
  else (false, <[requestHash := now]> cleaned).

End Dedup.

(** ** Provider payloads *)

Module Provider.

(** [op.operation] of a status entry: its name, the error message of
    [operation.error.message] and [operation.metadata.video.fifeUrl]. *)
Record operation : Type := Operation {
  op_name : option string;
  op_error_message : option string;
  op_fifeUrl : option string
}.

(** An element of the [operations] array of a provider response. *)
Record status_entry : Type := StatusEntry {
  se_operation : option operation;
  se_sceneId : option string;
  se_status : string;
  se_mediaGenerationId : option string
}.

(** The handle kept by the callers: [{operation: {name}, sceneId, status}]. *)
Record handle : Type := Handle {
  h_name : option string;
  h_sceneId : option string;
  h_status : string
}.

#[global] Instance operation_eq_dec : EqDecision operation.
Proof. solve_decision. Defined.
#[global] Instance status_entry_eq_dec : EqDecision status_entry.
Proof. solve_decision. Defined.
#[global] Instance handle_eq_dec : EqDecision handle.
Proof. solve_decision. Defined.

(** [op => ({operation: {name: op.operation.name}, sceneId: op.sceneId,
    status: op.status})]; [None] when [op.operation] is undefined and the
    property access throws. *)
Definition to_handle (op : status_entry) : option handle :=
  match se_operation op with
  | Some o => Some {| h_name := op_name o; h_sceneId := se_sceneId op; h_status := se_status op |}
  | None => None
  end.

(** [operations.map(to_handle)]; [None] when one of the calls throws. *)
Definition to_handles (ops : list status_entry) : option (list handle) :=
  mapM to_handle ops.

(** Body of a provider response: its [operations] array ([None] when the
    body has no such field), and the raw text. *)
Record body : Type := Body {
  b_operations : option (list status_entry);
  b_text : string
}.

(** *** Sample data *)

(** Status entries as the provider sends them, and the handle of a
    submitted operation. *)
Definition entry (name status : string) (mediaId url message : option string)
  : status_entry :=
  {| se_operation :=
       Some {| op_name := Some name; op_error_message := message;
               op_fifeUrl := url |};
     se_sceneId := Some "scene-1";
     se_status := status;
     se_mediaGenerationId := mediaId |}.

Definition pending (name : string) : status_entry :=
  entry name "MEDIA_GENERATION_STATUS_PENDING" None None None.

Definition done_with (name mediaId url : string) : status_entry :=
  entry name "MEDIA_GENERATION_STATUS_SUCCESSFUL" (Some mediaId) (Some url) None.

Definition high_traffic_failure (name : string) : status_entry :=
  entry name "MEDIA_GENERATION_STATUS_FAILED" None None
    (Some "PUBLIC_ERROR_HIGH_TRAFFIC: try again later").

Definition handle_of (name : string) : handle :=
  {| h_name := Some name; h_sceneId := Some "scene-1";
     h_status := "MEDIA_GENERATION_STATUS_PENDING" |}.

End Provider.

(** ** Rate-limited request executor ([server.js], [axiosWithRetry]) *)

Module Executor.

(** [{host, port, auth}]; the port is what [parseInt] reads of the second
    field. *)
Record proxy_config : Type := ProxyConfig {
  host : string;
  port : JS.num;
  auth : option (string * string)
}.

(** [parseProxy(proxyString)] *)
Definition parseProxy (proxyString : option string) : option proxy_config :=
  match proxyString with
  | None => None
  | Some s =>
      if negb (JS.truthy_string s) then None
      else
        let parts := JS.split ":" s in
        if (length parts <? 2)%nat then None
        else
          let host := default EmptyString (parts !! 0%nat) in
          let port := default EmptyString (parts !! 1%nat) in
          let username := parts !! 2%nat in
          let password := parts !! 3%nat in
          Some {| host := host;
                  port := JS.parseInt port;
                  auth := if JS.truthy username && JS.truthy password
                          then Some (default EmptyString username, default EmptyString password)
                          else None |}
  end.

(** The request configuration handed to axios. *)
Record config : Type := Config {
  method : string;
  url : string;
  data : string;
  headers : list (string * string);
  cfg_proxy : option proxy_config
}.

Record response : Type := Response {
  status : Z;
  resp_headers : gmap string string;
  resp_data : Provider.body
}.

(** The error axios rejects with: [error.response] is present when the
    server answered. *)
Record axios_error : Type := AxiosError {
  err_response : option response;
  err_message : string
}.

(** What happens on the wire for one attempt. *)
Inductive exchange : Type :=
| Reply (r : response)
| NoReply (message : string).

(** [axios(config)] settles by its default [validateStatus]: a reply with
    a status in [200, 300) resolves, any other reply rejects with the reply
    attached. *)
Definition axios (x : exchange) : response + axios_error :=
  match x with
  | Reply r =>
      if ((200 <=? status r) && (status r <? 300))%Z then inl r
      else inr {| err_response := Some r;
                  err_message := "Request failed with status code " ++ pretty (status r) |}
  | NoReply message => inr {| err_response := None; err_message := message |}
  end.

Record usage : Type := Usage {
  requests : nat;
  rateLimited : nat
}.

(** The module-level [rateLimitStats] object. *)
Record rateLimitStats : Type := RateLimitStats {
  totalRequests : nat;
  rateLimitedRequests : nat;
  retriedRequests : nat;
  failedAfterRetry : nat;
  lastRateLimitTime : option Z;
  tokenUsageByAccount : gmap string usage
}.

Definition no_stats : rateLimitStats :=
  {| totalRequests := 0; rateLimitedRequests := 0; retriedRequests := 0;
     failedAfterRetry := 0; lastRateLimitTime := None; tokenUsageByAccount := ∅ |}.

(** State of the executor: the counters and the waits performed so far
    (the arguments of [setTimeout], oldest first). *)
Record state : Type := State {
  stats : rateLimitStats;
  waits : list Double.t
}.

(** What [axiosWithRetry] throws. *)
Inductive thrown : Type :=
| Rethrown (error : axios_error)
| Error (message : string).

(** [if (retryCount === 0) rateLimitStats.totalRequests++] *)
Definition track_request (retryCount : nat) (st : state) : state :=
  if (retryCount =? 0)%nat then
    let s := stats st in
    {| stats := {| totalRequests := S (totalRequests s);
                   rateLimitedRequests := rateLimitedRequests s;
                   retriedRequests := retriedRequests s;
                   failedAfterRetry := failedAfterRetry s;
                   lastRateLimitTime := lastRateLimitTime s;
                   tokenUsageByAccount := tokenUsageByAccount s |};
       waits := waits st |}
  else st.

(** [config.proxy = proxyConfig] when the proxy string parses. *)
Definition with_proxy (cfg : config) (proxyString : option string) : config :=
  match parseProxy proxyString with
  | Some proxyConfig =>
      {| method := method cfg; url := url cfg; data := data cfg;
         headers := headers cfg; cfg_proxy := Some proxyConfig |}
  | None => cfg
  end.

(** The property names that a plain object inherits from
    [Object.prototype].  Their values are functions, and for [__proto__] the
    prototype itself: all of them truthy. *)
Definition inherited (key : string) : bool :=
  bool_decide
    (key ∈ ["constructor"; "__defineGetter__"; "__defineSetter__"; "hasOwnProperty";
            "__lookupGetter__"; "__lookupSetter__"; "isPrototypeOf";
            "propertyIsEnumerable"; "toString"; "valueOf"; "__proto__";
            "toLocaleString"]).

(** The bookkeeping at the head of the 429 branch.  [tokenUsageByAccount]
    is a plain object, of which the map holds the own properties:
    [tokenUsageByAccount[accountName]] is the own entry of that name or else
    an inherited member.  For the name of an inherited member the test finds
    that member, no entry is made, and the increment falls on the member,
    outside the statistics. *)
Definition track_rate_limit (now : Z) (retryCount : nat) (accountName : string)
  (st : state) : state :=
  let s := stats st in
  let by_account :=
    match tokenUsageByAccount s !! accountName with
    | Some u => tokenUsageByAccount s
    | None =>
        if inherited accountName then tokenUsageByAccount s
        else <[accountName := {| requests := 0; rateLimited := 0 |}]> (tokenUsageByAccount s)
    end in
  {| stats :=
       {| totalRequests := totalRequests s;
          rateLimitedRequests :=
            if (retryCount =? 0)%nat then S (rateLimitedRequests s)
            else rateLimitedRequests s;
          retriedRequests := S (retriedRequests s);
          failedAfterRetry := failedAfterRetry s;
          lastRateLimitTime :=
            if (retryCount =? 0)%nat then Some now else lastRateLimitTime s;
          tokenUsageByAccount :=
            alter (fun u => {| requests := requests u; rateLimited := S (rateLimited u) |})
              accountName by_account |};
     waits := waits st |}.

(** [Math.min(1000 * Math.pow(2, retryCount), 32000)].  The power of two
    and its product with 1000 are exact in binary64 until they overflow to
    [Infinity], of which the minimum with 32000 is 32000 as well. *)
Definition backoffMs (retryCount : nat) : Z :=
  Z.min (1000 * 2 ^ Z.of_nat retryCount) 32000.

(** [retryAfter ? parseInt(retryAfter) * 1000 : backoffMs] *)
Definition waitMs (retryAfter : option string) (retryCount : nat) : Double.t :=
  if JS.truthy retryAfter
  then Double.mul (Double.of_num (JS.parseInt (default EmptyString retryAfter)))
         (Double.of_integer 1000)
  else Double.of_integer (backoffMs retryCount).

(** [await new Promise(resolve => setTimeout(resolve, waitMs))] *)
Definition sleep (ms : Double.t) (st : state) : state :=
  {| stats := stats st; waits := waits st ++ [ms] |}.

(** [rateLimitStats.failedAfterRetry++] *)
Definition track_failure (st : state) : state :=
  let s := stats st in
  {| stats := {| totalRequests := totalRequests s;
                 rateLimitedRequests := rateLimitedRequests s;
                 retriedRequests := retriedRequests s;
                 failedAfterRetry := S (failedAfterRetry s);
                 lastRateLimitTime := lastRateLimitTime s;
                 tokenUsageByAccount := tokenUsageByAccount s |};
     waits := waits st |}.

(** [error.response && error.response.status === 429] *)
Definition is_429 (error : axios_error) : bool :=
  match err_response error with
  | Some r => (status r =? 429)%Z
  | None => false
  end.

(** [error.response.headers['retry-after']] *)
Definition retry_after (error : axios_error) : option string :=
  match err_response error with
  | Some r => resp_headers r !! "retry-after"
  | None => None
  end.

Definition rate_limit_message (maxRetries : nat) : string :=
  "API rate limit exceeded after " ++ pretty maxRetries ++ " retries".

Section WithNetwork.

(** [net cfg k] is the exchange that answers the attempt made with
    [retryCount = k]; [now] is the clock read by the first rate-limited
    attempt. *)
Variable net : config -> nat -> exchange.
Variable now : Z.

Equations? axiosWithRetry (cfg : config) (retryCount maxRetries : nat)
  (accountName : string) (proxyString : option string) (st : state)
  : (response + thrown) * state by wf (maxRetries - retryCount)%nat lt :=
axiosWithRetry cfg retryCount maxRetries accountName proxyString st
  with axios (net (with_proxy cfg proxyString) retryCount) := {
  | inl response => (inl response, track_request retryCount st);
  | inr error with is_429 error := {
    | false => (inr (Rethrown error), track_request retryCount st);
    | true with lt_dec retryCount maxRetries := {
      | left _ =>
          axiosWithRetry (with_proxy cfg proxyString) (S retryCount) maxRetries
            accountName proxyString
            (sleep (waitMs (retry_after error) retryCount)
               (track_rate_limit now retryCount accountName
                  (track_request retryCount st)));
      | right _ =>
          (inr (Error (rate_limit_message maxRetries)),
           track_failure
             (track_rate_limit now retryCount accountName
                (track_request retryCount st)))
      }
    }
  }.
Proof. lia. Qed.

End WithNetwork.

(** *** Vocabulary of the statements and sample data *)

(** The exchange is an HTTP 429 reply whose [retry-after] header reads
    [retryAfter] ([None]: the header is absent). *)
Definition rate_limited (x : exchange) (retryAfter : option string) : Prop :=
  ∃ r, x = Reply r ∧ status r = 429 ∧ resp_headers r !! "retry-after" = retryAfter.

(** Sample replies (HTTP 429 and 500), a request and a fresh executor. *)
Definition too_many_requests (retryAfter : option string) : exchange :=
  Reply {| status := 429;
           resp_headers := match retryAfter with
                           | Some h => {[ "retry-after" := h ]}
                           | None => ∅
                           end;
           resp_data := {| Provider.b_operations := None; Provider.b_text := EmptyString |} |}.

Definition plain_config : config :=
  {| method := "POST"; url := "https://api.example.com/endpoint"; data := "{}";
     headers := []; cfg_proxy := None |}.

Definition fresh : state := {| stats := no_stats; waits := [] |}.

Definition server_error : response :=
  {| status := 500; resp_headers := ∅;
     resp_data := {| Provider.b_operations := None; Provider.b_text := "Internal error" |} |}.

End Executor.

(** ** The [/api/veo3/generate-start-end] handler ([server.js]) *)

Module StartEnd.

(** [req.body] *)
Record request_body : Type := RequestBody {
  projectId : option string;
  sceneId : option string;
  startImageMediaId : option string;
  endImageMediaId : option string;
  prompt : option string;
  aspectRatio : option string;
  seeds : option (list Z);
  tokenName : option string
}.

(** The module-level state the handler touches. *)
Record server : Type := Server {
  recentRequests : gmap string Z;
  pool : TokenPool.pool_state;
  exec : Executor.state
}.

(** What the handler passes to [res.json]. *)
Inductive reply : Type :=
| Success (operations : list Provider.handle)
| Failure (error : string).

(** What the outside world does during one request. *)
Record world : Type := World {
  now : Z;                                     (* Date.now() *)
  tokens_file : list TokenPool.stored_token + string;
                                               (* readTokensFromFile(), or the message it throws *)
  fresh_access_token : string + string;        (* getAccessToken(true, tokenObj), or the message it throws *)
  net : Executor.config -> nat -> Executor.exchange
}.

Definition duplicate_message : string :=
  "Duplicate request detected. Please wait before retrying.".

Definition generate_url : string :=
  "https://aisandbox-pa.googleapis.com/v1/video:batchAsyncGenerateVideoStartAndEndImage".

(** The fields of a row of the token file that the handler reads. *)
Definition of_stored (t : TokenPool.stored_token) : TokenPool.token :=
  {| TokenPool.name := TokenPool.st_name t;
     TokenPool.cookies := TokenPool.st_cookies t;
     TokenPool.sessionToken := TokenPool.st_sessionToken t;
     TokenPool.authorization := TokenPool.st_authorization t;
     TokenPool.accessToken := None;
     TokenPool.lastUpdate := None;
     TokenPool.projectId := TokenPool.st_projectId t;
     TokenPool.sceneId := TokenPool.st_sceneId t;
     TokenPool.proxy := TokenPool.st_proxy t |}.

Definition message_of (t : Executor.thrown) : string :=
  match t with
  | Executor.Rethrown e => Executor.err_message e
  | Executor.Error m => m
  end.

Section Handler.

(** [getRequestHash]: the MD5 digest of the JSON text of the eight fields. *)
Variable getRequestHash : request_body -> string.
(** [authorization.replace(/^Bearer\s+/i, '').trim()] *)
Variable strip_bearer : string -> string.
(** JSON text of [requestPayload] for a project id (session id, seeds and
    scene ids are drawn fresh). *)
Variable payload_text : request_body -> option string -> string.
Variable sess : TokenPool.session.

(** The part of the handler after the token object is known. *)
Definition submit (w : world) (body : request_body) (tokenObj : TokenPool.token)
  (srv : server) : reply * server :=
  let laneName := if JS.truthy_string (TokenPool.name tokenObj)
                  then TokenPool.name tokenObj else "default" in
  let projectId := JS.or_else (projectId body) (TokenPool.projectId tokenObj) in
  match prompt body with
  | None => (Failure "Cannot read properties of undefined (reading 'substring')", srv)
  | Some _ =>
      let token :=
        if JS.truthy (TokenPool.authorization tokenObj)
        then inl (strip_bearer (default EmptyString (TokenPool.authorization tokenObj)))
        else fresh_access_token w in
      match token with
      | inr message => (Failure message, srv)
      | inl token =>
          let cfg :=
            {| Executor.method := "POST";
               Executor.url := generate_url;
               Executor.data := payload_text body projectId;
               Executor.headers := [("Authorization", ("Bearer " ++ token)%string);
                                    ("Content-Type", "text/plain;charset=UTF-8")];
               Executor.cfg_proxy := None |} in
          let '(r, ex) :=
            Executor.axiosWithRetry (net w) (now w) cfg 0 5 laneName
              (TokenPool.proxy tokenObj) (exec srv) in
          let srv1 := {| recentRequests := recentRequests srv; pool := pool srv; exec := ex |} in
          match r with
          | inr t => (Failure (message_of t), srv1)
          | inl response =>
              match Provider.b_operations (Executor.resp_data response) with
              | None =>
                  (Failure "Cannot read properties of undefined (reading 'map')", srv1)
              | Some entries =>
                  match Provider.to_handles entries with
                  | Some operations => (Success operations, srv1)
                  | None =>
                      (Failure "Cannot read properties of undefined (reading 'name')",
                       srv1)
                  end
              end
          end
      end
  end.

(** The handler. *)
Definition generate_start_end (w : world) (body : request_body) (srv : server)
  : reply * server :=
  let requestHash := getRequestHash body in
  let '(duplicate, recent) :=
    Dedup.isDuplicateRequest requestHash (now w) (recentRequests srv) in
  let srv0 := {| recentRequests := recent; pool := pool srv; exec := exec srv |} in
  if duplicate then (Failure duplicate_message, srv0)
  else if JS.truthy (tokenName body) then
    match tokens_file w with
    | inr message => (Failure message, srv0)
    | inl allTokens =>
        match TokenPool.find_stored allTokens (default EmptyString (tokenName body)) with
        | None =>
            (Failure ("Lane " ++ JS.quoted (default EmptyString (tokenName body))
                      ++ " not found in tokens.xlsx"),
             srv0)
        | Some t => submit w body (of_stored t) srv0
        end
    end
  else
    let '(tokenObj, p) := TokenPool.getNextToken sess (pool srv0) in
    let srv1 := {| recentRequests := recent; pool := p; exec := exec srv0 |} in
    match tokenObj with
    | None => (Failure "Cannot read properties of undefined (reading 'name')", srv1)
    | Some tokenObj => submit w body tokenObj srv1
    end.

End Handler.

(** *** Sample data *)

(** A request for one lane-less submission, and a provider that answers
    every attempt with HTTP 500. *)
Definition sample_body : request_body :=
  {| projectId := Some "p-1"; sceneId := Some "s-1";
     startImageMediaId := Some "m-start"; endImageMediaId := Some "m-end";
     prompt := Some "a cat walks"; aspectRatio := Some "VIDEO_ASPECT_RATIO_LANDSCAPE";
     seeds := Some [7]; tokenName := None |}.

Definition failing_world (t : Z) : world :=
  {| now := t; tokens_file := inl []; fresh_access_token := inl "ya29.token";
     net := λ _ _, Executor.Reply Executor.server_error |}.

Definition sample_hash (b : request_body) : string :=
  default EmptyString (prompt b) ++ "|" ++ default EmptyString (startImageMediaId b).

Definition sample_server : server :=
  {| recentRequests := ∅; pool := TokenPool.initial; exec := Executor.fresh |}.

End StartEnd.

(** ** Single-operation poller ([video-veo3.js], [pollOperation]) *)

Module Poller.

(** The JSON answer of [api.checkStatus]. *)
Record check_result : Type := CheckResult {
  success : bool;
  tokenExpired : bool;
  operations : option (list Provider.status_entry)
}.

(** One call of [api.checkStatus]: an answer, or the message of the error
    it throws. *)
Inductive check : Type :=
| Answer (res : check_result)
| Throws (message : string).

(** What [pollOperation] throws. *)
Inductive failure : Type :=
| TokenExpired                                  (* "Token expired - please refresh" *)
| InvalidStatusPayload                          (* "Invalid status payload" *)
| GenerationFailed (errorMsg : string) (op : Provider.status_entry)
| Timeout                                       (* "Timeout polling status" *)
| ApiError (message : string).

Definition is_successful (status : string) : bool :=
  bool_decide (status = "SUCCESSFUL")
  || bool_decide (status = "MEDIA_GENERATION_STATUS_SUCCESSFUL").

Definition is_failed (status : string) : bool :=
  bool_decide (status = "FAILED")
  || bool_decide (status = "MEDIA_GENERATION_STATUS_FAILED").

(** [op.operation?.error?.message || ''] *)
Definition errorMsg (op : Provider.status_entry) : string :=
  match Provider.se_operation op ≫= Provider.op_error_message with
  | Some m => m
  | None => EmptyString
  end.

Section Poll.

(** [api i] answers the status check of iteration [i]. *)
Variable api : nat -> check.
Variable intervalMs : Z.

(** The [for] loop of [pollOperation] with [remaining] iterations left,
    at index [i]; [slept] collects the arguments of [sleep]. *)
Fixpoint poll_loop (remaining i : nat) (slept : list Z)
  : (Provider.status_entry + failure) * list Z :=
  match remaining with
  | O => (inr Timeout, slept)
  | S remaining' =>
      match api i with
      | Throws message => (inr (ApiError message), slept)
      | Answer res =>
          if negb (success res) && tokenExpired res then (inr TokenExpired, slept)
          else
            match operations res ≫= head with
            | None => (inr InvalidStatusPayload, slept)
            | Some op =>
                if is_successful (Provider.se_status op) then (inl op, slept)
                else if is_failed (Provider.se_status op) then
                  if JS.includes "HIGH_TRAFFIC" (errorMsg op)
                  then poll_loop remaining' (S i) (slept ++ [intervalMs * 2])
                  else (inr (GenerationFailed (errorMsg op) op), slept)
                else poll_loop remaining' (S i) (slept ++ [intervalMs])
            end
      end
  end.

(** [pollOperation(opId, {intervalMs, maxTries})] *)
Definition pollOperation (maxTries : nat) : (Provider.status_entry + failure) * list Z :=
  poll_loop maxTries 0 [].

End Poll.

(** The defaults of the options object. *)
Definition default_intervalMs : Z := 2500.
Definition default_maxTries : nat := 120.

(** *** Vocabulary of the statements and sample data *)

(** The status check reports [op] as the first operation, without the
    token-expired flag. *)
Definition reports (c : check) (op : Provider.status_entry) : Prop :=
  ∃ res ops, c = Answer res
             ∧ negb (success res) && tokenExpired res = false
             ∧ operations res = Some (op :: ops).

(** [op] is FAILED and its error message mentions HIGH_TRAFFIC. *)
Definition high_traffic (op : Provider.status_entry) : Prop :=
  is_failed (Provider.se_status op) = true
  ∧ JS.includes "HIGH_TRAFFIC" (errorMsg op) = true.

(** A successful status check that reports one operation. *)
Definition answer (op : Provider.status_entry) : check :=
  Answer {| success := true; tokenExpired := false; operations := Some [op] |}.

Definition succeeded : Provider.status_entry :=
  Provider.done_with "op-1" "media-1" "https://video/1".

(** The mocked sequence FAILED(HIGH_TRAFFIC), FAILED(HIGH_TRAFFIC),
    SUCCESSFUL, then SUCCESSFUL for good. *)
Definition mocked (i : nat) : check :=
  match i with
  | 0%nat | 1%nat => answer (Provider.high_traffic_failure "op-1")
  | _ => answer succeeded
  end.

End Poller.

(** ** The prompt loop of [runAutoLogger] ([index.js]) *)

Module AutoLogger.

Record clip : Type := Clip {
  clipId : string;
  startTime : string;
  endTime : string;
  prompt : string
}.

#[global] Instance clip_eq_dec : EqDecision clip.
Proof. solve_decision. Defined.

(** *** Batch poll loop *)

(** The answer to one [axios.post(checkStatusUrl, ...)]: the call throws
    (also when [pollRes.data] is not an object), or [statusData] arrives
    with an [operations] array or without one. *)
Inductive poll_reply : Type :=
| PollThrows
| PollData (operations : option (list Provider.status_entry)).

Definition maxPoll : nat := 120.

(** The variables of the poll loop; [waits] collects the [setTimeout]
    delays. *)
Record poll_state : Type := PollState {
  pollDone : bool;
  pollAttempts : nat;
  selectedMediaId : option string;
  videoUrls : list string;
  resultOps : list Provider.handle;
  waits : list Z
}.

(** The counters of one tick, with the two variables the callback of
    [forEach] assigns. *)
Record tally : Type := Tally {
  successCountPoll : nat;
  activeCount : nat;
  pendingCount : nat;
  failedCount : nat;
  t_selected : option string;
  t_urls : list string
}.

(** [op.operation?.metadata?.video?.fifeUrl] *)
Definition fifeUrl (op : Provider.status_entry) : option string :=
  Provider.se_operation op ≫= Provider.op_fifeUrl.

(** The callback of [statusData.operations.forEach]. *)
Definition visit (t : tally) (op : Provider.status_entry) : tally :=
  let status := Provider.se_status op in
  if bool_decide (status = "MEDIA_GENERATION_STATUS_SUCCESSFUL") then
    let selected :=
      if JS.truthy (Provider.se_mediaGenerationId op) && negb (JS.truthy (t_selected t))
      then Provider.se_mediaGenerationId op else t_selected t in
    let urls :=
      match fifeUrl op with
      | Some u =>
          if JS.truthy (Provider.se_mediaGenerationId op) && JS.truthy_string u
             && negb (bool_decide (u ∈ t_urls t))
          then (t_urls t ++ [u])%list else t_urls t
      | None => t_urls t
      end in
    {| successCountPoll := S (successCountPoll t); activeCount := activeCount t;
       pendingCount := pendingCount t; failedCount := failedCount t;
       t_selected := selected; t_urls := urls |}
  else if bool_decide (status = "MEDIA_GENERATION_STATUS_ACTIVE") then
    {| successCountPoll := successCountPoll t; activeCount := S (activeCount t);
       pendingCount := pendingCount t; failedCount := failedCount t;
       t_selected := t_selected t; t_urls := t_urls t |}
  else if bool_decide (status = "MEDIA_GENERATION_STATUS_PENDING") then
    {| successCountPoll := successCountPoll t; activeCount := activeCount t;
       pendingCount := S (pendingCount t); failedCount := failedCount t;
       t_selected := t_selected t; t_urls := t_urls t |}
  else if bool_decide (status = "MEDIA_GENERATION_STATUS_FAILED") then
    {| successCountPoll := successCountPoll t; activeCount := activeCount t;
       pendingCount := pendingCount t; failedCount := S (failedCount t);
       t_selected := t_selected t; t_urls := t_urls t |}
  else t.

(** The counters after [forEach] over the operations of one tick. *)
Definition count (selected : option string) (urls : list string)
  (ops : list Provider.status_entry) : tally :=
  foldl visit
    {| successCountPoll := 0; activeCount := 0; pendingCount := 0; failedCount := 0;
       t_selected := selected; t_urls := urls |} ops.

Section Polling.

(** [replies k ops] answers poll number [k] (counted from 1), whose body
    carries the handles [ops]. *)
Variable replies : nat -> list Provider.handle -> poll_reply.
Variable totalVariants : nat.

(** The [try] block of one iteration. *)
Definition tick (st : poll_state) : poll_state :=
  match replies (pollAttempts st) (resultOps st) with
  | PollThrows => st
  | PollData None => st
  | PollData (Some ops) =>
      let t := count (selectedMediaId st) (videoUrls st) ops in
      let completedCount := (successCountPoll t + failedCount t)%nat in
      {| pollDone := if (totalVariants <=? completedCount)%nat then true else pollDone st;
         pollAttempts := pollAttempts st;
         selectedMediaId := t_selected t;
         videoUrls := t_urls t;
         resultOps := default (resultOps st) (Provider.to_handles ops);
         waits := waits st |}
  end.

(** The body of the [while] loop. *)
Definition poll_body (st : poll_state) : poll_state :=
  let st1 := tick {| pollDone := pollDone st; pollAttempts := S (pollAttempts st);
                     selectedMediaId := selectedMediaId st; videoUrls := videoUrls st;
                     resultOps := resultOps st; waits := waits st |} in
  if negb (pollDone st1) && (pollAttempts st1 <? maxPoll)%nat then
    {| pollDone := pollDone st1; pollAttempts := pollAttempts st1;
       selectedMediaId := selectedMediaId st1; videoUrls := videoUrls st1;
       resultOps := resultOps st1; waits := waits st1 ++ [10000] |}
  else st1.

(** [while (pollAttempts < maxPoll && !pollDone)], unrolled at most
    [fuel] times. *)
Fixpoint poll_while (fuel : nat) (st : poll_state) : poll_state :=
  match fuel with
  | O => st
  | S fuel' =>
      if (pollAttempts st <? maxPoll)%nat && negb (pollDone st)
      then poll_while fuel' (poll_body st)
      else st
  end.

Definition poll_start (ops : list Provider.handle) : poll_state :=
  {| pollDone := false; pollAttempts := 0; selectedMediaId := None;
     videoUrls := []; resultOps := ops; waits := [] |}.

End Polling.

(** The whole poll loop for the handles [ops] of a submission. *)
Definition poll (replies : nat -> list Provider.handle -> poll_reply)
  (ops : list Provider.handle) : poll_state :=
  poll_while replies (length ops) maxPoll (poll_start ops).

(** *** Clip construction *)

Section Clips.

Variable toString_large : Z -> string.

(** [s.replace('s', '')]: the first occurrence is removed. *)
Fixpoint remove_first_s (s : string) : string :=
  match s with
  | String c r => if Ascii.eqb c "s" then r else String c (remove_first_s r)
  | EmptyString => EmptyString
  end.

(** The literals [0.000000001] and [7.000000001]. *)
Definition epsilon : Double.t := Double.of_decimal false 1 (-9).
Definition duration_plus_epsilon : Double.t := Double.of_decimal false 7000000001 (-9).

(** [lastClip ? parseFloat(lastClip.endTime.replace('s', '')) : 0] *)
Definition lastEndTime (initialClips : list clip) : Double.t :=
  match last initialClips with
  | Some lastClip => Double.parseFloat (remove_first_s (endTime lastClip))
  | None => Double.Fin 0
  end.

Definition newStartTime (initialClips : list clip) : string :=
  Double.toFixed toString_large 9 (Double.add (lastEndTime initialClips) epsilon) ++ "s".

Definition newEndTime (initialClips : list clip) : string :=
  Double.toFixed toString_large 9
    (Double.add (lastEndTime initialClips) duration_plus_epsilon) ++ "s".

Definition newClip (initialClips : list clip) (selectedMediaId prompt : string) : clip :=
  {| clipId := selectedMediaId;
     startTime := newStartTime initialClips;
     endTime := newEndTime initialClips;
     prompt := prompt |}.

(** *** The iteration of the prompt loop *)

(** The variables that live across prompts. *)
Record chain : Type := Chain {
  initialClips : list clip;
  lastClipId : option string;
  successCount : nat;
  errorPrompts : list (nat * string * string);
  pauses : list Z
}.

(** The answer to the generate request. *)
Inductive generated : Type :=
| GenerateThrows
| GenerateWithoutOperations
| GenerateOperations (ops : list Provider.status_entry).

(** What the outside world does while one prompt is processed. *)
Record world : Type := World {
  generate : generated;
  replies : nat -> list Provider.handle -> poll_reply;
  download_ok : string -> bool;                 (* the download of a URL succeeds *)
  update_ok : list clip -> bool                 (* project.updateScene succeeds *)
}.

(** Where the iteration ended.  The first three end in [continue] and
    [Done] at the end of the body; [Threw] is the [TypeError] of the head of
    the iteration, which nothing catches: it ends the loop and the run. *)
Inductive outcome : Type :=
| GenerateFailed
| PollTimeout
| UpdateSceneFailed
| Done
| Threw.

#[global] Instance outcome_eq_dec : EqDecision outcome.
Proof. solve_decision. Defined.

Inductive prompt_type : Type :=
| new
| continue.

(** [promptType]: [continue] unless the prompt contains [(new)], in any
    case of the letters. *)
Definition promptType (prompt : string) : prompt_type :=
  if JS.includes "(new)" (JS.toLowerCase prompt) then new else continue.

Definition push_error (number : nat) (prompt error : string) (c : chain) : chain :=
  {| initialClips := initialClips c; lastClipId := lastClipId c;
     successCount := successCount c;
     errorPrompts := errorPrompts c ++ [(number, String.substring 0 100 prompt, error)];
     pauses := pauses c |}.

(** The download loop over the first two URLs. *)
Fixpoint download_loop (w : world) (promptNumber : nat) (prompt : string)
  (urls : list string) (i : nat) (downloadSuccess : bool) (c : chain) : bool * chain :=
  match urls with
  | [] => (downloadSuccess, c)
  | videoUrl :: rest =>
      if (i <? 2)%nat then
        if download_ok w videoUrl
        then download_loop w promptNumber prompt rest (S i) downloadSuccess c
        else download_loop w promptNumber prompt rest (S i) false
               (push_error promptNumber prompt
                  ("Lỗi tải " ++ pretty promptNumber
                     ++ String (ascii_of_nat (97 + i)) ".mp4") c)
      else (downloadSuccess, c)
  end.

Definition download (w : world) (promptNumber : nat) (prompt : string)
  (urls : list string) (c : chain) : chain :=
  match urls with
  | [] => c
  | _ =>
      let '(downloadSuccess, c1) := download_loop w promptNumber prompt urls 0 true c in
      if downloadSuccess then
        {| initialClips := initialClips c1; lastClipId := lastClipId c1;
           successCount := S (successCount c1); errorPrompts := errorPrompts c1;
           pauses := pauses c1 |}
      else c1
  end.

(** The scene update step for the selected media id. *)
Definition update_scene (w : world) (promptNumber : nat) (prompt : string)
  (selectedMediaId : string) (c : chain) : outcome * chain :=
  let updatedClips :=
    (initialClips c ++ [newClip (initialClips c) selectedMediaId prompt])%list in
  if update_ok w updatedClips then
    (Done,
     {| initialClips := updatedClips; lastClipId := Some selectedMediaId;
        successCount := successCount c; errorPrompts := errorPrompts c;
        pauses := pauses c ++ [2000] |})
  else (UpdateSceneFailed, push_error promptNumber prompt "Lỗi updateScene" c).

(** The steps after a successful submission: poll, download, update. *)
Definition after_submit (w : world) (promptNumber : nat) (prompt : string)
  (ops : list Provider.handle) (c : chain) : outcome * poll_state * chain :=
  let p := poll (replies w) ops in
  match selectedMediaId p with
  | Some selected =>
      if pollDone p && JS.truthy_string selected then
        let '(o, c') :=
          update_scene w promptNumber prompt selected
            (download w promptNumber prompt (videoUrls p) c) in
        (o, p, c')
      else (PollTimeout, p, push_error promptNumber prompt "Timeout poll video" c)
  | None => (PollTimeout, p, push_error promptNumber prompt "Timeout poll video" c)
  end.

(** The head of an iteration.  For a [continue] prompt its log line reads
    [lastClipId.substring(0, 50)], which throws a [TypeError] when
    [lastClipId] is [null] or [undefined]. *)
Definition head_throws (prompt : string) (c : chain) : bool :=
  match promptType prompt, lastClipId c with
  | continue, None => true
  | _, _ => false
  end.

(** One iteration of the loop over the prompts. *)
Definition process_prompt (w : world) (promptIndex : nat) (prompt : string) (c : chain)
  : outcome * chain :=
  let promptNumber := (promptIndex + 2)%nat in
  if head_throws prompt c then (Threw, c)
  else
    match generate w with
    | GenerateThrows =>
        (GenerateFailed, push_error promptNumber prompt "Lỗi generate request" c)
    | GenerateWithoutOperations => (GenerateFailed, c)
    | GenerateOperations entries =>
        match Provider.to_handles entries with
        | None => (GenerateFailed, push_error promptNumber prompt "Lỗi generate request" c)
        | Some ops =>
            let '(o, _, c') := after_submit w promptNumber prompt ops c in (o, c')
        end
    end.

(** The loop over the prompts.  An iteration that ends in [continue] or at
    the end of the body is followed by the next one, whatever its outcome;
    an iteration that throws is the last.  [worlds i] is the outside world
    during iteration [i]. *)
Fixpoint run_prompts (worlds : nat -> world) (promptIndex : nat)
  (prompts : list string) (c : chain) : list outcome * chain :=
  match prompts with
  | [] => ([], c)
  | prompt :: rest =>
      let '(o, c1) := process_prompt (worlds promptIndex) promptIndex prompt c in
      match o with
      | Threw => ([Threw], c1)
      | _ =>
          let '(os, c2) := run_prompts worlds (S promptIndex) rest c1 in
          (o :: os, c2)
      end
  end.

End Clips.

(** *** Vocabulary of the statements and sample data *)

Definition successful (op : Provider.status_entry) : bool :=
  bool_decide (Provider.se_status op = "MEDIA_GENERATION_STATUS_SUCCESSFUL").

Definition failed (op : Provider.status_entry) : bool :=
  bool_decide (Provider.se_status op = "MEDIA_GENERATION_STATUS_FAILED").

(** The completion test of one tick, read off the reply: the reply carries
    an [operations] array in which the SUCCESSFUL and the FAILED entries
    together number at least [totalVariants]. *)
Definition completing (totalVariants : nat) (r : poll_reply) : bool :=
  match r with
  | PollData (Some ops) =>
      (totalVariants <=? length (filter (λ op, successful op = true) ops)
                         + length (filter (λ op, failed op = true) ops))%nat
  | _ => false
  end.

(** The test of the [while] loop. *)
Definition continues (st : poll_state) : bool :=
  (pollAttempts st <? maxPoll)%nat && negb (pollDone st).

(** A SUCCESSFUL entry that carries a media id: the entries that the
    callback of [forEach] looks at for the selection and the URLs. *)
Definition selectable (op : Provider.status_entry) : bool :=
  successful op && JS.truthy (Provider.se_mediaGenerationId op).

(** No entry of the reply is SUCCESSFUL with a media id (or there is no
    reply). *)
Definition without_selectable (r : poll_reply) : Prop :=
  match r with
  | PollData (Some entries) => Forall (λ op, selectable op = false) entries
  | _ => True
  end.

(** Replies read off a list, one per poll; the last one repeats. *)
Definition script (l : list (list Provider.status_entry))
  : nat → list Provider.handle → poll_reply :=
  λ k _, match l !! (k - 1)%nat with
         | Some entries => PollData (Some entries)
         | None => PollData (last l)
         end.

(** A world that follows a script and whose scene update succeeds or not;
    a chain that has not started; a stand-in for the exponent notation. *)
Definition sample_world (l : list (list Provider.status_entry)) (update : bool) : world :=
  {| generate := GenerateOperations (default [] (head l));
     replies := script l;
     download_ok := λ _, true;
     update_ok := λ _, update |}.


Definition no_exponent_form : Z → string := λ _, EmptyString.

(** Two variants: the first finishes at the second tick, the other at the
    third; the first one stays selected and both URLs are kept. *)
Definition two_variants : list (list Provider.status_entry) :=
  [ [Provider.pending "op-1"; Provider.pending "op-2"];
    [Provider.done_with "op-1" "media-1" "https://video/1"; Provider.pending "op-2"];
    [Provider.done_with "op-1" "media-1" "https://video/1";
     Provider.done_with "op-2" "media-2" "https://video/2"] ].

(** A scene with one clip that ends at 7.000000001 s, and the chain that
    starts from it. *)
Definition one_clip : list clip :=
  [ {| clipId := "media-0"; startTime := "0.000000001s"; endTime := "7.000000001s";
       prompt := "opening" |} ].

Definition started : chain :=
  {| initialClips := one_clip; lastClipId := Some "media-0"; successCount := 0;
     errorPrompts := []; pauses := [] |}.

(** Two entries of one reply: the first is SUCCESSFUL without a media id,
    the second SUCCESSFUL with one. *)
Definition unnamed_success : list (list Provider.status_entry) :=
  [ [Provider.entry "op-1" "MEDIA_GENERATION_STATUS_SUCCESSFUL" None
       (Some "https://video/1") None;
     Provider.done_with "op-2" "media-2" "https://video/2"] ].

End AutoLogger.

(** ** Requests to the token pool ([server.js], [getNextToken],
    [getTokenByName], [/api/load-token-pool]) *)

Module Lanes.
Import TokenPool.

(** How a handler asks for a token:
    [tokenName ? getTokenByName(tokenName) : getNextToken()]. *)
Definition pick (sess : session) (tokenName : option string) (st : pool_state)
  : option token * pool_state :=
  if JS.truthy tokenName then getTokenByName sess tokenName st
  else getNextToken sess st.

(** The calls that reach the pool, in the order they are made. *)
Inductive request : Type :=
| Next                                  (* getNextToken() *)
| ByName (tokenName : option string)    (* getTokenByName(tokenName) *)
| Pick (tokenName : option string).     (* the handlers' choice between the two *)

Definition serve (sess : session) (r : request) (st : pool_state)
  : option token * pool_state :=
  match r with
  | Next => getNextToken sess st
  | ByName tokenName => getTokenByName sess tokenName st
  | Pick tokenName => pick sess tokenName st
  end.

Fixpoint serve_all (sess : session) (rs : list request) (st : pool_state)
  : list (option token) * pool_state :=
  match rs with
  | [] => ([], st)
  | r :: rest =>
      let '(t, st1) := serve sess r st in
      let '(ts, st2) := serve_all sess rest st1 in
      (t :: ts, st2)
  end.

(** The round-robin counter points into the pool (or the pool is empty). *)
Definition cursor_ok (st : pool_state) : Prop :=
  tokenPool st = [] ∨ (currentTokenIndex st < length (tokenPool st))%nat.

(** *** The loader, name by name *)

(** The iteration of the loader's loop for this name throws. *)
Definition throws_at (allTokens : list file_row) (tokenName : string) : bool :=
  match find_row allTokens tokenName with
  | Throws | Found _ false => true
  | Missing | Found _ true => false
  end.

(** The entry that the iteration for this name pushes, if any. *)
Definition entry_of (allTokens : list file_row) (tokenName : string) : option token :=
  match find_row allTokens tokenName with
  | Found t true => Some (poolToken t)
  | _ => None
  end.

(** The names whose iteration runs to its end: those before the first
    name at which the loop throws. *)
Fixpoint reached (allTokens : list file_row) (tokenNames : list string) : list string :=
  match tokenNames with
  | [] => []
  | tokenName :: rest =>
      if throws_at allTokens tokenName then []
      else tokenName :: reached allTokens rest
  end.

(** A result of the pool is [undefined]. *)
Definition is_undefined (t : option token) : bool :=
  match t with
  | None => true
  | Some _ => false
  end.

(** *** Sample data *)

Definition row (n : string) : stored_token :=
  {| st_name := n; st_cookies := Some "c"; st_sessionToken := Some "s";
     st_authorization := None; st_projectId := None; st_sceneId := None;
     st_proxy := None |}.

(** A pool of three lanes whose next token is the third. *)
Definition three_lanes : pool_state :=
  {| tokenPool := [lane "A"; lane "B"; lane "C"]; currentTokenIndex := 2 |}.

End Lanes.

(** ** Proxy strings ([server.js], [parseProxy]) *)

Module Proxy.

(** The string has no colon. *)
Fixpoint no_colon (s : string) : bool :=
  match s with
  | EmptyString => true
  | String c r => negb (Ascii.eqb c ":") && no_colon r
  end.

(** [parts.join(':')] *)
Fixpoint join_colon (parts : list string) : string :=
  match parts with
  | [] => EmptyString
  | [p] => p
  | p :: rest => p ++ ":" ++ join_colon rest
  end.

End Proxy.

(** ** The rate-limit counters ([server.js], [rateLimitStats]) *)

Module Counters.
Import Executor.







(** The handler of [/api/reset-rate-limit-stats]: [rateLimitStats] is
    replaced by fresh counters.  Like every handler it can run while a call
    of [axiosWithRetry] waits. *)
Definition reset (st : state) : state :=
  {| stats := no_stats; waits := waits st |}.

End Counters.

(** ** The server log ([server.js], [log], [/api/logs], [/api/logs/clear]) *)

Module ServerLog.

(** An element of [serverLogs]. *)
Record log_entry : Type := LogEntry {
  timestamp : Z;
  time : string;
  level : string;
  message : string
}.

#[global] Instance log_entry_eq_dec : EqDecision log_entry.
Proof. solve_decision. Defined.

Definition MAX_LOGS : nat := 500.

(** [arr.slice(start)]: a negative [start] counts from the end. *)
Definition slice {A : Type} (start : Z) (l : list A) : list A :=
  let len := Z.of_nat (length l) in
  let k := if (start <? 0)%Z then Z.max (len + start) 0 else Z.min start len in
  drop (Z.to_nat k) l.

(** What [log] reads off the clock: [Date.now()] and the first word of
    [new Date().toTimeString()]. *)
Record clock : Type := Clock {
  now : Z;
  time_of_day : string
}.

(** [log(msg, level)], as far as [serverLogs] goes. *)
Definition log (c : clock) (msg level : string) (serverLogs : list log_entry)
  : list log_entry :=
  let pushed :=
    serverLogs ++ [ {| timestamp := now c; time := time_of_day c; level := level;
                       message := msg |} ] in
  if (MAX_LOGS <? length pushed)%nat then slice (- Z.of_nat MAX_LOGS) pushed
  else pushed.

(** A call of [log] as data, and a run of calls from the oldest on. *)
Record call : Type := Call {
  at_clock : clock;
  msg : string;
  lvl : string
}.

Definition entry_of (c : call) : log_entry :=
  {| timestamp := now (at_clock c); time := time_of_day (at_clock c); level := lvl c;
     message := msg c |}.

Definition log_all (calls : list call) (serverLogs : list log_entry) : list log_entry :=
  foldl (λ logs c, log (at_clock c) (msg c) (lvl c) logs) serverLogs calls.

(** [parseInt(q) || fallback] for a query parameter that is a string or
    absent ([parseInt(undefined)] is [NaN]). *)
Definition query_number (q : option string) (fallback : Z) : Z :=
  match q with
  | None => fallback
  | Some s =>
      match JS.parseInt s with
      | JS.Int z => if (z =? 0)%Z then fallback else z
      | JS.NaN => fallback
      end
  end.

(** The body of the answer of [GET /api/logs]. *)
Record logs_reply : Type := LogsReply {
  logs : list log_entry;
  count : nat;
  totalCount : nat
}.

(** [GET /api/logs?limit=..&since=..] *)
Definition get_logs (limit since : option string) (serverLogs : list log_entry)
  : logs_reply :=
  let limit := query_number limit 100 in
  let since := query_number since 0 in
  let filtered := filter (λ e, since < timestamp e) serverLogs in
  let logs := slice (- limit) filtered in
  {| logs := logs; count := length logs; totalCount := length serverLogs |}.

(** [POST /api/logs/clear]: the list is emptied, then the clearing is
    logged. *)
Definition clear_logs (c : clock) (serverLogs : list log_entry) : list log_entry :=
  log c "Logs cleared by user" "info" [].

End ServerLog.

(** ** The token file ([server.js], [tokens.txt] and [tokens.xlsx]) *)

Module TokenFile.

(** An element of the array kept in the token file.  A field that the
    object does not have is [None]. *)
Record entry : Type := Entry {
  name : option string;
  sessionToken : option string;
  cookies : option string;
  authorization : option string;
  proxy : option string;
  projectId : option string;
  sceneId : option string;
  projectLink : option string;
  savedAt : option string;
  lastUpdate : option string
}.

#[global] Instance entry_eq_dec : EqDecision entry.
Proof. solve_decision. Defined.

(** What [JSON.parse(await fs.readFile(TOKENS_FILE))] gives: the call
    throws, or the value is not an array, or it is an array of objects. *)
Inductive content : Type :=
| Unreadable (message : string)
| NotArray
| Rows (tokens : list entry).

(** [v || ''] *)
Definition or_empty (v : option string) : string :=
  if JS.truthy v then default EmptyString v else EmptyString.

(** [v] when truthy, otherwise the property is not set. *)
Definition when_truthy (v : option string) : option string :=
  if JS.truthy v then v else None.

(** [tokens.find(t => t.name === tokenName)] and [findIndex]. *)
Definition named (tokenName : string) (t : entry) : bool :=
  bool_decide (name t = Some tokenName).

Definition find_entry (tokenName : string) (tokens : list entry) : option entry :=
  List.find (named tokenName) tokens.

Fixpoint findIndex (tokenName : string) (tokens : list entry) : option nat :=
  match tokens with
  | [] => None
  | t :: rest => if named tokenName t then Some 0%nat
                 else S <$> findIndex tokenName rest
  end.

(** The names of the entries, for the statements. *)
Definition names (tokens : list entry) : list (option string) := name <$> tokens.

End TokenFile.

(** ** CSV export of the token file ([server.js], [/api/tokens/export-csv]) *)

Module Csv.
Import TokenFile.

Definition dquote : ascii := ascii_of_nat 34.
Definition newline : ascii := ascii_of_nat 10.
Definition comma : ascii := ascii_of_nat 44.

(** The [replace] of [escapeCsv]: every double quote is doubled. *)
Fixpoint double_quotes (s : string) : string :=
  match s with
  | EmptyString => EmptyString
  | String c r =>
      if Ascii.eqb c dquote then String dquote (String dquote (double_quotes r))
      else String c (double_quotes r)
  end.

(** [escapeCsv(value)], for a value that is a string or undefined. *)
Definition escapeCsv (value : option string) : string :=
  match value with
  | None => String dquote (String dquote EmptyString)
  | Some s =>
      let s := if JS.includes (String dquote EmptyString) s then double_quotes s else s in
      String dquote (s ++ String dquote EmptyString)
  end.

(** [parts.join(sep)] for a one-character separator. *)
Fixpoint join (sep : ascii) (parts : list string) : string :=
  match parts with
  | [] => EmptyString
  | [p] => p
  | p :: rest => p ++ String sep (join sep rest)
  end.

Definition headers : list string :=
  ["name"; "proxy"; "projectId"; "sceneId"; "projectLink"; "savedAt"].

(** The line of one token. *)
Definition row (t : entry) : string :=
  join comma
    [ escapeCsv (name t);
      escapeCsv (Some (or_empty (proxy t)));
      escapeCsv (Some (or_empty (projectId t)));
      escapeCsv (Some (or_empty (sceneId t)));
      escapeCsv (Some (or_empty (projectLink t)));
      escapeCsv (Some (or_empty (savedAt t))) ].

(** The text sent by the handler for an array of tokens. *)
Definition export_csv (tokens : list entry) : string :=
  join newline (join comma headers :: (row <$> tokens)).

(** *** A reader of CSV text, for the statements

    Fields are separated by commas and records by line feeds; a field that
    starts with a double quote runs to the closing double quote, and a
    doubled double quote inside it stands for one. *)

Inductive mode : Type :=
| FieldStart
| Unquoted
| Quoted
| QuoteSeen.

Definition snoc_char (s : string) (c : ascii) : string := s ++ String c EmptyString.

Fixpoint read_go (s : string) (m : mode) (field : string) (record : list string)
  (records : list (list string)) : option (list (list string)) :=
  match s with
  | EmptyString =>
      match m with
      | Quoted => None
      | _ => Some (records ++ [record ++ [field]])
      end
  | String c r =>
      match m with
      | FieldStart =>
          if Ascii.eqb c dquote then read_go r Quoted EmptyString record records
          else if Ascii.eqb c comma then
            read_go r FieldStart EmptyString (record ++ [EmptyString]) records
          else if Ascii.eqb c newline then
            read_go r FieldStart EmptyString [] (records ++ [record ++ [EmptyString]])
          else read_go r Unquoted (String c EmptyString) record records
      | Unquoted =>
          if Ascii.eqb c dquote then None
          else if Ascii.eqb c comma then
            read_go r FieldStart EmptyString (record ++ [field]) records
          else if Ascii.eqb c newline then
            read_go r FieldStart EmptyString [] (records ++ [record ++ [field]])
          else read_go r Unquoted (snoc_char field c) record records
      | Quoted =>
          if Ascii.eqb c dquote then read_go r QuoteSeen field record records
          else read_go r Quoted (snoc_char field c) record records
      | QuoteSeen =>
          if Ascii.eqb c dquote then read_go r Quoted (snoc_char field dquote) record records
          else if Ascii.eqb c comma then
            read_go r FieldStart EmptyString (record ++ [field]) records
          else if Ascii.eqb c newline then
            read_go r FieldStart EmptyString [] (records ++ [record ++ [field]])
          else None
      end
  end.

Definition read_csv (s : string) : option (list (list string)) :=
  read_go s FieldStart EmptyString [] [].

(** The values of the columns of one token. *)
Definition columns (t : entry) : list string :=
  [ default EmptyString (name t); or_empty (proxy t); or_empty (projectId t);
    or_empty (sceneId t); or_empty (projectLink t); or_empty (savedAt t) ].

(** *** Sample data *)

(** A token whose name holds a comma, a double quote and a line feed. *)
Definition awkward : entry :=
  {| name := Some (String "a" (String comma (String dquote (String newline "b"))));
     sessionToken := Some "s"; cookies := Some "c"; authorization := None;
     proxy := Some "1.2.3.4:80"; projectId := None; sceneId := None;
     projectLink := None; savedAt := Some "2025-01-01T00:00:00.000Z";
     lastUpdate := None |}.

End Csv.

(** ** Saving and loading credentials ([server.js], [/api/save-credentials],
    [/api/load-credentials]) *)

Module Credentials.
Import TokenFile.

(** The fields of the global [session] that the two handlers use. *)
Record session : Type := Session {
  s_cookies : option string;
  s_sessionToken : option string;
  s_currentProxy : option string;
  s_currentAccountName : string;
  s_chromeReady : bool
}.

(** [req.body] of [/api/save-credentials]. *)
Record save_body : Type := SaveBody {
  b_tokenName : option string;
  b_proxy : option string;
  b_projectId : option string;
  b_sceneId : option string;
  b_projectLink : option string
}.

Inductive save_reply : Type :=
| Saved (message : string) (totalTokens : nat)
| NotSaved (error : string).

(** The object [tokenData]; [savedAt] is [new Date().toISOString()]. *)
Definition tokenData (sess : session) (savedAt : string) (b : save_body)
  (tokenName : string) : entry :=
  {| name := Some tokenName;
     sessionToken := s_sessionToken sess;
     cookies := s_cookies sess;
     authorization := None;
     proxy := when_truthy (b_proxy b);
     projectId := when_truthy (b_projectId b);
     sceneId := when_truthy (b_sceneId b);
     projectLink := when_truthy (b_projectLink b);
     savedAt := Some savedAt;
     lastUpdate := None |}.

(** [/api/save-credentials].  [write_error] is the message of the error
    that creating the directory or writing the file throws, if it does;
    the file is then left as it was.  The handler reads the file back after
    writing it and reports the length of what it reads. *)
Definition save_credentials (sess : session) (savedAt : string)
  (write_error : option string) (b : save_body) (file : content)
  : save_reply * content :=
  if negb (JS.truthy (b_tokenName b)) then (NotSaved "Token name is required", file)
  else if negb (JS.truthy (s_cookies sess)) || negb (JS.truthy (s_sessionToken sess)) then
    (NotSaved "No credentials to save. Please capture token first.", file)
  else
    let tokenName := default EmptyString (b_tokenName b) in
    let tokens := match file with Rows l => l | _ => [] end in
    let tokens :=
      filter (λ t, name t ≠ Some tokenName) tokens
        ++ [tokenData sess savedAt b tokenName] in
    match write_error with
    | Some message => (NotSaved message, file)
    | None =>
        (Saved ("Token " ++ JS.quoted tokenName ++ " saved successfully") (length tokens),
         Rows tokens)
    end.

Inductive load_reply : Type :=
| Loaded (message : string) (savedAt projectId sceneId projectLink proxy : option string)
| NeedsRecapture                      (* "Token expired. Please launch ..." *)
| NotLoaded (error : string).

(** [/api/load-credentials].  [access] tells whether the call of
    [getAccessToken()] that follows the loading succeeds. *)
Definition load_credentials (access : bool) (tokenName : option string)
  (file : content) (sess : session) : load_reply * session :=
  if negb (JS.truthy tokenName) then (NotLoaded "Token name is required", sess)
  else
    let n := default EmptyString tokenName in
    match file with
    | Rows tokens =>
        match find_entry n tokens with
        | None => (NotLoaded ("Token " ++ JS.quoted n ++ " not found in tokens.txt"), sess)
        | Some token =>
            let loaded :=
              {| s_cookies := cookies token;
                 s_sessionToken := sessionToken token;
                 s_currentProxy := when_truthy (proxy token);
                 s_currentAccountName :=
                   if JS.truthy (name token) then default EmptyString (name token)
                   else "default";
                 s_chromeReady := s_chromeReady sess |} in
            if access then
              (Loaded ("Token " ++ JS.quoted n ++ " loaded successfully")
                 (savedAt token) (when_truthy (projectId token))
                 (when_truthy (sceneId token)) (when_truthy (projectLink token))
                 (when_truthy (proxy token)),
               {| s_cookies := s_cookies loaded; s_sessionToken := s_sessionToken loaded;
                  s_currentProxy := s_currentProxy loaded;
                  s_currentAccountName := s_currentAccountName loaded;
                  s_chromeReady := true |})
            else (NeedsRecapture, loaded)
        end
    | _ => (NotLoaded ("Token " ++ JS.quoted n ++ " not found."), sess)
    end.

(** *** Sample data *)

Definition captured : session :=
  {| s_cookies := Some "a=1; b=2"; s_sessionToken := Some "tok";
     s_currentProxy := None; s_currentAccountName := "default";
     s_chromeReady := true |}.

Definition blank : session :=
  {| s_cookies := None; s_sessionToken := None; s_currentProxy := None;
     s_currentAccountName := "default"; s_chromeReady := false |}.

Definition body_for (n : string) : save_body :=
  {| b_tokenName := Some n; b_proxy := Some "1.2.3.4:80:u:p"; b_projectId := None;
     b_sceneId := None; b_projectLink := None |}.

Definition stored (n : string) : entry :=
  {| name := Some n; sessionToken := Some "old"; cookies := Some "old=1";
     authorization := None; proxy := None; projectId := None; sceneId := None;
     projectLink := None; savedAt := Some "2024-01-01T00:00:00.000Z";
     lastUpdate := None |}.

End Credentials.

(** ** The lane manager ([server.js], [/api/lanes/save],
    [/api/lanes/delete]) *)

Module LaneManager.
Import TokenFile.

(** [req.body.lane] *)
Record lane : Type := Lane {
  l_name : option string;
  l_sessionToken : option string;
  l_cookies : option string;
  l_authorization : option string;
  l_projectId : option string;
  l_sceneId : option string
}.

Inductive reply : Type :=
| Done (message : string)
| Refused (error : string).

(** The authorization stored with the lane: the one given, or, when none
    is given and the lane has a session token and cookies, a freshly fetched
    access token.  [fetched] is what [getAccessToken(false, tempToken)]
    returns, [None] when it throws. *)
Definition autoAuthorization (fetched : option string) (l : lane) : string :=
  let given := or_empty (l_authorization l) in
  if negb (JS.truthy_string given) && JS.truthy (l_sessionToken l)
     && JS.truthy (l_cookies l)
  then
    match fetched with
    | Some accessToken =>
        if JS.truthy_string accessToken then ("Bearer " ++ accessToken)%string else given
    | None => given
    end
  else given.

(** The object [laneData]. *)
Definition laneData (savedAt : string) (fetched : option string) (l : lane) : entry :=
  {| name := l_name l;
     sessionToken := Some (or_empty (l_sessionToken l));
     cookies := Some (or_empty (l_cookies l));
     authorization := Some (autoAuthorization fetched l);
     proxy := None;
     projectId := Some (or_empty (l_projectId l));
     sceneId := Some (or_empty (l_sceneId l));
     projectLink := None;
     savedAt := Some savedAt;
     lastUpdate := None |}.

(** [/api/lanes/save].  [read] is what [readTokensFromFile()] returns,
    [None] when it throws; the second component of the result is the array
    that the handler writes to [tokens.xlsx] and [tokens.txt], [None] when it
    writes nothing.  The writes are taken to succeed. *)
Definition lanes_save (savedAt : string) (fetched : option string)
  (l : option lane) (isEdit : bool) (read : option (list entry))
  : reply * option (list entry) :=
  match l with
  | None => (Refused "Lane name is required", None)
  | Some l =>
      if negb (JS.truthy (l_name l)) then (Refused "Lane name is required", None)
      else
        let n := default EmptyString (l_name l) in
        let lanes := default [] read in
        if negb isEdit && bool_decide (is_Some (find_entry n lanes)) then
          (Refused ("Lane " ++ JS.quoted n ++ " already exists"), None)
        else if isEdit then
          match findIndex n lanes with
          | Some index =>
              (Done ("Lane " ++ JS.quoted n
                       ++ " updated and saved to tokens.xlsx successfully!"),
               Some (<[index := laneData savedAt fetched l]> lanes))
          | None => (Refused ("Lane " ++ JS.quoted n ++ " not found"), None)
          end
        else
          (Done ("Lane " ++ JS.quoted n ++ " added and saved to tokens.xlsx successfully!"),
           Some (lanes ++ [laneData savedAt fetched l]))
  end.

(** [/api/lanes/delete].  [read] is what [readTokensFromFile()] returns,
    or the message of the error it throws. *)
Definition lanes_delete (n : option string) (read : list entry + string)
  : reply * option (list entry) :=
  if negb (JS.truthy n) then (Refused "Lane name is required", None)
  else
    let n := default EmptyString n in
    match read with
    | inr message => (Refused message, None)
    | inl lanes =>
        match findIndex n lanes with
        | None => (Refused ("Lane " ++ JS.quoted n ++ " not found"), None)
        | Some index =>
            (Done ("Lane " ++ JS.quoted n ++ " deleted successfully"),
             Some (delete index lanes))
        end
    end.

(** *** Sample data *)

Definition sample_lane (n : string) : lane :=
  {| l_name := Some n; l_sessionToken := Some "tok"; l_cookies := Some "a=1";
     l_authorization := Some "Bearer abc"; l_projectId := None; l_sceneId := None |}.

End LaneManager.

(** ** Editing the proxy and the project of a lane ([server.js],
    [/api/edit-proxy]) *)

Module EditProxy.
Import TokenFile LaneManager.

(** A member of the request body: not there, [null], or a string. *)
Inductive field : Type :=
| absent
| null
| text (s : string).

(** [proxy.split(':')[i]] inside a template literal. *)
Definition part (i : nat) (proxy : string) : string :=
  default "undefined" (JS.split ":" proxy !! i).

(** The entry after the handler's assignments and [delete]s, with the
    elements pushed to [updates]. *)
Definition edit (now : string) (new_proxy new_projectId : field) (t : entry)
  : entry * list string :=
  let '(p, updates) :=
    match new_proxy with
    | text s =>
        if JS.truthy_string s
        then (Some s, [("Proxy: " ++ part 0 s ++ ":" ++ part 1 s)%string])
        else (proxy t, [])
    | null => if JS.truthy (proxy t) then (None, ["Proxy removed"]) else (proxy t, [])
    | absent => (proxy t, [])
    end in
  let '(q, updates) :=
    match new_projectId with
    | text s =>
        if JS.truthy_string s then (Some s, updates ++ [("Project: " ++ s)%string])
        else (projectId t, updates)
    | null =>
        if JS.truthy (projectId t) then (None, updates ++ ["ProjectId removed"])
        else (projectId t, updates)
    | absent => (projectId t, updates)
    end in
  ({| name := name t; sessionToken := sessionToken t; cookies := cookies t;
      authorization := authorization t; proxy := p; projectId := q;
      sceneId := sceneId t; projectLink := projectLink t; savedAt := savedAt t;
      lastUpdate := Some now |},
   updates).

(** [updates.join(', ')] *)
Fixpoint join (updates : list string) : string :=
  match updates with
  | [] => EmptyString
  | [u] => u
  | u :: rest => (u ++ ", " ++ join rest)%string
  end.

(** [/api/edit-proxy].  [read] is the array parsed from the token file, or
    the message of the error that reading it, parsing it or searching it
    throws; the second component of the result is the array written back,
    [None] when nothing is written.  The write is taken to succeed; the log
    lines are left out. *)
Definition edit_proxy (now : string) (tokenName : option string)
    (new_proxy new_projectId : field) (read : list entry + string)
  : reply * option (list entry) :=
  if negb (JS.truthy tokenName) then (Refused "Token name is required", None)
  else
    let n := default EmptyString tokenName in
    match read with
    | inr message => (Refused message, None)
    | inl tokens =>
        match findIndex n tokens with
        | None => (Refused ("Token " ++ JS.quoted n ++ " not found"), None)
        | Some tokenIndex =>
            let updates :=
              from_option (λ t, (edit now new_proxy new_projectId t).2) []
                (tokens !! tokenIndex) in
            (Done (match updates with
                   | [] => "No changes made"
                   | _ => join updates
                   end),
             Some (alter (λ t, (edit now new_proxy new_projectId t).1) tokenIndex tokens))
        end
    end.

End EditProxy.

(** ** Access tokens ([server.js], [getAccessToken]) *)

Module AccessToken.

(** The four properties that [getAccessToken] reads and writes, of a pool
    token or of the global [session].  [None] stands for [null] or
    [undefined]. *)
Record credentials : Type := Credentials {
  cookies : option string;
  sessionToken : option string;
  accessToken : option string;
  lastUpdate : option Z
}.

(** What the outside world does during one call. *)
Record world : Type := World {
  now_check : Z;                          (* Date.now() of the age check *)
  validate : bool;                        (* validateToken(accessToken) *)
  extract : (string * option string) + (option Z * string);
      (* extractCredentials(): the cookie string and the session cookie it
         finds, or the status and message of the error it throws *)
  auth : option string + (option Z * string);
      (* GET auth/session: [data.access_token] of the reply, or the status
         and message of the error axios throws *)
  now_update : Z                          (* Date.now() when the token is stored *)
}.

(** The calls that leave the process, in order. *)
Inductive event : Type :=
| Validated        (* validateToken *)
| Extracted        (* extractCredentials *)
| Asked.           (* GET auth/session *)

#[global] Instance event_eq_dec : EqDecision event.
Proof. solve_decision. Defined.

(** What the function throws. *)
Inductive failure : Type :=
| MissingCredentials (name : string)   (* "Token <name> missing cookies or sessionToken" *)
| ExtractFailed (status : option Z) (message : string)
| NoCookies                            (* TypeError: [targetToken.cookies] is null *)
| AuthFailed (status : option Z) (message : string)
| NoAccessToken.                       (* "No access token in response" *)

(** [error.response?.status] *)
Definition status_of (f : failure) : option Z :=
  match f with
  | ExtractFailed status _ => status
  | AuthFailed status _ => status
  | _ => None
  end.

Definition maxAge : Z := 55 * 60 * 1000.

(** Truthiness of a number that may be absent. *)
Definition truthy_number (v : option Z) : bool :=
  match v with
  | Some z => negb (z =? 0)%Z
  | None => false
  end.

(** The outcome of a call: the result, the token object and the session
    after the call, and the calls made. *)
Record outcome : Type := Outcome {
  result : string + failure;
  tokenObj_after : option credentials;
  session_after : credentials;
  trace : list event
}.

(** The [catch] block: on an HTTP 401 the access token is cleared. *)
Definition fail (f : failure) (tokenObj : option (string * credentials))
  (session : credentials) (events : list event) : outcome :=
  let expired := bool_decide (status_of f = Some 401) in
  let clear (c : credentials) :=
    if expired then
      {| cookies := cookies c; sessionToken := sessionToken c; accessToken := None;
         lastUpdate := lastUpdate c |}
    else c in
  {| result := inr f;
     tokenObj_after := (λ t, clear t.2) <$> tokenObj;
     session_after := match tokenObj with Some _ => session | None => clear session end;
     trace := events |}.

(** The part after the cache check. *)
Definition refresh (w : world) (tokenObj : option (string * credentials))
  (session : credentials) (events : list event) : outcome :=
  let targetToken := match tokenObj with Some t => t.2 | None => session end in
  let missing := negb (JS.truthy (cookies targetToken))
                 || negb (JS.truthy (sessionToken targetToken)) in
  (* the session after [extractCredentials], when it is called and succeeds *)
  let extracted :=
    if missing then
      match tokenObj with
      | Some t => inr (MissingCredentials t.1, events)
      | None =>
          match extract w with
          | inr (status, message) =>
              inr (ExtractFailed status message, events ++ [Extracted])
          | inl (cookieString, sessionCookie) =>
              inl ({| cookies := Some cookieString;
                      sessionToken := match sessionCookie with
                                      | Some v => Some v
                                      | None => sessionToken session
                                      end;
                      accessToken := accessToken session;
                      lastUpdate := lastUpdate session |},
                   events ++ [Extracted])
          end
      end
    else inl (session, events) in
  match extracted with
  | inr (f, events) => fail f tokenObj session events
  | inl (session, events) =>
      match cookies targetToken with
      | None => fail NoCookies tokenObj session events
      | Some _ =>
          match auth w with
          | inr (status, message) =>
              fail (AuthFailed status message) tokenObj session (events ++ [Asked])
          | inl access_token =>
              if JS.truthy access_token then
                let store (c : credentials) :=
                  {| cookies := cookies c; sessionToken := sessionToken c;
                     accessToken := access_token; lastUpdate := Some (now_update w) |} in
                {| result := inl (default EmptyString access_token);
                   tokenObj_after := (λ t, store t.2) <$> tokenObj;
                   session_after := match tokenObj with
                                    | Some _ => session
                                    | None => store session
                                    end;
                   trace := events ++ [Asked] |}
              else fail NoAccessToken tokenObj session (events ++ [Asked])
          end
      end
  end.

(** [getAccessToken(forceRefresh, tokenObj)]; [tokenObj] is the name and
    the credentials of a pool token, or [None] for the global session. *)
Definition getAccessToken (w : world) (forceRefresh : bool)
  (tokenObj : option (string * credentials)) (session : credentials) : outcome :=
  let targetToken := match tokenObj with Some t => t.2 | None => session end in
  if negb forceRefresh && JS.truthy (accessToken targetToken)
     && truthy_number (lastUpdate targetToken)
  then
    let tokenAge := now_check w - default 0 (lastUpdate targetToken) in
    if (tokenAge <? maxAge)%Z then
      if validate w then
        {| result := inl (default EmptyString (accessToken targetToken));
           tokenObj_after := snd <$> tokenObj;
           session_after := session;
           trace := [Validated] |}
      else refresh w tokenObj session [Validated]
    else refresh w tokenObj session []
  else refresh w tokenObj session [].

(** *** Sample data *)

Definition lane_credentials : credentials :=
  {| cookies := Some "a=1"; sessionToken := Some "s"; accessToken := None;
     lastUpdate := None |}.

Definition empty_session : credentials :=
  {| cookies := None; sessionToken := None; accessToken := None; lastUpdate := None |}.

Definition granting (t : string) (now : Z) : world :=
  {| now_check := now; validate := true; extract := inl ("a=1", Some "s");
     auth := inl (Some t); now_update := now |}.

End AccessToken.

(** ** The browser-side request helper ([video-veo3.js], [postJson]) *)

Module Client.

Section Json.

(** The type of the JSON values that the endpoint answers with. *)
Context {J : Type}.

(** The [Response] of [fetch], as far as [postJson] reads it: [text] is
    [None] when [res.text()] rejects, and [json] is the message of the
    error when [res.json()] rejects. *)
Record fetch_response : Type := FetchResponse {
  status : Z;
  retry_after : option string;          (* res.headers.get('retry-after') *)
  text : option string;
  json : J + string
}.

(** One call of [fetch]: it rejects, or it resolves with a response. *)
Inductive fetched : Type :=
| FetchThrows (message : string)
| Fetched (res : fetch_response).

(** What [postJson] throws. *)
Inductive failure : Type :=
| FetchFailed (message : string)
| RateLimitExceeded (maxRetries : nat) (text : string)
    (* "API rate limit exceeded after <maxRetries> retries: <text>" *)
| RequestFailed (url : string) (status : Z) (text : string)
    (* "API <url> failed: <status> <text>" *)
| InvalidJson (message : string).

(** [res.ok] *)
Definition ok (res : fetch_response) : bool :=
  ((200 <=? status res) && (status res <=? 299))%Z.

(** [await res.text().catch(() => '')] *)
Definition text_or_empty (res : fetch_response) : string :=
  default EmptyString (text res).

Variable net : nat → fetched.          (* the fetch made with [retryCount = k] *)

(** [postJson(url, body, retryCount, maxRetries)]; the second component
    collects the arguments of [sleep]. *)
Equations? postJson (url : string) (retryCount maxRetries : nat) (slept : list Double.t)
  : (J + failure) * list Double.t by wf (maxRetries - retryCount)%nat lt :=
postJson url retryCount maxRetries slept with net retryCount := {
  | FetchThrows message => (inr (FetchFailed message), slept);
  | Fetched res with (status res =? 429)%Z := {
    | true with lt_dec retryCount maxRetries := {
      | left _ =>
          postJson url (S retryCount) maxRetries
            (slept ++ [Executor.waitMs (retry_after res) retryCount]);
      | right _ => (inr (RateLimitExceeded maxRetries (text_or_empty res)), slept)
      };
    | false with ok res := {
      | false => (inr (RequestFailed url (status res) (text_or_empty res)), slept);
      | true with json res := {
        | inl j => (inl j, slept);
        | inr message => (inr (InvalidJson message), slept)
        }
      }
    }
  }.
Proof. lia. Qed.

End Json.

Arguments fetch_response : clear implicits.
Arguments fetched : clear implicits.

(** The message of the [Error] thrown. *)
Definition message_of (f : failure) : string :=
  match f with
  | FetchFailed message => message
  | RateLimitExceeded maxRetries text =>
      "API rate limit exceeded after " ++ pretty maxRetries ++ " retries: " ++ text
  | RequestFailed url status text =>
      "API " ++ url ++ " failed: " ++ pretty status ++ " " ++ text
  | InvalidJson message => message
  end.

(** *** Vocabulary of the statements *)

(** The fetch was answered by HTTP 429. *)
Definition limited {J : Type} (x : fetched J) : Prop :=
  ∃ res, x = Fetched res ∧ status res = 429.

(** A server that answers with HTTP 200 and the JSON value [j]. *)
Definition answers {J : Type} (j : J) : fetched J :=
  Fetched {| status := 200; retry_after := None; text := None; json := inl j |}.

Definition too_many {J : Type} : fetched J :=
  Fetched {| status := 429; retry_after := None; text := Some "slow down";
             json := inr "Unexpected token" |}.

End Client.

(** ** The status check ([server.js], [/api/veo3/check-status]) *)

Module StatusCheck.

(** [operation.metadata.video] of a provider entry. *)
Record video : Type := Video {
  v_fifeUrl : option string;
  v_url : option string;
  v_mediaGenerationId : option string;
  v_seed : option Z;
  v_prompt : option string
}.

(** The [video] property that the handler adds to an entry. *)
Record result_video : Type := ResultVideo {
  url : option string;
  mediaId : option string;
  mediaGenerationId : option string;
  seed : option Z;
  prompt : option string
}.

(** An element of [parsedOps]. *)
Record parsed_op : Type := ParsedOp {
  operation : option Provider.operation;
  status : string;
  sceneId : option string;
  result_video_of : option result_video
}.

(** The module-level state the handler touches. *)
Record server : Type := Server {
  pool : TokenPool.pool_state;
  exec : Executor.state
}.

(** What the handler passes to [res.json]. *)
Inductive reply : Type :=
| Checked (operations : list parsed_op)    (* {success: true, operations} *)
| Expired       (* {success: false, error, tokenExpired: true, statusCode: 401} *)
| Failed (error : string).                 (* {success: false, error} *)

(** What the outside world does during one request. *)
Record world : Type := World {
  now : Z;
  access : string + (option Z * string);
      (* getAccessToken(false, tokenObj): the token, or the status of
         [error.response] and the message of the error it throws *)
  net : Executor.config → nat → Executor.exchange
}.

Definition check_url : string :=
  "https://aisandbox-pa.googleapis.com/v1/video:batchCheckAsyncVideoGenerationStatus".

(** The [catch] block. *)
Definition reply_of_error (status : option Z) (message : string) : reply :=
  if bool_decide (status = Some 401) then Expired else Failed message.

Section Handler.

(** The type of [req.body.operations], which the handler passes on as it
    is, and the JSON text of [{ operations }]. *)
Context {Ops : Type}.
Variable payload_text : Ops → string.
(** [op.operation?.metadata?.video] of a provider entry. *)
Variable videoData : Provider.status_entry → option video.
Variable sess : TokenPool.session.

(** [req.body] *)
Record request : Type := Request {
  operations : Ops;
  tokenName : option string
}.

(** The callback of [response.data.operations.map]. *)
Definition parse (op : Provider.status_entry) : parsed_op :=
  {| operation := Provider.se_operation op;
     status := Provider.se_status op;
     sceneId := Provider.se_sceneId op;
     result_video_of :=
       if bool_decide (Provider.se_status op = "MEDIA_GENERATION_STATUS_SUCCESSFUL")
          || bool_decide (Provider.se_status op = "SUCCESSFUL")
       then
         (λ v, {| url := JS.or_else (v_fifeUrl v) (v_url v);
                  mediaId := v_mediaGenerationId v;
                  mediaGenerationId := v_mediaGenerationId v;
                  seed := v_seed v;
                  prompt := v_prompt v |}) <$> videoData op
       else None |}.

(** The handler. *)
Definition check_status (w : world) (b : request) (srv : server) : reply * server :=
  let '(tokenObj, p) := Lanes.pick sess (tokenName b) (pool srv) in
  let srv1 := {| pool := p; exec := exec srv |} in
  match tokenObj with
  | None => (Failed "Cannot read properties of undefined (reading 'name')", srv1)
  | Some tokenObj =>
      let laneName := if JS.truthy_string (TokenPool.name tokenObj)
                      then TokenPool.name tokenObj else "default" in
      match access w with
      | inr (status, message) => (reply_of_error status message, srv1)
      | inl token =>
          let cfg :=
            {| Executor.method := "POST";
               Executor.url := check_url;
               Executor.data := payload_text (operations b);
               Executor.headers := [("Authorization", ("Bearer " ++ token)%string);
                                    ("Content-Type", "text/plain;charset=UTF-8");
                                    ("Referer", "https://labs.google/");
                                    ("x-browser-channel", "stable");
                                    ("x-browser-year", "2025");
                                    ("x-client-data", "CIyIywE=")];
               Executor.cfg_proxy := None |} in
          let '(r, ex) :=
            Executor.axiosWithRetry (net w) (now w) cfg 0 5 laneName
              (TokenPool.proxy tokenObj) (exec srv) in
          let srv2 := {| pool := p; exec := ex |} in
          match r with
          | inr (Executor.Rethrown e) =>
              (reply_of_error (Executor.status <$> Executor.err_response e)
                 (Executor.err_message e), srv2)
          | inr (Executor.Error message) => (reply_of_error None message, srv2)
          | inl response =>
              match Provider.b_operations (Executor.resp_data response) with
              | Some ops => (Checked (parse <$> ops), srv2)
              | None =>
                  (Failed "Cannot read properties of undefined (reading 'map')", srv2)
              end
          end
      end
  end.

End Handler.

Arguments request : clear implicits.

(** *** The answer as the poller reads it *)

(** An element of [parsedOps] as a status entry: it has no
    [mediaGenerationId] of its own. *)
Definition seen (p : parsed_op) : Provider.status_entry :=
  {| Provider.se_operation := operation p;
     Provider.se_sceneId := sceneId p;
     Provider.se_status := status p;
     Provider.se_mediaGenerationId := None |}.

(** The JSON value of a reply. *)
Definition to_check_result (r : reply) : Poller.check_result :=
  match r with
  | Checked ops =>
      {| Poller.success := true; Poller.tokenExpired := false;
         Poller.operations := Some (seen <$> ops) |}
  | Expired =>
      {| Poller.success := false; Poller.tokenExpired := true;
         Poller.operations := None |}
  | Failed _ =>
      {| Poller.success := false; Poller.tokenExpired := false;
         Poller.operations := None |}
  end.

(** *** Vocabulary of the statements and sample data *)

(** The first attempt of the request is answered with [r]. *)
Definition provider_answers (w : world) (r : Executor.response) : Prop :=
  ∀ cfg, net w cfg 0%nat = Executor.Reply r.

Definition unauthorized : Executor.response :=
  {| Executor.status := 401; Executor.resp_headers := ∅;
     Executor.resp_data := {| Provider.b_operations := None; Provider.b_text := "Unauthorized" |} |}.

Definition answering (r : Executor.response) : world :=
  {| now := 0; access := inl "ya29.token"; net := λ _ _, Executor.Reply r |}.

Definition fresh_server : server :=
  {| pool := TokenPool.initial; exec := Executor.fresh |}.

End StatusCheck.

(** ** Polling through the server ([video-veo3.js], [pollOperation] over
    [api.checkStatus], [postJson] and [/api/veo3/check-status]) *)

Module PollChain.
Import StatusCheck.

Section Chain.

Context {Ops : Type}.
Variable payload_text : Ops → string.
Variable videoData : Provider.status_entry → option video.
Variable sess : TokenPool.session.
(** The outside world during status check number [i] (from 0), and the body
    that [pollOperation] posts at every check. *)
Variable worlds : nat → world.
Variable body : request Ops.

(** The server before status check number [i], when the checks of this
    poller are the only requests it gets. *)
Fixpoint server_before (i : nat) (srv : server) : server :=
  match i with
  | O => srv
  | S k =>
      (check_status payload_text videoData sess (worlds k) body (server_before k srv)).2
  end.

(** [api.checkStatus] of iteration [i]: [postJson] to the local server,
    which answers with HTTP 200 and the JSON value of the handler's reply. *)
Definition checkStatus (srv : server) (i : nat) : Poller.check :=
  let reply :=
    (check_status payload_text videoData sess (worlds i) body (server_before i srv)).1 in
  match (Client.postJson (λ _, Client.answers (to_check_result reply))
           "/api/veo3/check-status" 0 5 []).1 with
  | inl res => Poller.Answer res
  | inr f => Poller.Throws (Client.message_of f)
  end.

(** [pollOperation] against the server. *)
Definition pollOperation (srv : server) (intervalMs : Z) (maxTries : nat)
  : (Provider.status_entry + Poller.failure) * list Z :=
  Poller.pollOperation (checkStatus srv) intervalMs maxTries.

End Chain.

End PollChain.

(** ** What a run of [pollOperation] has done ([video-veo3.js]) *)

Module PollerRun.
Import Poller.

(** The sum of the sleeps, in milliseconds. *)
Definition total (slept : list Z) : Z := foldr Z.add 0 slept.

(** The status check answered with [op] as its first operation. *)
Definition first_operation (c : check) (op : Provider.status_entry) : Prop :=
  ∃ res, c = Answer res ∧ operations res ≫= head = Some op.

End PollerRun.

(** ** Random identifiers ([video-veo3.js], [cryptoRandomId]) *)

Module RandomId.

(** The value of [([1e7]+-1e3+-4e3+-8e3+-1e11)]. *)
Definition template : string := "10000000-1000-4000-8000-100000000000".

(** The character of a hexadecimal digit. *)
Definition hex_char (d : Z) : ascii :=
  if (d <? 10)%Z then ascii_of_nat (Z.to_nat (48 + d))
  else ascii_of_nat (Z.to_nat (87 + d)).

(** [n.toString(16)] for a non-negative integer. *)
Fixpoint hex_digits (fuel : nat) (n : Z) : string :=
  match fuel with
  | O => EmptyString
  | S fuel' =>
      if (n <? 16)%Z then String (hex_char n) EmptyString
      else (hex_digits fuel' (n / 16) ++ String (hex_char (n mod 16)) EmptyString)%string
  end.

Definition toString16 (n : Z) : string := hex_digits (S (Z.to_nat (Z.log2 n))) n.

(** The characters that the regular expression [[018]] matches. *)
Definition is_018 (c : ascii) : bool :=
  Ascii.eqb c "0" || Ascii.eqb c "1" || Ascii.eqb c "8".

(** [c ^ r & 15 >> c / 4] for the digit [c] and the random byte [r]: the
    division binds tightest, then the shift, then [&], then [^]. *)
Definition mix (c r : Z) : Z := Z.lxor c (Z.land r (Z.shiftr 15 (c / 4))).

(** The [replace]: every match is replaced by the result of the callback,
    which draws one random byte; [random k] is byte number [k]. *)
Fixpoint fill (random : nat → Z) (s : string) (k : nat) : string :=
  match s with
  | EmptyString => EmptyString
  | String c r =>
      if is_018 c
      then (toString16 (mix (Z.of_nat (nat_of_ascii c) - 48) (random k))
              ++ fill random r (S k))%string
      else String c (fill random r k)
  end.

Definition cryptoRandomId (random : nat → Z) : string := fill random template 0.

(** *** The shape of a version 4 UUID, for the statements *)

Definition is_hex (c : ascii) : bool :=
  let n := nat_of_ascii c in
  ((48 <=? n) && (n <=? 57) || (97 <=? n) && (n <=? 102))%nat.

Definition is_variant (c : ascii) : bool :=
  Ascii.eqb c "8" || Ascii.eqb c "9" || Ascii.eqb c "a" || Ascii.eqb c "b".

(** The string has one character for each test, and passes them. *)
Fixpoint matches (tests : list (ascii → bool)) (s : string) : bool :=
  match tests, s with
  | [], EmptyString => true
  | t :: tests, String c s => t c && matches tests s
  | _, _ => false
  end.

(** [xxxxxxxx-xxxx-4xxx-yxxx-xxxxxxxxxxxx] with [x] a lower-case
    hexadecimal digit and [y] one of 8, 9, a, b. *)
Definition uuid_v4 : list (ascii → bool) :=
  replicate 8 is_hex ++ [Ascii.eqb "-"] ++ replicate 4 is_hex ++ [Ascii.eqb "-"]
    ++ [Ascii.eqb "4"] ++ replicate 3 is_hex ++ [Ascii.eqb "-"]
    ++ [is_variant] ++ replicate 3 is_hex ++ [Ascii.eqb "-"] ++ replicate 12 is_hex.

(** The test that the characters drawn for a character of the template
    pass. *)
Definition drawn_for (c : ascii) : ascii → bool :=
  if Ascii.eqb c "0" || Ascii.eqb c "1" then is_hex
  else if Ascii.eqb c "8" then is_variant
  else Ascii.eqb c.

(** *** Sample data *)

Definition counting (k : nat) : Z := Z.of_nat (17 * k + 200) mod 256.

End RandomId.

(** ** Image uploads of the browser client ([video-veo3.js]:
    [buildUploadLog], [targetSizeFromAspect], [fileToMediaId],
    [filesToMediaIds]) *)

Module Uploads.

(** *** The log events *)

(** An element of [eventProperties]: a key and at most one value. *)
Inductive value : Type :=
  | stringValue (s : string)
  | doubleValue (d : Z)
  | no_value.

Record property : Type := Property {
  key : string;
  val : value
}.

#[global] Instance value_eq_dec : EqDecision value.
Proof. solve_decision. Defined.
#[global] Instance property_eq_dec : EqDecision property.
Proof. solve_decision. Defined.

(** The one element of [json.appEvents]. *)
Record app_event : Type := AppEvent {
  event : string;
  eventMetadata_sessionId : string;
  eventProperties : list property;
  activeExperiments : list string;
  eventTime : string
}.

(** The [params] of [buildUploadLog]; an absent member is [None]. *)
Record log_params : Type := LogParams {
  p_width : option Z;
  p_height : option Z;
  p_aspectRatio : option string;
  p_sessionId : option string
}.

(** Truthiness of a number that may be absent. *)
Definition truthy_number (v : option Z) : bool :=
  match v with
  | Some z => negb (z =? 0)%Z
  | None => false
  end.

Fixpoint skip (n : nat) (s : string) : string :=
  match n, s with
  | O, _ => s
  | S n', String _ r => skip n' r
  | S _, EmptyString => EmptyString
  end.

(** [s.replace(pattern, replacement)] for a string pattern and a
    replacement without dollar signs: the first occurrence is replaced. *)
Fixpoint replace (pattern replacement s : string) : string :=
  match s with
  | EmptyString => if String.prefix pattern s then replacement else s
  | String c r =>
      if String.prefix pattern s
      then (replacement ++ skip (String.length pattern) s)%string
      else String c (replace pattern replacement r)
  end.

Definition common_properties (userAgent : string) : list property :=
  [ {| key := "G1_PAYGATE_TIER"; val := stringValue "PAYGATE_TIER_TWO" |};
    {| key := "PINHOLE_PROMPT_BOX_MODE"; val := stringValue "IMAGE_TO_VIDEO" |};
    {| key := "USER_AGENT"; val := stringValue userAgent |};
    {| key := "IS_DESKTOP"; val := no_value |} ].

(** [buildUploadLog(event, params)]; [now] and [iso] are [Date.now()] and
    [new Date().toISOString()] at the call. *)
Definition buildUploadLog (userAgent : string) (now : Z) (iso : string)
    (event : string) (params : log_params) : app_event :=
  let eventProperties := [ {| key := "TOOL_NAME"; val := stringValue "PINHOLE" |} ] in
  let eventProperties :=
    if String.eqb event "PINHOLE_UPLOAD_IMAGE_TO_CROP"
       && truthy_number (p_width params) && truthy_number (p_height params)
    then eventProperties
           ++ [ {| key := "PINHOLE_UPLOAD_IMAGE_TO_CROP_WIDTH";
                   val := doubleValue (default 0 (p_width params)) |};
                {| key := "PINHOLE_UPLOAD_IMAGE_TO_CROP_HEIGHT";
                   val := doubleValue (default 0 (p_height params)) |} ]
    else eventProperties in
  let eventProperties :=
    if String.eqb event "PINHOLE_RESIZE_IMAGE" && JS.truthy (p_aspectRatio params)
    then
      let aspectRatio := default EmptyString (p_aspectRatio params) in
      let imageAspectRatio :=
        if String.prefix "VIDEO_" aspectRatio then replace "VIDEO_" "IMAGE_" aspectRatio
        else aspectRatio in
      eventProperties
        ++ [ {| key := "PINHOLE_IMAGE_ASPECT_RATIO"; val := stringValue imageAspectRatio |} ]
    else eventProperties in
  let eventProperties := eventProperties ++ common_properties userAgent in
  {| event := event;
     eventMetadata_sessionId :=
       if JS.truthy (p_sessionId params) then default EmptyString (p_sessionId params)
       else (";" ++ pretty now)%string;
     eventProperties := eventProperties;
     activeExperiments := [];
     eventTime := iso |}.

(** *** From a file to a media id *)

Record file : Type := File {
  name : string;
  size : Z;
  type : string;
  bytes : string
}.

(** What [fileToMediaId] returns and caches. *)
Record media : Type := Media {
  mediaId : string;
  width : Z;
  height : Z;
  dataUrl : string;
  fileName : string
}.

#[global] Instance media_eq_dec : EqDecision media.
Proof. solve_decision. Defined.

Definition targetSizeFromAspect (aspectRatio : string) : Z * Z :=
  if String.eqb aspectRatio "VIDEO_ASPECT_RATIO_PORTRAIT" then (507, 929)
  else if String.eqb aspectRatio "VIDEO_ASPECT_RATIO_SQUARE" then (720, 720)
  else (929, 507).

(** The calls of the local server's API that the upload makes. *)
Inductive call : Type :=
  | submitBatchLog (body : app_event)
  | uploadRawImage (rawImageBytes aspectRatio : string)
  | uploadCroppedImage (imageBase64 aspectRatio sessionId : string).

(** What is outside one call of [fileToMediaId]: the clock at its start and
    at each of its log events, whether the raw upload throws, the data URL of
    the cropped image or the error of loading and drawing it, and the
    [mediaId] of the answer to the cropped upload ([None] when the answer has
    none) or the error thrown. *)
Record world : Type := World {
  now : Z;
  logged : nat → Z * string;
  raw_upload : option string;
  cropped_image : string + string;
  cropped_upload : option string + string
}.

Definition cacheKey (f : file) (aspectRatio : string) : string :=
  (name f ++ "_" ++ pretty (size f) ++ "_" ++ aspectRatio)%string.

Section Client.

(** [navigator.userAgent] and [btoa] of the file's bytes. *)
Variable userAgent : string.
Variable btoa : string → string.

Definition upload_log (w : world) (k : nat) (event : string) (params : log_params)
  : call :=
  submitBatchLog (buildUploadLog userAgent (logged w k).1 (logged w k).2 event params).

(** [fileToMediaId(file, aspectRatio)]: the result or the message of the
    error thrown, [mediaIdCache] afterwards, and the calls made, in order.  A
    failing [submitBatchLog] is caught and changes nothing; reading the bytes
    of the file is taken to succeed. *)
Definition fileToMediaId (w : world) (f : file) (aspectRatio : string)
    (mediaIdCache : gmap string media)
  : (media + string) * gmap string media * list call :=
  match mediaIdCache !! cacheKey f aspectRatio with
  | Some cachedData => (inl cachedData, mediaIdCache, [])
  | None =>
      let sessionId := (";" ++ pretty (now w))%string in
      let rawBase64 := btoa (bytes f) in
      let calls :=
        [ upload_log w 0 "PINHOLE_UPLOAD_IMAGE"
            {| p_width := None; p_height := None; p_aspectRatio := None;
               p_sessionId := Some sessionId |};
          uploadRawImage rawBase64 aspectRatio ] in
      match raw_upload w with
      | Some error => (inr error, mediaIdCache, calls)
      | None =>
          match cropped_image w with
          | inr error => (inr error, mediaIdCache, calls)
          | inl dataUrl =>
              let '(width, height) := targetSizeFromAspect aspectRatio in
              let calls :=
                calls
                  ++ [ upload_log w 1 "PINHOLE_UPLOAD_IMAGE_TO_CROP"
                         {| p_width := Some width; p_height := Some height;
                            p_aspectRatio := None; p_sessionId := Some sessionId |};
                       uploadCroppedImage dataUrl aspectRatio sessionId ] in
              match cropped_upload w with
              | inr error => (inr error, mediaIdCache, calls)
              | inl resp_mediaId =>
                  if negb (JS.truthy resp_mediaId)
                  then (inr "upload-cropped-image: missing mediaId", mediaIdCache, calls)
                  else
                    let calls :=
                      calls
                        ++ [ upload_log w 2 "PINHOLE_RESIZE_IMAGE"
                               {| p_width := None; p_height := None;
                                  p_aspectRatio := Some aspectRatio;
                                  p_sessionId := Some sessionId |} ] in
                    let result :=
                      {| mediaId := default EmptyString resp_mediaId; width := width;
                         height := height; dataUrl := dataUrl; fileName := name f |} in
                    (inl result, <[cacheKey f aspectRatio := result]> mediaIdCache, calls)
              end
          end
      end
  end.

(** ASCII lower case, for a regular expression with the [i] flag. *)
Definition lower (c : ascii) : ascii :=
  let n := nat_of_ascii c in
  if ((65 <=? n) && (n <=? 90))%nat then ascii_of_nat (n + 32) else c.

Fixpoint starts_with_i (pattern s : string) : bool :=
  match pattern, s with
  | EmptyString, _ => true
  | String a pattern', String b s' =>
      Ascii.eqb (lower a) (lower b) && starts_with_i pattern' s'
  | String _ _, EmptyString => false
  end.

(** [/^image\//i.test(f.type)] *)
Definition is_image (f : file) : bool := starts_with_i "image/" (type f).

(** [filesToMediaIds(files, aspectRatio)]; [worlds k] is outside the call of
    [fileToMediaId] for the file at index [k].  An error of one file ends the
    loop. *)
Fixpoint filesToMediaIds_loop (worlds : nat → world) (k : nat) (files : list file)
    (aspectRatio : string) (out : list media) (mediaIdCache : gmap string media)
  : (list media + string) * gmap string media * list call :=
  match files with
  | [] => (inl out, mediaIdCache, [])
  | f :: files' =>
      if negb (is_image f)
      then filesToMediaIds_loop worlds (S k) files' aspectRatio out mediaIdCache
      else
        match fileToMediaId (worlds k) f aspectRatio mediaIdCache with
        | (inr error, mediaIdCache', calls) => (inr error, mediaIdCache', calls)
        | (inl one, mediaIdCache', calls) =>
            let '(r, mediaIdCache'', calls') :=
              filesToMediaIds_loop worlds (S k) files' aspectRatio (out ++ [one])
                mediaIdCache' in
            (r, mediaIdCache'', calls ++ calls')
        end
  end.

Definition filesToMediaIds (worlds : nat → world) (files : list file)
    (aspectRatio : string) (mediaIdCache : gmap string media)
  : (list media + string) * gmap string media * list call :=
  filesToMediaIds_loop worlds 0 files aspectRatio [] mediaIdCache.

End Client.

(** *** For the statements *)

(** The session id that a call carries, if it carries one. *)
Definition session_of (c : call) : option string :=
  match c with
  | submitBatchLog body => Some (eventMetadata_sessionId body)
  | uploadRawImage _ _ => None
  | uploadCroppedImage _ _ sessionId => Some sessionId
  end.

Definition is_upload (c : call) : bool :=
  match c with
  | submitBatchLog _ => false
  | _ => true
  end.

(** *** Sample data *)

Definition photo : file :=
  {| name := "cat.png"; size := 2048; type := "image/png"; bytes := "..." |}.

Definition notes : file :=
  {| name := "notes.txt"; size := 12; type := "text/plain"; bytes := "hello" |}.

Definition accepting (t : Z) (id : string) : world :=
  {| now := t; logged := λ k, (t + Z.of_nat k, "2025-01-01T00:00:00.000Z");
     raw_upload := None; cropped_image := inl "data:image/jpeg;base64,AAAA";
     cropped_upload := inl (Some id) |}.

End Uploads.

(** ** The cover crop of an uploaded image ([video-veo3.js],
    [fileToCroppedDataUrl]) *)

Module Crop.
Import Double.

(** An integer below [2^53] as a number. *)
Definition of_int (n : Z) : t := Fin (n * unit).

Definition neg (x : t) : t :=
  match x with
  | Fin a => Fin (- a)
  | Inf s => Inf (negb s)
  | NaN => NaN
  end.

(** [x - y] *)
Definition sub (x y : t) : t := add x (neg y).

(** [x / y]; a zero divisor is positive zero, as the width and the height
    of an image are. *)
Definition div (x y : t) : t :=
  match x, y with
  | NaN, _ | _, NaN => NaN
  | Inf _, Inf _ => NaN
  | Inf s, Fin b => Inf (xorb s (b <? 0)%Z)
  | Fin _, Inf _ => Fin 0
  | Fin a, Fin b =>
      if (b =? 0)%Z then (if (a =? 0)%Z then NaN else Inf (a <? 0)%Z)
      else round (xorb (a <? 0)%Z (b <? 0)%Z) (Z.abs a * unit) (Z.abs b)
  end.

(** [Math.max(x, y)] *)
Definition max (x y : t) : t :=
  match x, y with
  | NaN, _ | _, NaN => NaN
  | Inf false, _ | _, Inf false => Inf false
  | Inf true, z | z, Inf true => z
  | Fin a, Fin b => Fin (Z.max a b)
  end.

(** [Math.ceil(x)] and [Math.floor(x)] *)
Definition ceil (x : t) : t :=
  match x with
  | Fin a => Fin (- (- a / unit) * unit)
  | _ => x
  end.

Definition floor (x : t) : t :=
  match x with
  | Fin a => Fin (a / unit * unit)
  | _ => x
  end.

(** [a || b] on numbers that are not negative. *)
Definition or_number (a b : Z) : Z := if (a =? 0)%Z then b else a.

(** The arguments of [ctx.drawImage(img, dx, dy, drawW, drawH)]. *)
Record placement : Type := Placement {
  dx : t;
  dy : t;
  drawW : t;
  drawH : t
}.

(** The placement that [fileToCroppedDataUrl] computes for an image. *)
Definition cover (aspectRatio : string) (naturalWidth naturalHeight width height : Z)
  : placement :=
  let '(targetW, targetH) := Uploads.targetSizeFromAspect aspectRatio in
  let srcW := of_int (or_number naturalWidth width) in
  let srcH := of_int (or_number naturalHeight height) in
  let scale := max (div (of_int targetW) srcW) (div (of_int targetH) srcH) in
  let drawW := ceil (mul srcW scale) in
  let drawH := ceil (mul srcH scale) in
  let dx := floor (div (sub (of_int targetW) drawW) (of_int 2)) in
  let dy := floor (div (sub (of_int targetH) drawH) (of_int 2)) in
  {| dx := dx; dy := dy; drawW := drawW; drawH := drawH |}.

End Crop.

(** ** The generate request of the prompt loop ([index.js]) *)

Module PromptLoop.
Import AutoLogger.

Record video_input : Type := VideoInput {
  mediaId : string;
  startFrameIndex : Z;
  endFrameIndex : Z
}.

(** An element of [requests]. *)
Record request : Type := Request {
  textInput_prompt : string;
  videoInput : option video_input;
  videoModelKey : string;
  aspectRatio : string;
  seed : Z;
  metadata_sceneId : string
}.

(** What is posted: [generateUrl] and the [requests] of the body. *)
Record generate_call : Type := GenerateCall {
  generateUrl : string;
  requests : list request
}.

(** The head of an iteration, up to [bodyObj].  With a [continue] prompt
    the log line reads [lastClipId.substring(0, 50)], which throws a
    [TypeError] when there is no last clip id ([None]). *)
Definition build (sceneId : string) (lastClipId : option string) (prompt : string)
    (seeds : list Z) : option generate_call :=
  match promptType prompt with
  | new =>
      Some {| generateUrl :=
                "https://aisandbox-pa.googleapis.com/v1/video:batchAsyncGenerateVideo";
              requests :=
                (λ seed, {| textInput_prompt := prompt; videoInput := None;
                            videoModelKey := "veo_3_1_landscape_ultra";
                            aspectRatio := "VIDEO_ASPECT_RATIO_LANDSCAPE";
                            seed := seed; metadata_sceneId := sceneId |}) <$> seeds |}
  | continue =>
      match lastClipId with
      | None => None
      | Some lastClipId =>
          Some {| generateUrl :=
                    "https://aisandbox-pa.googleapis.com/v1/video:batchAsyncGenerateVideoExtendVideo";
                  requests :=
                    (λ seed, {| textInput_prompt := prompt;
                                videoInput :=
                                  Some {| mediaId := lastClipId; startFrameIndex := 168;
                                          endFrameIndex := 191 |};
                                videoModelKey := "veo_3_1_extend_fast_landscape_ultra";
                                aspectRatio := "VIDEO_ASPECT_RATIO_LANDSCAPE";
                                seed := seed; metadata_sceneId := sceneId |}) <$> seeds |}
      end
  end.

(** How the loop ends: after the last prompt, or with the [TypeError] of
    the iteration at an index, which nothing catches. *)
Inductive ending : Type :=
  | Finished
  | TypeError (promptIndex : nat).

Section Loop.

Variable toString_large : Z → string.
Variable sceneId : string.

(** The loop over the prompts with what each iteration posts; [seeds i] are
    the two random seeds of iteration [i]. *)
Fixpoint run (worlds : nat → world) (seeds : nat → list Z) (promptIndex : nat)
    (prompts : list string) (c : chain)
  : list (generate_call * outcome) * chain * ending :=
  match prompts with
  | [] => ([], c, Finished)
  | prompt :: rest =>
      match build sceneId (lastClipId c) prompt (seeds promptIndex) with
      | None => ([], c, TypeError promptIndex)
      | Some call =>
          let '(o, c1) :=
            process_prompt toString_large (worlds promptIndex) promptIndex prompt c in
          let '(steps, c2, e) := run worlds seeds (S promptIndex) rest c1 in
          ((call, o) :: steps, c2, e)
      end
  end.

End Loop.

(** *** For the statements *)

Definition is_done (o : outcome) : bool :=
  match o with
  | Done => true
  | _ => false
  end.

(** The iteration got as far as the scene update. *)
Definition reached_update (o : outcome) : bool :=
  match o with
  | Done | UpdateSceneFailed => true
  | _ => false
  end.


(** The last clip id is the id of the last clip, as the handler of the
    scene search response sets the two. *)
Definition anchored (c : chain) : Prop :=
  lastClipId c = clipId <$> last (initialClips c).

(** What a [continue] request carries for a clip. *)
Definition extending (cl : clip) : video_input :=
  {| mediaId := clipId cl; startFrameIndex := 168; endFrameIndex := 191 |}.

(** *** Sample data *)

Definition ready : list Provider.status_entry :=
  [Provider.done_with "op-1" "media-1" "https://video/1"].

End PromptLoop.

(** * Properties *)

(** ** Token pool *)

Module TokenPoolSpec.
Import TokenPool.

Section RoundRobin.

Variable sess : session.

Lemma getNextToken_nonempty (st : pool_state) :
  tokenPool st ≠ [] →
  getNextToken sess st =
    (tokenPool st !! currentTokenIndex st,
     {| tokenPool := tokenPool st;
        currentTokenIndex := (currentTokenIndex st + 1) mod length (tokenPool st) |}).
Proof.
  intros Hne. unfold getNextToken.
  destruct (tokenPool st) as [|t l] eqn:E; [done|]. reflexivity.
Qed.

(** The pool itself never changes, and [n] calls give [n] results. *)
Lemma next_n_pool (n : nat) (st : pool_state) :
  tokenPool (next_n sess n st).2 = tokenPool st ∧ length (next_n sess n st).1 = n.
Proof.
  revert st. induction n as [|n IH]; intros st; [done|].
  simpl. destruct (getNextToken sess st) as [t st1] eqn:E1.
  destruct (next_n sess n st1) as [ts st2] eqn:E2. simpl.
  specialize (IH st1). rewrite E2 in IH. simpl in IH. destruct IH as [IH1 IH2].
  split; [|by rewrite IH2].
  rewrite IH1. unfold getNextToken in E1.
  destruct (length (tokenPool st) =? 0)%nat; by inversion E1.
Qed.

(** With the cursor inside the pool, call number [i] (from 0) returns the
    entry [i] places after the cursor, counted cyclically. *)
Lemma next_n_lookup (n : nat) (st : pool_state) (i : nat) :
  (currentTokenIndex st < length (tokenPool st))%nat → (i < n)%nat →
  (next_n sess n st).1 !! i =
    Some (tokenPool st !! ((currentTokenIndex st + i) mod length (tokenPool st))%nat).
Proof.
  revert st i. induction n as [|n IH]; intros st i Hc Hi; [lia|].
  assert (Hne : tokenPool st ≠ []) by (destruct (tokenPool st); [simpl in Hc; lia|done]).
  simpl. rewrite (getNextToken_nonempty st Hne).
  set (st1 := {| tokenPool := tokenPool st;
                 currentTokenIndex := (currentTokenIndex st + 1) mod length (tokenPool st) |}).
  destruct (next_n sess n st1) as [ts st2] eqn:E2. simpl.
  destruct i as [|i]; simpl.
  - by rewrite Nat.add_0_r, Nat.mod_small.
  - specialize (IH st1 i). rewrite E2 in IH. simpl in IH.
    rewrite IH; [|apply Nat.mod_upper_bound; lia|lia].
    do 2 f_equal.
    rewrite Nat.Div0.add_mod_idemp_l. f_equal. lia.
Qed.

End RoundRobin.

(** C4.  For a pool of [N > 0] credentials whose cursor is at the start (as
    the pool loader leaves it), [N] calls of [getNextToken] return the
    credentials once each in insertion order and call [N + 1] returns the
    first one again; every call on a non-empty pool returns
    [tokenPool[currentTokenIndex]] and advances the cursor modulo the pool
    length. *)
Theorem getNextToken_round_robin (sess : session) (st : pool_state) :
  tokenPool st ≠ [] →
  currentTokenIndex st = 0%nat →
  (next_n sess (length (tokenPool st)) st).1 = Some <$> tokenPool st
  ∧ (next_n sess (S (length (tokenPool st))) st).1
      = (Some <$> tokenPool st) ++ [head (tokenPool st)]
  ∧ (∀ st' : pool_state, tokenPool st' ≠ [] →
       getNextToken sess st' =
         (tokenPool st' !! currentTokenIndex st',
          {| tokenPool := tokenPool st';
             currentTokenIndex :=
               (currentTokenIndex st' + 1) mod length (tokenPool st') |})).
Proof.
  intros Hne Hc.
  assert (Hlen : (0 < length (tokenPool st))%nat).
  { destruct (tokenPool st); [done|simpl; lia]. }
  assert (Hfirst : ∀ n i, (i < n)%nat → (i < length (tokenPool st))%nat →
            (next_n sess n st).1 !! i = Some (tokenPool st !! i)).
  { intros n i Hi Hil. rewrite next_n_lookup by lia.
    rewrite Hc. simpl. by rewrite Nat.mod_small. }
  split; [|split].
  - apply list_eq. intros i.
    destruct (decide (i < length (tokenPool st))%nat) as [Hi|Hi].
    + rewrite Hfirst by lia. rewrite list_lookup_fmap.
      destruct (lookup_lt_is_Some_2 (tokenPool st) i Hi) as [t Ht]. by rewrite Ht.
    + rewrite !lookup_ge_None_2; [done| |].
      * rewrite length_fmap. lia.
      * pose proof (next_n_pool sess (length (tokenPool st)) st) as [_ Hl]. lia.
  - apply list_eq. intros i.
    destruct (decide (i < length (tokenPool st))%nat) as [Hi|Hi].
    + rewrite Hfirst by lia.
      rewrite lookup_app_l by (rewrite length_fmap; lia).
      rewrite list_lookup_fmap.
      destruct (lookup_lt_is_Some_2 (tokenPool st) i Hi) as [t Ht]. by rewrite Ht.
    + destruct (decide (i = length (tokenPool st))) as [->|Hne'].
      * rewrite next_n_lookup by lia.
        rewrite Hc. simpl. rewrite Nat.Div0.mod_same.
        rewrite lookup_app_r by (rewrite length_fmap; lia).
        rewrite length_fmap, Nat.sub_diag. simpl.
        by destruct (tokenPool st).
      * rewrite !lookup_ge_None_2; [done| |].
        -- rewrite length_app, length_fmap. simpl. lia.
        -- pose proof (next_n_pool sess (S (length (tokenPool st))) st) as [_ Hl]. lia.
  - intros st'. apply getNextToken_nonempty.
Qed.

(** A load that completes leaves the cursor at the start: a freshly loaded
    pool is served from its first entry. *)
Lemma loadTokenPool_cursor (tokenNames : option (list string)) (file : token_file)
  (st : pool_state) (tokens : list string) :
  (loadTokenPool tokenNames file st).1 = Loaded tokens →
  currentTokenIndex (loadTokenPool tokenNames file st).2 = 0%nat.
Proof.
  unfold loadTokenPool. destruct tokenNames as [[|n names]|]; [done| |done].
  destruct file as [allTokens| |message]; [|done|done].
  destruct (load_loop allTokens (n :: names) []) as [pool []]; done.
Qed.

(** [getNextToken] keeps the cursor inside a non-empty pool. *)
Lemma getNextToken_cursor (sess : session) (st : pool_state) :
  tokenPool st ≠ [] →
  (currentTokenIndex (getNextToken sess st).2 < length (tokenPool (getNextToken sess st).2))%nat.
Proof.
  intros Hne. rewrite getNextToken_nonempty by done. simpl.
  apply Nat.mod_upper_bound. by destruct (tokenPool st).
Qed.

Lemma getNextToken_round_robin_witness :
  (next_n no_session 3
     {| tokenPool := [lane "A"; lane "B"]; currentTokenIndex := 0 |}).1
  = [Some (lane "A"); Some (lane "B"); Some (lane "A")].
Proof.
  pose proof (getNextToken_round_robin no_session
                {| tokenPool := [lane "A"; lane "B"]; currentTokenIndex := 0 |})
    as H.
  simpl in H. destruct H as (_ & H & _); [done|reflexivity|exact H].
Defined.

End TokenPoolSpec.

(** ** Request deduplication *)

Module DedupSpec.
Import Dedup.

(** The clean-up loop keeps exactly the entries that are at most
    [REQUEST_DEDUP_WINDOW_MS] old, with their timestamps. *)
Lemma cleanup_lookup (now : Z) (m : gmap string Z) (h : string) :
  cleanup now m !! h =
    match m !! h with
    | Some t => if (now - t >? REQUEST_DEDUP_WINDOW_MS)%Z then None else Some t
    | None => None
    end.
Proof.
  unfold cleanup.
  set (f := fun (hash : string) (timestamp : Z) (acc : gmap string Z) =>
              if (now - timestamp >? REQUEST_DEDUP_WINDOW_MS)%Z
              then delete hash acc else acc).
  assert (G : ∀ b : gmap string Z,
             map_fold f b m !! h =
               match m !! h with
               | Some t => if (now - t >? REQUEST_DEDUP_WINDOW_MS)%Z then None else b !! h
               | None => b !! h
               end).
  { intros b.
    apply (map_fold_weak_ind
             (fun r (m' : gmap string Z) =>
                r !! h = match m' !! h with
                         | Some t => if (now - t >? REQUEST_DEDUP_WINDOW_MS)%Z
                                     then None else b !! h
                         | None => b !! h
                         end)).
    - by rewrite lookup_empty.
    - intros i x m' r Hi IH. unfold f.
      destruct (decide (i = h)) as [->|Hne].
      + rewrite lookup_insert_eq. rewrite Hi in IH.
        destruct (now - x >? REQUEST_DEDUP_WINDOW_MS)%Z;
          [apply lookup_delete_eq|exact IH].
      + rewrite lookup_insert_ne by done.
        destruct (now - x >? REQUEST_DEDUP_WINDOW_MS)%Z;
          [by rewrite lookup_delete_ne|exact IH]. }
  rewrite G. by destruct (m !! h).
Qed.

(** An entry survives the clean-up exactly when it is not older than the
    window. *)
Lemma cleanup_lookup_Some (now : Z) (m : gmap string Z) (h : string) (t : Z) :
  cleanup now m !! h = Some t ↔ m !! h = Some t ∧ now - t ≤ REQUEST_DEDUP_WINDOW_MS.
Proof.
  rewrite cleanup_lookup. destruct (m !! h) as [t'|]; [|split; [done|by intros [? _]]].
  destruct (Z.gtb_spec (now - t') REQUEST_DEDUP_WINDOW_MS) as [Hgt|Hle]; split.
  - done.
  - intros [[= ->] ?]. lia.
  - intros [= ->]. split; [done|lia].
  - by intros [? _].
Qed.

(** The answer and the resulting map of one call. *)
Lemma isDuplicateRequest_spec (h : string) (now : Z) (m : gmap string Z) :
  isDuplicateRequest h now m =
    match cleanup now m !! h with
    | Some _ => (true, cleanup now m)
    | None => (false, <[h := now]> (cleanup now m))
    end.
Proof.
  unfold isDuplicateRequest.
  destruct (cleanup now m !! h) as [t|] eqn:E.
  - rewrite bool_decide_eq_true_2; eauto.
  - rewrite bool_decide_eq_false_2; [done|]. by intros [? ?].
Qed.

(** A call that reports not-duplicate leaves the fingerprint stamped with
    the time of that call. *)
Lemma isDuplicateRequest_fresh (h : string) (now : Z) (m : gmap string Z) :
  (isDuplicateRequest h now m).1 = false →
  (isDuplicateRequest h now m).2 !! h = Some now.
Proof.
  rewrite isDuplicateRequest_spec.
  destruct (cleanup now m !! h); [done|]. intros _. apply lookup_insert_eq.
Qed.

(** The answer to a call, from the timestamp stored for the fingerprint. *)
Lemma isDuplicateRequest_answer (h : string) (now : Z) (m : gmap string Z) :
  (isDuplicateRequest h now m).1 =
    match m !! h with
    | Some t => bool_decide (now - t ≤ REQUEST_DEDUP_WINDOW_MS)
    | None => false
    end.
Proof.
  rewrite isDuplicateRequest_spec, cleanup_lookup.
  destruct (m !! h) as [t|]; [|done].
  destruct (Z.gtb_spec (now - t) REQUEST_DEDUP_WINDOW_MS) as [Hgt|Hle].
  - by rewrite bool_decide_eq_false_2 by lia.
  - by rewrite bool_decide_eq_true_2 by lia.
Qed.

(** C5.  A call first purges the entries older than 3000 ms: what remains
    are the entries at most 3000 ms old.  Then, when the fingerprint is
    still present the call reports duplicate and keeps the stored timestamp;
    otherwise it stores the fingerprint with the current time and reports
    not-duplicate.  Hence, after a submission that was accepted at [t1], the
    same fingerprint at [t2] is rejected when [t2 - t1 <= 3000] and accepted
    when [t2 - t1 > 3000]. *)
Theorem isDuplicateRequest_window (h : string) (t1 t2 : Z) (m : gmap string Z) :
  (∀ (now : Z) (m0 : gmap string Z),
      let kept := cleanup now m0 in
      (∀ k t, kept !! k = Some t ↔ m0 !! k = Some t ∧ now - t ≤ 3000)
      ∧ (is_Some (kept !! h) →
           isDuplicateRequest h now m0 = (true, kept)
           ∧ (isDuplicateRequest h now m0).2 !! h = m0 !! h)
      ∧ (kept !! h = None →
           isDuplicateRequest h now m0 = (false, <[h := now]> kept)))
  ∧ ((isDuplicateRequest h t1 m).1 = false →
       let m1 := (isDuplicateRequest h t1 m).2 in
       (t2 - t1 ≤ 3000 → (isDuplicateRequest h t2 m1).1 = true)
       ∧ (t2 - t1 > 3000 → (isDuplicateRequest h t2 m1).1 = false)).
Proof.
  split.
  - intros now m0 kept. split; [|split].
    + intros k t. apply cleanup_lookup_Some.
    + intros [t Ht]. rewrite isDuplicateRequest_spec. fold kept. rewrite Ht.
      split; [done|]. simpl. rewrite Ht.
      apply cleanup_lookup_Some in Ht. by destruct Ht as [-> _].
    + intros Hn. rewrite isDuplicateRequest_spec. fold kept. by rewrite Hn.
  - intros Hfirst m1.
    pose proof (isDuplicateRequest_fresh h t1 m Hfirst) as Hm1. fold m1 in Hm1.
    rewrite isDuplicateRequest_answer, Hm1. unfold REQUEST_DEDUP_WINDOW_MS.
    split; intros Hw.
    + by rewrite bool_decide_eq_true_2 by lia.
    + by rewrite bool_decide_eq_false_2 by lia.
Qed.

Lemma isDuplicateRequest_window_witness :
  (isDuplicateRequest "abc" 1000 ∅).1 = false
  ∧ (isDuplicateRequest "abc" 4000 (isDuplicateRequest "abc" 1000 ∅).2).1 = true
  ∧ (isDuplicateRequest "abc" 4001 (isDuplicateRequest "abc" 1000 ∅).2).1 = false.
Proof.
  assert (H0 : (isDuplicateRequest "abc" 1000 ∅).1 = false) by reflexivity.
  split; [exact H0|].
  split.
  - exact (proj1 (proj2 (isDuplicateRequest_window "abc" 1000 4000 ∅) H0)
             ltac:(lia)).
  - exact (proj2 (proj2 (isDuplicateRequest_window "abc" 1000 4001 ∅) H0)
             ltac:(lia)).
Defined.

(** The fingerprint of an accepted submission outlasts any later calls
    made within the window, for whatever fingerprints. *)
Lemma isDuplicateRequest_keeps (h h' : string) (t1 now : Z) (m : gmap string Z) :
  m !! h = Some t1 → now - t1 ≤ 3000 →
  (isDuplicateRequest h' now m).2 !! h = Some t1.
Proof.
  intros Hm Hw.
  assert (Hk : cleanup now m !! h = Some t1).
  { apply cleanup_lookup_Some. unfold REQUEST_DEDUP_WINDOW_MS. done. }
  rewrite isDuplicateRequest_spec.
  destruct (cleanup now m !! h') as [t'|] eqn:E; simpl; [done|].
  destruct (decide (h' = h)) as [->|Hne]; [congruence|].
  by rewrite lookup_insert_ne.
Qed.

End DedupSpec.

(** ** Binary64 arithmetic *)

Module DoubleSpec.
Import Double.

(** *** Agreement with the primitive binary64 numbers

    [parseFloat] and [add] compute the same values as the decimal literals
    and the addition of the primitive floating-point numbers: correct
    rounding, ties to even, subnormal numbers and overflow included. *)

Module Agreement.
Import PrimFloat SpecFloat FloatOps.

#[local] Set Warnings "-inexact-float".

Example parseFloat_agrees_clip :
  of_spec (Prim2SF 7.000000001%float) = parseFloat "7.000000001".
Proof. by vm_compute. Qed.

Example parseFloat_agrees_epsilon :
  of_spec (Prim2SF 0.000000001%float) = parseFloat "0.000000001".
Proof. by vm_compute. Qed.

Example parseFloat_agrees_subnormal :
  of_spec (Prim2SF 1e-320%float) = parseFloat "1e-320".
Proof. by vm_compute. Qed.

Example parseFloat_agrees_largest :
  of_spec (Prim2SF 1.7976931348623157e308%float) = parseFloat "1.7976931348623157e308".
Proof. by vm_compute. Qed.

Example parseFloat_agrees_overflow :
  of_spec (Prim2SF 1.7976931348623159e308%float) = parseFloat "1.7976931348623159e308".
Proof. by vm_compute. Qed.

Example parseFloat_agrees_tie :
  of_spec (Prim2SF 9007199254740993%float) = parseFloat "9007199254740993".
Proof. by vm_compute. Qed.

Example add_agrees_clip :
  of_spec (Prim2SF (7.000000001 + 0.000000001)%float)
  = Double.add (parseFloat "7.000000001") (parseFloat "0.000000001").
Proof. by vm_compute. Qed.

Example add_agrees_far :
  of_spec (Prim2SF (10000000 + 0.000000001)%float)
  = Double.add (parseFloat "10000000") (parseFloat "0.000000001").
Proof. by vm_compute. Qed.

Example add_agrees_tenths :
  of_spec (Prim2SF (0.1 + 0.2)%float) = Double.add (parseFloat "0.1") (parseFloat "0.2").
Proof. by vm_compute. Qed.

Example add_agrees_overflow :
  of_spec (Prim2SF (1e308 + 1e308)%float) = Double.add (parseFloat "1e308") (parseFloat "1e308").
Proof. by vm_compute. Qed.

Example add_agrees_subnormal :
  of_spec (Prim2SF (5e-324 + 5e-324)%float) = Double.add (parseFloat "5e-324") (parseFloat "5e-324").
Proof. by vm_compute. Qed.

Example add_agrees_cancel :
  of_spec (Prim2SF (1 + -1.0000000000000002)%float)
  = Double.add (parseFloat "1") (parseFloat "-1.0000000000000002").
Proof. by vm_compute. Qed.

Example add_agrees_tie_down :
  of_spec (Prim2SF (9007199254740992 + 1)%float)
  = Double.add (parseFloat "9007199254740992") (parseFloat "1").
Proof. by vm_compute. Qed.

Example add_agrees_tie_up :
  of_spec (Prim2SF (9007199254740992 + 3)%float)
  = Double.add (parseFloat "9007199254740992") (parseFloat "3").
Proof. by vm_compute. Qed.

(** The same addition in the executable specification of IEEE 754 of the
    standard library. *)
Example add_agrees_spec :
  of_spec (SFadd 53 1024 (Prim2SF 4194304.5%float) (Prim2SF 7.000000001%float))
  = Double.add (parseFloat "4194304.5") (parseFloat "7.000000001").
Proof. by vm_compute. Qed.

(** [toFixed] on values whose JavaScript results are known. *)
Example toFixed_samples (toString_large : Z → string) :
  toFixed toString_large 2 (parseFloat "1.005") = "1.00"
  ∧ toFixed toString_large 0 (parseFloat "2.5") = "3"
  ∧ toFixed toString_large 9 (parseFloat "-1e-10") = "-0.000000000"
  ∧ toFixed toString_large 9 (parseFloat "10.5") = "10.500000000"
  ∧ toFixed toString_large 9 (parseFloat "abc") = "NaN".
Proof. repeat split; by vm_compute. Qed.

End Agreement.

(** *** Rounding *)

(** [rne a b] is within half a unit of [a / b]. *)
Lemma rne_error (a b : Z) :
  0 ≤ a → 0 < b → - b ≤ 2 * (rne a b * b - a) ≤ b.
Proof.
  intros Ha Hb. unfold rne.
  pose proof (Z.div_mod a b ltac:(lia)) as Hdiv.
  pose proof (Z.mod_pos_bound a b Hb) as Hmod.
  destruct (Z.ltb_spec (2 * (a mod b)) b); [lia|].
  destruct (Z.ltb_spec b (2 * (a mod b))); [lia|].
  destruct (Z.even (a / b)); lia.
Qed.

Lemma rne_nonneg (a b : Z) : 0 ≤ a → 0 < b → 0 ≤ rne a b.
Proof.
  intros Ha Hb. unfold rne.
  pose proof (Z.div_pos a b Ha Hb).
  destruct (_ <? _); [lia|]. destruct (_ <? _); [lia|]. destruct (Z.even _); lia.
Qed.

Lemma quantum_pos (m : Z) : 0 < quantum m.
Proof.
  unfold quantum. destruct (Z.ltb_spec m (2 ^ 53)) as [|Hge]; [lia|].
  apply Z.pow_pos_nonneg; [lia|].
  assert (53 ≤ Z.log2 m); [|lia].
  rewrite <- (Z.log2_pow2 53) by lia. by apply Z.log2_le_mono.
Qed.

(** Below [2^e] the spacing is at most [2^(e - 53)]. *)
Lemma quantum_le (m e : Z) : m < 2 ^ e → 53 ≤ e → quantum m ≤ 2 ^ (e - 53).
Proof.
  intros Hm He. unfold quantum.
  destruct (Z.ltb_spec m (2 ^ 53)) as [|Hge].
  - assert (0 < 2 ^ (e - 53)) by (apply Z.pow_pos_nonneg; lia). lia.
  - assert (Hpos : 0 < m) by (assert (0 < 2 ^ 53) by (by apply Z.pow_pos_nonneg); lia).
    apply Z.pow_le_mono_r; [lia|].
    apply (Z.log2_lt_pow2 m e Hpos) in Hm. lia.
Qed.

(** [nearest a b] is within half a spacing of [a / b]. *)
Lemma nearest_error (a b : Z) :
  0 ≤ a → 0 < b →
  - (quantum (a / b) * b) ≤ 2 * (nearest a b * b - a) ≤ quantum (a / b) * b.
Proof.
  intros Ha Hb. unfold nearest.
  pose proof (quantum_pos (a / b)) as Hq.
  set (q := quantum (a / b)) in *.
  pose proof (rne_error a (b * q) Ha ltac:(nia)) as H.
  replace (q * rne a (b * q) * b) with (rne a (b * q) * (b * q)) by ring.
  replace (q * b) with (b * q) by ring. exact H.
Qed.

Lemma nearest_nonneg (a b : Z) : 0 ≤ a → 0 < b → 0 ≤ nearest a b.
Proof.
  intros Ha Hb. unfold nearest.
  pose proof (quantum_pos (a / b)).
  pose proof (rne_nonneg a (b * quantum (a / b)) Ha ltac:(nia)). nia.
Qed.

(** A magnitude that stays below the overflow threshold rounds to a finite
    value. *)
Lemma round_finite (a b : Z) :
  nearest a b < overflow → round false a b = Fin (nearest a b).
Proof.
  intros H. unfold round. destruct (Z.leb_spec overflow (nearest a b)); [lia|done].
Qed.

(** The scale in terms of [2^1024], so that the inequalities below involve
    small coefficients only. *)
Lemma unit_scale :
  unit = 2 ^ 50 * 2 ^ 1024 ∧ overflow = 2 ^ 1074 * 2 ^ 1024
  ∧ 2 ^ 1096 = 2 ^ 72 * 2 ^ 1024 ∧ 2 ^ 1043 = 2 ^ 19 * 2 ^ 1024
  ∧ 2 ^ 1077 = 2 ^ 53 * 2 ^ 1024 ∧ 0 < 2 ^ 1024.
Proof.
  unfold unit, overflow. rewrite <- !Z.pow_add_r by lia. simpl.
  repeat split; reflexivity.
Qed.

(** A decimal with no exponent part. *)
Lemma of_decimal_fraction (d : Z) (k : nat) :
  of_decimal false d (- Z.of_nat k) = round false (d * unit) (10 ^ Z.of_nat k).
Proof.
  unfold of_decimal. destruct (Z.leb_spec 0 (- Z.of_nat k)) as [H|H].
  - replace (Z.of_nat k) with 0 by lia. simpl Z.opp.
    by rewrite Z.pow_0_r, Z.mul_1_r.
  - by rewrite Z.opp_involutive.
Qed.

(** What rounding does to a magnitude [a / b] below [2^e]: the result is
    finite and off by at most [2^(e - 54)]. *)
Lemma round_below (a b e : Z) :
  0 ≤ a → 0 < b → a < b * 2 ^ e → 53 ≤ e → e ≤ 2000 →
  ∃ n, round false a b = Fin n ∧ 0 ≤ n
       ∧ - (2 ^ (e - 53) * b) ≤ 2 * (n * b - a) ≤ 2 ^ (e - 53) * b.
Proof.
  intros Ha Hb Hlt He He'.
  assert (Hdiv : a / b < 2 ^ e) by (apply Z.div_lt_upper_bound; lia).
  pose proof (quantum_le (a / b) e Hdiv He) as Hq.
  pose proof (quantum_pos (a / b)) as Hq0.
  pose proof (nearest_error a b Ha Hb) as Herr.
  pose proof (nearest_nonneg a b Ha Hb) as Hn.
  assert (Hbound : - (2 ^ (e - 53) * b) ≤ 2 * (nearest a b * b - a) ≤ 2 ^ (e - 53) * b)
    by nia.
  exists (nearest a b). split; [|by split].
  apply round_finite.
  assert (H2e : 2 ^ e = 2 ^ 53 * 2 ^ (e - 53)).
  { rewrite <- Z.pow_add_r by lia. f_equal. lia. }
  assert (Hpe : 0 < 2 ^ (e - 53)) by (apply Z.pow_pos_nonneg; lia).
  assert (Hn2 : nearest a b < 2 ^ (e + 1)).
  { replace (2 ^ (e + 1)) with (2 * 2 ^ e)
      by (rewrite (Z.pow_add_r 2 e 1) by lia; lia).
    apply (Z.mul_lt_mono_pos_r b); [lia|]. nia. }
  eapply Z.lt_le_trans; [exact Hn2|].
  unfold overflow. apply Z.pow_le_mono_r; lia.
Qed.

(** *** Adding nanoseconds to a time below [2^22] seconds *)

(** A magnitude of [k * 2^j] units with [k < 2^53] is a binary64 value:
    rounding leaves it as it is. *)
Lemma nearest_dyadic (k j b : Z) :
  0 ≤ k < 2 ^ 53 → 0 ≤ j → 0 < b → nearest (k * 2 ^ j * b) b = k * 2 ^ j.
Proof.
  intros Hk Hj Hb. unfold nearest.
  rewrite Z.div_mul by lia.
  set (v := k * 2 ^ j).
  assert (Hq : ∃ c, v = c * quantum v ∧ 0 < quantum v).
  { unfold quantum. destruct (Z.ltb_spec v (2 ^ 53)) as [|Hge].
    - exists v. lia.
    - assert (Hk0 : 0 < k).
      { destruct (Z.eq_dec k 0) as [->|]; [|lia]. unfold v in Hge. simpl in Hge. lia. }
      assert (Hlv : 53 ≤ Z.log2 v).
      { rewrite <- (Z.log2_pow2 53) by lia. by apply Z.log2_le_mono. }
      unfold v in Hlv. rewrite Z.log2_mul_pow2 in Hlv by lia.
      unfold v at 2 3. rewrite Z.log2_mul_pow2 by lia.
      assert (Hl : 0 ≤ Z.log2 k < 53).
      { split; [apply Z.log2_nonneg|]. apply Z.log2_lt_pow2; lia. }
      exists (k * 2 ^ (52 - Z.log2 k)). split.
      + unfold v. rewrite <- Z.mul_assoc, <- Z.pow_add_r by lia. do 2 f_equal. lia.
      + apply Z.pow_pos_nonneg; lia. }
  destruct Hq as (c & Hc & Hq0).
  set (q := quantum v) in *.
  assert (Hrne : rne (v * b) (b * q) = c).
  { unfold rne. rewrite Hc.
    replace (c * q * b) with (c * (b * q)) by ring.
    rewrite Z.div_mul, Z.mod_mul by nia.
    destruct (Z.ltb_spec (2 * 0) (b * q)); [done|nia]. }
  rewrite Hrne. lia.
Qed.

Lemma round_dyadic (negative : bool) (k j b : Z) :
  0 ≤ k < 2 ^ 53 → 0 ≤ j ≤ 1074 → 0 < b →
  round negative (k * 2 ^ j * b) b = Fin (if negative then - (k * 2 ^ j) else k * 2 ^ j).
Proof.
  intros Hk Hj Hb. unfold round. rewrite nearest_dyadic by lia.
  destruct (Z.leb_spec overflow (k * 2 ^ j)) as [H|]; [|done].
  exfalso. unfold overflow in H.
  assert (2 ^ j ≤ 2 ^ 1074) by (apply Z.pow_le_mono_r; lia).
  assert (0 < 2 ^ j) by (apply Z.pow_pos_nonneg; lia).
  assert (k * 2 ^ j < 2 ^ 53 * 2 ^ 1074) by nia.
  assert (2 ^ 53 * 2 ^ 1074 ≤ 2 ^ 2098); [|lia].
  rewrite <- Z.pow_add_r by lia. apply Z.pow_le_mono_r; lia.
Qed.

(** Integers below [2^53] are binary64 values. *)
Lemma round_units_int (k : Z) :
  - 2 ^ 53 < k < 2 ^ 53 → round_units (k * unit) = Fin (k * unit).
Proof.
  intros Hk.
  assert (HU0 : 0 < unit) by (by apply Z.pow_pos_nonneg).
  unfold round_units.
  destruct (Z.ltb_spec (k * unit) 0) as [Hneg|Hpos].
  - assert (k < 0) by nia.
    replace (Z.abs (k * unit)) with (- k * 2 ^ 1074 * 1) by (unfold unit in *; lia).
    rewrite round_dyadic by lia. f_equal. unfold unit. lia.
  - assert (0 ≤ k) by nia.
    replace (Z.abs (k * unit)) with (k * 2 ^ 1074 * 1) by (unfold unit in *; lia).
    rewrite round_dyadic by lia. done.
Qed.

Lemma of_integer_exact (z : Z) :
  - 2 ^ 53 < z < 2 ^ 53 → of_integer z = Fin (z * unit).
Proof. apply round_units_int. Qed.

(** The product of two integers is exact when it stays below [2^53]. *)
Lemma mul_integers (a b : Z) :
  - 2 ^ 53 < a * b < 2 ^ 53 →
  mul (Fin (a * unit)) (Fin (b * unit)) = Fin (a * b * unit).
Proof.
  intros Hab.
  assert (HU0 : 0 < unit) by (by apply Z.pow_pos_nonneg).
  unfold mul.
  replace (Z.abs (a * unit) * Z.abs (b * unit)) with (Z.abs (a * b) * 2 ^ 1074 * unit).
  2:{ rewrite !Z.abs_mul, (Z.abs_eq unit) by lia. unfold unit. ring. }
  rewrite round_dyadic by lia. f_equal.
  fold unit.
  destruct (Z.ltb_spec (a * unit) 0) as [Ha|Ha], (Z.ltb_spec (b * unit) 0) as [Hb|Hb];
    cbn [xorb].
  - assert (a < 0) by nia. assert (b < 0) by nia. rewrite Z.abs_eq by nia. done.
  - assert (a < 0) by nia. assert (0 ≤ b) by nia. rewrite Z.abs_neq by nia. lia.
  - assert (0 ≤ a) by nia. assert (b < 0) by nia. rewrite Z.abs_neq by nia. lia.
  - assert (0 ≤ a) by nia. assert (0 ≤ b) by nia. rewrite Z.abs_eq by nia. done.
Qed.

Section AddNanoseconds.

Variable toString_large : Z → string.

(** Let a time of [d / 10^k] seconds ([k <= 9], at most 4194296 s) and an
    increment of [cn] nanoseconds (at most 7000000001) be given as decimal
    literals.  The sum of the two binary64 values, printed with nine
    fractional digits, is the exact decimal sum: the three roundings
    together stay below half a nanosecond. *)
Lemma add_toFixed_exact (d : Z) (k : nat) (cn : Z) :
  0 ≤ d → (k ≤ 9)%nat → 0 < cn ≤ 7000000001 →
  d * 10 ^ (9 - Z.of_nat k) ≤ 4194296 * 10 ^ 9 →
  toFixed toString_large 9
    (add (of_decimal false d (- Z.of_nat k)) (of_decimal false cn (-9)))
  = fixed_string 9 (d * 10 ^ (9 - Z.of_nat k) + cn).
Proof.
  intros Hd Hk Hcn Hmax.
  destruct unit_scale as (HU & HO & H1096 & H1043 & H1077 & HQ).
  set (Q := 2 ^ 1024) in *.
  set (b := 10 ^ Z.of_nat k).
  set (m := 10 ^ (9 - Z.of_nat k)) in *.
  assert (Hb : 0 < b) by (apply Z.pow_pos_nonneg; lia).
  assert (Hm : 0 < m) by (apply Z.pow_pos_nonneg; lia).
  assert (Hbm : b * m = 10 ^ 9).
  { unfold b, m. rewrite <- Z.pow_add_r by lia. f_equal. lia. }
  change (10 ^ 9) with 1000000000 in *.
  (* the time *)
  rewrite of_decimal_fraction. fold b.
  destruct (round_below (d * unit) b 1096) as (F & -> & HF0 & HF); try lia.
  { rewrite H1096, HU. nia. }
  (* the increment *)
  change (-9) with (- Z.of_nat 9). rewrite of_decimal_fraction.
  change (10 ^ Z.of_nat 9) with 1000000000.
  destruct (round_below (cn * unit) 1000000000 1077) as (C & -> & HC0 & HC); try lia.
  change (1096 - 53) with 1043 in HF. change (1077 - 53) with 1024 in HC.
  rewrite H1043 in HF. fold Q in HC.
  (* the sum *)
  assert (HFK : - (2 ^ 19 * Q * 1000000000) ≤ 2 * (F * 1000000000 - d * m * unit)
                ≤ 2 ^ 19 * Q * 1000000000).
  { replace (2 * (F * 1000000000 - d * m * unit))
      with (m * (2 * (F * b - d * unit))) by (rewrite <- Hbm; ring).
    replace (2 ^ 19 * Q * 1000000000) with (m * (2 ^ 19 * Q * b))
      by (rewrite <- Hbm; ring).
    nia. }
  change (2 ^ 19) with 524288 in *. change (2 ^ 50) with 1125899906842624 in *.
  change (2 ^ 72) with 4722366482869645213696 in *.
  simpl add. unfold round_units.
  assert (HS : 0 ≤ F + C) by lia.
  destruct (Z.ltb_spec (F + C) 0) as [|_]; [lia|].
  rewrite Z.abs_eq by lia.
  destruct (round_below (F + C) 1 1096) as (G & -> & HG0 & HG); try lia.
  change (1096 - 53) with 1043 in HG. rewrite H1043 in HG.
  change (2 ^ 19) with 524288 in HG.
  (* printing *)
  unfold toFixed.
  destruct (Z.leb_spec (10 ^ 21 * unit) (Z.abs G)) as [Hbig|_].
  { rewrite Z.abs_eq in Hbig by lia. change (10 ^ 21) with 1000000000000000000000 in Hbig.
    rewrite HU in Hbig. lia. }
  destruct (Z.ltb_spec G 0) as [|_]; [lia|].
  rewrite Z.abs_eq by lia.
  change (10 ^ Z.of_nat 9) with 1000000000.
  replace ((2 * G * 1000000000 + unit) / (2 * unit)) with (d * m + cn); [reflexivity|].
  apply (Z.div_unique_pos _ _ _ (2 * G * 1000000000 + unit - 2 * unit * (d * m + cn)));
    rewrite HU in *; lia.
Qed.

End AddNanoseconds.

(** *** Decimal numerals *)

Lemma is_digit_bounds (c : ascii) :
  is_digit c = true → (48 ≤ nat_of_ascii c ≤ 57)%nat.
Proof.
  unfold is_digit. intros H. apply andb_true_iff in H. destruct H as [H1 H2].
  apply Nat.leb_le in H1, H2. lia.
Qed.

(** A digit is neither white space, nor a sign, nor an [s], a point or the
    start of [Infinity]. *)
Lemma digit_is_plain (c : ascii) :
  is_digit c = true →
  JS.is_white_space c = false ∧ c ≠ "-"%char ∧ c ≠ "+"%char ∧ c ≠ "s"%char
  ∧ c ≠ "."%char ∧ c ≠ "I"%char.
Proof.
  intros H. apply is_digit_bounds in H.
  split; [|repeat split; intros ->; vm_compute in H; lia].
  unfold JS.is_white_space.
  destruct (Nat.leb_spec 9 (nat_of_ascii c)), (Nat.leb_spec (nat_of_ascii c) 13),
    (Nat.eqb_spec (nat_of_ascii c) 32); simpl; try reflexivity; lia.
Qed.

(** Scanning never decreases the count and keeps a non-negative value
    non-negative. *)
Lemma scan_digits_bounds (s : string) (acc : Z) (count : nat) :
  0 ≤ acc →
  0 ≤ (scan_digits s acc count).1.1 ∧ (count ≤ (scan_digits s acc count).1.2)%nat.
Proof.
  revert acc count. induction s as [|c s IH]; intros acc count Hacc; simpl; [lia|].
  destruct (is_digit c) eqn:Hc; simpl; [|lia].
  apply is_digit_bounds in Hc.
  destruct (IH (acc * 10 + (Z.of_nat (nat_of_ascii c) - 48)) (S count)) as [H1 H2];
    [lia|]. split; [done|lia].
Qed.

(** A scan that consumed something started on a digit. *)
Lemma scan_digits_first (s : string) (acc : Z) (count : nat) :
  (count < (scan_digits s acc count).1.2)%nat →
  ∃ c r, s = String c r ∧ is_digit c = true.
Proof.
  destruct s as [|c r]; simpl; [lia|].
  destruct (is_digit c) eqn:Hc; simpl; [eauto|lia].
Qed.

Lemma append_cons (c : ascii) (p x : string) :
  (String c p ++ x)%string = String c (p ++ x)%string.
Proof. reflexivity. Qed.

Lemma append_empty (x : string) : (EmptyString ++ x)%string = x.
Proof. reflexivity. Qed.

(** Removing the first [s] from a string that starts with scanned digits
    leaves the digits alone. *)
Lemma remove_first_s_scan (s : string) (acc : Z) (count : nat) :
  ∃ pre : string,
    s = (pre ++ (scan_digits s acc count).2)%string
    ∧ (∀ u : string,
         AutoLogger.remove_first_s (pre ++ u)%string
         = (pre ++ AutoLogger.remove_first_s u)%string).
Proof.
  revert acc count. induction s as [|c s IH]; intros acc count; simpl.
  - by exists EmptyString.
  - destruct (is_digit c) eqn:Hc; simpl.
    + destruct (IH (acc * 10 + (Z.of_nat (nat_of_ascii c) - 48)) (S count))
        as (pre & Hs & Hr).
      exists (String c pre). split; [rewrite append_cons; f_equal; exact Hs|].
      intros u. rewrite !append_cons. simpl.
      destruct (digit_is_plain c Hc) as (_ & _ & _ & Hns & _).
      destruct (Ascii.eqb_spec c "s"); [done|]. by rewrite Hr.
    + by exists EmptyString.
Qed.

Lemma append_assoc (x y z : string) :
  ((x ++ y) ++ z)%string = (x ++ (y ++ z))%string.
Proof.
  induction x as [|c x IH]; [reflexivity|].
  rewrite !append_cons. by rewrite IH.
Qed.

Lemma append_empty_r (x : string) : (x ++ EmptyString)%string = x.
Proof.
  induction x as [|c x IH]; [reflexivity|]. rewrite append_cons. by rewrite IH.
Qed.

(** A decimal numeral contains no [s]: the unit suffix is what
    [replace('s', '')] removes. *)
Lemma read_decimal_suffix (text : string) (d : Z) (k : nat) :
  read_decimal text = Some (d, k) →
  AutoLogger.remove_first_s (text ++ "s")%string = text.
Proof.
  unfold read_decimal.
  destruct (remove_first_s_scan text 0 0) as (pre & Htext & Hpre).
  destruct (scan_digits text 0 0) as [[int_value int_count] r]. simpl in Htext.
  destruct (int_count =? 0)%nat; [done|].
  destruct r as [|c r1].
  - intros _. rewrite Htext, append_empty_r, Hpre. simpl.
    by rewrite append_empty_r.
  - destruct (Ascii.eqb_spec c ".") as [->|]; [|done].
    destruct (remove_first_s_scan r1 int_value 0) as (pre1 & Hr1 & Hpre1).
    destruct (scan_digits r1 int_value 0) as [[value frac_count] r2]. simpl in Hr1.
    destruct r2; [|done]. intros _.
    rewrite append_empty_r in Hr1. subst r1.
    rewrite Htext, append_assoc, Hpre, append_cons. simpl.
    by rewrite Hpre1, append_empty_r.
Qed.

(** A string that starts with a digit has no white space or sign to skip. *)
Lemma parseFloat_digit (c : ascii) (rest : string) :
  is_digit c = true →
  parseFloat (String c rest) = parse_unsigned false (String c rest).
Proof.
  intros Hc. destruct (digit_is_plain c Hc) as (Hws & Hminus & Hplus & _).
  unfold parseFloat. simpl JS.trim_start. rewrite Hws.
  destruct c as [[] [] [] [] [] [] [] []]; try reflexivity; congruence.
Qed.

(** [parseFloat] reads a decimal numeral as the binary64 value nearest to
    the number it denotes. *)
Lemma read_decimal_parseFloat (text : string) (d : Z) (k : nat) :
  read_decimal text = Some (d, k) →
  parseFloat text = of_decimal false d (- Z.of_nat k) ∧ 0 ≤ d.
Proof.
  unfold read_decimal. intros H.
  pose proof (scan_digits_bounds text 0 0 ltac:(lia)) as [Hv0 _].
  pose proof (scan_digits_first text 0 0) as Hfirst.
  assert (Hstart : parseFloat text
                   = let '(int_value, int_count, r) := scan_digits text 0 0 in
                     match after_point r with
                     | Some r1 =>
                         let '(value, frac_count, r2) := scan_digits r1 int_value 0 in
                         if ((int_count + frac_count)%nat =? 0)%nat then NaN
                         else of_decimal false value
                                (scan_exponent r2 - Z.of_nat frac_count)
                     | None =>
                         if (int_count =? 0)%nat then NaN
                         else of_decimal false int_value (scan_exponent r)
                     end).
  { destruct (scan_digits text 0 0) as [[int_value int_count] r] eqn:E. simpl in Hfirst.
    assert (Hne : int_count ≠ 0%nat) by (intros ->; discriminate H).
    destruct Hfirst as (c & rest & -> & Hc); [lia|].
    destruct (digit_is_plain c Hc) as (_ & _ & _ & _ & _ & HI).
    rewrite (parseFloat_digit c rest Hc). unfold parse_unsigned.
    assert (Hinf : String.prefix "Infinity" (String c rest) = false).
    { clear -HI. destruct c as [[] [] [] [] [] [] [] []]; try reflexivity; congruence. }
    rewrite Hinf, E. reflexivity. }
  rewrite Hstart. clear Hstart.
  destruct (scan_digits text 0 0) as [[int_value int_count] r]. simpl in Hv0.
  destruct (Nat.eqb_spec int_count 0) as [|Hne]; [done|].
  destruct r as [|c r1]; simpl after_point.
  - injection H as <- <-. simpl. by split.
  - destruct (Ascii.eqb_spec c ".") as [->|]; [|done].
    pose proof (scan_digits_bounds r1 int_value 0 Hv0) as [Hv1 _].
    destruct (scan_digits r1 int_value 0) as [[value frac_count] r2]. simpl in Hv1.
    destruct r2; [|done]. injection H as <- <-.
    destruct (Nat.eqb_spec (int_count + frac_count) 0) as [|_]; [lia|].
    simpl scan_exponent. by split.
Qed.

(** *** Printing and reading back *)

(** Scanning runs through a block of digits. *)
Lemma scan_digits_app (a r : string) (acc : Z) (count : nat) :
  all_digits a = true →
  scan_digits (a ++ r)%string acc count
  = scan_digits r (spell a acc) (count + String.length a).
Proof.
  revert acc count. induction a as [|c a IH]; intros acc count Ha.
  - rewrite append_empty. simpl. by rewrite Nat.add_0_r.
  - simpl in Ha. apply andb_true_iff in Ha. destruct Ha as [Hc Ha].
    rewrite append_cons. simpl. rewrite Hc, IH by done. f_equal. lia.
Qed.

Lemma all_digits_app (a b : string) :
  all_digits (a ++ b)%string = all_digits a && all_digits b.
Proof.
  induction a as [|c a IH]; [reflexivity|].
  rewrite append_cons. simpl. by rewrite IH, andb_assoc.
Qed.

Lemma spell_app (a b : string) (acc : Z) :
  spell (a ++ b)%string acc = spell b (spell a acc).
Proof.
  revert acc. induction a as [|c a IH]; intros acc; [reflexivity|].
  rewrite append_cons. simpl. by rewrite IH.
Qed.

Lemma length_app (a b : string) :
  String.length (a ++ b)%string = (String.length a + String.length b)%nat.
Proof.
  induction a as [|c a IH]; [reflexivity|]. rewrite append_cons. simpl. by rewrite IH.
Qed.

(** The characters that [pretty] prints are the digits of the number. *)
Lemma pretty_N_char_digit (x : N) :
  (x < 10)%N →
  is_digit (pretty_N_char x) = true
  ∧ Z.of_nat (nat_of_ascii (pretty_N_char x)) - 48 = Z.of_N x.
Proof.
  intros Hx. destruct x as [|p]; [by vm_compute|].
  do 4 (try destruct p as [p|p|]); try (by vm_compute); lia.
Qed.

Lemma pretty_N_go_digits (x : N) (s : string) :
  all_digits s = true →
  all_digits (pretty_N_go x s) = true
  ∧ spell (pretty_N_go x s) 0 = spell s (Z.of_N x).
Proof.
  revert s. induction (N.lt_wf_0 x) as [x _ IH]; intros s Hs.
  destruct (decide (x = 0)%N) as [->|Hx].
  - rewrite pretty_N_go_0. by split.
  - rewrite pretty_N_go_step by lia.
    destruct (pretty_N_char_digit (x `mod` 10)) as [Hd Hv];
      [apply N.mod_lt; lia|].
    destruct (IH (x `div` 10)%N ltac:(apply N.div_lt; lia)
                (String (pretty_N_char (x `mod` 10)) s)) as [H1 H2].
    { simpl. by rewrite Hd, Hs. }
    split; [exact H1|]. rewrite H2. simpl. rewrite Hv. f_equal.
    pose proof (N.div_mod x 10 ltac:(lia)). lia.
Qed.

(** The decimal string of a natural number spells it. *)
Lemma pretty_digits (n : Z) :
  0 ≤ n → all_digits (pretty n) = true ∧ spell (pretty n) 0 = n.
Proof.
  intros Hn. destruct n as [|p|p]; [by vm_compute| |lia].
  unfold pretty, pretty_Z, pretty, pretty_positive, pretty, pretty_N.
  destruct (decide (N.pos p = 0)%N) as [|_]; [done|].
  by apply (pretty_N_go_digits (N.pos p) EmptyString).
Qed.

Lemma zeros_digits (count : nat) (acc : Z) :
  all_digits (zeros count) = true ∧ spell (zeros count) 0 = 0
  ∧ String.length (zeros count) = count.
Proof.
  induction count as [|count (IH1 & IH2 & IH3)]; [done|].
  split; [|split].
  - change (all_digits (zeros (S count))) with (all_digits (zeros count)). exact IH1.
  - exact IH2.
  - simpl. by rewrite IH3.
Qed.

Lemma take_drop (n : nat) (s : string) : (take n s ++ drop n s)%string = s.
Proof.
  revert s. induction n as [|n IH]; intros s; [by destruct s|].
  destruct s as [|c s]; [reflexivity|]. simpl. rewrite append_cons. by rewrite IH.
Qed.

Lemma length_take (n : nat) (s : string) :
  (n ≤ String.length s)%nat → String.length (take n s) = n.
Proof.
  revert s. induction n as [|n IH]; intros s; [by destruct s|].
  destruct s as [|c s]; simpl; [lia|]. intros H. rewrite IH; lia.
Qed.

(** Printing with nine fractional digits gives a decimal numeral that
    reads back as the same number of billionths. *)
Lemma fixed_string_reads (n : Z) :
  0 ≤ n → read_decimal (fixed_string 9 n) = Some (n, 9%nat).
Proof.
  intros Hn. unfold fixed_string.
  destruct (pretty_digits n Hn) as [Hdig Hval].
  set (m := pad_left 10 (pretty n)).
  assert (Hm : all_digits m = true ∧ spell m 0 = n ∧ (10 ≤ String.length m)%nat).
  { unfold m, pad_left.
    destruct (zeros_digits (10 - String.length (pretty n)) 0) as (Hz1 & Hz2 & Hz3).
    rewrite all_digits_app, spell_app, length_app, Hz1, Hz2, Hz3, Hdig, Hval.
    repeat split. lia. }
  destruct Hm as (Hall & Hspell & Hlen).
  simpl Nat.eqb. cbv iota.
  set (a := take (String.length m - 9) m).
  set (b := drop (String.length m - 9) m).
  assert (Hab : (a ++ b)%string = m) by apply take_drop.
  assert (Hla : String.length a = (String.length m - 9)%nat)
    by (apply length_take; lia).
  assert (Hlb : String.length b = 9%nat).
  { pose proof (length_app a b) as H. rewrite Hab in H. lia. }
  rewrite <- Hab in Hall, Hspell.
  rewrite all_digits_app in Hall. apply andb_true_iff in Hall. destruct Hall as [Ha Hb].
  rewrite spell_app in Hspell.
  assert (E1 : scan_digits (a ++ "." ++ b)%string 0 0
               = (spell a 0, String.length a, String "." b)).
  { rewrite scan_digits_app by done. reflexivity. }
  assert (E2 : scan_digits b (spell a 0) 0 = (n, 9%nat, EmptyString)).
  { rewrite <- (append_empty_r b) at 1. rewrite scan_digits_app by done.
    simpl. by rewrite Hspell, Hlb. }
  unfold read_decimal. rewrite E1.
  destruct (Nat.eqb_spec (String.length a) 0) as [|_]; [lia|].
  change (Ascii.eqb "." ".") with true. cbv iota. by rewrite E2.
Qed.

End DoubleSpec.

(** ** Rate-limited request executor *)

Module ExecutorSpec.
Import Executor.

Lemma with_proxy_idem (cfg : config) (proxyString : option string) :
  with_proxy (with_proxy cfg proxyString) proxyString = with_proxy cfg proxyString.
Proof.
  unfold with_proxy. destruct (parseProxy proxyString); [reflexivity|].
  reflexivity.
Qed.

Section Run.

Variable net : config -> nat -> exchange.
Variable now : Z.

(** The function as one equation, in the shape of the source. *)
Lemma axiosWithRetry_unfold (cfg : config) (retryCount maxRetries : nat)
  (accountName : string) (proxyString : option string) (st : state) :
  axiosWithRetry net now cfg retryCount maxRetries accountName proxyString st =
    match axios (net (with_proxy cfg proxyString) retryCount) with
    | inl response => (inl response, track_request retryCount st)
    | inr error =>
        if is_429 error then
          if lt_dec retryCount maxRetries then
            axiosWithRetry net now (with_proxy cfg proxyString) (S retryCount) maxRetries
              accountName proxyString
              (sleep (waitMs (retry_after error) retryCount)
                 (track_rate_limit now retryCount accountName
                    (track_request retryCount st)))
          else
            (inr (Error (rate_limit_message maxRetries)),
             track_failure
               (track_rate_limit now retryCount accountName
                  (track_request retryCount st)))
        else (inr (Rethrown error), track_request retryCount st)
    end.
Proof.
  simp axiosWithRetry.
  destruct (axios (net (with_proxy cfg proxyString) retryCount)) as [r|e]; simpl;
    [reflexivity|].
  destruct (is_429 e); simpl; [|reflexivity].
  destruct (lt_dec retryCount maxRetries); reflexivity.
Qed.

(** The configuration matters only through the proxy it ends up with. *)
Lemma axiosWithRetry_with_proxy (cfg : config) (retryCount maxRetries : nat)
  (accountName : string) (proxyString : option string) (st : state) :
  axiosWithRetry net now (with_proxy cfg proxyString) retryCount maxRetries
    accountName proxyString st
  = axiosWithRetry net now cfg retryCount maxRetries accountName proxyString st.
Proof.
  rewrite (axiosWithRetry_unfold (with_proxy cfg proxyString)).
  rewrite (axiosWithRetry_unfold cfg).
  by rewrite !with_proxy_idem.
Qed.

Lemma rate_limited_axios (x : exchange) (retryAfter : option string) :
  rate_limited x retryAfter →
  ∃ e, axios x = inr e ∧ is_429 e = true ∧ retry_after e = retryAfter.
Proof.
  intros (r & -> & Hs & Hh). simpl. rewrite Hs. simpl.
  eexists. split; [reflexivity|]. unfold is_429, retry_after. simpl.
  rewrite Hs. by split.
Qed.

Lemma track_request_waits (retryCount : nat) (st : state) :
  waits (track_request retryCount st) = waits st
  ∧ failedAfterRetry (stats (track_request retryCount st)) = failedAfterRetry (stats st).
Proof. unfold track_request. by destruct (retryCount =? 0)%nat. Qed.

(** [n] attempts in a row that are rate limited, with retries left for
    each: the run continues at attempt [retryCount + n], having waited once
    per attempt and with [failedAfterRetry] untouched. *)
Lemma axiosWithRetry_retries (hdr : nat → option string) (maxRetries : nat)
  (accountName : string) (proxyString : option string) (n : nat) :
  ∀ (cfg : config) (retryCount : nat) (st : state),
    (retryCount + n ≤ maxRetries)%nat →
    (∀ k, (retryCount ≤ k < retryCount + n)%nat →
          rate_limited (net (with_proxy cfg proxyString) k) (hdr k)) →
    ∃ st',
      axiosWithRetry net now cfg retryCount maxRetries accountName proxyString st
      = axiosWithRetry net now cfg (retryCount + n) maxRetries accountName proxyString st'
      ∧ waits st' = waits st ++ ((λ k, waitMs (hdr k) k) <$> seq retryCount n)
      ∧ failedAfterRetry (stats st') = failedAfterRetry (stats st).
Proof.
  induction n as [|n IH]; intros cfg retryCount st Hle Hall.
  - exists st. rewrite Nat.add_0_r. simpl. by rewrite app_nil_r.
  - destruct (rate_limited_axios _ _ (Hall retryCount ltac:(lia))) as (e & He & H429 & Hra).
    rewrite axiosWithRetry_unfold, He, H429.
    destruct (lt_dec retryCount maxRetries) as [_|Hn]; [|lia].
    rewrite axiosWithRetry_with_proxy.
    edestruct (IH cfg (S retryCount)) as (st' & Heq & Hw & Hf); [lia| |].
    { intros k Hk. apply Hall. lia. }
    exists st'. rewrite Heq. split; [f_equal; lia|].
    rewrite Hw, Hf. simpl.
    destruct (track_request_waits retryCount st) as [Hw0 Hf0].
    rewrite Hw0, Hf0, Hra. by rewrite <- app_assoc.
Qed.

(** An attempt that is not rate limited ends the run without waiting. *)
Lemma axiosWithRetry_settles (cfg : config) (retryCount maxRetries : nat)
  (accountName : string) (proxyString : option string) (st : state) :
  match axios (net (with_proxy cfg proxyString) retryCount) with
  | inl _ => True
  | inr e => is_429 e = false
  end →
  axiosWithRetry net now cfg retryCount maxRetries accountName proxyString st
  = (match axios (net (with_proxy cfg proxyString) retryCount) with
     | inl response => inl response
     | inr e => inr (Rethrown e)
     end,
     track_request retryCount st).
Proof.
  intros H. rewrite axiosWithRetry_unfold.
  destruct (axios (net (with_proxy cfg proxyString) retryCount)) as [r|e]; [done|].
  by rewrite H.
Qed.

(** The last allowed attempt never waits, whatever is answered. *)
Lemma axiosWithRetry_last (cfg : config) (maxRetries : nat)
  (accountName : string) (proxyString : option string) (st : state) :
  waits (axiosWithRetry net now cfg maxRetries maxRetries accountName proxyString st).2
  = waits st.
Proof.
  rewrite axiosWithRetry_unfold.
  destruct (axios (net (with_proxy cfg proxyString) maxRetries)) as [r|e]; simpl.
  - apply track_request_waits.
  - destruct (is_429 e); simpl; [|apply track_request_waits].
    destruct (lt_dec maxRetries maxRetries) as [Hlt|_]; [lia|]. simpl.
    apply track_request_waits.
Qed.

End Run.

(** [parseInt] and [parseProxy] on sample inputs. *)
Example parseInt_samples :
  JS.parseInt "120" = JS.Int 120
  ∧ JS.parseInt "  42abc" = JS.Int 42
  ∧ JS.parseInt "-7" = JS.Int (-7)
  ∧ JS.parseInt "1.5" = JS.Int 1
  ∧ JS.parseInt "0x1F" = JS.Int 31
  ∧ JS.parseInt "Wed, 21 Oct 2015 07:28:00 GMT" = JS.NaN
  ∧ JS.parseInt EmptyString = JS.NaN.
Proof. repeat split; reflexivity. Qed.

Example parseProxy_samples :
  parseProxy (Some "61.52.195.100:41744:user:pass")
  = Some {| host := "61.52.195.100"; port := JS.Int 41744; auth := Some ("user", "pass") |}
  ∧ parseProxy (Some "10.0.0.1:8080")
    = Some {| host := "10.0.0.1"; port := JS.Int 8080; auth := None |}
  ∧ parseProxy (Some "localhost") = None
  ∧ parseProxy None = None.
Proof. repeat split; reflexivity. Qed.

(** Without a [retry-after] header, and with an empty one, the wait is the
    capped exponential. *)
Lemma waitMs_backoff (retryAfter : option string) (retryCount : nat) :
  JS.truthy retryAfter = false →
  waitMs retryAfter retryCount
  = Double.of_integer (Z.min (1000 * 2 ^ Z.of_nat retryCount) 32000).
Proof. unfold waitMs. by intros ->. Qed.

(** With a header that is not empty the wait is the product of what
    [parseInt] makes of it and 1000. *)
Lemma waitMs_retry_after (h : string) (retryCount : nat) :
  h ≠ EmptyString →
  waitMs (Some h) retryCount
  = Double.mul (Double.of_num (JS.parseInt h)) (Double.of_integer 1000).
Proof. intros Hh. unfold waitMs. by destruct h. Qed.

(** A header that starts with the integer [s] gives a wait of [s * 1000],
    without rounding as long as the product stays below [2^53]. *)
Lemma waitMs_seconds (h : string) (s : Z) (retryCount : nat) :
  JS.parseInt h = JS.Int s → - 9007199254740 ≤ s ≤ 9007199254740 →
  waitMs (Some h) retryCount = Double.of_integer (s * 1000).
Proof.
  intros Hp Hs. rewrite waitMs_retry_after by (by intros ->).
  rewrite Hp. cbn [Double.of_num].
  rewrite !DoubleSpec.of_integer_exact by lia.
  apply DoubleSpec.mul_integers. lia.
Qed.

Lemma backoffMs_capped (retryCount : nat) :
  (5 ≤ retryCount)%nat → backoffMs retryCount = 32000.
Proof.
  intros H. unfold backoffMs.
  assert (2 ^ 5 ≤ 2 ^ Z.of_nat retryCount) by (apply Z.pow_le_mono_r; lia).
  lia.
Qed.

(** C2, as the code has it.  In a run whose first [n] attempts are answered
    by HTTP 429, the waits of the executor are, in order, [waitMs] of
    attempts [0 .. n-1].  The wait before retry [k] is
    [min(1000 * 2^k, 32000)] ms when the reply has no [retry-after] header,
    and also when the header is the empty string: 1000, 2000, 4000 for the
    first three, 32000 from the sixth on.  With a header that is not empty
    the wait is [parseInt(header) * 1000] in binary64 arithmetic: [s * 1000]
    when the header starts, after white space, with the integer [s] (up to
    9007199254740 the product is exact; whatever follows the integer is
    ignored), and [NaN] when it does not start with an integer.  Waits are
    binary64 values; an integer of magnitude below [2^53] is one of
    them. *)
Theorem axiosWithRetry_waits (net : config → nat → exchange) (now : Z)
  (hdr : nat → option string) (cfg : config) (maxRetries : nat)
  (accountName : string) (proxyString : option string) (st : state) (n : nat) :
  (n ≤ maxRetries)%nat →
  (∀ k, (k < n)%nat → rate_limited (net (with_proxy cfg proxyString) k) (hdr k)) →
  (n = maxRetries
   ∨ match axios (net (with_proxy cfg proxyString) n) with
     | inl _ => True
     | inr e => is_429 e = false
     end) →
  waits (axiosWithRetry net now cfg 0 maxRetries accountName proxyString st).2
    = waits st ++ ((λ k, waitMs (hdr k) k) <$> seq 0 n)
  ∧ (∀ k, hdr k = None ∨ hdr k = Some EmptyString →
          waitMs (hdr k) k = Double.of_integer (Z.min (1000 * 2 ^ Z.of_nat k) 32000))
  ∧ (∀ k h, hdr k = Some h → h ≠ EmptyString →
            waitMs (hdr k) k
            = Double.mul (Double.of_num (JS.parseInt h)) (Double.of_integer 1000))
  ∧ (∀ k h s, hdr k = Some h → JS.parseInt h = JS.Int s →
              - 9007199254740 ≤ s ≤ 9007199254740 →
              waitMs (hdr k) k = Double.of_integer (s * 1000))
  ∧ (∀ k h, hdr k = Some h → h ≠ EmptyString → JS.parseInt h = JS.NaN →
            waitMs (hdr k) k = Double.NaN)
  ∧ waitMs None 0 = Double.of_integer 1000 ∧ waitMs None 1 = Double.of_integer 2000
  ∧ waitMs None 2 = Double.of_integer 4000
  ∧ (∀ k, (5 ≤ k)%nat → waitMs None k = Double.of_integer 32000)
  ∧ (∀ z, - 2 ^ 53 < z < 2 ^ 53 → Double.of_integer z = Double.Fin (z * Double.unit)).
Proof.
  intros Hn Hall Hstop.
  split; [|split; [|split; [|split; [|split; [|split; [|split; [|split; [|split]]]]]]]];
    try reflexivity.
  - destruct (axiosWithRetry_retries net now hdr maxRetries accountName proxyString n
                cfg 0%nat st) as (st' & Heq & Hw & _); [lia| |].
    { intros k Hk. apply Hall. lia. }
    rewrite Heq, <- Hw. simpl.
    destruct Hstop as [->|Hstop].
    + apply axiosWithRetry_last.
    + rewrite axiosWithRetry_settles by exact Hstop. simpl.
      apply track_request_waits.
  - intros k [->| ->]; by apply waitMs_backoff.
  - intros k h -> Hh. by apply waitMs_retry_after.
  - intros k h s -> Hp Hs. by apply waitMs_seconds.
  - intros k h -> Hh Hp. rewrite waitMs_retry_after by done. by rewrite Hp.
  - intros k Hk. rewrite waitMs_backoff by done. fold (backoffMs k).
    by rewrite backoffMs_capped.
  - apply DoubleSpec.of_integer_exact.
Qed.

Lemma axiosWithRetry_waits_witness :
  waits (axiosWithRetry (λ _ _, too_many_requests None) 0 plain_config 0 7
           "lane" None fresh).2
  = Double.of_integer <$> [1000; 2000; 4000; 8000; 16000; 32000; 32000].
Proof.
  refine (proj1 (axiosWithRetry_waits (λ _ _, too_many_requests None) 0 (λ _, None)
                   plain_config 7 "lane" None fresh 7 _ _ _)).
  - lia.
  - intros k _. eexists. split; [reflexivity|]. split; reflexivity.
  - by left.
Defined.

(** A [retry-after] header need not give its number of seconds times 1000.
    An HTTP-date, which the header may carry, gives a wait of [NaN]; of a
    number with a fraction only the integer part counts; an empty header
    counts as absent; and from [2^53] on the wait is rounded: for
    9007199254740993 seconds it is 9007199254740992000 ms. *)
Lemma retry_after_not_seconds :
  waitMs (Some "Wed, 21 Oct 2015 07:28:00 GMT") 2 = Double.NaN
  ∧ waits (axiosWithRetry
             (λ _ _, too_many_requests (Some "Wed, 21 Oct 2015 07:28:00 GMT")) 0
             plain_config 0 1 "lane" None fresh).2
    = [Double.NaN]
  ∧ waitMs (Some "2.5") 0 = Double.of_integer 2000
  ∧ waitMs (Some EmptyString) 2 = Double.of_integer 4000
  ∧ waitMs (Some "9007199254740993") 0 = Double.of_integer 9007199254740992000
  ∧ Double.of_integer 9007199254740992000 ≠ Double.of_integer 9007199254740993000.
Proof. repeat split; by vm_compute. Qed.



End ExecutorSpec.

(** ** The generate-start-end handler *)

Module StartEndSpec.
Import StartEnd.

Section Handler.

Variable getRequestHash : request_body → string.
Variable strip_bearer : string → string.
Variable payload_text : request_body → option string → string.
Variable sess : TokenPool.session.

Local Abbreviation handler :=
  (generate_start_end getRequestHash strip_bearer payload_text sess).

(** Nothing after the duplicate check touches [recentRequests]. *)
Lemma submit_recentRequests (w : world) (body : request_body)
  (tokenObj : TokenPool.token) (srv : server) :
  recentRequests (submit strip_bearer payload_text w body tokenObj srv).2
  = recentRequests srv.
Proof.
  unfold submit. destruct (prompt body); [|done].
  destruct (if JS.truthy (TokenPool.authorization tokenObj) then _ else _); [|done].
  destruct (Executor.axiosWithRetry _ _ _ _ _ _ _ _) as [[r|t] ex]; [|done].
  destruct (Provider.b_operations (Executor.resp_data r)) as [entries|]; [|done].
  by destruct (Provider.to_handles entries).
Qed.

(** The map after a request is the one the duplicate check left, whatever
    happened afterwards: an entry is never removed on failure. *)
Lemma generate_start_end_recentRequests (w : world) (body : request_body) (srv : server) :
  recentRequests (handler w body srv).2
  = (Dedup.isDuplicateRequest (getRequestHash body) (now w) (recentRequests srv)).2.
Proof.
  unfold generate_start_end.
  destruct (Dedup.isDuplicateRequest _ _ _) as [duplicate recent]. simpl.
  destruct duplicate; [done|].
  destruct (JS.truthy (tokenName body)).
  - destruct (tokens_file w) as [allTokens|message]; [|done].
    destruct (TokenPool.find_stored _ _); [|done].
    by rewrite submit_recentRequests.
  - destruct (TokenPool.getNextToken _ _) as [[tokenObj|] p]; [|done].
    by rewrite submit_recentRequests.
Qed.

(** A request that the duplicate check rejects is answered with the
    duplicate error, and neither the pool nor the executor is used. *)
Lemma generate_start_end_duplicate (w : world) (body : request_body) (srv : server) :
  (Dedup.isDuplicateRequest (getRequestHash body) (now w) (recentRequests srv)).1 = true →
  (handler w body srv).1 = Failure duplicate_message
  ∧ pool (handler w body srv).2 = pool srv
  ∧ exec (handler w body srv).2 = exec srv.
Proof.
  unfold generate_start_end.
  destruct (Dedup.isDuplicateRequest _ _ _) as [duplicate recent]. simpl.
  by intros ->.
Qed.

End Handler.

(** C10.  The handler stores the fingerprint during the duplicate check,
    before anything is sent to the provider, and no later step removes it:
    after a request that passed the duplicate check at [now w1], whatever the
    provider answered (in particular when the request failed), the map holds
    the fingerprint with that time, and the same request made within 3000 ms
    is rejected as a duplicate without any call to the provider. *)
Theorem generate_start_end_failure_keeps_fingerprint
  (getRequestHash : request_body → string) (strip_bearer : string → string)
  (payload_text : request_body → option string → string) (sess : TokenPool.session)
  (w1 w2 : world) (body : request_body) (srv : server) :
  let first := generate_start_end getRequestHash strip_bearer payload_text sess w1 body srv in
  let second :=
    generate_start_end getRequestHash strip_bearer payload_text sess w2 body first.2 in
  (Dedup.isDuplicateRequest (getRequestHash body) (now w1) (recentRequests srv)).1 = false →
  now w2 - now w1 ≤ 3000 →
  recentRequests first.2 !! getRequestHash body = Some (now w1)
  ∧ second.1 = Failure duplicate_message
  ∧ exec second.2 = exec first.2
  ∧ pool second.2 = pool first.2.
Proof.
  intros first second Hfresh Hwindow.
  assert (Hstored : recentRequests first.2 !! getRequestHash body = Some (now w1)).
  { unfold first. rewrite generate_start_end_recentRequests.
    by apply DedupSpec.isDuplicateRequest_fresh. }
  split; [exact Hstored|].
  destruct (generate_start_end_duplicate getRequestHash strip_bearer payload_text sess
              w2 body first.2) as (H1 & H2 & H3).
  - rewrite DedupSpec.isDuplicateRequest_answer, Hstored.
    apply bool_decide_eq_true_2. unfold Dedup.REQUEST_DEDUP_WINDOW_MS. lia.
  - done.
Qed.

Lemma generate_start_end_failure_keeps_fingerprint_witness :
  let first :=
    generate_start_end sample_hash id (λ _ _, "{}") TokenPool.no_session
      (failing_world 1000) sample_body sample_server in
  first.1 = Failure "Request failed with status code 500"
  ∧ (generate_start_end sample_hash id (λ _ _, "{}") TokenPool.no_session
       (failing_world 4000) sample_body first.2).1 = Failure duplicate_message.
Proof.
  split; [reflexivity|].
  refine (proj1 (proj2 (generate_start_end_failure_keeps_fingerprint sample_hash id
                          (λ _ _, "{}") TokenPool.no_session
                          (failing_world 1000) (failing_world 4000)
                          sample_body sample_server _ _))).
  - reflexivity.
  - simpl. lia.
Defined.

End StartEndSpec.

(** ** Polling *)

Module PollerSpec.
Import Poller.

Lemma is_failed_not_successful (status : string) :
  is_failed status = true → is_successful status = false.
Proof.
  unfold is_failed, is_successful. intros H.
  apply orb_true_iff in H. destruct H as [H|H]; apply bool_decide_eq_true in H;
    subst; reflexivity.
Qed.

Section Poll.

Variable api : nat → check.
Variable intervalMs : Z.

(** A HIGH_TRAFFIC failure neither returns nor throws: the loop sleeps
    twice the interval and goes on with the next iteration. *)
Lemma poll_loop_high_traffic (remaining i : nat) (slept : list Z)
  (op : Provider.status_entry) :
  reports (api i) op → high_traffic op →
  poll_loop api intervalMs (S remaining) i slept
  = poll_loop api intervalMs remaining (S i) (slept ++ [intervalMs * 2]).
Proof.
  intros (res & ops & Hc & Hexp & Hops) [Hf Hm]. simpl.
  rewrite Hc, Hexp, Hops. simpl.
  by rewrite (is_failed_not_successful _ Hf), Hf, Hm.
Qed.

(** A SUCCESSFUL operation is returned at once. *)
Lemma poll_loop_successful (remaining i : nat) (slept : list Z)
  (op : Provider.status_entry) :
  reports (api i) op → is_successful (Provider.se_status op) = true →
  poll_loop api intervalMs (S remaining) i slept = (inl op, slept).
Proof.
  intros (res & ops & Hc & Hexp & Hops) Hs. simpl.
  rewrite Hc, Hexp, Hops. simpl. by rewrite Hs.
Qed.

(** A status that is neither SUCCESSFUL nor FAILED waits one interval. *)
Lemma poll_loop_pending (remaining i : nat) (slept : list Z)
  (op : Provider.status_entry) :
  reports (api i) op →
  is_successful (Provider.se_status op) = false →
  is_failed (Provider.se_status op) = false →
  poll_loop api intervalMs (S remaining) i slept
  = poll_loop api intervalMs remaining (S i) (slept ++ [intervalMs]).
Proof.
  intros (res & ops & Hc & Hexp & Hops) Hs Hf. simpl.
  rewrite Hc, Hexp, Hops. simpl. by rewrite Hs, Hf.
Qed.

(** The loop never runs more than [remaining] iterations: it sleeps at
    most that often. *)
Lemma poll_loop_bounded (remaining i : nat) (slept : list Z) :
  (length (poll_loop api intervalMs remaining i slept).2 ≤ length slept + remaining)%nat.
Proof.
  revert i slept. induction remaining as [|n IH]; intros i slept; simpl; [lia|].
  destruct (api i) as [res|m]; simpl; [|lia].
  destruct (negb (success res) && tokenExpired res); simpl; [lia|].
  destruct (operations res ≫= head) as [op|]; simpl; [|lia].
  destruct (is_successful (Provider.se_status op)); simpl; [lia|].
  destruct (is_failed (Provider.se_status op)).
  - destruct (JS.includes "HIGH_TRAFFIC" (errorMsg op)); simpl; [|lia].
    etrans; [apply IH|]. rewrite length_app. simpl. lia.
  - etrans; [apply IH|]. rewrite length_app. simpl. lia.
Qed.

End Poll.

End PollerSpec.

(** ** The batch poll loop of [runAutoLogger] *)

Module AutoLoggerSpec.
Import AutoLogger.

(** *** The counters *)

Lemma visit_counts (t : tally) (op : Provider.status_entry) :
  successCountPoll (visit t op)
    = (successCountPoll t + if successful op then 1 else 0)%nat
  ∧ failedCount (visit t op) = (failedCount t + if failed op then 1 else 0)%nat.
Proof.
  unfold visit, successful, failed.
  destruct (Provider.se_status op) as [|c s] eqn:E; [simpl; lia|].
  repeat case_bool_decide; simpl; try lia; congruence.
Qed.

Lemma foldl_visit_counts (ops : list Provider.status_entry) (t : tally) :
  successCountPoll (foldl visit t ops)
    = (successCountPoll t + length (filter (λ op, successful op = true) ops))%nat
  ∧ failedCount (foldl visit t ops)
    = (failedCount t + length (filter (λ op, failed op = true) ops))%nat.
Proof.
  revert t. induction ops as [|op ops IH]; intros t; simpl; [lia|].
  destruct (IH (visit t op)) as [-> ->].
  destruct (visit_counts t op) as [-> ->].
  rewrite !filter_cons.
  destruct (successful op), (failed op); repeat case_decide; simpl; try lia; done.
Qed.

(** *** Selection *)

(** Once a media id is selected, no operation changes the selection. *)
Lemma visit_keeps_selection (t : tally) (op : Provider.status_entry) :
  JS.truthy (t_selected t) = true → t_selected (visit t op) = t_selected t.
Proof.
  intros H. unfold visit. rewrite H.
  repeat case_bool_decide; simpl; try reflexivity.
  by rewrite andb_false_r.
Qed.

Lemma foldl_visit_keeps_selection (ops : list Provider.status_entry) (t : tally) :
  JS.truthy (t_selected t) = true → t_selected (foldl visit t ops) = t_selected t.
Proof.
  revert t. induction ops as [|op ops IH]; intros t H; simpl; [done|].
  rewrite IH; rewrite visit_keeps_selection; done.
Qed.

(** An operation that is not SUCCESSFUL, or that carries no media id,
    leaves selection and URLs alone. *)
Lemma visit_not_selectable (t : tally) (op : Provider.status_entry) :
  selectable op = false →
  t_selected (visit t op) = t_selected t ∧ t_urls (visit t op) = t_urls t.
Proof.
  unfold selectable, successful, visit. intros H.
  destruct (bool_decide (Provider.se_status op = "MEDIA_GENERATION_STATUS_SUCCESSFUL")).
  - simpl in H. rewrite H. simpl. by destruct (fifeUrl op).
  - repeat case_bool_decide; done.
Qed.

Lemma foldl_visit_not_selectable (ops : list Provider.status_entry) (t : tally) :
  Forall (λ op, selectable op = false) ops →
  t_selected (foldl visit t ops) = t_selected t.
Proof.
  intros H. revert t. induction H as [|op ops Hop _ IH]; intros t; simpl; [done|].
  rewrite IH. by apply visit_not_selectable.
Qed.

(** The first SUCCESSFUL operation that carries a media id is selected. *)
Lemma visit_selects (t : tally) (op : Provider.status_entry) (m : string) :
  successful op = true →
  Provider.se_mediaGenerationId op = Some m → JS.truthy_string m = true →
  JS.truthy (t_selected t) = false →
  t_selected (visit t op) = Some m.
Proof.
  unfold successful, visit. intros Hs Hm Ht Hsel.
  rewrite Hs, Hm, Hsel. simpl. by rewrite Ht.
Qed.

(** URLs only accumulate. *)
Lemma visit_urls_prefix (t : tally) (op : Provider.status_entry) :
  t_urls t `prefix_of` t_urls (visit t op).
Proof.
  unfold visit. repeat case_bool_decide; simpl; try done.
  destruct (fifeUrl op) as [u|]; [|done].
  destruct (_ && _); [by apply prefix_app_r|done].
Qed.

(** The URL of a SUCCESSFUL operation that carries a media id is in the
    list afterwards, selected or not. *)
Lemma visit_collects_url (t : tally) (op : Provider.status_entry) (u : string) :
  successful op = true →
  JS.truthy (Provider.se_mediaGenerationId op) = true →
  fifeUrl op = Some u → JS.truthy_string u = true →
  u ∈ t_urls (visit t op).
Proof.
  unfold successful, visit. intros Hs Hm Hu Ht.
  rewrite Hs, Hm, Hu, Ht. simpl.
  destruct (bool_decide (u ∈ t_urls t)) eqn:Hin; simpl.
  - by apply bool_decide_eq_true in Hin.
  - apply elem_of_app. right. by apply list_elem_of_singleton.
Qed.

Lemma foldl_visit_urls_prefix (ops : list Provider.status_entry) (t : tally) :
  t_urls t `prefix_of` t_urls (foldl visit t ops).
Proof.
  revert t. induction ops as [|op ops IH]; intros t; simpl; [done|].
  etrans; [apply visit_urls_prefix|apply IH].
Qed.

Lemma foldl_visit_collects_url (ops : list Provider.status_entry) (t : tally)
  (op : Provider.status_entry) (u : string) :
  op ∈ ops →
  successful op = true →
  JS.truthy (Provider.se_mediaGenerationId op) = true →
  fifeUrl op = Some u → JS.truthy_string u = true →
  u ∈ t_urls (foldl visit t ops).
Proof.
  intros Hin Hs Hm Hu Ht. revert t.
  induction ops as [|o ops IH]; intros t; [by apply elem_of_nil in Hin|].
  apply elem_of_cons in Hin. destruct Hin as [<-|Hin]; simpl.
  - destruct (foldl_visit_urls_prefix ops (visit t op)) as [rest ->].
    apply elem_of_app. left. by apply visit_collects_url.
  - by apply IH.
Qed.

(** *** The loop *)

Section Loop.

Variable replies : nat → list Provider.handle → poll_reply.
Variable totalVariants : nat.

Local Abbreviation body := (poll_body replies totalVariants).

Lemma tick_attempts (st : poll_state) :
  pollAttempts (tick replies totalVariants st) = pollAttempts st.
Proof. unfold tick. by destruct (replies _ _) as [|[ops|]]. Qed.

Lemma tick_waits (st : poll_state) :
  waits (tick replies totalVariants st) = waits st.
Proof. unfold tick. by destruct (replies _ _) as [|[ops|]]. Qed.

(** A tick sets [pollDone] exactly when its reply passes the completion
    test. *)
Lemma tick_done (st : poll_state) :
  pollDone (tick replies totalVariants st)
  = completing totalVariants (replies (pollAttempts st) (resultOps st)) || pollDone st.
Proof.
  unfold tick, completing. destruct (replies _ _) as [|[ops|]]; simpl; [done| |done].
  unfold count.
  destruct (foldl_visit_counts ops
              {| successCountPoll := 0; activeCount := 0; pendingCount := 0;
                 failedCount := 0; t_selected := selectedMediaId st;
                 t_urls := videoUrls st |}) as [-> ->].
  simpl. by destruct (totalVariants <=? _)%nat.
Qed.

Lemma poll_body_attempts (st : poll_state) :
  pollAttempts (body st) = S (pollAttempts st).
Proof.
  unfold poll_body. destruct (_ && _); simpl; by rewrite tick_attempts.
Qed.

Lemma poll_body_done (st : poll_state) :
  pollDone (body st)
  = completing totalVariants (replies (S (pollAttempts st)) (resultOps st)) || pollDone st.
Proof.
  unfold poll_body. destruct (_ && _); simpl; by rewrite tick_done.
Qed.

(** The loop sleeps ten seconds after a tick exactly when it goes on. *)
Lemma poll_body_waits (st : poll_state) :
  waits (body st) = waits st ++ (if continues (body st) then [10000] else []).
Proof.
  unfold continues. rewrite poll_body_attempts.
  unfold poll_body.
  pose proof (tick_attempts
                {| pollDone := pollDone st; pollAttempts := S (pollAttempts st);
                   selectedMediaId := selectedMediaId st; videoUrls := videoUrls st;
                   resultOps := resultOps st; waits := waits st |}) as Ha.
  pose proof (tick_waits
                {| pollDone := pollDone st; pollAttempts := S (pollAttempts st);
                   selectedMediaId := selectedMediaId st; videoUrls := videoUrls st;
                   resultOps := resultOps st; waits := waits st |}) as Hw.
  simpl in Ha, Hw.
  destruct (tick replies totalVariants _) as [done1 attempts1 sel1 urls1 ops1 waits1].
  simpl in *. subst attempts1 waits1.
  destruct done1; simpl.
  - by rewrite andb_false_r, app_nil_r.
  - destruct (S (pollAttempts st) <? maxPoll)%nat; simpl; [done|].
    by rewrite app_nil_r.
Qed.

Lemma iter_attempts (j : nat) (st : poll_state) :
  pollAttempts (Nat.iter j body st) = (pollAttempts st + j)%nat.
Proof.
  induction j as [|j IH]; simpl; [lia|]. rewrite poll_body_attempts, IH. lia.
Qed.

(** With enough fuel the loop ends because its test fails: it is some
    number [k] of iterations of the body, the test holding before each of
    them and failing after the last. *)
Lemma poll_while_iter (fuel : nat) (st : poll_state) :
  (maxPoll ≤ pollAttempts st + fuel)%nat →
  ∃ k, poll_while replies totalVariants fuel st = Nat.iter k body st
       ∧ (∀ j, (j < k)%nat → continues (Nat.iter j body st) = true)
       ∧ continues (Nat.iter k body st) = false.
Proof.
  revert st. induction fuel as [|fuel IH]; intros st Hfuel.
  - exists 0%nat. simpl. split; [done|]. split; [lia|].
    unfold continues. destruct (Nat.ltb_spec (pollAttempts st) maxPoll); [lia|done].
  - simpl. fold (continues st). destruct (continues st) eqn:Hc.
    + destruct (IH (body st)) as (k & Heq & Hbefore & Hafter).
      { rewrite poll_body_attempts. lia. }
      exists (S k). rewrite Nat.iter_succ_r. split; [done|]. split; [|done].
      intros [|j] Hj; [done|]. rewrite Nat.iter_succ_r. apply Hbefore. lia.
    + exists 0%nat. simpl. split; [done|]. split; [lia|done].
Qed.

(** The waits after [j] iterations of a loop that runs [n] of them. *)
Lemma iter_waits (n : nat) (st : poll_state) :
  waits st = [] →
  (∀ j, (j < n)%nat → continues (Nat.iter j body st) = true) →
  continues (Nat.iter n body st) = false →
  ∀ j, (j ≤ n)%nat → waits (Nat.iter j body st) = replicate (j `min` (n - 1)) 10000.
Proof.
  intros Hw Hbefore Hafter j. induction j as [|j IH]; intros Hj; [done|].
  simpl Nat.iter. rewrite poll_body_waits, IH by lia. simpl Nat.iter in *.
  destruct (decide (S j = n)) as [<-|Hne].
  - change (body (Nat.iter j body st)) with (Nat.iter (S j) body st).
    rewrite Hafter, app_nil_r. f_equal. lia.
  - change (body (Nat.iter j body st)) with (Nat.iter (S j) body st).
    rewrite Hbefore by lia.
    replace (S j `min` (n - 1))%nat with (S (j `min` (n - 1)))%nat by lia.
    by rewrite replicate_S_end.
Qed.

(** Selections survive later ticks. *)
Lemma poll_body_keeps_selection (st : poll_state) :
  JS.truthy (selectedMediaId st) = true →
  selectedMediaId (body st) = selectedMediaId st.
Proof.
  intros H. unfold poll_body.
  assert (Ht : ∀ st', JS.truthy (selectedMediaId st') = true →
             selectedMediaId (tick replies totalVariants st') = selectedMediaId st').
  { intros st' H'. unfold tick. destruct (replies _ _) as [|[ops|]]; simpl; try done.
    unfold count. by rewrite foldl_visit_keeps_selection. }
  destruct (_ && _); simpl; by rewrite Ht.
Qed.

Lemma iter_keeps_selection (j : nat) (st : poll_state) :
  JS.truthy (selectedMediaId st) = true →
  selectedMediaId (Nat.iter j body st) = selectedMediaId st.
Proof.
  intros H. induction j as [|j IH]; simpl; [done|].
  rewrite poll_body_keeps_selection; rewrite IH; done.
Qed.

(** The selection after an iteration, from the reply of its tick. *)
Lemma poll_body_selection (st : poll_state) :
  selectedMediaId (body st)
  = match replies (S (pollAttempts st)) (resultOps st) with
    | PollData (Some entries) =>
        t_selected (count (selectedMediaId st) (videoUrls st) entries)
    | _ => selectedMediaId st
    end.
Proof.
  unfold poll_body.
  assert (Ht : selectedMediaId
                 (tick replies totalVariants
                    {| pollDone := pollDone st; pollAttempts := S (pollAttempts st);
                       selectedMediaId := selectedMediaId st; videoUrls := videoUrls st;
                       resultOps := resultOps st; waits := waits st |})
               = match replies (S (pollAttempts st)) (resultOps st) with
                 | PollData (Some entries) =>
                     t_selected (count (selectedMediaId st) (videoUrls st) entries)
                 | _ => selectedMediaId st
                 end).
  { unfold tick. simpl. by destruct (replies _ _) as [|[entries|]]. }
  destruct (_ && _); simpl; exact Ht.
Qed.

(** While no tick reports a SUCCESSFUL entry with a media id, nothing is
    selected. *)
Lemma iter_without_selectable (k : nat) (st : poll_state) :
  (∀ j, (j < k)%nat →
        without_selectable (replies (S (pollAttempts st + j))
                              (resultOps (Nat.iter j body st)))) →
  selectedMediaId (Nat.iter k body st) = selectedMediaId st.
Proof.
  induction k as [|k IH]; intros H; [done|].
  simpl. rewrite poll_body_selection, iter_attempts.
  specialize (H k ltac:(lia)) as Hk.
  destruct (replies _ _) as [|[entries|]]; simpl in Hk.
  - apply IH. intros j Hj. apply H. lia.
  - unfold count. rewrite foldl_visit_not_selectable by done. simpl.
    apply IH. intros j Hj. apply H. lia.
  - apply IH. intros j Hj. apply H. lia.
Qed.

(** The URL list after an iteration, from the reply of its tick. *)
Lemma poll_body_urls (st : poll_state) :
  videoUrls (body st)
  = match replies (S (pollAttempts st)) (resultOps st) with
    | PollData (Some entries) =>
        t_urls (count (selectedMediaId st) (videoUrls st) entries)
    | _ => videoUrls st
    end.
Proof.
  unfold poll_body.
  assert (Ht : videoUrls
                 (tick replies totalVariants
                    {| pollDone := pollDone st; pollAttempts := S (pollAttempts st);
                       selectedMediaId := selectedMediaId st; videoUrls := videoUrls st;
                       resultOps := resultOps st; waits := waits st |})
               = match replies (S (pollAttempts st)) (resultOps st) with
                 | PollData (Some entries) =>
                     t_urls (count (selectedMediaId st) (videoUrls st) entries)
                 | _ => videoUrls st
                 end).
  { unfold tick. simpl. by destruct (replies _ _) as [|[entries|]]. }
  destruct (_ && _); simpl; exact Ht.
Qed.

Lemma poll_body_urls_prefix (st : poll_state) :
  videoUrls st `prefix_of` videoUrls (body st).
Proof.
  rewrite poll_body_urls. destruct (replies _ _) as [|[entries|]]; try done.
  apply (foldl_visit_urls_prefix entries
           {| successCountPoll := 0; activeCount := 0; pendingCount := 0;
              failedCount := 0; t_selected := selectedMediaId st;
              t_urls := videoUrls st |}).
Qed.

Lemma iter_urls_prefix (j d : nat) (st : poll_state) :
  videoUrls (Nat.iter j body st) `prefix_of` videoUrls (Nat.iter (d + j) body st).
Proof.
  induction d as [|d IH]; simpl; [done|].
  etrans; [exact IH|apply poll_body_urls_prefix].
Qed.

End Loop.

(** The whole loop as iterations of its body. *)
Lemma poll_iter (replies : nat → list Provider.handle → poll_reply)
  (ops : list Provider.handle) :
  ∃ k, poll replies ops = Nat.iter k (poll_body replies (length ops)) (poll_start ops)
       ∧ (∀ j, (j < k)%nat →
               continues (Nat.iter j (poll_body replies (length ops)) (poll_start ops))
               = true)
       ∧ continues (Nat.iter k (poll_body replies (length ops)) (poll_start ops)) = false.
Proof.
  apply (poll_while_iter replies (length ops) maxPoll (poll_start ops)).
  simpl. lia.
Qed.

(** What follows for a loop that ran [n] iterations from a fresh state. *)
Lemma iterations_stop (replies : nat → list Provider.handle → poll_reply)
  (totalVariants : nat) (start : poll_state) (n : nat) :
  let body := poll_body replies totalVariants in
  pollAttempts start = 0%nat → pollDone start = false → waits start = [] →
  (∀ j, (j < n)%nat → continues (Nat.iter j body start) = true) →
  continues (Nat.iter n body start) = false →
  pollAttempts (Nat.iter n body start) = n
  ∧ (1 ≤ n ≤ 120)%nat
  ∧ (∀ j, (j < n)%nat →
       pollDone (Nat.iter j body start) = false
       ∧ pollDone (Nat.iter (S j) body start)
         = completing totalVariants
             (replies (S j) (resultOps (Nat.iter j body start))))
  ∧ (pollDone (Nat.iter n body start) = true ∨ n = 120%nat)
  ∧ waits (Nat.iter n body start) = replicate (n - 1) 10000.
Proof.
  intros body Ha0 Hd0 Hw0 Hbefore Hafter.
  assert (Hatt : ∀ j, pollAttempts (Nat.iter j body start) = j).
  { intros j. unfold body. rewrite iter_attempts. lia. }
  assert (Hn : (1 ≤ n ≤ 120)%nat).
  { split.
    - destruct n as [|n']; [|lia]. simpl in Hafter. unfold continues in Hafter.
      rewrite Ha0, Hd0 in Hafter. done.
    - destruct (decide (n ≤ 120)%nat) as [|Hgt]; [done|].
      specialize (Hbefore 120%nat ltac:(lia)). unfold continues in Hbefore.
      rewrite Hatt in Hbefore. done. }
  assert (Hnotdone : ∀ j, (j < n)%nat → pollDone (Nat.iter j body start) = false).
  { intros j Hj. specialize (Hbefore j Hj). unfold continues in Hbefore.
    apply andb_true_iff in Hbefore. destruct Hbefore as [_ Hd].
    by apply negb_true_iff in Hd. }
  split; [apply Hatt|]. split; [exact Hn|]. split; [|split].
  - intros j Hj. split; [by apply Hnotdone|].
    simpl Nat.iter. unfold body at 1. rewrite poll_body_done.
    fold body. by rewrite (Hnotdone j Hj), orb_false_r, Hatt.
  - unfold continues in Hafter. apply andb_false_iff in Hafter.
    destruct Hafter as [Ha|Hd].
    + right. apply Nat.ltb_ge in Ha. rewrite Hatt in Ha. unfold maxPoll in Ha. lia.
    + left. by apply negb_false_iff in Hd.
  - pose proof (iter_waits replies totalVariants n start Hw0 Hbefore Hafter n (le_n n))
      as Hw.
    fold body in Hw. rewrite Hw. f_equal. lia.
Qed.

(** A step whose poll ends undone or without a selection is skipped. *)
Lemma after_submit_skips (toString_large : Z → string) (w : world)
  (promptNumber : nat) (prompt : string) (ops : list Provider.handle) (c : chain) :
  pollDone (poll (replies w) ops) = false ∨ selectedMediaId (poll (replies w) ops) = None →
  after_submit toString_large w promptNumber prompt ops c
  = (PollTimeout, poll (replies w) ops,
     push_error promptNumber prompt "Timeout poll video" c).
Proof.
  intros Hskip. unfold after_submit.
  generalize dependent (poll (replies w) ops). intros p Hskip.
  destruct (selectedMediaId p) as [selected|] eqn:Hsel; [|done].
  destruct Hskip as [Hd|?]; [|done]. by rewrite Hd.
Qed.

(** The loop ran as many iterations as [pollAttempts] says. *)
Lemma poll_iter_attempts (replies : nat → list Provider.handle → poll_reply)
  (ops : list Provider.handle) :
  poll replies ops
  = Nat.iter (pollAttempts (poll replies ops)) (poll_body replies (length ops))
      (poll_start ops).
Proof.
  destruct (poll_iter replies ops) as (n & Hp & _ & _).
  assert (Hn : pollAttempts (poll replies ops) = n).
  { rewrite Hp, iter_attempts. simpl. lia. }
  rewrite Hn. exact Hp.
Qed.

(** C7, as the code has it.  The selection looks only at SUCCESSFUL entries
    that carry a media id.  Suppose that tick [k + 1] of the poll loop is
    the first whose reply has such an entry, that [op] is the first such
    entry of that reply and that [m] is its media id.  Then [m] is the
    selected media id at the end of the loop and after every iteration from
    that tick on: SUCCESSFUL entries seen later do not replace it.  The
    video URL of every SUCCESSFUL entry with a media id, of whatever tick,
    is in the collected list at the end.  SUCCESSFUL entries without a media
    id, before or after, change neither the selection nor the list. *)
Theorem first_success_is_selected (replies : nat → list Provider.handle → poll_reply)
  (ops : list Provider.handle) (k : nat) (pre post : list Provider.status_entry)
  (op : Provider.status_entry) (m : string) :
  (k < pollAttempts (poll replies ops))%nat →
  (∀ j, (j < k)%nat →
        without_selectable
          (replies (S j)
             (resultOps (Nat.iter j (poll_body replies (length ops)) (poll_start ops))))) →
  replies (S k) (resultOps (Nat.iter k (poll_body replies (length ops)) (poll_start ops)))
    = PollData (Some (pre ++ op :: post)) →
  Forall (λ o, selectable o = false) pre →
  successful op = true →
  Provider.se_mediaGenerationId op = Some m → JS.truthy_string m = true →
  selectedMediaId (poll replies ops) = Some m
  ∧ (∀ j, (k < j)%nat →
          selectedMediaId (Nat.iter j (poll_body replies (length ops)) (poll_start ops))
          = Some m)
  ∧ (∀ j entries o u,
       (j < pollAttempts (poll replies ops))%nat →
       replies (S j) (resultOps (Nat.iter j (poll_body replies (length ops)) (poll_start ops)))
         = PollData (Some entries) →
       o ∈ entries → successful o = true →
       JS.truthy (Provider.se_mediaGenerationId o) = true →
       fifeUrl o = Some u → JS.truthy_string u = true →
       u ∈ videoUrls (poll replies ops))
  ∧ (∀ t o, selectable o = false →
       t_selected (visit t o) = t_selected t ∧ t_urls (visit t o) = t_urls t).
Proof.
  intros Hk Hnone Hreply Hpre Hop Hm Htruthy.
  pose proof (poll_iter_attempts replies ops) as Hp.
  set (n := pollAttempts (poll replies ops)) in *.
  set (body := poll_body replies (length ops)) in *.
  assert (Hatt : ∀ j, pollAttempts (Nat.iter j body (poll_start ops)) = j).
  { intros j. unfold body. rewrite iter_attempts. simpl. lia. }
  assert (Hsel : selectedMediaId (Nat.iter (S k) body (poll_start ops)) = Some m).
  { simpl Nat.iter. unfold body at 1. rewrite poll_body_selection.
    fold body. rewrite Hatt, Hreply.
    assert (H0 : selectedMediaId (Nat.iter k body (poll_start ops)) = None).
    { unfold body. rewrite iter_without_selectable; [done|].
      intros j Hj. simpl. by apply Hnone. }
    rewrite H0. unfold count. rewrite foldl_app. simpl.
    rewrite foldl_visit_keeps_selection.
    - apply visit_selects; try done.
      by rewrite foldl_visit_not_selectable.
    - erewrite visit_selects; try done.
      by rewrite foldl_visit_not_selectable. }
  assert (Hlater : ∀ j, (k < j)%nat →
            selectedMediaId (Nat.iter j body (poll_start ops)) = Some m).
  { intros j Hj. replace j with ((j - S k) + S k)%nat by lia.
    rewrite Nat.iter_add. unfold body at 1.
    rewrite iter_keeps_selection; fold body; by rewrite Hsel. }
  split; [|split; [|split]]; [| | |apply visit_not_selectable].
  - rewrite Hp. by apply Hlater.
  - exact Hlater.
  - intros j entries o u Hj Hr Hin Hs Hmid Hu Hut.
    assert (Hin' : u ∈ videoUrls (Nat.iter (S j) body (poll_start ops))).
    { simpl Nat.iter. unfold body at 1. rewrite poll_body_urls.
      fold body. rewrite Hatt, Hr. unfold count.
      by eapply foldl_visit_collects_url. }
    rewrite Hp.
    destruct (iter_urls_prefix replies (length ops) (S j) (n - S j) (poll_start ops))
      as [rest Hrest].
    fold body in Hrest. replace (n - S j + S j)%nat with n in Hrest by lia.
    rewrite Hrest. apply elem_of_app. by left.
Qed.

Section Step.

Variable toString_large : Z → string.

(** C6.  The batch poll loop runs [n = pollAttempts] iterations with
    [1 <= n <= 120]: before each of them [pollDone] was still unset, each
    tick sets [pollDone] exactly when the SUCCESSFUL and FAILED entries of
    its reply number at least [totalVariants], and the loop stops at the
    first tick that does so or else after 120 attempts; consecutive
    attempts are 10000 ms apart.  When the loop ends without [pollDone] (the
    budget is used up) or without a selected media id, the prompt is skipped:
    the step ends with the poll timeout and the clip list and the last clip
    id are as before. *)
Theorem poll_stops (w : world) (promptNumber : nat) (prompt : string)
  (ops : list Provider.handle) (c : chain) :
  ∃ n,
    poll (replies w) ops = Nat.iter n (poll_body (replies w) (length ops)) (poll_start ops)
    ∧ pollAttempts (poll (replies w) ops) = n
    ∧ (1 ≤ n ≤ 120)%nat
    ∧ (∀ j, (j < n)%nat →
         pollDone (Nat.iter j (poll_body (replies w) (length ops)) (poll_start ops)) = false
         ∧ pollDone (Nat.iter (S j) (poll_body (replies w) (length ops)) (poll_start ops))
           = completing (length ops)
               (replies w (S j)
                  (resultOps
                     (Nat.iter j (poll_body (replies w) (length ops)) (poll_start ops)))))
    ∧ (pollDone (poll (replies w) ops) = true ∨ n = 120%nat)
    ∧ waits (poll (replies w) ops) = replicate (n - 1) 10000
    ∧ (pollDone (poll (replies w) ops) = false
       ∨ selectedMediaId (poll (replies w) ops) = None →
       ∃ c',
         after_submit toString_large w promptNumber prompt ops c
           = (PollTimeout, poll (replies w) ops, c')
         ∧ initialClips c' = initialClips c
         ∧ lastClipId c' = lastClipId c).
Proof.
  destruct (poll_iter (replies w) ops) as (n & Hp & Hbefore & Hafter).
  destruct (iterations_stop (replies w) (length ops) (poll_start ops) n
              eq_refl eq_refl eq_refl Hbefore Hafter) as (H1 & H2 & H3 & H4 & H5).
  exists n. rewrite Hp.
  split; [reflexivity|]. split; [exact H1|]. split; [exact H2|].
  split; [exact H3|]. split; [exact H4|]. split; [exact H5|].
  rewrite <- Hp. intros Hskip.
  rewrite (after_submit_skips toString_large w promptNumber prompt ops c Hskip).
  eexists. split; [reflexivity|]. split; reflexivity.
Qed.

(** Downloads never touch the clip list or the last clip id. *)
Lemma download_loop_chain (w : world) (promptNumber : nat) (prompt : string)
  (urls : list string) (i : nat) (ok : bool) (c : chain) :
  initialClips (download_loop w promptNumber prompt urls i ok c).2 = initialClips c
  ∧ lastClipId (download_loop w promptNumber prompt urls i ok c).2 = lastClipId c.
Proof.
  revert i ok c. induction urls as [|u urls IH]; intros i ok c; simpl; [done|].
  destruct (i <? 2)%nat; [|done].
  destruct (download_ok w u); [apply IH|].
  split; [rewrite (proj1 (IH _ _ _))|rewrite (proj2 (IH _ _ _))]; done.
Qed.

Lemma download_chain (w : world) (promptNumber : nat) (prompt : string)
  (urls : list string) (c : chain) :
  initialClips (download w promptNumber prompt urls c) = initialClips c
  ∧ lastClipId (download w promptNumber prompt urls c) = lastClipId c.
Proof.
  unfold download. destruct urls as [|u urls]; [done|].
  pose proof (download_loop_chain w promptNumber prompt (u :: urls) 0 true c) as H.
  destruct (download_loop w promptNumber prompt (u :: urls) 0 true c) as [ok c1].
  simpl in H. by destruct ok.
Qed.

(** The scene update step in its two cases. *)
Lemma update_scene_cases (w : world) (promptNumber : nat) (prompt selected : string)
  (c : chain) :
  let updatedClips :=
    initialClips c ++ [newClip toString_large (initialClips c) selected prompt] in
  (update_ok w updatedClips = false →
     update_scene toString_large w promptNumber prompt selected c
     = (UpdateSceneFailed, push_error promptNumber prompt "Lỗi updateScene" c))
  ∧ (update_ok w updatedClips = true →
     update_scene toString_large w promptNumber prompt selected c
     = (Done,
        {| initialClips := updatedClips; lastClipId := Some selected;
           successCount := successCount c; errorPrompts := errorPrompts c;
           pauses := pauses c ++ [2000] |})).
Proof.
  intros updatedClips. unfold update_scene. fold updatedClips.
  split; intros ->; reflexivity.
Qed.

(** The failures of the steps after the head are handled: none of them
    throws. *)
Lemma process_prompt_handled (w : world) (promptIndex : nat) (prompt : string)
  (c : chain) :
  head_throws prompt c = false →
  (process_prompt toString_large w promptIndex prompt c).1 ≠ Threw.
Proof.
  unfold process_prompt. intros ->.
  destruct (generate w) as [| |entries]; [done|done|].
  destruct (Provider.to_handles entries) as [ops|]; [|done].
  unfold after_submit.
  destruct (selectedMediaId (poll (replies w) ops)) as [chosen|]; [|done].
  destruct (pollDone (poll (replies w) ops) && JS.truthy_string chosen); [|done].
  unfold update_scene. by destruct (update_ok w _).
Qed.

Lemma head_throws_cases (prompt : string) (c : chain) :
  head_throws prompt c = true ↔ promptType prompt = continue ∧ lastClipId c = None.
Proof.
  unfold head_throws. destruct (promptType prompt), (lastClipId c); split; try done.
  all: by intros [? ?].
Qed.

(** An iteration throws exactly at a [continue] prompt without a last clip
    id, and then it changes nothing. *)
Lemma process_prompt_threw (w : world) (promptIndex : nat) (prompt : string) (c : chain) :
  ((process_prompt toString_large w promptIndex prompt c).1 = Threw
   ↔ promptType prompt = continue ∧ lastClipId c = None)
  ∧ ((process_prompt toString_large w promptIndex prompt c).1 = Threw →
     (process_prompt toString_large w promptIndex prompt c).2 = c).
Proof.
  rewrite <- head_throws_cases.
  destruct (head_throws prompt c) eqn:E.
  - unfold process_prompt. rewrite E. by repeat split.
  - pose proof (process_prompt_handled w promptIndex prompt c E) as Hn.
    split; [split; [done|done]|done].
Qed.

(** One iteration and the anchor: unless it ends with a successful scene
    update, clip list and last clip id are unchanged; when it does, they are
    the clip list extended by one clip and that clip's id. *)
Lemma process_prompt_cases (w : world) (promptIndex : nat) (prompt : string) (c : chain) :
  let whole := process_prompt toString_large w promptIndex prompt c in
  (whole.1 ≠ Done ∧ initialClips whole.2 = initialClips c
   ∧ lastClipId whole.2 = lastClipId c)
  ∨ (whole.1 = Done
     ∧ ∃ chosen,
         initialClips whole.2
           = initialClips c ++ [newClip toString_large (initialClips c) chosen prompt]
         ∧ lastClipId whole.2 = Some chosen
         ∧ update_ok w (initialClips whole.2) = true).
Proof.
  intros whole. unfold whole, process_prompt.
  destruct (head_throws prompt c); [left; done|].
  destruct (generate w) as [| |entries]; [left; done|left; done|].
  destruct (Provider.to_handles entries) as [ops|]; [|left; done].
  unfold after_submit.
  generalize (poll (replies w) ops). intros p.
  destruct (selectedMediaId p) as [chosen|]; [|left; done].
  destruct (pollDone p && JS.truthy_string chosen); [|left; done].
  destruct (download_chain w (promptIndex + 2) prompt (videoUrls p) c) as [Hc Hl].
  set (c1 := download w (promptIndex + 2) prompt (videoUrls p) c) in *.
  unfold update_scene.
  destruct (update_ok w _) eqn:Hu; simpl.
  - right. split; [done|]. exists chosen. rewrite Hc. split; [done|]. split; [done|].
    by rewrite <- Hc.
  - left. by rewrite Hc, Hl.
Qed.

(** A last clip id, once there, stays. *)
Lemma process_prompt_keeps_anchor (w : world) (promptIndex : nat) (prompt : string)
  (c : chain) :
  is_Some (lastClipId c) →
  is_Some (lastClipId (process_prompt toString_large w promptIndex prompt c).2).
Proof.
  intros Hc.
  destruct (process_prompt_cases w promptIndex prompt c) as [(_ & _ & ->)|(_ & ch & _ & -> & _)];
    [done|by eexists].
Qed.

(** The loop at one prompt: it goes on unless the iteration throws. *)
Lemma run_prompts_cons (worlds : nat → world) (promptIndex : nat) (prompt : string)
  (rest : list string) (c : chain) :
  let whole := process_prompt toString_large (worlds promptIndex) promptIndex prompt c in
  run_prompts toString_large worlds promptIndex (prompt :: rest) c
  = if bool_decide (whole.1 = Threw) then ([Threw], c)
    else (whole.1 :: (run_prompts toString_large worlds (S promptIndex) rest whole.2).1,
          (run_prompts toString_large worlds (S promptIndex) rest whole.2).2).
Proof.
  intros whole. cbn [run_prompts].
  pose proof (proj2 (process_prompt_threw (worlds promptIndex) promptIndex prompt c)) as Hc.
  fold whole in Hc |- *. destruct whole as [o c1]. cbn [fst snd] in *.
  destruct o; try (rewrite bool_decide_eq_false_2 by done;
                   by destruct (run_prompts toString_large worlds (S promptIndex) rest c1)).
  rewrite bool_decide_eq_true_2 by done. by rewrite Hc.
Qed.

(** Every prompt of the list is processed when the loop starts with a last
    clip id, and also when every prompt is a [new] prompt. *)
Lemma run_prompts_length (worlds : nat → world) (prompts : list string) :
  ∀ (promptIndex : nat) (c : chain),
    is_Some (lastClipId c) ∨ Forall (λ p, promptType p = new) prompts →
    length (run_prompts toString_large worlds promptIndex prompts c).1 = length prompts.
Proof.
  induction prompts as [|prompt rest IH]; intros promptIndex c Hc; [done|].
  rewrite run_prompts_cons.
  destruct (process_prompt_threw (worlds promptIndex) promptIndex prompt c) as [Ht _].
  rewrite bool_decide_eq_false_2.
  - cbn [fst length]. f_equal. apply IH.
    destruct Hc as [Hc|Hall].
    + left. by apply process_prompt_keeps_anchor.
    + right. by inversion Hall.
  - intros E. apply Ht in E as [Hp Hl]. destruct Hc as [[id Hid]|Hall].
    + congruence.
    + inversion Hall; congruence.
Qed.

(** C9, as the code has it.  When the scene update call fails, the step of
    that prompt ends there and the clip list and the last clip id stay as
    they were (as does the list of pauses: the step does not reach its
    closing pause).  When it succeeds, the clip list becomes the list that
    was sent and the last clip id the id of the new clip.  For a whole
    prompt: unless the step reaches a successful scene update, clip list and
    last clip id are unchanged; when it does, they are the clip list
    extended by one clip and that clip's id.  The loop over the prompts does
    not stop at a failed scene update, nor at any other failure that the
    iteration handles: it goes on with the next prompt from the state the
    failed one left.  What ends the loop early is only the [TypeError] of an
    iteration's head, thrown for a [continue] prompt while there is no last
    clip id; a loop that starts with a last clip id processes every
    prompt. *)
Theorem update_scene_advances_only_on_success (w : world) (promptIndex : nat)
  (prompt selected : string) (c : chain) :
  let promptNumber := (promptIndex + 2)%nat in
  let updatedClips :=
    initialClips c ++ [newClip toString_large (initialClips c) selected prompt] in
  let step := update_scene toString_large w promptNumber prompt selected c in
  let whole := process_prompt toString_large w promptIndex prompt c in
  (update_ok w updatedClips = false →
     step.1 = UpdateSceneFailed
     ∧ initialClips step.2 = initialClips c
     ∧ lastClipId step.2 = lastClipId c
     ∧ pauses step.2 = pauses c)
  ∧ (update_ok w updatedClips = true →
     step.1 = Done
     ∧ initialClips step.2 = updatedClips
     ∧ lastClipId step.2 = Some selected
     ∧ clipId <$> last (initialClips step.2) = Some selected)
  ∧ (whole.1 ≠ Done →
     initialClips whole.2 = initialClips c ∧ lastClipId whole.2 = lastClipId c)
  ∧ (whole.1 = Done →
     ∃ chosen,
       initialClips whole.2
         = initialClips c ++ [newClip toString_large (initialClips c) chosen prompt]
       ∧ lastClipId whole.2 = Some chosen
       ∧ update_ok w (initialClips whole.2) = true)
  ∧ (whole.1 = Threw ↔ promptType prompt = continue ∧ lastClipId c = None)
  ∧ (∀ (worlds : nat → world) (rest : list string),
       worlds promptIndex = w →
       (whole.1 ≠ Threw →
        run_prompts toString_large worlds promptIndex (prompt :: rest) c
        = (whole.1 :: (run_prompts toString_large worlds (S promptIndex) rest whole.2).1,
           (run_prompts toString_large worlds (S promptIndex) rest whole.2).2))
       ∧ (whole.1 = Threw →
          run_prompts toString_large worlds promptIndex (prompt :: rest) c = ([Threw], c))
       ∧ (is_Some (lastClipId c) →
          length (run_prompts toString_large worlds promptIndex (prompt :: rest) c).1
          = S (length rest))).
Proof.
  intros promptNumber updatedClips step whole.
  destruct (update_scene_cases w promptNumber prompt selected c) as [Hfail Hok].
  fold updatedClips in Hfail, Hok. fold step in Hfail, Hok.
  pose proof (process_prompt_cases w promptIndex prompt c) as Hwhole.
  fold whole in Hwhole.
  split; [|split; [|split; [|split; [|split]]]].
  - intros H. rewrite (Hfail H). done.
  - intros H. rewrite (Hok H). simpl. split; [done|]. split; [done|]. split; [done|].
    unfold updatedClips. by rewrite last_snoc.
  - intros Hne. destruct Hwhole as [(_ & H1 & H2)|[Hd _]]; [done|contradiction].
  - intros Hd. destruct Hwhole as [(Hne & _)|[_ H]]; [contradiction|exact H].
  - apply process_prompt_threw.
  - intros worlds rest Hw.
    pose proof (run_prompts_cons worlds promptIndex prompt rest c) as Hcons.
    cbv zeta in Hcons. rewrite Hw in Hcons. fold whole in Hcons.
    split; [|split].
    + intros Hne. by rewrite Hcons, bool_decide_eq_false_2.
    + intros He. by rewrite Hcons, bool_decide_eq_true_2.
    + intros Hc. apply (run_prompts_length worlds (prompt :: rest)). by left.
Qed.

End Step.

(** A job whose operation stays PENDING is polled 120 times and skipped. *)
Lemma poll_stops_witness :
  pollAttempts (poll (script [[Provider.pending "op-1"]]) [Provider.handle_of "op-1"]) = 120%nat
  ∧ ∃ c',
      after_submit no_exponent_form (sample_world [[Provider.pending "op-1"]] true) 2 "a prompt"
        [Provider.handle_of "op-1"] started
      = (PollTimeout, poll (script [[Provider.pending "op-1"]]) [Provider.handle_of "op-1"], c')
      ∧ initialClips c' = one_clip ∧ lastClipId c' = Some "media-0".
Proof.
  split; [by vm_compute|].
  destruct (poll_stops no_exponent_form (sample_world [[Provider.pending "op-1"]] true) 2
              "a prompt" [Provider.handle_of "op-1"] started)
    as (n & _ & _ & _ & _ & _ & _ & H).
  apply H. left. by vm_compute.
Defined.

Lemma first_success_is_selected_witness :
  selectedMediaId (poll (script two_variants) [Provider.handle_of "op-1"; Provider.handle_of "op-2"])
  = Some "media-1"
  ∧ "https://video/2"
      ∈ videoUrls (poll (script two_variants) [Provider.handle_of "op-1"; Provider.handle_of "op-2"]).
Proof.
  destruct (first_success_is_selected (script two_variants)
              [Provider.handle_of "op-1"; Provider.handle_of "op-2"] 1 []
              [Provider.pending "op-2"] (Provider.done_with "op-1" "media-1" "https://video/1") "media-1")
    as (Hsel & _ & Hurls & _).
  - vm_compute. lia.
  - intros j Hj. replace j with 0%nat by lia. vm_compute.
    repeat constructor.
  - reflexivity.
  - constructor.
  - reflexivity.
  - reflexivity.
  - reflexivity.
  - split; [exact Hsel|].
    apply (Hurls 2%nat (default [] (two_variants !! 2%nat))
             (Provider.done_with "op-2" "media-2" "https://video/2") "https://video/2").
    + vm_compute. lia.
    + reflexivity.
    + apply elem_of_cons. right. apply elem_of_cons. by left.
    + reflexivity.
    + reflexivity.
    + reflexivity.
    + reflexivity.
Defined.

(** The guard on [op.mediaGenerationId]: a SUCCESSFUL entry without a media
    id is passed over.  Here the first SUCCESSFUL entry observed has none:
    the media id selected is that of the entry after it, and the URL of the
    first entry is not collected. *)
Lemma selection_needs_media_id :
  selectable <$> default [] (head unnamed_success) = [false; true]
  ∧ successful <$> default [] (head unnamed_success) = [true; true]
  ∧ selectedMediaId
      (poll (script unnamed_success) [Provider.handle_of "op-1"; Provider.handle_of "op-2"])
    = Some "media-2"
  ∧ videoUrls
      (poll (script unnamed_success) [Provider.handle_of "op-1"; Provider.handle_of "op-2"])
    = ["https://video/2"]
  ∧ pollAttempts
      (poll (script unnamed_success) [Provider.handle_of "op-1"; Provider.handle_of "op-2"])
    = 1%nat.
Proof. repeat split; by vm_compute. Qed.

Lemma update_scene_advances_only_on_success_witness :
  (update_scene no_exponent_form (sample_world two_variants false) 2 "a prompt"
     "media-1" started).1 = UpdateSceneFailed
  ∧ initialClips
      (update_scene no_exponent_form (sample_world two_variants false) 2 "a prompt"
         "media-1" started).2 = one_clip
  ∧ lastClipId
      (update_scene no_exponent_form (sample_world two_variants true) 2 "a prompt"
         "media-1" started).2 = Some "media-1"
  ∧ lastClipId
      (process_prompt no_exponent_form (sample_world two_variants false) 0 "a prompt"
         started).2 = Some "media-0"
  ∧ length
      (run_prompts no_exponent_form (λ _, sample_world two_variants false) 0
         ["a prompt"; "another prompt"] started).1 = 2%nat.
Proof.
  pose proof (update_scene_advances_only_on_success no_exponent_form
                (sample_world two_variants false) 0 "a prompt" "media-1" started)
    as (Hfail & _ & Hkeep & _ & _ & Hloop).
  pose proof (update_scene_advances_only_on_success no_exponent_form
                (sample_world two_variants true) 0 "a prompt" "media-1" started)
    as (_ & Hok & _ & _).
  destruct (Hfail eq_refl) as (H1 & H2 & _ & _).
  destruct (Hok eq_refl) as (_ & _ & H3 & _).
  split; [exact H1|]. split; [exact H2|]. split; [exact H3|].
  split; [apply Hkeep; by vm_compute|].
  apply (Hloop (λ _, sample_world two_variants false) ["another prompt"] eq_refl).
  by eexists.
Defined.

(** After a failed scene update the loop goes on with the next prompt,
    from the unadvanced state: here the scene has one clip, the first prompt
    fails at the update and the second one appends its clip after the clip
    the scene had. *)
Lemma update_failure_does_not_halt :
  (run_prompts no_exponent_form
     (λ i, sample_world two_variants (bool_decide (i = 1%nat))) 0
     ["first prompt"; "second prompt"] started).1
  = [UpdateSceneFailed; Done]
  ∧ lastClipId
      (run_prompts no_exponent_form
         (λ i, sample_world two_variants (bool_decide (i = 1%nat))) 0
         ["first prompt"; "second prompt"] started).2
    = Some "media-1"
  ∧ prompt
      <$> initialClips
            (run_prompts no_exponent_form
               (λ i, sample_world two_variants (bool_decide (i = 1%nat))) 0
               ["first prompt"; "second prompt"] started).2
    = ["opening"; "second prompt"]
  ∧ (process_prompt no_exponent_form (sample_world two_variants false) 0
       "first prompt" started).2
    = push_error 2 "first prompt" "Lỗi updateScene"
        (download (sample_world two_variants false) 2 "first prompt"
           ["https://video/1"; "https://video/2"] started).
Proof. repeat split; by vm_compute. Qed.

End AutoLoggerSpec.

(** ** HIGH_TRAFFIC failures *)

Module HighTrafficSpec.
Import Poller AutoLogger.

(** C1, as the code has it.  [pollOperation] treats a FAILED status whose
    error message mentions HIGH_TRAFFIC as retryable: the tick neither
    returns nor throws, the loop sleeps [2 * intervalMs] instead of
    [intervalMs] and goes on with the next attempt; answered
    FAILED(HIGH_TRAFFIC), FAILED(HIGH_TRAFFIC), SUCCESSFUL with at least
    three attempts allowed, it returns the SUCCESSFUL operation at the third
    tick.  [pollOperation] keeps no tally.  The batch loop of
    [runAutoLogger], which keeps one, has no HIGH_TRAFFIC case: every FAILED
    entry counts towards completion, whatever its error message. *)
Theorem pollOperation_retries_high_traffic (api : nat → check) (intervalMs : Z) :
  (∀ remaining i slept op,
     Poller.reports (api i) op → Poller.high_traffic op →
     poll_loop api intervalMs (S remaining) i slept
     = poll_loop api intervalMs remaining (S i) (slept ++ [intervalMs * 2]))
  ∧ (∀ maxTries op1 op2 op3,
       (3 ≤ maxTries)%nat →
       Poller.reports (api 0%nat) op1 → Poller.high_traffic op1 →
       Poller.reports (api 1%nat) op2 → Poller.high_traffic op2 →
       Poller.reports (api 2%nat) op3 →
       is_successful (Provider.se_status op3) = true →
       pollOperation api intervalMs maxTries
       = (inl op3, [intervalMs * 2; intervalMs * 2]))
  ∧ (∀ t op, AutoLogger.failed op = true →
             failedCount (visit t op) = S (failedCount t)
             ∧ successCountPoll (visit t op) = successCountPoll t).
Proof.
  split; [|split].
  - intros remaining i slept op. apply PollerSpec.poll_loop_high_traffic.
  - intros maxTries op1 op2 op3 Hm H1 Ht1 H2 Ht2 H3 Hs3.
    destruct maxTries as [|[|[|n]]]; try lia.
    unfold pollOperation.
    rewrite (PollerSpec.poll_loop_high_traffic api intervalMs _ _ _ op1 H1 Ht1).
    rewrite (PollerSpec.poll_loop_high_traffic api intervalMs _ _ _ op2 H2 Ht2).
    by rewrite (PollerSpec.poll_loop_successful api intervalMs _ _ _ op3 H3 Hs3).
  - intros t op Hf.
    destruct (AutoLoggerSpec.visit_counts t op) as [Hs Hc].
    rewrite Hs, Hc, Hf.
    unfold AutoLogger.failed, AutoLogger.successful in *.
    apply bool_decide_eq_true in Hf. rewrite Hf. simpl. lia.
Qed.

Lemma pollOperation_retries_high_traffic_witness :
  pollOperation mocked default_intervalMs default_maxTries
  = (inl succeeded, [5000; 5000]).
Proof.
  refine (proj1 (proj2 (pollOperation_retries_high_traffic mocked default_intervalMs))
            default_maxTries (Provider.high_traffic_failure "op-1")
            (Provider.high_traffic_failure "op-1") succeeded _ _ _ _ _ _ _).
  - unfold default_maxTries. lia.
  - by exists {| success := true; tokenExpired := false;
                 operations := Some [Provider.high_traffic_failure "op-1"] |}, [].
  - split; reflexivity.
  - by exists {| success := true; tokenExpired := false;
                 operations := Some [Provider.high_traffic_failure "op-1"] |}, [].
  - split; reflexivity.
  - by exists {| success := true; tokenExpired := false;
                 operations := Some [succeeded] |}, [].
  - reflexivity.
Defined.

(** The same sequence of statuses under the batch loop, for a job of one
    operation: the first FAILED entry completes the tally, the loop ends at
    the first tick with nothing selected and the prompt is skipped. *)
Lemma batch_poll_counts_high_traffic :
  pollAttempts
    (poll (AutoLogger.script
             [[Provider.high_traffic_failure "op-1"];
              [Provider.high_traffic_failure "op-1"];
              [succeeded]])
       [Provider.handle_of "op-1"]) = 1%nat
  ∧ pollDone
      (poll (AutoLogger.script
               [[Provider.high_traffic_failure "op-1"];
                [Provider.high_traffic_failure "op-1"];
                [succeeded]])
         [Provider.handle_of "op-1"]) = true
  ∧ selectedMediaId
      (poll (AutoLogger.script
               [[Provider.high_traffic_failure "op-1"];
                [Provider.high_traffic_failure "op-1"];
                [succeeded]])
         [Provider.handle_of "op-1"]) = None
  ∧ (process_prompt AutoLogger.no_exponent_form
       (AutoLogger.sample_world
          [[Provider.high_traffic_failure "op-1"];
           [Provider.high_traffic_failure "op-1"];
           [succeeded]] true)
       0 "a prompt" AutoLogger.started).1 = PollTimeout.
Proof. by vm_compute. Qed.

End HighTrafficSpec.

(** ** Clip times *)

Module ClipTimeSpec.
Import AutoLogger.

(** The end time of the last clip, when it is a decimal numeral followed
    by the unit suffix. *)
Lemma lastEndTime_decimal (clips : list clip) (lastClip : clip) (text : string)
  (d : Z) (k : nat) :
  last clips = Some lastClip →
  endTime lastClip = (text ++ "s")%string →
  Double.read_decimal text = Some (d, k) →
  lastEndTime clips = Double.of_decimal false d (- Z.of_nat k) ∧ 0 ≤ d.
Proof.
  intros Hlast Hend Hread. unfold lastEndTime. rewrite Hlast, Hend.
  rewrite (DoubleSpec.read_decimal_suffix text d k Hread).
  by apply DoubleSpec.read_decimal_parseFloat.
Qed.

(** C8, as the code has it.  Let the last clip end at a decimal numeral of
    at most nine fractional digits followed by [s], denoting [p]
    nanoseconds with [p <= 4194296 * 10^9] (about 48 days).  Then the start
    and end time of the new clip are decimal numerals with exactly nine
    fractional digits followed by [s]; they denote [p + 1] ns and
    [p + 1 + 7 * 10^9] ns, seven seconds later.  For an empty clip list the
    times are [0.000000001s] and [7.000000001s].  After a clip ending at
    [7.000000001s] the new clip starts at [7.000000002s] and ends at
    [14.000000002s]. *)
Theorem newClip_times (toString_large : Z → string) (selected prompt : string) :
  (∀ (clips : list clip) (lastClip : clip) (text : string) (d : Z) (k : nat),
     last clips = Some lastClip →
     endTime lastClip = (text ++ "s")%string →
     Double.read_decimal text = Some (d, k) →
     (k ≤ 9)%nat →
     d * 10 ^ (9 - Z.of_nat k) ≤ 4194296 * 10 ^ 9 →
     ∃ start_text end_text : string,
       startTime (newClip toString_large clips selected prompt)
         = (start_text ++ "s")%string
       ∧ Double.read_decimal start_text = Some (d * 10 ^ (9 - Z.of_nat k) + 1, 9%nat)
       ∧ endTime (newClip toString_large clips selected prompt)
         = (end_text ++ "s")%string
       ∧ Double.read_decimal end_text
         = Some (d * 10 ^ (9 - Z.of_nat k) + 1 + 7 * 10 ^ 9, 9%nat))
  ∧ (startTime (newClip toString_large [] selected prompt) = "0.000000001s"
     ∧ endTime (newClip toString_large [] selected prompt) = "7.000000001s")
  ∧ (∀ (clips : list clip) (lastClip : clip),
       last clips = Some lastClip →
       endTime lastClip = "7.000000001s" →
       startTime (newClip toString_large clips selected prompt) = "7.000000002s"
       ∧ endTime (newClip toString_large clips selected prompt) = "14.000000002s").
Proof.
  assert (Hprinted :
    ∀ (clips : list clip) (lastClip : clip) (text : string) (d : Z) (k : nat),
      last clips = Some lastClip →
      endTime lastClip = (text ++ "s")%string →
      Double.read_decimal text = Some (d, k) →
      (k ≤ 9)%nat →
      d * 10 ^ (9 - Z.of_nat k) ≤ 4194296 * 10 ^ 9 →
      0 ≤ d
      ∧ startTime (newClip toString_large clips selected prompt)
        = (Double.fixed_string 9 (d * 10 ^ (9 - Z.of_nat k) + 1) ++ "s")%string
      ∧ endTime (newClip toString_large clips selected prompt)
        = (Double.fixed_string 9 (d * 10 ^ (9 - Z.of_nat k) + 1 + 7 * 10 ^ 9)
             ++ "s")%string).
  { intros clips lastClip text d k Hlast Hend Hread Hk Hmax.
    destruct (lastEndTime_decimal clips lastClip text d k Hlast Hend Hread) as [Hval Hd].
    simpl. unfold newStartTime, newEndTime, epsilon, duration_plus_epsilon.
    rewrite Hval.
    rewrite !DoubleSpec.add_toFixed_exact by lia.
    split; [done|]. split; [done|]. do 2 f_equal.
    change (7 * 10 ^ 9) with 7000000000. lia. }
  split; [|split].
  - intros clips lastClip text d k Hlast Hend Hread Hk Hmax.
    destruct (Hprinted clips lastClip text d k Hlast Hend Hread Hk Hmax)
      as (Hd & Hstart & Hstop).
    assert (0 ≤ d * 10 ^ (9 - Z.of_nat k))
      by (apply Z.mul_nonneg_nonneg; [done|apply Z.pow_nonneg; lia]).
    eexists _, _. split; [exact Hstart|]. split.
    { apply DoubleSpec.fixed_string_reads. lia. }
    split; [exact Hstop|].
    apply DoubleSpec.fixed_string_reads. change (7 * 10 ^ 9) with 7000000000. lia.
  - split; vm_compute; reflexivity.
  - intros clips lastClip Hlast Hend.
    destruct (Hprinted clips lastClip "7.000000001" 7000000001 9%nat Hlast Hend)
      as (_ & Hstart & Hstop); [reflexivity|lia|vm_compute; discriminate|].
    split; [exact Hstart|exact Hstop].
Qed.

Lemma newClip_times_witness :
  ∃ start_text end_text : string,
    startTime (newClip AutoLogger.no_exponent_form one_clip "media-1" "a prompt")
      = (start_text ++ "s")%string
    ∧ Double.read_decimal start_text = Some (7000000001 * 10 ^ (9 - Z.of_nat 9) + 1, 9%nat)
    ∧ endTime (newClip AutoLogger.no_exponent_form one_clip "media-1" "a prompt")
      = (end_text ++ "s")%string
    ∧ Double.read_decimal end_text
      = Some (7000000001 * 10 ^ (9 - Z.of_nat 9) + 1 + 7 * 10 ^ 9, 9%nat).
Proof.
  refine (proj1 (newClip_times AutoLogger.no_exponent_form "media-1" "a prompt")
            one_clip _ "7.000000001" 7000000001 9%nat _ _ _ _ _).
  - reflexivity.
  - reflexivity.
  - reflexivity.
  - lia.
  - vm_compute. discriminate.
Defined.

(** Far enough along the time line the added nanosecond is no longer
    exact: after a clip that ends at 10000000 s the new clip starts two
    nanoseconds later, not one. *)
Lemma newClip_times_far :
  startTime
    (newClip AutoLogger.no_exponent_form
       [ {| clipId := "media-0"; startTime := "9999993s"; endTime := "10000000s";
            prompt := "earlier" |} ]
       "media-1" "a prompt")
  = "10000000.000000002s"
  ∧ (Double.fixed_string 9 (10000000 * 10 ^ 9 + 1) ++ "s")%string
    = "10000000.000000001s".
Proof. split; vm_compute; reflexivity. Qed.

End ClipTimeSpec.

(** ** Requests to the token pool *)

Module LanesSpec.
Import TokenPool Lanes.

Lemma find_name_split (n : string) (l : list token) (t : token) :
  List.find (λ t, bool_decide (Some (name t) = Some n)) l = Some t →
  ∃ before after, l = before ++ t :: after ∧ name t = n
                  ∧ ∀ t', t' ∈ before → name t' ≠ n.
Proof.
  induction l as [|x l IH]; [done|]. simpl.
  destruct (bool_decide (Some (name x) = Some n)) eqn:E.
  - intros [= ->]. apply bool_decide_eq_true in E. injection E as E.
    exists [], l. split; [done|]. split; [done|]. intros t' Ht'. by apply elem_of_nil in Ht'.
  - intros H. destruct (IH H) as (before & after & -> & Hn & Hb).
    exists (x :: before), after. split; [done|]. split; [done|].
    intros t' Ht'. apply elem_of_cons in Ht' as [->|Ht']; [|by apply Hb].
    apply bool_decide_eq_false in E. congruence.
Qed.

Lemma find_name_none (n : string) (l : list token) :
  List.find (λ t, bool_decide (Some (name t) = Some n)) l = None ↔
  ∀ t, t ∈ l → name t ≠ n.
Proof.
  induction l as [|x l IH]; simpl.
  - split; [|done]. intros _ t Ht. by apply elem_of_nil in Ht.
  - destruct (bool_decide (Some (name x) = Some n)) eqn:E.
    + apply bool_decide_eq_true in E. injection E as E.
      split; [done|]. intros H. exfalso. apply (H x); [left|done].
    + apply bool_decide_eq_false in E. rewrite IH. split.
      * intros H t Ht. apply elem_of_cons in Ht as [->|Ht]; [congruence|by apply H].
      * intros H t Ht. apply H. by right.
Qed.

(** [getTokenByName]: a lookup by a name that is in the pool returns the
    first entry with that name and leaves the pool and the round-robin
    counter as they were; without a name, or with a name that no entry has,
    the call is a call of [getNextToken]. *)
Theorem getTokenByName_cases (sess : session) (tokenName : option string)
  (st : pool_state) :
  (JS.truthy tokenName = false →
     getTokenByName sess tokenName st = getNextToken sess st)
  ∧ (∀ n, tokenName = Some n → (∀ t, t ∈ tokenPool st → name t ≠ n) →
       getTokenByName sess tokenName st = getNextToken sess st)
  ∧ (∀ n before t after,
       tokenName = Some n → JS.truthy_string n = true →
       tokenPool st = before ++ t :: after → name t = n →
       (∀ t', t' ∈ before → name t' ≠ n) →
       getTokenByName sess tokenName st = (Some t, st))
  ∧ (∀ t st', getTokenByName sess tokenName st = (Some t, st') →
       (st' = st ∧ t ∈ tokenPool st ∧ Some (name t) = tokenName)
       ∨ getNextToken sess st = (Some t, st')).
Proof.
  split; [|split; [|split]].
  - intros H. unfold getTokenByName. by rewrite H.
  - intros n -> Hnone. unfold getTokenByName.
    destruct (negb (JS.truthy (Some n))); [done|].
    by rewrite (proj2 (find_name_none n (tokenPool st)) Hnone).
  - intros n before t after -> Hn Hpool Hname Hbefore. unfold getTokenByName.
    simpl JS.truthy. rewrite Hn. simpl negb. cbv iota.
    destruct (List.find _ (tokenPool st)) as [t0|] eqn:E.
    + destruct (find_name_split _ _ _ E) as (b0 & a0 & Hp0 & Hn0 & Hb0).
      f_equal. f_equal. rewrite Hpool in Hp0.
      destruct (decide (length before = length b0)) as [Hl|Hl].
      * apply app_inj_1 in Hp0 as [_ Hp0]; [|done]. by injection Hp0.
      * exfalso.
        assert (Hlt : (length before < length b0 ∨ length b0 < length before)%nat) by lia.
        destruct Hlt as [Hlt|Hlt].
        -- apply (Hb0 t); [|done].
           assert (Hl1 : (before ++ t :: after) !! length before = Some t).
           { by rewrite list_lookup_middle. }
           rewrite Hp0, lookup_app_l in Hl1 by done.
           by apply list_elem_of_lookup_2 in Hl1.
        -- apply (Hbefore t0); [|done].
           assert (Hl1 : (b0 ++ t0 :: a0) !! length b0 = Some t0).
           { by rewrite list_lookup_middle. }
           rewrite <- Hp0, lookup_app_l in Hl1 by done.
           by apply list_elem_of_lookup_2 in Hl1.
    + exfalso. apply (proj1 (find_name_none n (tokenPool st)) E t); [|done].
      rewrite Hpool. apply elem_of_app. right. by left.
  - intros t st'. unfold getTokenByName.
    destruct (negb (JS.truthy tokenName)) eqn:Et; [by right|].
    destruct tokenName as [n|]; [|done].
    destruct (List.find _ (tokenPool st)) as [t0|] eqn:E; [|by right].
    intros [= -> ->]. left.
    destruct (find_name_split _ _ _ E) as (b0 & a0 & Hp0 & Hn0 & Hb0).
    split; [done|]. split; [|by rewrite Hn0].
    rewrite Hp0. apply elem_of_app. right. by left.
Qed.

Lemma getTokenByName_cases_witness :
  getTokenByName no_session (Some "B")
    {| tokenPool := [lane "A"; lane "B"; lane "C"]; currentTokenIndex := 0 |}
  = (Some (lane "B"),
     {| tokenPool := [lane "A"; lane "B"; lane "C"]; currentTokenIndex := 0 |}).
Proof.
  refine (proj1 (proj2 (proj2 (getTokenByName_cases no_session (Some "B")
            {| tokenPool := [lane "A"; lane "B"; lane "C"]; currentTokenIndex := 0 |})))
          "B" [lane "A"] (lane "B") [lane "C"] _ _ _ _ _).
  - reflexivity.
  - reflexivity.
  - reflexivity.
  - reflexivity.
  - intros t' Ht'. apply list_elem_of_singleton in Ht'. by subst.
Defined.

Lemma getNextToken_serves (sess : session) (st : pool_state) :
  cursor_ok st →
  is_Some (getNextToken sess st).1 ∧ cursor_ok (getNextToken sess st).2.
Proof.
  intros [Hempty|Hlt]; unfold getNextToken.
  - rewrite Hempty. simpl. split; [by eexists|by left].
  - destruct (Nat.eqb_spec (length (tokenPool st)) 0) as [H0|H0]; [lia|]. simpl.
    split; [by apply lookup_lt_is_Some_2|].
    right. simpl. apply Nat.mod_upper_bound. lia.
Qed.

Lemma getTokenByName_serves (sess : session) (tokenName : option string)
  (st : pool_state) :
  cursor_ok st →
  is_Some (getTokenByName sess tokenName st).1
  ∧ cursor_ok (getTokenByName sess tokenName st).2.
Proof.
  intros Hok. unfold getTokenByName.
  destruct (negb (JS.truthy tokenName)); [by apply getNextToken_serves|].
  destruct (List.find _ (tokenPool st)); [|by apply getNextToken_serves].
  simpl. split; [by eexists|done].
Qed.

Lemma serve_serves (sess : session) (r : request) (st : pool_state) :
  cursor_ok st → is_Some (serve sess r st).1 ∧ cursor_ok (serve sess r st).2.
Proof.
  intros Hok. destruct r as [|n|n]; simpl.
  - by apply getNextToken_serves.
  - by apply getTokenByName_serves.
  - unfold pick. destruct (JS.truthy n);
      [by apply getTokenByName_serves|by apply getNextToken_serves].
Qed.

Lemma serve_all_serves (sess : session) (rs : list request) :
  ∀ st, cursor_ok st →
        Forall is_Some (serve_all sess rs st).1 ∧ cursor_ok (serve_all sess rs st).2
        ∧ length (serve_all sess rs st).1 = length rs.
Proof.
  induction rs as [|r rs IH]; intros st Hok; simpl; [by repeat split|].
  destruct (serve_serves sess r st Hok) as [Hs Hok1].
  destruct (serve sess r st) as [t st1]. simpl in *.
  destruct (IH st1 Hok1) as (Hall & Hok2 & Hlen).
  destruct (serve_all sess rs st1) as [ts st2]. simpl in *.
  split; [by constructor|]. split; [done|]. by rewrite Hlen.
Qed.

(** A call either returns a token and changes nothing, or it goes through
    [getNextToken], which leaves the counter inside the pool. *)
Lemma getNextToken_restores (sess : session) (st : pool_state) :
  cursor_ok (getNextToken sess st).2.
Proof.
  unfold getNextToken.
  destruct (Nat.eqb_spec (length (tokenPool st)) 0) as [H0|H0]; simpl.
  - left. by destruct (tokenPool st).
  - right. simpl. apply Nat.mod_upper_bound. lia.
Qed.

Lemma serve_cases (sess : session) (r : request) (st : pool_state) :
  (is_undefined (serve sess r st).1 = false ∧ (serve sess r st).2 = st)
  ∨ cursor_ok (serve sess r st).2.
Proof.
  assert (Hby : ∀ n, (is_undefined (getTokenByName sess n st).1 = false
                      ∧ (getTokenByName sess n st).2 = st)
                     ∨ cursor_ok (getTokenByName sess n st).2).
  { intros n. unfold getTokenByName.
    destruct (negb (JS.truthy n)); [right; apply getNextToken_restores|].
    destruct (List.find _ (tokenPool st)); [by left|right; apply getNextToken_restores]. }
  destruct r as [|n|n]; simpl.
  - right. apply getNextToken_restores.
  - apply Hby.
  - unfold pick. destruct (JS.truthy n); [apply Hby|right; apply getNextToken_restores].
Qed.

Lemma serve_all_defined (sess : session) (rs : list request) (st : pool_state) :
  cursor_ok st → filter (λ t, is_undefined t = true) (serve_all sess rs st).1 = [].
Proof.
  intros Hok. destruct (serve_all_serves sess rs st Hok) as (Hall & _ & _).
  induction Hall as [|t ts [x ->] _ IH]; [done|].
  by rewrite filter_cons_False.
Qed.

Lemma serve_all_undefined_once (sess : session) (rs : list request) :
  ∀ st, (length (filter (λ t, is_undefined t = true) (serve_all sess rs st).1) ≤ 1)%nat.
Proof.
  induction rs as [|r rs IH]; intros st; [simpl; lia|].
  cbn [serve_all].
  destruct (serve_cases sess r st) as [[Hd Hst]|Hok].
  - specialize (IH st).
    destruct (serve sess r st) as [t st1]. cbn [fst snd] in *. subst st1.
    destruct (serve_all sess rs st) as [ts st2]. cbn [fst] in *.
    by rewrite filter_cons_False by (by rewrite Hd).
  - pose proof (serve_all_defined sess rs _ Hok) as Hnone.
    destruct (serve sess r st) as [t st1]. cbn [fst snd] in *.
    destruct (serve_all sess rs st1) as [ts st2]. cbn [fst] in *.
    rewrite filter_cons, Hnone. destruct (decide _); simpl; lia.
Qed.

(** What a request to the loader does to the counter. *)
Lemma loadTokenPool_cursor_ok (tokenNames : option (list string)) (file : token_file)
  (st : pool_state) :
  match (loadTokenPool tokenNames file st).1 with
  | Loaded tokens =>
      cursor_ok (loadTokenPool tokenNames file st).2
      ∧ currentTokenIndex (loadTokenPool tokenNames file st).2 = 0%nat
  | LoadError _ => (loadTokenPool tokenNames file st).2 = st
  | LoadThrew =>
      currentTokenIndex (loadTokenPool tokenNames file st).2 = currentTokenIndex st
  end.
Proof.
  unfold loadTokenPool. destruct tokenNames as [[|n names]|]; [done| |done].
  destruct file as [allTokens| |message]; [|done|done].
  destruct (load_loop allTokens (n :: names) []) as [pool []]; cbn [fst snd]; [|done].
  split; [|done]. unfold cursor_ok. cbn [tokenPool currentTokenIndex].
  destruct pool; [by left|right; simpl; lia].
Qed.

(** The pool has a token to give as long as the round-robin counter points
    into the pool, or the pool is empty: then every call of [getNextToken]
    and [getTokenByName], in any order and number, returns a token (never
    [undefined]) and keeps it so.  That is the case before any pool is
    loaded and after a load that completes, which resets the counter; a
    request that the loader refuses, or whose token file cannot be read,
    changes nothing.  A load that throws inside its loop has emptied the
    pool and refilled it in part, and leaves the counter as it was, which
    may then point outside the pool.  From such a state one call can return
    [undefined]; a call of [getNextToken] puts the counter back inside the
    pool whatever it returns, so that in any sequence of calls, from any
    state, at most one returns [undefined]. *)
Theorem pool_always_serves (sess : session) (rs : list request) :
  (∀ st, cursor_ok st →
     Forall is_Some (serve_all sess rs st).1
     ∧ length (serve_all sess rs st).1 = length rs
     ∧ cursor_ok (serve_all sess rs st).2)
  ∧ cursor_ok initial
  ∧ (∀ tokenNames file st,
       match (loadTokenPool tokenNames file st).1 with
       | Loaded tokens =>
           cursor_ok (loadTokenPool tokenNames file st).2
           ∧ currentTokenIndex (loadTokenPool tokenNames file st).2 = 0%nat
       | LoadError _ => (loadTokenPool tokenNames file st).2 = st
       | LoadThrew =>
           currentTokenIndex (loadTokenPool tokenNames file st).2 = currentTokenIndex st
       end)
  ∧ (∀ st, cursor_ok (getNextToken sess st).2)
  ∧ (∀ st, (length (filter (λ t, is_undefined t = true) (serve_all sess rs st).1) ≤ 1)%nat)
  ∧ (let aborted :=
       (loadTokenPool (Some ["A"; "X"]) (Tokens [Row (row "A"); NullRow]) three_lanes).2 in
     aborted = {| tokenPool := [poolToken (row "A")]; currentTokenIndex := 2 |}
     ∧ (getNextToken sess aborted).1 = None
     ∧ (getNextToken sess (getNextToken sess aborted).2).1 = Some (poolToken (row "A"))).
Proof.
  split; [|split; [by left|split; [|split; [|split]]]].
  - intros st Hok. destruct (serve_all_serves sess rs st Hok) as (H1 & H2 & H3). done.
  - apply loadTokenPool_cursor_ok.
  - apply getNextToken_restores.
  - apply serve_all_undefined_once.
  - by vm_compute.
Qed.

Lemma pool_always_serves_witness :
  Forall is_Some
    (serve_all no_session [Next; ByName (Some "B"); Pick None; Next] three_lanes).1.
Proof.
  refine (proj1 (proj1 (pool_always_serves no_session
                          [Next; ByName (Some "B"); Pick None; Next]) three_lanes _)).
  right. simpl. lia.
Defined.

Lemma load_loop_app (allTokens : list file_row) (tokenNames : list string) :
  ∀ acc, load_loop allTokens tokenNames acc
         = (acc ++ (load_loop allTokens tokenNames []).1,
            (load_loop allTokens tokenNames []).2).
Proof.
  induction tokenNames as [|n rest IH]; intros acc; simpl; [by rewrite app_nil_r|].
  destruct (find_row allTokens n) as [| |t []]; simpl;
    try (by rewrite app_nil_r); [apply IH|].
  rewrite (IH (acc ++ [poolToken t])), (IH [poolToken t]). simpl.
  by rewrite <- app_assoc.
Qed.

(** The loop in one formula: it pushes the entries of the names it gets
    through, and it runs to its end when it gets through all of them. *)
Lemma load_loop_reached (allTokens : list file_row) (tokenNames : list string) :
  load_loop allTokens tokenNames []
  = (omap (entry_of allTokens) (reached allTokens tokenNames),
     bool_decide (reached allTokens tokenNames = tokenNames)).
Proof.
  induction tokenNames as [|n rest IH]; [done|].
  cbn [load_loop reached]. unfold throws_at.
  destruct (find_row allTokens n) as [| |t []] eqn:E.
  - done.
  - assert (He : entry_of allTokens n = None) by (unfold entry_of; by rewrite E).
    rewrite IH. cbn [omap list_omap]. rewrite He.
    f_equal. apply bool_decide_ext. split; [by intros ->|by intros [= ->]].
  - assert (He : entry_of allTokens n = Some (poolToken t))
      by (unfold entry_of; by rewrite E).
    rewrite load_loop_app, IH. cbn [fst snd omap list_omap]. rewrite He. f_equal.
    apply bool_decide_ext. split; [by intros ->|by intros [= ->]].
  - done.
Qed.

Lemma find_stored_Some (allTokens : list stored_token) (n : string) (t : stored_token) :
  find_stored allTokens n = Some t → st_name t = n ∧ t ∈ allTokens.
Proof.
  unfold find_stored. induction allTokens as [|x l IH]; [done|]. simpl.
  destruct (bool_decide (st_name x = n)) eqn:E.
  - intros [= ->]. apply bool_decide_eq_true in E. split; [done|by left].
  - intros H. destruct (IH H) as [? ?]. split; [done|by right].
Qed.

Lemma find_stored_None (allTokens : list stored_token) (n : string) :
  find_stored allTokens n = None ↔ n ∉ st_name <$> allTokens.
Proof.
  unfold find_stored. induction allTokens as [|x l IH]; simpl.
  - split; [|done]. intros _ H. by apply elem_of_nil in H.
  - destruct (bool_decide (st_name x = n)) eqn:E.
    + apply bool_decide_eq_true in E. split; [done|]. intros H. exfalso. apply H.
      rewrite E. by left.
    + apply bool_decide_eq_false in E. rewrite IH. rewrite not_elem_of_cons.
      split; [by intros H; split|by intros [_ H]].
Qed.

(** In a file of row objects with text proxies the lookup is the plain
    [find], and no iteration throws. *)
Lemma find_row_rows (allTokens : list stored_token) (n : string) :
  find_row (Row <$> allTokens) n
  = match find_stored allTokens n with
    | Some t => Found t true
    | None => Missing
    end.
Proof.
  unfold find_stored. induction allTokens as [|x l IH]; [done|]. simpl.
  by destruct (bool_decide (st_name x = n)).
Qed.

Lemma reached_rows (allTokens : list stored_token) (tokenNames : list string) :
  reached (Row <$> allTokens) tokenNames = tokenNames.
Proof.
  induction tokenNames as [|n rest IH]; [done|].
  cbn [reached]. unfold throws_at. rewrite find_row_rows.
  destruct (find_stored allTokens n); by rewrite IH.
Qed.

Lemma omap_names (allTokens : list stored_token) (tokenNames : list string) :
  name <$> omap (λ n, poolToken <$> find_stored allTokens n) tokenNames
  = filter (λ n, n ∈ st_name <$> allTokens) tokenNames
  ∧ (length (omap (λ n, poolToken <$> find_stored allTokens n) tokenNames)
     ≤ length tokenNames)%nat.
Proof.
  induction tokenNames as [|n rest [IH1 IH2]]; [done|].
  change (omap ?f (n :: rest)) with
    (match f n with Some y => y :: omap f rest | None => omap f rest end).
  cbv beta.
  destruct (find_stored allTokens n) as [t|] eqn:E.
  - destruct (find_stored_Some _ _ _ E) as [Hn Hin].
    rewrite filter_cons_True by (apply list_elem_of_fmap; by exists t).
    simpl. rewrite <- IH1. rewrite Hn. split; [done|lia].
  - rewrite filter_cons_False by (by apply find_stored_None). simpl.
    split; [exact IH1|lia].
Qed.

(** [/api/load-token-pool].  Without a non-empty array of names the
    request is refused, and when the token file cannot be read the request
    fails: pool and counter stay as they were.  Otherwise the pool is
    emptied and the loop pushes, in the order of the request, one entry for
    each requested name that has a row in the token file, built from the
    first row with that name; a repeated name gives a repeated entry and a
    name without a row is left out.  When the rows of the file are objects
    with text proxies the loop runs to its end, the counter is reset to 0
    and the reply lists the names of the pool.  In general the loop throws
    at the first name whose lookup meets a [null] row before a row of that
    name, or whose row has a proxy that is no string: the pool then holds
    the entries of the names before that one, the counter is not reset, and
    the reply is the error.  A file that holds no array leaves the pool
    empty and the counter as it was. *)
Theorem loadTokenPool_names (allTokens : list stored_token) (rows : list file_row)
  (tokenNames : list string) (st : pool_state) :
  (∀ file, loadTokenPool None file st = (LoadError "Token names array is required", st)
           ∧ loadTokenPool (Some []) file st
             = (LoadError "Token names array is required", st))
  ∧ (∀ message, tokenNames ≠ [] →
       loadTokenPool (Some tokenNames) (Unreadable message) st = (LoadError message, st))
  ∧ (tokenNames ≠ [] →
     let pool := omap (λ n, poolToken <$> find_stored allTokens n) tokenNames in
     loadTokenPool (Some tokenNames) (Tokens (Row <$> allTokens)) st
     = (Loaded (name <$> pool), {| tokenPool := pool; currentTokenIndex := 0 |})
     ∧ name <$> pool = filter (λ n, n ∈ st_name <$> allTokens) tokenNames
     ∧ (length pool ≤ length tokenNames)%nat)
  ∧ (tokenNames ≠ [] →
     let pool := omap (entry_of rows) (reached rows tokenNames) in
     loadTokenPool (Some tokenNames) (Tokens rows) st
     = if bool_decide (reached rows tokenNames = tokenNames)
       then (Loaded (name <$> pool), {| tokenPool := pool; currentTokenIndex := 0 |})
       else (LoadThrew, {| tokenPool := pool; currentTokenIndex := currentTokenIndex st |}))
  ∧ (tokenNames ≠ [] →
     loadTokenPool (Some tokenNames) NotArray st
     = (LoadThrew, {| tokenPool := []; currentTokenIndex := currentTokenIndex st |})).
Proof.
  assert (Hgen : ∀ rows0, tokenNames ≠ [] →
     loadTokenPool (Some tokenNames) (Tokens rows0) st
     = if bool_decide (reached rows0 tokenNames = tokenNames)
       then (Loaded (name <$> omap (entry_of rows0) (reached rows0 tokenNames)),
             {| tokenPool := omap (entry_of rows0) (reached rows0 tokenNames);
                currentTokenIndex := 0 |})
       else (LoadThrew,
             {| tokenPool := omap (entry_of rows0) (reached rows0 tokenNames);
                currentTokenIndex := currentTokenIndex st |})).
  { intros rows0 Hne. unfold loadTokenPool.
    destruct tokenNames as [|n names]; [done|].
    rewrite load_loop_reached. by destruct (bool_decide _). }
  split; [done|]. split; [|split; [|split]].
  - intros message Hne. by destruct tokenNames.
  - intros Hne pool. rewrite Hgen by done.
    rewrite reached_rows, bool_decide_eq_true_2 by done.
    assert (Hpool : omap (entry_of (Row <$> allTokens)) tokenNames = pool).
    { unfold pool. clear. induction tokenNames as [|n rest IH]; [done|].
      cbn [omap list_omap]. rewrite IH. unfold entry_of. rewrite find_row_rows.
      by destruct (find_stored allTokens n). }
    rewrite Hpool. split; [done|]. apply omap_names.
  - intros Hne pool. by apply Hgen.
  - intros Hne. by destruct tokenNames.
Qed.

Lemma loadTokenPool_names_witness :
  loadTokenPool (Some ["B"; "X"; "A"; "B"])
    (Tokens (Row <$> [row "A"; row "B"; row "C"])) three_lanes
  = (Loaded ["B"; "A"; "B"],
     {| tokenPool := poolToken <$> [row "B"; row "A"; row "B"];
        currentTokenIndex := 0 |}).
Proof.
  refine (proj1 (proj1 (proj2 (proj2 (loadTokenPool_names [row "A"; row "B"; row "C"] []
                   ["B"; "X"; "A"; "B"] three_lanes))) _)).
  done.
Defined.

End LanesSpec.

(** ** Proxy strings *)

Module ProxySpec.
Import Executor Proxy.

Lemma split_no_colon (s : string) : no_colon s = true → JS.split ":" s = [s].
Proof.
  induction s as [|c s IH]; [done|]. simpl. intros H.
  apply andb_true_iff in H as [Hc Hs]. apply negb_true_iff in Hc.
  rewrite Hc, (IH Hs). done.
Qed.

Lemma split_cons (a b : string) :
  no_colon a = true → JS.split ":" (a ++ ":" ++ b) = a :: JS.split ":" b.
Proof.
  induction a as [|c a IH]; intros H.
  - reflexivity.
  - simpl in H. apply andb_true_iff in H as [Hc Ha]. apply negb_true_iff in Hc.
    change (String c a ++ ":" ++ b)%string with (String c (a ++ ":" ++ b)).
    simpl. rewrite Hc, (IH Ha). done.
Qed.

Lemma split_join (parts : list string) :
  parts ≠ [] → Forall (λ p, no_colon p = true) parts →
  JS.split ":" (join_colon parts) = parts.
Proof.
  induction parts as [|p rest IH]; [done|]. intros _ Hall.
  apply Forall_cons in Hall as [Hp Hrest].
  destruct rest as [|q rest]; [by apply split_no_colon|].
  change (join_colon (p :: q :: rest)) with (p ++ ":" ++ join_colon (q :: rest))%string.
  rewrite split_cons by done. f_equal. by apply IH.
Qed.

Lemma join_colon_truthy (p q : string) (rest : list string) :
  JS.truthy_string (join_colon (p :: q :: rest)) = true.
Proof.
  change (join_colon (p :: q :: rest)) with (p ++ ":" ++ join_colon (q :: rest))%string.
  by destruct p.
Qed.

(** [parseProxy]: no proxy string, an empty one or one without a colon
    gives [null].  A string [host:port] followed by any further
    colon-separated fields gives the host, the port read by [parseInt], and
    the credentials exactly when the third and the fourth field are both
    non-empty; fields after the fourth are ignored. *)
Theorem parseProxy_fields (host port : string) (more : list string) :
  Forall (λ p, no_colon p = true) (host :: port :: more) →
  parseProxy (Some (join_colon (host :: port :: more)))
  = Some {| host := host;
            port := JS.parseInt port;
            auth := match more with
                    | username :: password :: _ =>
                        if JS.truthy_string username && JS.truthy_string password
                        then Some (username, password) else None
                    | _ => None
                    end |}
  ∧ (∀ s, no_colon s = true → parseProxy (Some s) = None)
  ∧ parseProxy None = None.
Proof.
  intros Hall. split; [|split; [|done]].
  - unfold parseProxy. rewrite join_colon_truthy. simpl negb. cbv iota.
    rewrite split_join by done. simpl.
    destruct more as [|username [|password rest]]; simpl; try done.
    by destruct (JS.truthy_string username).
  - intros s Hs. unfold parseProxy.
    destruct (JS.truthy_string s); [|done]. simpl.
    by rewrite split_no_colon.
Qed.

Lemma parseProxy_fields_witness :
  parseProxy (Some "61.52.195.100:41744:user:pass")
  = Some {| host := "61.52.195.100"; port := JS.Int 41744; auth := Some ("user", "pass") |}.
Proof.
  refine (proj1 (parseProxy_fields "61.52.195.100" "41744" ["user"; "pass"] _)).
  repeat constructor.
Defined.

End ProxySpec.

(** ** The rate-limit counters *)

Module CountersSpec.
Import Executor Counters.





Section Run.

Variable net : config → nat → exchange.
Variable now : Z.
Variable maxRetries : nat.
Variable accountName : string.
Variable proxyString : option string.


End Run.



(** A call that is answered by 429 twice, with one retry allowed, and a
    reset of the statistics during its wait: the call has counted its
    request and its first 429 and sleeps; the reset replaces the counters;
    the call resumes with [retryCount = 1] and gives up. *)
Example reset_during_wait :
  let net := λ (_ : config) (_ : nat), too_many_requests None in
  let waiting :=
    sleep (waitMs None 0) (track_rate_limit 0 0 "lane" (track_request 0 fresh)) in
  axiosWithRetry net 0 plain_config 0 1 "lane" None fresh
  = axiosWithRetry net 0 plain_config 1 1 "lane" None waiting
  ∧ let s := stats (axiosWithRetry net 0 plain_config 1 1 "lane" None (reset waiting)).2 in
    totalRequests s = 0%nat ∧ rateLimitedRequests s = 0%nat
    ∧ retriedRequests s = 1%nat ∧ failedAfterRetry s = 1%nat.
Proof. by vm_compute. Qed.




End CountersSpec.

(** ** The server log *)

Module ServerLogSpec.
Import ServerLog.

Lemma slice_last {A : Type} (n : nat) (l : list A) :
  (0 < n)%nat → slice (- Z.of_nat n) l = drop (length l - n) l.
Proof.
  intros Hn. unfold slice.
  destruct (Z.ltb_spec (- Z.of_nat n) 0) as [_|H]; [|lia].
  f_equal. lia.
Qed.

Lemma log_step (c : clock) (m l : string) (serverLogs : list log_entry) :
  log c m l serverLogs
  = drop (length serverLogs + 1 - MAX_LOGS)
      (serverLogs ++ [ {| timestamp := now c; time := time_of_day c; level := l;
                          message := m |} ]).
Proof.
  unfold log. rewrite length_app. simpl length.
  destruct (Nat.ltb_spec MAX_LOGS (length serverLogs + 1)) as [H|H].
  - rewrite slice_last by (unfold MAX_LOGS; lia). by rewrite length_app.
  - replace (length serverLogs + 1 - MAX_LOGS)%nat with 0%nat by lia. done.
Qed.

Lemma log_all_drop (calls : list call) :
  ∀ serverLogs : list log_entry,
    (length serverLogs ≤ MAX_LOGS)%nat →
    log_all calls serverLogs
    = drop (length serverLogs + length calls - MAX_LOGS)
        (serverLogs ++ (entry_of <$> calls)).
Proof.
  induction calls as [|c calls IH]; intros serverLogs Hlen.
  - simpl. rewrite app_nil_r.
    by replace (length serverLogs + 0 - MAX_LOGS)%nat with 0%nat by lia.
  - unfold log_all. simpl foldl. fold (log_all calls (log (at_clock c) (msg c) (lvl c) serverLogs)).
    rewrite IH.
    + rewrite log_step. fold (entry_of c).
      rewrite length_drop, length_app. simpl length.
      set (k := (length serverLogs + 1 - MAX_LOGS)%nat).
      rewrite <- (drop_app_le _ (entry_of <$> calls)) by (rewrite length_app; simpl; lia).
      rewrite drop_drop, <- app_assoc. simpl.
      f_equal. lia.
    + rewrite log_step, length_drop, length_app. simpl. lia.
Qed.

(** The log never holds more than [MAX_LOGS] = 500 entries, and what it
    holds are the latest ones: after any run of calls of [log], starting
    from a log within the bound (the empty log at start-up, or after a
    clear), [serverLogs] is the old log followed by the new entries, cut to
    its last 500.  Clearing leaves the single entry that records the
    clearing. *)
Theorem log_keeps_latest (calls : list call) (serverLogs : list log_entry) :
  (length serverLogs ≤ 500)%nat →
  let all := serverLogs ++ (entry_of <$> calls) in
  log_all calls serverLogs = drop (length all - 500) all
  ∧ (length (log_all calls serverLogs) ≤ 500)%nat
  ∧ length (log_all calls serverLogs) = Nat.min (length all) 500
  ∧ log_all calls [] = drop (length calls - 500) (entry_of <$> calls)
  ∧ (∀ c : clock,
       clear_logs c serverLogs
       = [ {| timestamp := now c; time := time_of_day c; level := "info";
              message := "Logs cleared by user" |} ]).
Proof.
  intros Hlen all.
  assert (H : log_all calls serverLogs = drop (length all - 500) all).
  { rewrite log_all_drop by exact Hlen. unfold all, MAX_LOGS.
    by rewrite length_app, length_fmap. }
  split; [exact H|]. rewrite H, length_drop.
  split; [lia|]. split; [lia|]. split; [|done].
  rewrite log_all_drop by (simpl; unfold MAX_LOGS; lia). simpl.
  by unfold MAX_LOGS.
Qed.

Lemma log_keeps_latest_witness :
  log_all [ {| at_clock := {| now := 5; time_of_day := "10:00:00" |}; msg := "ready";
               lvl := "info" |} ] []
  = [ {| timestamp := 5; time := "10:00:00"; level := "info"; message := "ready" |} ].
Proof.
  refine (eq_trans (proj1 (log_keeps_latest _ [] _)) _).
  - simpl. lia.
  - reflexivity.
Defined.

Lemma filter_drop_sublist {A : Type} (P : A → Prop) `{∀ x, Decision (P x)}
  (k : nat) (l : list A) :
  drop k (filter P l) `sublist_of` l.
Proof.
  etrans; [apply sublist_drop|]. apply sublist_filter.
Qed.

(** [GET /api/logs]: the entries returned come from the log, in log order,
    and each is newer than [since]; [count] is their number and [totalCount]
    the size of the whole log.  With a positive [limit] (100 when the
    parameter is absent, not a number or 0) they are the last [limit] of the
    entries newer than [since]; a negative [limit] instead drops that many
    of the oldest of them. *)
Theorem get_logs_latest (limit since : option string) (serverLogs : list log_entry) :
  let r := get_logs limit since serverLogs in
  let newer := filter (λ e, query_number since 0 < timestamp e) serverLogs in
  logs r `sublist_of` serverLogs
  ∧ Forall (λ e, query_number since 0 < timestamp e) (logs r)
  ∧ count r = length (logs r)
  ∧ totalCount r = length serverLogs
  ∧ (0 < query_number limit 100 →
       logs r = drop (length newer - Z.to_nat (query_number limit 100)) newer
       ∧ (count r ≤ Z.to_nat (query_number limit 100))%nat
       ∧ count r = Nat.min (length newer) (Z.to_nat (query_number limit 100)))
  ∧ (query_number limit 100 < 0 →
       logs r = drop (Z.to_nat (- query_number limit 100)) newer)
  ∧ query_number limit 100 ≠ 0
  ∧ query_number None 100 = 100.
Proof.
  intros r newer. unfold r, get_logs. simpl. fold newer.
  assert (Hs : ∃ k, slice (- query_number limit 100) newer = drop k newer).
  { by eexists. }
  destruct Hs as [k Hk].
  split; [|split; [|split; [done|split; [done|split; [|split; [|split]]]]]].
  - rewrite Hk. apply filter_drop_sublist.
  - rewrite Hk. apply Forall_drop. unfold newer.
    apply Forall_forall. intros e He. by apply list_elem_of_filter in He as [He _].
  - intros Hpos.
    replace (- query_number limit 100) with (- Z.of_nat (Z.to_nat (query_number limit 100)))
      by lia.
    rewrite slice_last by lia. rewrite length_drop. split; [done|]. lia.
  - intros Hneg. unfold slice.
    destruct (Z.ltb_spec (- query_number limit 100) 0) as [H|_]; [lia|].
    destruct (Z.min_spec (- query_number limit 100) (Z.of_nat (length newer)))
      as [[_ ->]|[Hle ->]]; [done|].
    rewrite Nat2Z.id. rewrite !drop_ge; [done|lia|lia].
  - unfold query_number. destruct limit as [s|]; [|done].
    destruct (JS.parseInt s) as [z|]; [|done].
    destruct (Z.eqb_spec z 0); [done|done].
  - reflexivity.
Qed.

Lemma get_logs_latest_witness :
  count (get_logs (Some "1") None
           [ {| timestamp := 5; time := "10:00:00"; level := "info"; message := "a" |};
             {| timestamp := 6; time := "10:00:01"; level := "info"; message := "b" |} ])
  = 1%nat.
Proof.
  pose proof (get_logs_latest (Some "1") None
           [ {| timestamp := 5; time := "10:00:00"; level := "info"; message := "a" |};
             {| timestamp := 6; time := "10:00:01"; level := "info"; message := "b" |} ])
    as (_ & _ & _ & _ & H & _).
  destruct H as (_ & _ & H); [by vm_compute|]. exact H.
Defined.

End ServerLogSpec.

(** ** CSV export of the token file *)

Module CsvSpec.
Import TokenFile Csv.

Lemma app_cons (c : ascii) (a b : string) : (String c a ++ b = String c (a ++ b))%string.
Proof. reflexivity. Qed.

Lemma app_nil (b : string) : (EmptyString ++ b = b)%string.
Proof. reflexivity. Qed.

Lemma app_nil_r (a : string) : (a ++ EmptyString = a)%string.
Proof. induction a as [|c a IH]; [done|]. by rewrite app_cons, IH. Qed.

Lemma app_assoc (a b c : string) : ((a ++ b) ++ c = a ++ (b ++ c))%string.
Proof. induction a as [|x a IH]; [done|]. by rewrite !app_cons, IH. Qed.

Lemma includes_cons (t : string) (c : ascii) (s : string) :
  JS.includes t (String c s) = String.prefix t (String c s) || JS.includes t s.
Proof. reflexivity. Qed.

Lemma prefix_char (c d : ascii) (s : string) :
  String.prefix (String c EmptyString) (String d s)
  = if ascii_dec c d then true else false.
Proof. simpl. destruct (ascii_dec c d); [|done]. by destruct s. Qed.

Lemma double_quotes_id (s : string) :
  JS.includes (String dquote EmptyString) s = false → double_quotes s = s.
Proof.
  induction s as [|c s IH]; [done|]. rewrite includes_cons, prefix_char. intros H.
  apply orb_false_iff in H as [Hc Hs]. simpl.
  destruct (Ascii.eqb_spec c dquote) as [->|Hne].
  - by destruct (ascii_dec dquote dquote).
  - by rewrite (IH Hs).
Qed.

Lemma escapeCsv_Some (s : string) :
  escapeCsv (Some s) = String dquote (double_quotes s ++ String dquote EmptyString).
Proof.
  unfold escapeCsv.
  destruct (JS.includes (String dquote EmptyString) s) eqn:E; [done|].
  by rewrite (double_quotes_id s E).
Qed.

Lemma escapeCsv_default (v : option string) :
  escapeCsv v = escapeCsv (Some (default EmptyString v)).
Proof. by destruct v. Qed.

(** Reading the inside of a quoted field up to its closing quote. *)
Lemma read_quoted (s rest field : string) (record : list string)
  (records : list (list string)) :
  read_go (double_quotes s ++ String dquote rest) Quoted field record records
  = read_go rest QuoteSeen (field ++ s) record records.
Proof.
  revert field. induction s as [|c s IH]; intros field.
  - simpl. by rewrite app_nil_r.
  - simpl double_quotes.
    destruct (Ascii.eqb_spec c dquote) as [->|Hne].
    + rewrite !app_cons. simpl read_go.
      rewrite IH. unfold snoc_char. by rewrite app_assoc.
    + rewrite app_cons. simpl read_go.
      rewrite (proj2 (Ascii.eqb_neq _ _) Hne).
      rewrite IH. unfold snoc_char. by rewrite app_assoc.
Qed.

(** Reading one escaped value, from the start of a field. *)
Lemma read_escaped (s rest : string) (record : list string)
  (records : list (list string)) :
  read_go (escapeCsv (Some s) ++ rest) FieldStart EmptyString record records
  = read_go rest QuoteSeen s record records.
Proof.
  rewrite escapeCsv_Some, app_cons. simpl read_go.
  by rewrite app_assoc, app_cons, app_nil, read_quoted.
Qed.

Lemma read_comma (rest field : string) (record : list string)
  (records : list (list string)) :
  read_go (String comma rest) QuoteSeen field record records
  = read_go rest FieldStart EmptyString (record ++ [field]) records.
Proof. reflexivity. Qed.

Lemma read_newline (rest field : string) (record : list string)
  (records : list (list string)) :
  read_go (String newline rest) QuoteSeen field record records
  = read_go rest FieldStart EmptyString [] (records ++ [record ++ [field]]).
Proof. reflexivity. Qed.

(** Reading the escaped values of a record, up to what follows it. *)
Lemma read_fields (fields : list string) :
  ∀ (first rest : string) (record : list string) (records : list (list string)),
    read_go (join comma (escapeCsv ∘ Some <$> (first :: fields)) ++ rest) FieldStart
      EmptyString record records
    = read_go rest QuoteSeen (List.last (first :: fields) EmptyString)
        (record ++ removelast (first :: fields)) records.
Proof.
  induction fields as [|f fields IH]; intros first rest record records.
  - simpl join. simpl List.last. simpl removelast. rewrite List.app_nil_r.
    apply read_escaped.
  - change (join comma (escapeCsv ∘ Some <$> first :: f :: fields))
      with (escapeCsv (Some first)
              ++ String comma (join comma (escapeCsv ∘ Some <$> f :: fields)))%string.
    rewrite app_assoc, read_escaped, app_cons, read_comma.
    rewrite IH. change (removelast (first :: f :: fields))
      with (first :: removelast (f :: fields)).
    change (List.last (first :: f :: fields) EmptyString)
      with (List.last (f :: fields) EmptyString).
    by rewrite <- List.app_assoc.
Qed.

Lemma row_columns (t : entry) : row t = join comma (escapeCsv ∘ Some <$> columns t).
Proof. unfold row, columns. simpl. by rewrite (escapeCsv_default (name t)). Qed.

Lemma read_row (t : entry) (rest : string) (record : list string)
  (records : list (list string)) :
  read_go (row t ++ rest) FieldStart EmptyString [] records
  = read_go rest QuoteSeen (List.last (columns t) EmptyString)
      (removelast (columns t)) records.
Proof. rewrite row_columns. unfold columns at 1. apply (read_fields _ _ rest [] records). Qed.

Lemma read_rows (tokens : list entry) :
  ∀ (t : entry) (records : list (list string)),
    read_go (join newline (row <$> t :: tokens)) FieldStart EmptyString [] records
    = Some (records ++ (columns <$> t :: tokens)).
Proof.
  induction tokens as [|t' tokens IH]; intros t records.
  - change (join newline (row <$> [t])) with (row t).
    rewrite <- (app_nil_r (row t)), (read_row t EmptyString [] records).
    reflexivity.
  - change (join newline (row <$> t :: t' :: tokens))
      with (row t ++ String newline (join newline (row <$> t' :: tokens)))%string.
    rewrite (read_row t _ [] records), read_newline, IH.
    rewrite <- List.app_assoc. reflexivity.
Qed.

Lemma read_headers (rest : string) :
  read_go (join comma headers ++ String newline rest) FieldStart EmptyString [] []
  = read_go rest FieldStart EmptyString [] [headers].
Proof. reflexivity. Qed.

(** The CSV export can be read back.  Whatever the fields of the tokens
    hold (commas, double quotes, line feeds), reading the exported text as
    CSV gives the header record followed by one record per token, in order,
    with exactly the six values [name], [proxy], [projectId], [sceneId],
    [projectLink] and [savedAt] of the token, an absent value reading as the
    empty string. *)
Theorem export_csv_reads_back (tokens : list entry) :
  read_csv (export_csv tokens) = Some (headers :: (columns <$> tokens))
  ∧ (∀ v : option string,
       read_csv (escapeCsv v) = Some [[default EmptyString v]])
  ∧ (∀ t : entry, read_csv (row t) = Some [columns t]).
Proof.
  split; [|split].
  - unfold read_csv, export_csv. destruct tokens as [|t tokens]; [reflexivity|].
    change (join newline (join comma headers :: (row <$> t :: tokens)))
      with (join comma headers ++ String newline (join newline (row <$> t :: tokens)))%string.
    by rewrite read_headers, read_rows.
  - intros v. unfold read_csv. rewrite escapeCsv_default.
    rewrite <- (app_nil_r (escapeCsv _)), read_escaped. reflexivity.
  - intros t. unfold read_csv. apply (read_rows [] t []).
Qed.

(** A value that needs every escape. *)
Example export_csv_awkward :
  read_csv (export_csv [awkward])
  = Some [ headers;
           [ String "a" (String comma (String dquote (String newline "b")));
             "1.2.3.4:80"; EmptyString; EmptyString; EmptyString;
             "2025-01-01T00:00:00.000Z" ] ].
Proof. reflexivity. Qed.

End CsvSpec.

(** ** Saving and loading credentials *)

Module CredentialsSpec.
Import TokenFile Credentials.

Lemma find_entry_app_new (n : string) (tokens : list entry) (t : entry) :
  name t = Some n →
  find_entry n (filter (λ t, name t ≠ Some n) tokens ++ [t]) = Some t.
Proof.
  intros Hn. unfold find_entry.
  induction tokens as [|x tokens IH]; simpl.
  - unfold named. by rewrite bool_decide_eq_true_2.
  - destruct (decide (name x ≠ Some n)) as [Hx|Hx].
    + rewrite filter_cons_True by done. simpl.
      unfold named at 1. by rewrite bool_decide_eq_false_2.
    + by rewrite filter_cons_False.
Qed.

Lemma filter_filter_other (n : string) (tokens : list entry) :
  filter (λ t, name t = Some n) (filter (λ t, name t ≠ Some n) tokens) = [].
Proof.
  induction tokens as [|x tokens IH]; [done|].
  destruct (decide (name x ≠ Some n)) as [Hx|Hx].
  - rewrite (filter_cons_True (λ t, name t ≠ Some n)) by done.
    by rewrite filter_cons_False.
  - by rewrite (filter_cons_False (λ t, name t ≠ Some n)).
Qed.

(** [/api/save-credentials] keeps one token per name, and
    [/api/load-credentials] gets back what was saved.  After a successful
    save under a name, the file holds exactly one token with that name,
    placed last and carrying the session token and cookies of the session;
    the tokens with other names are kept, in order; the reported total is
    the number of tokens in the file.  Loading that name from the file then
    puts these cookies and this session token into the session, with the
    saved proxy (or none), whether or not an access token can be fetched
    afterwards. *)
Theorem save_then_load (sess : session) (savedAt : string) (b : save_body)
  (file : content) (message : string) (totalTokens : nat) (file' : content) :
  save_credentials sess savedAt None b file = (Saved message totalTokens, file') →
  ∃ (n : string) (tokens' : list entry),
    b_tokenName b = Some n
    ∧ file' = Rows tokens'
    ∧ totalTokens = length tokens'
    ∧ filter (λ t, name t = Some n) tokens' = [tokenData sess savedAt b n]
    ∧ last tokens' = Some (tokenData sess savedAt b n)
    ∧ filter (λ t, name t ≠ Some n) tokens'
      = filter (λ t, name t ≠ Some n) (match file with Rows l => l | _ => [] end)
    ∧ (∀ (access : bool) (sess0 : session),
         let after := (load_credentials access (Some n) file' sess0).2 in
         s_cookies after = s_cookies sess
         ∧ s_sessionToken after = s_sessionToken sess
         ∧ s_currentProxy after = when_truthy (b_proxy b)
         ∧ s_currentAccountName after = n
         ∧ JS.truthy (s_cookies after) = true
         ∧ JS.truthy (s_sessionToken after) = true).
Proof.
  unfold save_credentials.
  destruct (JS.truthy (b_tokenName b)) eqn:Hn; [|done]. simpl negb. cbv iota.
  destruct (JS.truthy (s_cookies sess)) eqn:Hc; [|done].
  destruct (JS.truthy (s_sessionToken sess)) eqn:Hs; [|done]. simpl.
  destruct (b_tokenName b) as [n|] eqn:En; [|done]. simpl.
  intros [= <- <- <-].
  set (old := match file with Rows l => l | _ => [] end).
  set (new := tokenData sess savedAt b n).
  exists n, (filter (λ t, name t ≠ Some n) old ++ [new]).
  split; [done|]. split; [done|]. split; [done|].
  split; [|split; [|split]].
  - rewrite filter_app, filter_filter_other. by rewrite filter_cons_True.
  - by rewrite last_snoc.
  - rewrite filter_app.
    rewrite (filter_cons_False _ new) by (intros H; by apply H).
    rewrite filter_nil, app_nil_r.
    apply list_filter_filter_l. done.
  - intros access sess0. unfold load_credentials. rewrite Hn.
    simpl negb. cbv iota. simpl default.
    rewrite (find_entry_app_new n old new eq_refl).
    assert (Htn : JS.truthy (name new) = true) by exact Hn.
    assert (Hw : ∀ v, when_truthy (when_truthy v) = when_truthy v).
    { intros v. unfold when_truthy. destruct (JS.truthy v) eqn:E; [by rewrite E|done]. }
    destruct access;
      cbn [snd s_cookies s_sessionToken s_currentProxy s_currentAccountName];
      rewrite Htn; unfold new, tokenData;
      cbn [cookies sessionToken proxy name]; rewrite Hw; simpl default;
      by repeat split.
Qed.

Lemma save_then_load_witness :
  s_cookies
    (load_credentials false (Some "acc")
       (save_credentials captured "2025-01-01T00:00:00.000Z" None (body_for "acc")
          (Rows [stored "acc"; stored "other"])).2 blank).2
  = Some "a=1; b=2".
Proof.
  destruct (save_then_load captured "2025-01-01T00:00:00.000Z" (body_for "acc")
              (Rows [stored "acc"; stored "other"]) _ _ _ eq_refl)
    as (n & tokens' & Hn & Hf & _ & _ & _ & _ & Hload).
  injection Hn as <-.
  exact (proj1 (Hload false blank)).
Defined.

End CredentialsSpec.

(** ** The lane manager *)

Module LaneManagerSpec.
Import TokenFile LaneManager.

Lemma findIndex_Some (n : string) (lanes : list entry) (i : nat) :
  findIndex n lanes = Some i →
  ∃ e, lanes !! i = Some e ∧ name e = Some n
       ∧ (∀ j e', (j < i)%nat → lanes !! j = Some e' → name e' ≠ Some n)
       ∧ find_entry n lanes = Some e.
Proof.
  revert i. induction lanes as [|x lanes IH]; intros i; [done|]. simpl.
  unfold find_entry. simpl. destruct (named n x) eqn:E.
  - intros [= <-]. exists x. split; [done|]. split; [by apply bool_decide_eq_true in E|].
    split; [intros; lia|done].
  - intros H. destruct (findIndex n lanes) as [k|] eqn:Ek; [|done].
    injection H as <-. destruct (IH k eq_refl) as (e & He & Hn & Hb & Hf).
    exists e. split; [done|]. split; [done|]. split; [|done].
    intros [|j] e' Hj; simpl.
    + intros [= <-]. by apply bool_decide_eq_false in E.
    + apply Hb. lia.
Qed.

Lemma findIndex_None (n : string) (lanes : list entry) :
  findIndex n lanes = None ↔ Some n ∉ names lanes.
Proof.
  unfold names. induction lanes as [|x lanes IH]; simpl.
  - split; [|done]. intros _ H. by apply elem_of_nil in H.
  - destruct (named n x) eqn:E.
    + apply bool_decide_eq_true in E. split; [done|]. intros H. exfalso. apply H.
      rewrite E. by left.
    + apply bool_decide_eq_false in E.
      destruct (findIndex n lanes) as [k|]; simpl.
      * split; [done|]. intros H. exfalso. apply not_elem_of_cons in H as [_ H].
        by apply IH in H.
      * split; [|done]. intros _. apply not_elem_of_cons. split; [congruence|].
        by apply IH.
Qed.

Lemma find_entry_None (n : string) (lanes : list entry) :
  find_entry n lanes = None ↔ Some n ∉ names lanes.
Proof.
  rewrite <- findIndex_None. unfold find_entry.
  induction lanes as [|x lanes IH]; simpl; [done|].
  destruct (named n x); [done|].
  rewrite IH. by destruct (findIndex n lanes).
Qed.

Lemma find_entry_insert (n : string) (lanes : list entry) (i : nat) (e : entry) :
  findIndex n lanes = Some i → name e = Some n →
  find_entry n (<[i := e]> lanes) = Some e.
Proof.
  revert i. induction lanes as [|x lanes IH]; intros i; [done|]. simpl.
  destruct (named n x) eqn:E.
  - intros [= <-] Hn. unfold find_entry. simpl. unfold named.
    by rewrite bool_decide_eq_true_2.
  - destruct (findIndex n lanes) as [k|] eqn:Ek; [|done].
    intros [= <-] Hn. unfold find_entry. simpl. rewrite E. by apply IH.
Qed.

Lemma find_entry_snoc (n : string) (lanes : list entry) (e : entry) :
  Some n ∉ names lanes → name e = Some n →
  find_entry n (lanes ++ [e]) = Some e.
Proof.
  intros Hn He. unfold find_entry. induction lanes as [|x lanes IH]; simpl.
  - unfold named. by rewrite bool_decide_eq_true_2.
  - unfold names in Hn. simpl in Hn. apply not_elem_of_cons in Hn as [Hx Hn].
    unfold named at 1. rewrite bool_decide_eq_false_2 by congruence. by apply IH.
Qed.

(** [/api/lanes/save].  A new lane whose name is taken is refused and
    nothing is written.  Otherwise a new lane is appended and an edited one
    replaces the first lane of its name, all other lanes staying in place;
    an edit of a name that is not there is refused.  In the array written,
    looking the name up finds the lane just saved, and lane names that were
    distinct stay distinct.  The saved lane never carries a proxy.  When the
    file cannot be read, a new lane is written as the only lane. *)
Theorem lanes_save_cases (savedAt : string) (fetched : option string) (l : lane)
  (isEdit : bool) (read : option (list entry)) (n : string) :
  l_name l = Some n → JS.truthy_string n = true →
  let lanes := default [] read in
  let saved := laneData savedAt fetched l in
  let r := lanes_save savedAt fetched (Some l) isEdit read in
  (isEdit = false → Some n ∈ names lanes → ∃ error, r = (Refused error, None))
  ∧ (isEdit = false → Some n ∉ names lanes →
       ∃ message, r = (Done message, Some (lanes ++ [saved])))
  ∧ (isEdit = true → Some n ∉ names lanes → ∃ error, r = (Refused error, None))
  ∧ (isEdit = true → Some n ∈ names lanes →
       ∃ message index,
         r = (Done message, Some (<[index := saved]> lanes))
         ∧ findIndex n lanes = Some index
         ∧ names (<[index := saved]> lanes) = names lanes)
  ∧ (∀ written, r.2 = Some written →
       find_entry n written = Some saved
       ∧ proxy saved = None
       ∧ (NoDup (names lanes) → NoDup (names written))
       ∧ (length lanes ≤ length written ≤ length lanes + 1)%nat)
  ∧ (isEdit = false → read = None → r.2 = Some [saved]).
Proof.
  intros Hname Htruthy lanes saved r.
  assert (Hr : r = if negb isEdit && bool_decide (is_Some (find_entry n lanes))
                   then (Refused ("Lane " ++ JS.quoted n ++ " already exists"), None)
                   else if isEdit then
                     match findIndex n lanes with
                     | Some index =>
                         (Done ("Lane " ++ JS.quoted n
                                  ++ " updated and saved to tokens.xlsx successfully!"),
                          Some (<[index := saved]> lanes))
                     | None => (Refused ("Lane " ++ JS.quoted n ++ " not found"), None)
                     end
                   else
                     (Done ("Lane " ++ JS.quoted n
                              ++ " added and saved to tokens.xlsx successfully!"),
                      Some (lanes ++ [saved]))).
  { unfold r, lanes_save. rewrite Hname. simpl JS.truthy. rewrite Htruthy. done. }
  assert (Hsaved : name saved = Some n) by exact Hname.
  assert (Hfind : ∀ i, findIndex n lanes = Some i → names (<[i := saved]> lanes) = names lanes).
  { intros i Hi. destruct (findIndex_Some _ _ _ Hi) as (e & He & Hne & _).
    unfold names. rewrite list_fmap_insert, Hsaved, <- Hne.
    apply list_insert_id. by rewrite list_lookup_fmap, He. }
  split; [|split; [|split; [|split; [|split]]]].
  - intros -> Hin. rewrite Hr. simpl.
    rewrite bool_decide_eq_true_2; [by eexists|].
    destruct (find_entry n lanes) eqn:E; [by eexists|].
    by apply find_entry_None in E.
  - intros -> Hnot. rewrite Hr. simpl.
    rewrite bool_decide_eq_false_2; [by eexists|].
    apply find_entry_None in Hnot. rewrite Hnot. by intros [? ?].
  - intros -> Hnot. rewrite Hr. simpl.
    apply findIndex_None in Hnot. rewrite Hnot. by eexists.
  - intros -> Hin. rewrite Hr. simpl.
    destruct (findIndex n lanes) as [i|] eqn:E.
    + eexists _, i. split; [done|]. split; [done|]. by apply Hfind.
    + by apply findIndex_None in E.
  - intros written. rewrite Hr.
    destruct isEdit; simpl.
    + destruct (findIndex n lanes) as [i|] eqn:E; [|done]. simpl. intros [= <-].
      split; [by apply find_entry_insert|]. split; [done|].
      split; [by rewrite (Hfind i eq_refl)|]. rewrite length_insert. lia.
    + destruct (bool_decide (is_Some (find_entry n lanes))) eqn:Eb; [done|]. simpl.
      intros [= <-]. apply bool_decide_eq_false in Eb.
      assert (Hnot : Some n ∉ names lanes).
      { apply find_entry_None. destruct (find_entry n lanes); [|done].
        exfalso. apply Eb. by eexists. }
      split; [by apply find_entry_snoc|]. split; [done|].
      split; [|rewrite length_app; simpl; lia].
      intros Hnd. unfold names. rewrite fmap_app.
      change (name <$> [saved]) with [name saved]. rewrite Hsaved.
      apply NoDup_app. split; [done|]. split; [|apply NoDup_singleton].
      intros x Hx Hx'. apply list_elem_of_singleton in Hx'. by subst.
  - intros -> ->. rewrite Hr. done.
Qed.

Lemma lanes_save_cases_witness :
  (lanes_save "2025-01-01T00:00:00.000Z" None (Some (sample_lane "acc")) true
     (Some [Credentials.stored "acc"; Credentials.stored "other"])).2
  = Some [laneData "2025-01-01T00:00:00.000Z" None (sample_lane "acc");
          Credentials.stored "other"].
Proof.
  destruct (proj1 (proj2 (proj2 (proj2
              (lanes_save_cases "2025-01-01T00:00:00.000Z" None (sample_lane "acc") true
                 (Some [Credentials.stored "acc"; Credentials.stored "other"]) "acc"
                 eq_refl eq_refl)))) eq_refl)
    as (message & index & Hr & Hi & _).
  - left.
  - injection Hi as <-. by rewrite Hr.
Defined.

(** [/api/lanes/delete] removes the first lane of the given name and no
    other: the lanes before and after it are written back in order.  When
    lane names are distinct the name is gone from the file afterwards.  A
    name that is not in the file, or a file that cannot be read, gives an
    error and nothing is written. *)
Theorem lanes_delete_cases (n : string) (lanes : list entry) :
  JS.truthy_string n = true →
  let r := lanes_delete (Some n) (inl lanes) in
  (Some n ∉ names lanes → ∃ error, r = (Refused error, None))
  ∧ (∀ before e after,
       lanes = before ++ e :: after → name e = Some n → Some n ∉ names before →
       ∃ message, r = (Done message, Some (before ++ after)))
  ∧ (∀ written, r.2 = Some written →
       (length written + 1)%nat = length lanes
       ∧ written `sublist_of` lanes
       ∧ (NoDup (names lanes) → Some n ∉ names written))
  ∧ (∀ message, ∃ error, lanes_delete (Some n) (inr message) = (Refused error, None)).
Proof.
  intros Htruthy r.
  assert (Hr : r = match findIndex n lanes with
                   | None => (Refused ("Lane " ++ JS.quoted n ++ " not found"), None)
                   | Some index =>
                       (Done ("Lane " ++ JS.quoted n ++ " deleted successfully"),
                        Some (delete index lanes))
                   end).
  { unfold r, lanes_delete. simpl JS.truthy. by rewrite Htruthy. }
  assert (Hsplit : ∀ before e after,
            lanes = before ++ e :: after → name e = Some n → Some n ∉ names before →
            findIndex n lanes = Some (length before)).
  { intros before e after -> He Hb. clear Hr r.
    induction before as [|x before IH]; simpl.
    - unfold named. by rewrite bool_decide_eq_true_2.
    - unfold names in Hb. simpl in Hb. apply not_elem_of_cons in Hb as [Hx Hb].
      unfold named at 1. rewrite bool_decide_eq_false_2 by congruence.
      by rewrite (IH Hb). }
  split; [|split; [|split]].
  - intros Hnot. rewrite Hr. apply findIndex_None in Hnot. rewrite Hnot. by eexists.
  - intros before e after Hl He Hb. rewrite Hr, (Hsplit _ _ _ Hl He Hb).
    eexists. do 2 f_equal. rewrite Hl.
    by rewrite delete_middle.
  - intros written. rewrite Hr.
    destruct (findIndex n lanes) as [i|] eqn:E; [|done]. simpl. intros [= <-].
    destruct (findIndex_Some _ _ _ E) as (e & He & Hne & Hb & _).
    assert (Hi : (i < length lanes)%nat) by (by eapply lookup_lt_Some).
    split; [rewrite length_delete by (by eexists); lia|].
    split; [apply sublist_delete|].
    intros Hnd Hin. unfold names in Hin.
    apply list_elem_of_fmap in Hin as (e' & He' & Hin).
    apply list_elem_of_lookup in Hin as [j Hj].
    assert (Hk : ∃ k, k ≠ i ∧ lanes !! k = Some e').
    { destruct (decide (j < i)%nat) as [Hlt|Hge].
      - exists j. split; [lia|]. by rewrite list_lookup_delete_lt in Hj.
      - exists (S j). split; [lia|]. by rewrite list_lookup_delete_ge in Hj by lia. }
    destruct Hk as (k & Hki & Hk).
    apply Hki. apply (NoDup_lookup (names lanes) k i (Some n)); [done| |].
    + unfold names. rewrite list_lookup_fmap, Hk. simpl. by rewrite He'.
    + unfold names. rewrite list_lookup_fmap, He. simpl. by rewrite Hne.
  - intros message. unfold lanes_delete. simpl JS.truthy. rewrite Htruthy.
    by eexists.
Qed.

Lemma lanes_delete_cases_witness :
  (lanes_delete (Some "acc")
     (inl [Credentials.stored "other"; Credentials.stored "acc"])).2
  = Some [Credentials.stored "other"].
Proof.
  destruct (proj1 (proj2 (lanes_delete_cases "acc"
                            [Credentials.stored "other"; Credentials.stored "acc"] eq_refl))
              [Credentials.stored "other"] (Credentials.stored "acc") [] eq_refl eq_refl)
    as [message Hr].
  - intros H. apply list_elem_of_singleton in H. discriminate H.
  - by rewrite Hr.
Defined.

End LaneManagerSpec.

(** ** Editing the proxy and the project of a lane *)

Module EditProxySpec.
Import TokenFile LaneManager EditProxy.

Lemma alter_insert {A : Type} (f : A → A) (l : list A) (i : nat) (x : A) :
  l !! i = Some x → alter f i l = <[i := f x]> l.
Proof.
  revert i. induction l as [|y l IH]; intros [|i]; simpl; try done.
  - by intros [= ->].
  - intros H. f_equal. by apply IH.
Qed.

Lemma edit_keeps (now : string) (new_proxy new_projectId : field) (t : entry) :
  let t' := (edit now new_proxy new_projectId t).1 in
  name t' = name t ∧ sessionToken t' = sessionToken t ∧ cookies t' = cookies t
  ∧ authorization t' = authorization t ∧ sceneId t' = sceneId t
  ∧ projectLink t' = projectLink t ∧ savedAt t' = savedAt t
  ∧ lastUpdate t' = Some now.
Proof.
  unfold edit.
  destruct new_proxy as [| |s]; destruct new_projectId as [| |s'];
    repeat match goal with
           | |- context [if ?b then _ else _] => destruct b
           end; done.
Qed.

Lemma edit_proxy_field (now : string) (new_proxy new_projectId : field) (t : entry) :
  let t' := (edit now new_proxy new_projectId t).1 in
  (∀ s, new_proxy = text s → JS.truthy_string s = true → proxy t' = Some s)
  ∧ (new_proxy = null → JS.truthy (proxy t') = false)
  ∧ (new_proxy = absent ∨ new_proxy = text EmptyString → proxy t' = proxy t)
  ∧ (∀ s, new_projectId = text s → JS.truthy_string s = true → projectId t' = Some s)
  ∧ (new_projectId = null → JS.truthy (projectId t') = false)
  ∧ (new_projectId = absent ∨ new_projectId = text EmptyString →
     projectId t' = projectId t).
Proof.
  unfold edit.
  destruct new_proxy as [| |s]; destruct new_projectId as [| |s'];
    repeat match goal with
           | |- context [if ?b then _ else _] => destruct b eqn:?
           end; cbn [fst proxy projectId];
    repeat split; try done; try congruence;
    try (intros ? [= <-]; congruence); try (intros [?|[= <-]]; done);
    intros [?|[= ->]]; done.
Qed.

(** [/api/edit-proxy] rewrites the first lane of the given name and no
    other: the array written back has the same lanes in the same places
    under the same names, and the edited lane differs from the old one at
    most in its proxy, its project id and its update stamp, which is always
    set, also when the answer is that no changes were made.  A non-empty
    string sets the proxy, [null] leaves the lane without one, and an absent
    or empty value leaves it as it was; the project id goes the same way.  A
    name that is not in the file, or a file that cannot be read, gives an
    error and nothing is written. *)
Theorem edit_proxy_cases (now n : string) (new_proxy new_projectId : field)
    (tokens : list entry) :
  JS.truthy_string n = true →
  let r := edit_proxy now (Some n) new_proxy new_projectId (inl tokens) in
  (Some n ∉ names tokens → ∃ error, r = (Refused error, None))
  ∧ (∀ message, ∃ error,
       edit_proxy now (Some n) new_proxy new_projectId (inr message)
       = (Refused error, None))
  ∧ (Some n ∈ names tokens →
     ∃ message index t t',
       r = (Done message, Some (<[index := t']> tokens))
       ∧ findIndex n tokens = Some index
       ∧ tokens !! index = Some t
       ∧ t' = (edit now new_proxy new_projectId t).1
       ∧ names (<[index := t']> tokens) = names tokens
       ∧ (∀ j, j ≠ index → <[index := t']> tokens !! j = tokens !! j)
       ∧ sessionToken t' = sessionToken t ∧ cookies t' = cookies t
       ∧ authorization t' = authorization t ∧ sceneId t' = sceneId t
       ∧ projectLink t' = projectLink t ∧ savedAt t' = savedAt t
       ∧ lastUpdate t' = Some now
       ∧ (∀ s, new_proxy = text s → JS.truthy_string s = true → proxy t' = Some s)
       ∧ (new_proxy = null → JS.truthy (proxy t') = false)
       ∧ (new_proxy = absent ∨ new_proxy = text EmptyString → proxy t' = proxy t)
       ∧ (∀ s, new_projectId = text s → JS.truthy_string s = true →
               projectId t' = Some s)
       ∧ (new_projectId = null → JS.truthy (projectId t') = false)
       ∧ (new_projectId = absent ∨ new_projectId = text EmptyString →
          projectId t' = projectId t)).
Proof.
  intros Hn r. subst r. unfold edit_proxy. simpl JS.truthy. rewrite Hn. cbn [negb default id].
  split; [|split].
  - intros Hnot. apply LaneManagerSpec.findIndex_None in Hnot. rewrite Hnot. by eexists.
  - intros message. by eexists.
  - intros Hin. destruct (findIndex n tokens) as [i|] eqn:Ei.
    2:{ by apply LaneManagerSpec.findIndex_None in Ei. }
    destruct (LaneManagerSpec.findIndex_Some _ _ _ Ei) as (t & Ht & Hname & _).
    rewrite Ht, (alter_insert _ _ _ _ Ht). cbn [from_option].
    pose proof (edit_keeps now new_proxy new_projectId t) as Hk.
    pose proof (edit_proxy_field now new_proxy new_projectId t) as Hf.
    destruct (edit now new_proxy new_projectId t) as [t' updates] eqn:Ee.
    cbn [fst] in Hk, Hf.
    destruct Hk as (K1 & K2 & K3 & K4 & K5 & K6 & K7 & K8).
    destruct Hf as (F1 & F2 & F3 & F4 & F5 & F6).
    eexists _, i, t, t'. split; [reflexivity|]. split; [done|]. split; [done|].
    split; [by rewrite Ee|]. split.
    { unfold names. rewrite list_fmap_insert, K1.
      apply list_insert_id. by rewrite list_lookup_fmap, Ht. }
    split.
    { intros j Hj. by apply list_lookup_insert_ne. }
    repeat split; done.
Qed.

(** The proxy of one lane is removed; the other lane stays as it is. *)
Lemma edit_proxy_cases_witness :
  (edit_proxy "2025-01-01T00:00:00.000Z" (Some "acc") null absent
     (inl [Credentials.stored "other"; Credentials.stored "acc"])).2
  = Some [Credentials.stored "other";
          (edit "2025-01-01T00:00:00.000Z" null absent (Credentials.stored "acc")).1].
Proof.
  destruct (proj2 (proj2 (edit_proxy_cases "2025-01-01T00:00:00.000Z" "acc" null absent
                            [Credentials.stored "other"; Credentials.stored "acc"]
                            eq_refl)))
    as (message & index & t & t' & Hr & Hi & Ht & Ht' & _).
  - right. left.
  - injection Hi as <-. injection Ht as <-. rewrite Hr, Ht'. reflexivity.
Defined.

End EditProxySpec.

(** ** Access tokens *)

Module AccessTokenSpec.
Import AccessToken.

Local Ltac no_validation H :=
  apply elem_of_app in H as [H|H]; [done|];
  apply list_elem_of_singleton in H; discriminate H.

Lemma refresh_pool (w : world) (name : string) (c session : credentials)
  (events : list event) :
  let o := refresh w (Some (name, c)) session events in
  session_after o = session
  ∧ ((Validated ∈ trace o) → Validated ∈ events)
  ∧ (∀ t, result o = inl t →
       trace o = events ++ [Asked] ∧ auth w = inl (Some t)
       ∧ tokenObj_after o
         = Some {| cookies := cookies c; sessionToken := sessionToken c;
                   accessToken := Some t; lastUpdate := Some (now_update w) |}
       ∧ JS.truthy_string t = true).
Proof.
  unfold refresh. cbn [snd fst].
  destruct (negb (JS.truthy (cookies c)) || negb (JS.truthy (sessionToken c))) eqn:Em.
  { unfold fail. cbn. split; [done|]. split; [by intros H|by intros t H]. }
  destruct (cookies c) as [ck|] eqn:Ec;
    [|unfold fail; cbn; split; [done|]; split; [by intros H|by intros t H]].
  destruct (auth w) as [[t|]|[status message]] eqn:Ea.
  - destruct (JS.truthy (Some t)) eqn:Et.
    + cbn. split; [done|]. split; [intros H; no_validation H|].
      intros t' [= <-]. repeat split; try done. by rewrite Ec.
    + unfold fail. cbn. split; [done|]. split; [intros H; no_validation H|done].
  - unfold fail. cbn. split; [done|]. split; [intros H; no_validation H|done].
  - unfold fail. cbn. split; [done|]. split; [intros H; no_validation H|done].
Qed.

(** A call for a pool token either answers from the cache, having
    validated and nothing else, or goes through the refresh. *)
Lemma getAccessToken_pool (w : world) (forceRefresh : bool) (name : string)
  (c session : credentials) :
  let o := getAccessToken w forceRefresh (Some (name, c)) session in
  (forceRefresh = false
   ∧ JS.truthy (accessToken c) = true ∧ truthy_number (lastUpdate c) = true
   ∧ now_check w - default 0 (lastUpdate c) < maxAge ∧ validate w = true
   ∧ o = {| result := inl (default EmptyString (accessToken c));
            tokenObj_after := Some c; session_after := session;
            trace := [Validated] |})
  ∨ (o = refresh w (Some (name, c)) session [Validated]
     ∧ validate w = false ∧ forceRefresh = false
     ∧ now_check w - default 0 (lastUpdate c) < maxAge)
  ∨ (o = refresh w (Some (name, c)) session []
     ∧ (forceRefresh = true ∨ JS.truthy (accessToken c) = false
        ∨ truthy_number (lastUpdate c) = false
        ∨ maxAge ≤ now_check w - default 0 (lastUpdate c))).
Proof.
  unfold getAccessToken. cbn [snd].
  destruct forceRefresh; [right; right; split; [done|by left]|].
  destruct (JS.truthy (accessToken c)) eqn:Ea;
    [|right; right; split; [done|right; by left]].
  destruct (truthy_number (lastUpdate c)) eqn:El;
    [|right; right; split; [done|right; right; by left]].
  cbn [negb andb].
  destruct (Z.ltb_spec (now_check w - default 0 (lastUpdate c)) maxAge) as [Hlt|Hge];
    [|right; right; split; [done|by do 3 right]].
  destruct (validate w) eqn:Ev.
  - left. by repeat split.
  - right; left. by repeat split.
Qed.

(** The access-token cache of a pool token.  A forced refresh never
    answers from the cache: it asks the auth endpoint and validates
    nothing.  A token that the auth endpoint granted is stored with the time
    of the grant, and a later unforced call less than 55 minutes after it,
    with the token still valid, returns it without asking the auth endpoint
    again and changes nothing.  From 55 minutes on, or when validation
    fails, a token is returned only after asking the auth endpoint again. *)
Theorem getAccessToken_cache (name : string) (c : credentials) (session : credentials)
  (w1 w2 : world) (forceRefresh : bool) (token : string) :
  let first := getAccessToken w1 forceRefresh (Some (name, c)) session in
  result first = inl token →
  (Asked ∈ trace first) →
  now_update w1 ≠ 0 →
  ∃ c1, tokenObj_after first = Some c1
    ∧ accessToken c1 = Some token
    ∧ lastUpdate c1 = Some (now_update w1)
    ∧ cookies c1 = cookies c ∧ sessionToken c1 = sessionToken c
    ∧ session_after first = session
    ∧ (let again := getAccessToken w2 false (Some (name, c1)) session in
       (now_check w2 - now_update w1 < 3300000 → validate w2 = true →
          result again = inl token ∧ trace again = [Validated]
          ∧ tokenObj_after again = Some c1 ∧ session_after again = session)
       ∧ (3300000 ≤ now_check w2 - now_update w1 →
          (Validated ∉ trace again)
          ∧ (∀ t, result again = inl t → Asked ∈ trace again))
       ∧ (validate w2 = false → ∀ t, result again = inl t → Asked ∈ trace again))
    ∧ (let forced := getAccessToken w2 true (Some (name, c1)) session in
       (Validated ∉ trace forced)
       ∧ (∀ t, result forced = inl t → trace forced = [Asked] ∧ auth w2 = inl (Some t))).
Proof.
  intros first Hres Hasked Hnow.
  assert (Hfirst : ∃ events, first = refresh w1 (Some (name, c)) session events).
  { destruct (getAccessToken_pool w1 forceRefresh name c session)
      as [(_ & _ & _ & _ & _ & H)|[(H & _)|(H & _)]]; fold first in H.
    - exfalso. rewrite H in Hasked. cbn in Hasked.
      apply list_elem_of_singleton in Hasked. discriminate Hasked.
    - by eexists.
    - by eexists. }
  destruct Hfirst as [events Hfirst].
  destruct (refresh_pool w1 name c session events) as (Hs & _ & Hok).
  rewrite <- Hfirst in Hs, Hok.
  destruct (Hok token Hres) as (_ & _ & Hc1 & Htruthy).
  eexists. split; [exact Hc1|]. cbn.
  split; [done|]. split; [done|]. split; [done|]. split; [done|]. split; [exact Hs|].
  set (c1 := {| cookies := cookies c; sessionToken := sessionToken c;
                accessToken := Some token; lastUpdate := Some (now_update w1) |}).
  split.
  - destruct (getAccessToken_pool w2 false name c1 session)
      as [(_ & _ & _ & Hage & Hv & H)|[(H & Hv & _ & Hage)|(H & Hwhy)]];
      rewrite H.
    + cbn in Hage |- *. split; [by intros _ _|]. unfold maxAge in Hage.
      split; [intros ?; lia|]. intros Hv'. congruence.
    + cbn in Hage.
      destruct (refresh_pool w2 name c1 session [Validated]) as (_ & _ & Hok2).
      split; [intros _ Hv'; congruence|]. unfold maxAge in Hage.
      split; [intros ?; lia|].
      intros _ t Ht. destruct (Hok2 t Ht) as (-> & _). apply elem_of_app. right. by left.
    + destruct (refresh_pool w2 name c1 session []) as (_ & Hnv & Hok2).
      assert (Hasked2 : ∀ t, result (refresh w2 (Some (name, c1)) session []) = inl t →
                Asked ∈ trace (refresh w2 (Some (name, c1)) session [])).
      { intros t Ht. destruct (Hok2 t Ht) as (-> & _). by left. }
      assert (Hge : maxAge ≤ now_check w2 - now_update w1).
      { destruct Hwhy as [?|[Ha|[Hl|?]]]; [done| | |done].
        - cbn in Ha. congruence.
        - cbn in Hl. apply negb_false_iff, Z.eqb_eq in Hl. done. }
      unfold maxAge in Hge.
      split; [intros ?; lia|].
      split; [intros _; split; [|done]|by intros _].
      intros Hin. apply Hnv in Hin. by apply elem_of_nil in Hin.
  - destruct (getAccessToken_pool w2 true name c1 session)
      as [(? & _)|[(_ & _ & ? & _)|(H & _)]]; [done|done|].
    rewrite ?H.
    destruct (refresh_pool w2 name c1 session []) as (_ & Hnv & Hok2).
    split.
    + intros Hin. apply Hnv in Hin. by apply elem_of_nil in Hin.
    + intros t Ht. destruct (Hok2 t Ht) as (-> & -> & _). done.
Qed.

Lemma getAccessToken_cache_witness :
  result (getAccessToken (granting "other" 2000) false
            (Some ("lane",
                   {| cookies := Some "a=1"; sessionToken := Some "s";
                      accessToken := Some "ya29"; lastUpdate := Some 1000 |}))
            empty_session)
  = inl "ya29".
Proof.
  destruct (getAccessToken_cache "lane" lane_credentials empty_session
              (granting "ya29" 1000) (granting "other" 2000) true "ya29")
    as (c1 & Hc1 & _ & _ & _ & _ & _ & Hagain & _).
  - reflexivity.
  - by left.
  - done.
  - injection Hc1 as <-.
    exact (proj1 (proj1 Hagain ltac:(simpl; lia) eq_refl)).
Defined.

(** The global session without cookies.  A call that has to refresh the
    token of a session whose cookies are [null] extracts the credentials
    from the browser into the session and then throws, without asking the
    auth endpoint: it still works on the copy of the session it made at its
    start.  The next call finds the extracted credentials and asks the auth
    endpoint with them. *)
Theorem getAccessToken_extracts_then_fails (session : credentials) (w1 w2 : world)
  (cookieString sessionCookie token : string) :
  cookies session = None →
  extract w1 = inl (cookieString, Some sessionCookie) →
  JS.truthy_string cookieString = true →
  JS.truthy_string sessionCookie = true →
  auth w2 = inl (Some token) →
  JS.truthy_string token = true →
  let first := getAccessToken w1 true None session in
  let second := getAccessToken w2 true None (session_after first) in
  result first = inr NoCookies
  ∧ trace first = [Extracted]
  ∧ cookies (session_after first) = Some cookieString
  ∧ sessionToken (session_after first) = Some sessionCookie
  ∧ result second = inl token
  ∧ trace second = [Asked]
  ∧ accessToken (session_after second) = Some token
  ∧ lastUpdate (session_after second) = Some (now_update w2).
Proof.
  intros Hc Hex Hck Hsc Hauth Htok first second.
  assert (Hfirst : first
            = {| result := inr NoCookies; tokenObj_after := None;
                 session_after :=
                   {| cookies := Some cookieString; sessionToken := Some sessionCookie;
                      accessToken := accessToken session;
                      lastUpdate := lastUpdate session |};
                 trace := [Extracted] |}).
  { unfold first, getAccessToken, refresh. cbn [negb andb]. rewrite Hc. cbn.
    rewrite Hex. done. }
  unfold second. rewrite Hfirst. cbn [result trace session_after cookies sessionToken].
  split; [done|]. split; [done|]. split; [done|]. split; [done|].
  unfold getAccessToken, refresh. cbn [negb andb cookies sessionToken JS.truthy].
  rewrite Hck, Hsc. cbn [negb orb]. rewrite Hauth. cbn [JS.truthy]. rewrite Htok.
  by repeat split.
Qed.

Lemma getAccessToken_extracts_then_fails_witness :
  result (getAccessToken (granting "ya29" 1000) true None empty_session)
  = inr NoCookies.
Proof.
  exact (proj1 (getAccessToken_extracts_then_fails empty_session (granting "ya29" 1000)
                  (granting "ya29" 2000) "a=1" "s" "ya29"
                  eq_refl eq_refl eq_refl eq_refl eq_refl eq_refl)).
Defined.

End AccessTokenSpec.

(** ** The browser-side request helper *)

Module ClientSpec.
Import Client.

Section Json.

Context {J : Type}.
Variable net : nat → fetched J.

Lemma postJson_unfold (url : string) (retryCount maxRetries : nat)
  (slept : list Double.t) :
  postJson net url retryCount maxRetries slept =
    match net retryCount with
    | FetchThrows message => (inr (FetchFailed message), slept)
    | Fetched res =>
        if (status res =? 429)%Z then
          if lt_dec retryCount maxRetries then
            postJson net url (S retryCount) maxRetries
              (slept ++ [Executor.waitMs (retry_after res) retryCount])
          else (inr (RateLimitExceeded maxRetries (text_or_empty res)), slept)
        else if ok res then
          match json res with
          | inl j => (inl j, slept)
          | inr message => (inr (InvalidJson message), slept)
          end
        else (inr (RequestFailed url (status res) (text_or_empty res)), slept)
    end.
Proof.
  simp postJson. destruct (net retryCount) as [m|res]; simpl; [done|].
  destruct (status res =? 429)%Z; simpl.
  - by destruct (lt_dec retryCount maxRetries).
  - destruct (ok res); simpl; [|done]. by destruct (json res).
Qed.

(** [n] fetches in a row that are answered by 429, with retries left:
    the run continues at attempt [retryCount + n], having slept once per
    attempt. *)
Lemma postJson_retries (url : string) (maxRetries : nat) (n : nat) :
  ∀ (retryCount : nat) (slept : list Double.t),
    (retryCount + n ≤ maxRetries)%nat →
    (∀ k, (retryCount ≤ k < retryCount + n)%nat → limited (net k)) →
    ∃ more,
      postJson net url retryCount maxRetries slept
      = postJson net url (retryCount + n) maxRetries (slept ++ more)
      ∧ length more = n.
Proof.
  induction n as [|n IH]; intros retryCount slept Hle Hall.
  - exists []. by rewrite Nat.add_0_r, app_nil_r.
  - destruct (Hall retryCount ltac:(lia)) as (res & Hres & Hs).
    rewrite postJson_unfold, Hres, Hs. simpl.
    destruct (lt_dec retryCount maxRetries) as [_|?]; [|lia].
    edestruct (IH (S retryCount)) as (more & Heq & Hlen); [lia| |].
    { intros k Hk. apply Hall. lia. }
    eexists (_ :: more). rewrite Heq.
    split; [|simpl; by rewrite Hlen].
    rewrite <- app_assoc. simpl. f_equal. lia.
Qed.

End Json.

(** [postJson] retries on HTTP 429 only, at most [maxRetries] times.  When
    the first [n <= maxRetries] fetches are answered by 429 and the next one
    is not, the call sleeps [n] times and ends with that fetch: it returns
    the JSON body of a response with a status in 200..299, and throws at
    once, without a further fetch or sleep, on any other status, on a
    rejected fetch and on a body that is not JSON.  When all
    [maxRetries + 1] fetches are answered by 429 it throws the rate-limit
    error after [maxRetries] sleeps. *)
Theorem postJson_outcome {J : Type} (net : nat → fetched J) (url : string)
  (maxRetries n : nat) :
  (n ≤ maxRetries)%nat →
  (∀ k, (k < n)%nat → limited (net k)) →
  let r := postJson net url 0 maxRetries [] in
  (∀ res, net n = Fetched res → status res ≠ 429 →
     length r.2 = n
     ∧ (ok res = true → ∀ j, json res = inl j → r.1 = inl j)
     ∧ (ok res = true → ∀ message, json res = inr message →
          r.1 = inr (InvalidJson message))
     ∧ (ok res = false →
          r.1 = inr (RequestFailed url (status res) (text_or_empty res))))
  ∧ (∀ message, net n = FetchThrows message →
       r.1 = inr (FetchFailed message) ∧ length r.2 = n)
  ∧ (n = maxRetries → limited (net n) →
       ∃ text, r.1 = inr (RateLimitExceeded maxRetries text) ∧ length r.2 = maxRetries)
  ∧ (∀ j, r.1 = inl j →
       ∃ k res, (k ≤ maxRetries)%nat ∧ net k = Fetched res ∧ ok res = true
                ∧ json res = inl j).
Proof.
  intros Hn Hall r.
  destruct (postJson_retries net url maxRetries n 0%nat []) as (more & Heq & Hlen);
    [lia|intros k Hk; apply Hall; lia|].
  simpl in Heq.
  split; [|split; [|split]].
  - intros res Hres Hs. unfold r. rewrite Heq, postJson_unfold, Hres.
    rewrite (proj2 (Z.eqb_neq _ _) Hs).
    destruct (ok res) eqn:Eok.
    + destruct (json res) as [j|message] eqn:Ej; simpl.
      * split; [done|]. split; [by intros _ j' [= <-]|]. by split.
      * split; [done|]. split; [done|]. split; [by intros _ m' [= <-]|done].
    + simpl. split; [done|]. by repeat split.
  - intros message Hres. unfold r. by rewrite Heq, postJson_unfold, Hres.
  - intros -> (res & Hres & Hs). unfold r. rewrite Heq, postJson_unfold, Hres, Hs.
    simpl. destruct (lt_dec maxRetries maxRetries) as [?|_]; [lia|].
    by eexists.
  - clear n Hn Hall more Heq Hlen. unfold r. clear r.
    assert (G : ∀ d retryCount slept j, (maxRetries - retryCount)%nat = d →
              (retryCount ≤ maxRetries)%nat →
              (postJson net url retryCount maxRetries slept).1 = inl j →
              ∃ k res, (k ≤ maxRetries)%nat ∧ net k = Fetched res ∧ ok res = true
                       ∧ json res = inl j).
    { induction d as [|d IH]; intros retryCount slept j Hd Hle;
        rewrite postJson_unfold;
        destruct (net retryCount) as [m|res] eqn:Hres; try done;
        destruct (status res =? 429)%Z eqn:Hs.
      - destruct (lt_dec retryCount maxRetries); [lia|done].
      - destruct (ok res) eqn:Eok; [|done].
        destruct (json res) as [j'|message] eqn:Ej; [|done].
        intros [= <-]. by exists retryCount, res.
      - destruct (lt_dec retryCount maxRetries); [|done].
        apply IH; lia.
      - destruct (ok res) eqn:Eok; [|done].
        destruct (json res) as [j'|message] eqn:Ej; [|done].
        intros [= <-]. by exists retryCount, res. }
    intros j. apply (G maxRetries 0%nat []); lia.
Qed.

Lemma postJson_outcome_witness :
  (postJson (λ k, if (k <? 2)%nat then too_many else answers "done") "/api" 0 5 []).1
  = inl "done".
Proof.
  refine (proj1 (proj2 (proj1 (postJson_outcome
            (λ k, if (k <? 2)%nat then too_many else answers "done") "/api" 5 2 _ _)
            _ eq_refl _)) eq_refl "done" eq_refl).
  - lia.
  - intros k Hk. destruct (Nat.ltb_spec k 2); [|lia]. by eexists.
  - done.
Defined.

End ClientSpec.

(** ** The status check *)

Module StatusCheckSpec.
Import StatusCheck.

Section Handler.

Context {Ops : Type}.
Variable payload_text : Ops → string.
Variable videoData : Provider.status_entry → option video.
Variable sess : TokenPool.session.

Local Abbreviation handler := (check_status payload_text videoData sess).

Lemma pick_serves (tokenName : option string) (st : TokenPool.pool_state) :
  Lanes.cursor_ok st →
  ∃ tokenObj, (Lanes.pick sess tokenName st).1 = Some tokenObj
              ∧ Lanes.cursor_ok (Lanes.pick sess tokenName st).2.
Proof.
  intros Hok.
  destruct (LanesSpec.serve_serves sess (Lanes.Pick tokenName) st Hok) as [[t Ht] Hok'].
  by exists t.
Qed.

(** The handler keeps the round-robin counter inside the pool. *)
Lemma check_status_cursor (w : world) (b : request Ops) (srv : server) :
  Lanes.cursor_ok (pool srv) → Lanes.cursor_ok (pool (handler w b srv).2).
Proof.
  intros Hok. unfold check_status.
  destruct (pick_serves (tokenName b) (pool srv) Hok) as (tokenObj & Ht & Hok').
  destruct (Lanes.pick sess (tokenName b) (pool srv)) as [t p]. simpl in Ht, Hok'.
  subst t. destruct (access w) as [token|[status message]]; [|done].
  destruct (Executor.axiosWithRetry _ _ _ _ _ _ _ _) as [[response|[e|m]] ex]; try done.
  by destruct (Provider.b_operations (Executor.resp_data response)).
Qed.

(** What the provider's first answer does to the reply. *)
Lemma check_status_first_answer (w : world) (b : request Ops) (srv : server)
  (token : string) (r : Executor.response) :
  Lanes.cursor_ok (pool srv) →
  access w = inl token →
  provider_answers w r →
  Executor.status r ≠ 429 →
  (handler w b srv).1 =
    if ((200 <=? Executor.status r) && (Executor.status r <? 300))%Z then
      match Provider.b_operations (Executor.resp_data r) with
      | Some ops => Checked (parse videoData <$> ops)
      | None => Failed "Cannot read properties of undefined (reading 'map')"
      end
    else reply_of_error (Some (Executor.status r))
           ("Request failed with status code " ++ pretty (Executor.status r)).
Proof.
  intros Hok Haccess Hnet H429. unfold check_status.
  destruct (pick_serves (tokenName b) (pool srv) Hok) as (tokenObj & Ht & _).
  destruct (Lanes.pick sess (tokenName b) (pool srv)) as [t p]. simpl in Ht. subst t.
  rewrite Haccess.
  rewrite ExecutorSpec.axiosWithRetry_settles.
  - rewrite Hnet. simpl.
    destruct ((200 <=? Executor.status r) && (Executor.status r <? 300))%Z; [|done].
    by destruct (Provider.b_operations (Executor.resp_data r)).
  - rewrite Hnet. simpl.
    destruct ((200 <=? Executor.status r) && (Executor.status r <? 300))%Z; [done|].
    unfold Executor.is_429. simpl. by apply Z.eqb_neq.
Qed.

End Handler.

(** The reply to a provider error. *)
Lemma check_status_on_error {Ops : Type} (payload_text : Ops → string)
  (videoData : Provider.status_entry → option video) (sess : TokenPool.session)
  (w : world) (b : request Ops) (srv : server) (token : string)
  (r : Executor.response) :
  Lanes.cursor_ok (pool srv) → access w = inl token → provider_answers w r →
  (Executor.status r = 401 →
     (check_status payload_text videoData sess w b srv).1 = Expired)
  ∧ (¬ (200 ≤ Executor.status r < 300) → Executor.status r ≠ 429 →
     Executor.status r ≠ 401 →
     (check_status payload_text videoData sess w b srv).1
     = Failed ("Request failed with status code " ++ pretty (Executor.status r))).
Proof.
  intros Hok Haccess Hnet. split.
  - intros H401.
    rewrite (check_status_first_answer _ _ _ w b srv token r Hok Haccess Hnet)
      by (rewrite H401; done).
    rewrite H401. reflexivity.
  - intros Hnot H429 H401.
    rewrite (check_status_first_answer _ _ _ w b srv token r Hok Haccess Hnet) by done.
    destruct ((200 <=? Executor.status r) && (Executor.status r <? 300))%Z eqn:E.
    + apply andb_true_iff in E. lia.
    + unfold reply_of_error. rewrite bool_decide_eq_false_2; [done|]. congruence.
Qed.

(** [/api/veo3/check-status] reports an expired token exactly on HTTP 401.
    With a token to use, when the provider answers the request with status
    401 the reply carries [tokenExpired: true]; when it answers with another
    status outside 200..299 (and not 429) the reply is a plain failure with
    the message of the error; when [getAccessToken] throws, the reply is the
    expired-token one exactly when the error carries a response with status
    401.  On success every entry of the provider comes back with its
    operation, status and scene id, and only a SUCCESSFUL entry gets a
    [video] property. *)
Theorem check_status_replies {Ops : Type} (payload_text : Ops → string)
  (videoData : Provider.status_entry → option video) (sess : TokenPool.session)
  (w : world) (b : request Ops) (srv : server) :
  Lanes.cursor_ok (pool srv) →
  let reply := (check_status payload_text videoData sess w b srv).1 in
  (∀ status message, access w = inr (status, message) →
     reply = if bool_decide (status = Some 401) then Expired else Failed message)
  ∧ (∀ token r, access w = inl token → provider_answers w r →
       (Executor.status r = 401 → reply = Expired)
       ∧ (¬ (200 ≤ Executor.status r < 300) → Executor.status r ≠ 429 →
          Executor.status r ≠ 401 →
          reply = Failed ("Request failed with status code " ++ pretty (Executor.status r)))
       ∧ (200 ≤ Executor.status r < 300 →
          ∀ ops, Provider.b_operations (Executor.resp_data r) = Some ops →
                 reply = Checked (parse videoData <$> ops)
                 ∧ seen <$> (parse videoData <$> ops)
                   = (λ op, {| Provider.se_operation := Provider.se_operation op;
                               Provider.se_sceneId := Provider.se_sceneId op;
                               Provider.se_status := Provider.se_status op;
                               Provider.se_mediaGenerationId := None |}) <$> ops
                 ∧ Forall (λ op, is_Some (result_video_of (parse videoData op)) →
                                 Poller.is_successful (Provider.se_status op) = true) ops))
  ∧ Lanes.cursor_ok (pool (check_status payload_text videoData sess w b srv).2).
Proof.
  intros Hok reply. split; [|split].
  - intros status message Haccess. unfold reply, check_status.
    destruct (StatusCheckSpec.pick_serves sess (tokenName b) (pool srv) Hok)
      as (tokenObj & Ht & _).
    destruct (Lanes.pick sess (tokenName b) (pool srv)) as [t p]. simpl in Ht. subst t.
    by rewrite Haccess.
  - intros token r Haccess Hnet.
    split; [|split].
    + exact (proj1 (check_status_on_error _ _ _ w b srv token r Hok Haccess Hnet)).
    + exact (proj2 (check_status_on_error _ _ _ w b srv token r Hok Haccess Hnet)).
    + intros H2xx ops Hops. unfold reply.
      rewrite (check_status_first_answer _ _ _ w b srv token r Hok Haccess Hnet) by lia.
      destruct ((200 <=? Executor.status r) && (Executor.status r <? 300))%Z eqn:E.
      * rewrite Hops. split; [done|]. split.
        -- rewrite <- list_fmap_compose. done.
        -- apply Forall_forall. intros op _. unfold parse. simpl.
           unfold Poller.is_successful.
           destruct (bool_decide (Provider.se_status op = "MEDIA_GENERATION_STATUS_SUCCESSFUL"))
             eqn:E1; simpl.
           ++ intros _. by rewrite orb_true_r.
           ++ destruct (bool_decide (Provider.se_status op = "SUCCESSFUL")); [done|].
              by intros [? ?].
      * apply andb_false_iff in E. lia.
  - by apply check_status_cursor.
Qed.

Lemma check_status_replies_witness :
  (check_status (λ _ : unit, "{}") (λ _, None) TokenPool.no_session
     (answering unauthorized) {| operations := (); tokenName := None |} fresh_server).1
  = Expired.
Proof.
  refine (proj1 (proj1 (proj2 (check_status_replies (λ _ : unit, "{}") (λ _, None)
            TokenPool.no_session (answering unauthorized)
            {| operations := (); tokenName := None |} fresh_server _))
            "ya29.token" unauthorized eq_refl _) eq_refl).
  - by left.
  - by intros cfg.
Defined.

End StatusCheckSpec.

(** ** Polling through the server *)

Module PollChainSpec.
Import StatusCheck PollChain.

Section Chain.

Context {Ops : Type}.
Variable payload_text : Ops → string.
Variable videoData : Provider.status_entry → option video.
Variable sess : TokenPool.session.
Variable worlds : nat → world.
Variable body : request Ops.

Lemma server_before_cursor (srv : server) (i : nat) :
  Lanes.cursor_ok (pool srv) →
  Lanes.cursor_ok (pool (server_before payload_text videoData sess worlds body i srv)).
Proof.
  intros Hok. induction i as [|i IH]; [done|]. simpl.
  by apply StatusCheckSpec.check_status_cursor.
Qed.

(** The poller gets the JSON value of the handler's reply. *)
Lemma checkStatus_answer (srv : server) (i : nat) :
  checkStatus payload_text videoData sess worlds body srv i
  = Poller.Answer
      (to_check_result
         (check_status payload_text videoData sess (worlds i) body
            (server_before payload_text videoData sess worlds body i srv)).1).
Proof.
  unfold checkStatus. rewrite ClientSpec.postJson_unfold. reflexivity.
Qed.

End Chain.

(** An expired token stops the poller at once.  When the server's status
    check number [i] gets HTTP 401 from the provider, [pollOperation] throws
    the token-expired error in iteration [i] without sleeping; when it gets
    another error status (not 429) the answer has no operations and
    [pollOperation] throws the invalid-payload error, also without sleeping
    or polling again. *)
Theorem pollOperation_stops_on_provider_error {Ops : Type}
  (payload_text : Ops → string) (videoData : Provider.status_entry → option video)
  (sess : TokenPool.session) (worlds : nat → world) (body : request Ops)
  (srv : server) (intervalMs : Z) (remaining i : nat) (slept : list Z)
  (token : string) (r : Executor.response) :
  Lanes.cursor_ok (pool srv) →
  access (worlds i) = inl token →
  provider_answers (worlds i) r →
  let api := checkStatus payload_text videoData sess worlds body srv in
  (Executor.status r = 401 →
     Poller.poll_loop api intervalMs (S remaining) i slept
     = (inr Poller.TokenExpired, slept))
  ∧ (¬ (200 ≤ Executor.status r < 300) → Executor.status r ≠ 429 →
     Executor.status r ≠ 401 →
     Poller.poll_loop api intervalMs (S remaining) i slept
     = (inr Poller.InvalidStatusPayload, slept)).
Proof.
  intros Hok Haccess Hnet api.
  pose proof (server_before_cursor payload_text videoData sess worlds body srv i Hok)
    as Hok_i.
  destruct (StatusCheckSpec.check_status_on_error payload_text videoData sess (worlds i)
              body _ token r Hok_i Haccess Hnet) as (H401 & Hother).
  split.
  - intros Hs. simpl. unfold api. rewrite checkStatus_answer, (H401 Hs). reflexivity.
  - intros H1 H2 H3. simpl. unfold api.
    rewrite checkStatus_answer, (Hother H1 H2 H3). reflexivity.
Qed.

Lemma pollOperation_stops_on_provider_error_witness :
  pollOperation (λ _ : unit, "{}") (λ _, None) TokenPool.no_session
    (λ _, answering unauthorized) {| operations := (); tokenName := None |}
    fresh_server 2500 120
  = (inr Poller.TokenExpired, []).
Proof.
  refine (proj1 (pollOperation_stops_on_provider_error (λ _ : unit, "{}") (λ _, None)
            TokenPool.no_session (λ _, answering unauthorized)
            {| operations := (); tokenName := None |} fresh_server 2500 119 0 []
            "ya29.token" unauthorized _ eq_refl _) eq_refl).
  - by left.
  - by intros cfg.
Defined.

End PollChainSpec.

(** ** What a run of [pollOperation] has done *)

Module PollerRunSpec.
Import Poller PollerRun.

Section Poll.

Variable api : nat → check.
Variable intervalMs : Z.

Lemma poll_loop_run (remaining : nat) :
  ∀ (i : nat) (slept : list Z),
    let r := poll_loop api intervalMs remaining i slept in
    (∃ more, r.2 = slept ++ more
             ∧ Forall (λ ms, ms = intervalMs ∨ ms = intervalMs * 2) more
             ∧ (length more ≤ remaining)%nat
             ∧ (r.1 = inr Timeout ↔ length more = remaining)
             ∧ (∀ op, r.1 = inl op →
                  is_successful (Provider.se_status op) = true
                  ∧ first_operation (api (i + length more)) op
                  ∧ (length more < remaining)%nat)).
Proof.
  induction remaining as [|n IH]; intros i slept; simpl.
  - exists []. rewrite app_nil_r. by repeat split.
  - assert (Hstop : ∀ f : failure, f ≠ Timeout →
              ∃ more, slept = slept ++ more
                ∧ Forall (λ ms, ms = intervalMs ∨ ms = intervalMs * 2) more
                ∧ (length more ≤ S n)%nat
                ∧ (@inr Provider.status_entry _ f = inr Timeout ↔ length more = S n)
                ∧ (∀ op, @inr Provider.status_entry _ f = inl op →
                     is_successful (Provider.se_status op) = true
                     ∧ first_operation (api (i + length more)) op
                     ∧ (length more < S n)%nat)).
    { intros f Hf. exists []. rewrite app_nil_r. split; [done|]. split; [done|].
      split; [simpl; lia|]. split; [|done].
      split; [by intros [= ->]|done]. }
    assert (Hnext : ∀ ms, ms = intervalMs ∨ ms = intervalMs * 2 →
              let r := poll_loop api intervalMs n (S i) (slept ++ [ms]) in
              ∃ more, r.2 = slept ++ more
                ∧ Forall (λ ms, ms = intervalMs ∨ ms = intervalMs * 2) more
                ∧ (length more ≤ S n)%nat
                ∧ (r.1 = inr Timeout ↔ length more = S n)
                ∧ (∀ op, r.1 = inl op →
                     is_successful (Provider.se_status op) = true
                     ∧ first_operation (api (i + length more)) op
                     ∧ (length more < S n)%nat)).
    { intros ms Hms r. destruct (IH (S i) (slept ++ [ms])) as (more & H2 & Hall & Hlen & Ht & Hop).
      fold r in H2, Ht, Hop.
      exists (ms :: more). rewrite H2, <- app_assoc. split; [done|].
      split; [by constructor|]. split; [simpl; lia|].
      split; [rewrite Ht; simpl; lia|].
      intros op Hr. destruct (Hop op Hr) as (Hs & Hf & Hl).
      split; [done|]. split; [|simpl; lia].
      simpl. by replace (i + S (length more))%nat with (S i + length more)%nat by lia. }
    destruct (api i) as [res|m] eqn:Ea; [|by apply Hstop].
    destruct (negb (success res) && tokenExpired res); [by apply Hstop|].
    destruct (operations res ≫= head) as [op|] eqn:Eo; [|by apply Hstop].
    destruct (is_successful (Provider.se_status op)) eqn:Es.
    + exists []. rewrite app_nil_r. simpl. split; [done|]. split; [done|].
      split; [lia|]. split; [split; [done|lia]|].
      intros op' [= <-]. split; [done|]. split; [|lia].
      rewrite Nat.add_0_r. exists res. by split.
    + destruct (is_failed (Provider.se_status op)).
      * destruct (JS.includes "HIGH_TRAFFIC" (errorMsg op)); [|by apply Hstop].
        apply Hnext. by right.
      * apply Hnext. by left.
Qed.

End Poll.

(** [pollOperation] returns only what was reported SUCCESSFUL, and its
    waiting is bounded.  An operation it returns is the first operation of
    the answer to one of its at most [maxTries] status checks, with a
    SUCCESSFUL status.  It sleeps at most [maxTries] times, each time for
    the interval or twice the interval, so for at most
    [2 * maxTries * intervalMs] milliseconds in all; the time-out error is
    thrown exactly when it has slept [maxTries] times. *)
Theorem pollOperation_sound (api : nat → check) (intervalMs : Z) (maxTries : nat) :
  let r := pollOperation api intervalMs maxTries in
  (∀ op, r.1 = inl op →
     is_successful (Provider.se_status op) = true
     ∧ ∃ i, (i < maxTries)%nat ∧ first_operation (api i) op ∧ length r.2 = i)
  ∧ Forall (λ ms, ms = intervalMs ∨ ms = intervalMs * 2) r.2
  ∧ (length r.2 ≤ maxTries)%nat
  ∧ (r.1 = inr Timeout ↔ length r.2 = maxTries)
  ∧ (0 ≤ intervalMs → 0 ≤ total r.2 ≤ 2 * Z.of_nat maxTries * intervalMs).
Proof.
  intros r. destruct (poll_loop_run api intervalMs maxTries 0%nat [])
    as (more & H2 & Hall & Hlen & Ht & Hop).
  fold (pollOperation api intervalMs maxTries) in H2, Ht, Hop. fold r in H2, Ht, Hop.
  simpl in H2. rewrite H2.
  split; [|split; [done|split; [done|split; [done|]]]].
  - intros op Hr. destruct (Hop op Hr) as (Hs & Hf & Hl). split; [done|].
    exists (length more). by repeat split.
  - intros Hi. clear H2 Ht Hop r. revert maxTries Hlen.
    induction Hall as [|ms more Hms Hall IH]; intros maxTries Hlen.
    + unfold total. simpl. nia.
    + destruct maxTries as [|k]; [simpl in Hlen; lia|].
      specialize (IH k ltac:(simpl in Hlen; lia)).
      change (total (ms :: more)) with (ms + total more).
      rewrite Nat2Z.inj_succ. destruct Hms as [->| ->]; nia.
Qed.

Lemma pollOperation_sound_witness :
  0 ≤ total (pollOperation mocked 2500 120).2 ≤ 2 * 120 * 2500.
Proof.
  exact (proj2 (proj2 (proj2 (proj2 (pollOperation_sound mocked 2500 120))))
           ltac:(lia)).
Defined.

End PollerRunSpec.

(** ** Random identifiers *)

Module RandomIdSpec.
Import RandomId.

Lemma toString16_digit (n : Z) :
  0 ≤ n < 16 → toString16 n = String (hex_char n) EmptyString.
Proof.
  intros H. unfold toString16. simpl.
  destruct (Z.ltb_spec n 16); [done|lia].
Qed.

Lemma land_15 (r : Z) : 0 ≤ Z.land r 15 < 16.
Proof.
  change 15 with (Z.ones 4). rewrite Z.land_ones by lia.
  apply Z.mod_pos_bound. lia.
Qed.

Lemma land_3 (r : Z) : 0 ≤ Z.land r 3 < 4.
Proof.
  change 3 with (Z.ones 2). rewrite Z.land_ones by lia.
  apply Z.mod_pos_bound. lia.
Qed.

Lemma below_16 (x : Z) (P : Z → Prop) :
  0 ≤ x < 16 →
  P 0 → P 1 → P 2 → P 3 → P 4 → P 5 → P 6 → P 7 → P 8 → P 9 → P 10 → P 11 → P 12 →
  P 13 → P 14 → P 15 → P x.
Proof.
  intros H. intros.
  destruct (Z.eq_dec x 0) as [->|]; [done|]. destruct (Z.eq_dec x 1) as [->|]; [done|].
  destruct (Z.eq_dec x 2) as [->|]; [done|]. destruct (Z.eq_dec x 3) as [->|]; [done|].
  destruct (Z.eq_dec x 4) as [->|]; [done|]. destruct (Z.eq_dec x 5) as [->|]; [done|].
  destruct (Z.eq_dec x 6) as [->|]; [done|]. destruct (Z.eq_dec x 7) as [->|]; [done|].
  destruct (Z.eq_dec x 8) as [->|]; [done|]. destruct (Z.eq_dec x 9) as [->|]; [done|].
  destruct (Z.eq_dec x 10) as [->|]; [done|]. destruct (Z.eq_dec x 11) as [->|]; [done|].
  destruct (Z.eq_dec x 12) as [->|]; [done|]. destruct (Z.eq_dec x 13) as [->|]; [done|].
  destruct (Z.eq_dec x 14) as [->|]; [done|]. destruct (Z.eq_dec x 15) as [->|]; [done|].
  lia.
Qed.

(** What the callback returns for each of the three digits. *)
Lemma mix_0 (r : Z) :
  ∃ h, toString16 (mix 0 r) = String h EmptyString ∧ is_hex h = true.
Proof.
  unfold mix. change (Z.shiftr 15 (0 / 4)) with 15. rewrite Z.lxor_0_l.
  pose proof (land_15 r) as H. rewrite toString16_digit by done.
  eexists. split; [done|].
  apply (below_16 (Z.land r 15) (λ x, is_hex (hex_char x) = true) H); reflexivity.
Qed.

Lemma mix_1 (r : Z) :
  ∃ h, toString16 (mix 1 r) = String h EmptyString ∧ is_hex h = true.
Proof.
  unfold mix. change (Z.shiftr 15 (1 / 4)) with 15.
  pose proof (land_15 r) as H.
  apply (below_16 (Z.land r 15)
           (λ x, ∃ h, toString16 (Z.lxor 1 x) = String h EmptyString ∧ is_hex h = true) H);
    by eexists.
Qed.

Lemma mix_8 (r : Z) :
  ∃ h, toString16 (mix 8 r) = String h EmptyString ∧ is_variant h = true.
Proof.
  unfold mix. change (Z.shiftr 15 (8 / 4)) with 3.
  pose proof (land_3 r) as H.
  assert (H' : 0 ≤ Z.land r 3 < 16) by lia.
  apply (below_16 (Z.land r 3)
           (λ x, x < 4 →
                 ∃ h, toString16 (Z.lxor 8 x) = String h EmptyString ∧ is_variant h = true)
           H'); try (intros; lia); try (intros _; by eexists).
Qed.

Lemma fill_drawn (random : nat → Z) (s : string) :
  ∀ k, matches (drawn_for <$> list_ascii_of_string s) (fill random s k) = true.
Proof.
  induction s as [|c s IH]; intros k; [done|].
  simpl list_ascii_of_string. rewrite fmap_cons.
  destruct (Ascii.eqb_spec c "0") as [->|H0].
  { change (fill random (String "0" s) k)
      with (toString16 (mix 0 (random k)) ++ fill random s (S k))%string.
    destruct (mix_0 (random k)) as (h & -> & Hh).
    change (is_hex h && matches (drawn_for <$> list_ascii_of_string s)
                          (fill random s (S k)) = true).
    by rewrite Hh, IH. }
  destruct (Ascii.eqb_spec c "1") as [->|H1].
  { change (fill random (String "1" s) k)
      with (toString16 (mix 1 (random k)) ++ fill random s (S k))%string.
    destruct (mix_1 (random k)) as (h & -> & Hh).
    change (is_hex h && matches (drawn_for <$> list_ascii_of_string s)
                          (fill random s (S k)) = true).
    by rewrite Hh, IH. }
  destruct (Ascii.eqb_spec c "8") as [->|H8].
  { change (fill random (String "8" s) k)
      with (toString16 (mix 8 (random k)) ++ fill random s (S k))%string.
    destruct (mix_8 (random k)) as (h & -> & Hh).
    change (is_variant h && matches (drawn_for <$> list_ascii_of_string s)
                              (fill random s (S k)) = true).
    by rewrite Hh, IH. }
  assert (E : is_018 c = false).
  { unfold is_018. by rewrite (proj2 (Ascii.eqb_neq _ _) H0),
      (proj2 (Ascii.eqb_neq _ _) H1), (proj2 (Ascii.eqb_neq _ _) H8). }
  assert (D : drawn_for c = Ascii.eqb c).
  { unfold drawn_for. by rewrite (proj2 (Ascii.eqb_neq _ _) H0),
      (proj2 (Ascii.eqb_neq _ _) H1), (proj2 (Ascii.eqb_neq _ _) H8). }
  simpl fill. rewrite E, D. simpl matches.
  by rewrite (proj2 (Ascii.eqb_eq c c) eq_refl), IH.
Qed.

Lemma matches_length (tests : list (ascii → bool)) :
  ∀ s, matches tests s = true → String.length s = length tests.
Proof.
  induction tests as [|t tests IH]; intros [|c s]; simpl; try done.
  intros H. apply andb_true_iff in H as [_ H]. by rewrite (IH s H).
Qed.

(** [cryptoRandomId] always returns a version 4 UUID, whatever the random
    bytes: 36 characters, hyphens after 8, 12, 16 and 20 digits, the version
    digit 4, a variant digit among 8, 9, a, b, and lower-case hexadecimal
    digits everywhere else. *)
Theorem cryptoRandomId_is_uuid (random : nat → Z) :
  matches uuid_v4 (cryptoRandomId random) = true
  ∧ String.length (cryptoRandomId random) = 36%nat.
Proof.
  assert (H : matches uuid_v4 (cryptoRandomId random) = true)
    by apply (fill_drawn random template 0).
  split; [exact H|]. exact (matches_length _ _ H).
Qed.

(** One identifier, from bytes that count up. *)
Example cryptoRandomId_counting :
  cryptoRandomId counting = "99abcdef-1123-4456-b89a-acdef0123456".
Proof. vm_compute. reflexivity. Qed.

End RandomIdSpec.

(** ** Image uploads of the browser client *)

Module UploadsSpec.
Import Uploads.

Lemma prefix_append (p r : string) : String.prefix p (p ++ r)%string = true.
Proof.
  induction p as [|c p IH]; [by destruct r|].
  change (String.prefix (String c p) (String c (p ++ r)%string) = true).
  simpl. destruct (ascii_dec c c); [apply IH|done].
Qed.

Lemma skip_append (p r : string) : skip (String.length p) (p ++ r)%string = r.
Proof. induction p as [|c p IH]; [done|]. exact IH. Qed.

Lemma replace_prefix (pattern replacement rest : string) :
  replace pattern replacement (pattern ++ rest)%string = (replacement ++ rest)%string.
Proof.
  pose proof (prefix_append pattern rest) as P.
  pose proof (skip_append pattern rest) as K.
  destruct (pattern ++ rest)%string as [|c r] eqn:E.
  - destruct pattern; [|done]. simpl in K. subst rest. simpl.
    clear. induction replacement as [|c r IH]; [done|].
    change (String c r = String c (r ++ EmptyString)%string). congruence.
  - change (replace pattern replacement (String c r))
      with (if String.prefix pattern (String c r)
            then (replacement ++ skip (String.length pattern) (String c r))%string
            else String c (replace pattern replacement r)).
    by rewrite P, K.
Qed.

(** Every log event of uploads starts with the tool name and ends with the
    four common properties, with at most two properties of its own between
    them, and these only for the crop and resize events; no key occurs twice;
    the session id is the caller's when that is not empty and is never
    empty; a video aspect ratio is reported as the image aspect ratio of the
    same name. *)
Theorem buildUploadLog_shape (userAgent : string) (now : Z) (iso event : string)
    (params : log_params) :
  let e := buildUploadLog userAgent now iso event params in
  NoDup (key <$> eventProperties e)
  ∧ (∃ own,
        eventProperties e
        = {| key := "TOOL_NAME"; val := stringValue "PINHOLE" |} :: own
            ++ common_properties userAgent
        ∧ (length own ≤ 2)%nat
        ∧ (own ≠ [] → event = "PINHOLE_UPLOAD_IMAGE_TO_CROP"
                      ∨ event = "PINHOLE_RESIZE_IMAGE"))
  ∧ eventMetadata_sessionId e ≠ EmptyString
  ∧ (∀ s, p_sessionId params = Some s → s ≠ EmptyString →
          eventMetadata_sessionId e = s)
  ∧ (∀ rest, event = "PINHOLE_RESIZE_IMAGE" →
             p_aspectRatio params = Some ("VIDEO_" ++ rest)%string →
             {| key := "PINHOLE_IMAGE_ASPECT_RATIO";
                val := stringValue ("IMAGE_" ++ rest)%string |} ∈ eventProperties e).
Proof.
  intros e. subst e. unfold buildUploadLog. cbn [eventProperties eventMetadata_sessionId].
  split; [|split; [|split; [|split]]].
  - destruct (String.eqb event "PINHOLE_UPLOAD_IMAGE_TO_CROP" && _ && _) eqn:E1;
      destruct (String.eqb event "PINHOLE_RESIZE_IMAGE" && _) eqn:E2.
    + apply andb_true_iff in E1 as [E1 _]. apply andb_true_iff in E1 as [E1 _].
      apply andb_true_iff in E2 as [E2 _].
      apply String.eqb_eq in E1, E2. congruence.
    + simpl. apply (bool_decide_unpack _). by vm_compute.
    + simpl. apply (bool_decide_unpack _). by vm_compute.
    + simpl. apply (bool_decide_unpack _). by vm_compute.
  - destruct (String.eqb_spec event "PINHOLE_UPLOAD_IMAGE_TO_CROP") as [E1|E1];
      destruct (String.eqb_spec event "PINHOLE_RESIZE_IMAGE") as [E2|E2];
      try congruence; cbn [andb].
    + destruct (truthy_number (p_width params) && truthy_number (p_height params)).
      * eexists [_; _]. split; [reflexivity|]. split; [simpl; lia|]. by left.
      * exists []. split; [reflexivity|]. split; [simpl; lia|done].
    + destruct (JS.truthy (p_aspectRatio params)).
      * eexists [_]. split; [reflexivity|]. split; [simpl; lia|]. by right.
      * exists []. split; [reflexivity|]. split; [simpl; lia|done].
    + exists []. split; [reflexivity|]. split; [simpl; lia|done].
  - destruct (p_sessionId params) as [[|c s]|]; simpl; done.
  - intros s -> Hs. destruct s; [done|]. reflexivity.
  - intros rest -> Ha. rewrite Ha.
    destruct (String.eqb "PINHOLE_RESIZE_IMAGE" "PINHOLE_UPLOAD_IMAGE_TO_CROP" && _ && _)
      eqn:E1; [done|].
    change (String.eqb "PINHOLE_RESIZE_IMAGE" "PINHOLE_RESIZE_IMAGE") with true.
    change (JS.truthy (Some ("VIDEO_" ++ rest)%string)) with true.
    cbn [andb default id].
    rewrite (prefix_append "VIDEO_" rest), (replace_prefix "VIDEO_" "IMAGE_" rest).
    rewrite !elem_of_app. left. right. apply list_elem_of_singleton. done.
Qed.

Section Client.

Variable userAgent : string.
Variable btoa : string → string.

Local Abbreviation fileToMediaId := (Uploads.fileToMediaId userAgent btoa).
Local Abbreviation filesToMediaIds := (Uploads.filesToMediaIds userAgent btoa).
Local Abbreviation filesToMediaIds_loop := (Uploads.filesToMediaIds_loop userAgent btoa).

Lemma fileToMediaId_hit (w : world) (f : file) (aspectRatio : string)
    (cache : gmap string media) (d : media) :
  cache !! cacheKey f aspectRatio = Some d →
  fileToMediaId w f aspectRatio cache = (inl d, cache, []).
Proof. intros H. unfold Uploads.fileToMediaId. by rewrite H. Qed.

Lemma fileToMediaId_grows (w : world) (f : file) (aspectRatio : string)
    (cache : gmap string media) :
  cache ⊆ (fileToMediaId w f aspectRatio cache).1.2
  ∧ ∀ d, (fileToMediaId w f aspectRatio cache).1.1 = inl d →
         (fileToMediaId w f aspectRatio cache).1.2 !! cacheKey f aspectRatio = Some d.
Proof.
  unfold Uploads.fileToMediaId.
  destruct (cache !! cacheKey f aspectRatio) as [c|] eqn:E.
  { simpl. split; [done|]. by intros d [= <-]. }
  destruct (raw_upload w); [by split|].
  destruct (cropped_image w); [|by split].
  destruct (targetSizeFromAspect aspectRatio) as [tw th].
  destruct (cropped_upload w) as [resp|]; [|by split].
  destruct (negb (JS.truthy resp)); [by split|].
  simpl. split; [by apply insert_subseteq|].
  intros d [= <-]. by rewrite lookup_insert_eq.
Qed.

(** A file is uploaded once for an aspect ratio: a cached result is
    returned without any call; a new result is stored under the file's key,
    so that the next call for that file returns it without any call; an error
    leaves the cache as it was, and no entry of the cache is ever replaced or
    removed.  A new result has a non-empty media id and the target size of the
    aspect ratio, and comes from exactly two uploads, the raw bytes and then
    the cropped image; every call that carries a session id carries the one
    drawn at the start. *)
Theorem fileToMediaId_uploads_once (w : world) (f : file) (aspectRatio : string)
    (cache : gmap string media) :
  let r := fileToMediaId w f aspectRatio cache in
  cache ⊆ r.1.2
  ∧ (∀ d, cache !! cacheKey f aspectRatio = Some d → r = (inl d, cache, []))
  ∧ (∀ d, r.1.1 = inl d →
          r.1.2 !! cacheKey f aspectRatio = Some d
          ∧ ∀ w', fileToMediaId w' f aspectRatio r.1.2 = (inl d, r.1.2, []))
  ∧ (∀ error, r.1.1 = inr error → r.1.2 = cache)
  ∧ (∀ d, cache !! cacheKey f aspectRatio = None → r.1.1 = inl d →
          mediaId d ≠ EmptyString
          ∧ (width d, height d) = targetSizeFromAspect aspectRatio
          ∧ fileName d = name f
          ∧ filter is_upload r.2
            = [ uploadRawImage (btoa (bytes f)) aspectRatio;
                uploadCroppedImage (dataUrl d) aspectRatio (";" ++ pretty (now w))%string ])
  ∧ (∀ c s, c ∈ r.2 → session_of c = Some s → s = (";" ++ pretty (now w))%string).
Proof.
  intros r.
  destruct (fileToMediaId_grows w f aspectRatio cache) as [Hsub Hnew]. fold r in Hsub, Hnew.
  split; [exact Hsub|].
  split; [intros d; apply fileToMediaId_hit|].
  split.
  { intros d Hd. split; [by apply Hnew|]. intros w'. apply fileToMediaId_hit. by apply Hnew. }
  subst r. unfold Uploads.fileToMediaId.
  destruct (cache !! cacheKey f aspectRatio) as [c|] eqn:E.
  { simpl. split; [done|]. split; [done|]. intros c' s Hc. by apply elem_of_nil in Hc. }
  assert (Hlog : ∀ k ev wd ht ar c s,
             c = upload_log userAgent w k ev
                   {| p_width := wd; p_height := ht; p_aspectRatio := ar;
                      p_sessionId := Some (";" ++ pretty (now w))%string |} →
             session_of c = Some s → s = (";" ++ pretty (now w))%string).
  { intros k ev wd ht ar c s -> [= <-]. reflexivity. }
  destruct (raw_upload w) as [err|].
  { simpl. split; [done|]. split; [done|].
    intros c s Hc Hs. apply elem_of_cons in Hc as [Hc|Hc]; [by eapply Hlog|].
    apply list_elem_of_singleton in Hc. by subst c. }
  destruct (cropped_image w) as [url|err].
  2:{ simpl. split; [done|]. split; [done|].
      intros c s Hc Hs. apply elem_of_cons in Hc as [Hc|Hc]; [by eapply Hlog|].
      apply list_elem_of_singleton in Hc. by subst c. }
  destruct (targetSizeFromAspect aspectRatio) as [tw th] eqn:Et.
  assert (Hfour : ∀ c s,
             c ∈ [upload_log userAgent w 0 "PINHOLE_UPLOAD_IMAGE"
                    {| p_width := None; p_height := None; p_aspectRatio := None;
                       p_sessionId := Some (";" ++ pretty (now w))%string |};
                  uploadRawImage (btoa (bytes f)) aspectRatio]
                 ++ [upload_log userAgent w 1 "PINHOLE_UPLOAD_IMAGE_TO_CROP"
                       {| p_width := Some tw; p_height := Some th; p_aspectRatio := None;
                          p_sessionId := Some (";" ++ pretty (now w))%string |};
                     uploadCroppedImage url aspectRatio (";" ++ pretty (now w))%string] →
             session_of c = Some s → s = (";" ++ pretty (now w))%string).
  { intros c s Hc Hs. apply elem_of_app in Hc as [Hc|Hc].
    - apply elem_of_cons in Hc as [Hc|Hc]; [by eapply Hlog|].
      apply list_elem_of_singleton in Hc. by subst c.
    - apply elem_of_cons in Hc as [Hc|Hc]; [by eapply Hlog|].
      apply list_elem_of_singleton in Hc. subst c. by injection Hs as <-. }
  destruct (cropped_upload w) as [resp|err].
  2:{ simpl. split; [done|]. split; [done|]. exact Hfour. }
  destruct (JS.truthy resp) eqn:Eresp; cbn [negb].
  2:{ simpl. split; [done|]. split; [done|]. exact Hfour. }
  cbn [fst snd]. split; [done|]. split.
  - intros d _ [= <-]. cbn [mediaId width height fileName dataUrl].
    split; [|done].
    destruct resp as [[|ch id]|]; done.
  - intros c s Hc Hs. apply elem_of_app in Hc as [Hc|Hc]; [by eapply Hfour|].
    apply list_elem_of_singleton in Hc. by eapply Hlog.
Qed.

Lemma filesToMediaIds_loop_result (worlds : nat → world) (aspectRatio : string)
    (files : list file) :
  ∀ k out cache,
    let r := filesToMediaIds_loop worlds k files aspectRatio out cache in
    cache ⊆ r.1.2
    ∧ ∀ out', r.1.1 = inl out' →
        ∃ new, out' = out ++ new
               ∧ Forall2 (λ f d, r.1.2 !! cacheKey f aspectRatio = Some d)
                         (filter is_image files) new.
Proof.
  induction files as [|f files IH]; intros k out cache r; subst r.
  { simpl. split; [done|]. intros out' [= <-]. exists []. by rewrite app_nil_r. }
  cbn [Uploads.filesToMediaIds_loop]. rewrite filter_cons.
  destruct (is_image f) eqn:Ef; cbn [negb].
  2:{ rewrite decide_False by (simpl; tauto). apply IH. }
  rewrite decide_True by (simpl; tauto).
  destruct (fileToMediaId_grows (worlds k) f aspectRatio cache) as [Hsub Hnew].
  destruct (fileToMediaId (worlds k) f aspectRatio cache) as [[[one|error] cache'] calls].
  2:{ simpl in *. split; [done|]. by intros out'. }
  cbn [fst snd] in Hsub, Hnew.
  specialize (IH (S k) (out ++ [one]) cache').
  destruct (filesToMediaIds_loop worlds (S k) files aspectRatio (out ++ [one]) cache')
    as [[r cache''] calls'].
  cbn [fst snd] in IH |- *. destruct IH as [Hsub' Hout].
  split; [by etrans|].
  intros out' ->. destruct (Hout out' eq_refl) as (new & -> & Hall).
  exists (one :: new). split; [by rewrite <- app_assoc|].
  constructor; [|done].
  eapply lookup_weaken; [|exact Hsub']. by apply Hnew.
Qed.

(** [filesToMediaIds] skips the files that are not images and answers, in
    the order of the files, with what the cache holds for each image file
    afterwards; the cache only grows, also when an upload fails; without image
    files nothing is called. *)
Theorem filesToMediaIds_result (worlds : nat → world) (files : list file)
    (aspectRatio : string) (cache : gmap string media) :
  let r := filesToMediaIds worlds files aspectRatio cache in
  cache ⊆ r.1.2
  ∧ (∀ out, r.1.1 = inl out →
            Forall2 (λ f d, r.1.2 !! cacheKey f aspectRatio = Some d)
                    (filter is_image files) out)
  ∧ (filter is_image files = [] → r = (inl [], cache, [])).
Proof.
  intros r. subst r. unfold Uploads.filesToMediaIds.
  destruct (filesToMediaIds_loop_result worlds aspectRatio files 0 [] cache) as [Hsub Hout].
  split; [exact Hsub|]. split.
  - intros out E. destruct (Hout out E) as (new & -> & H). exact H.
  - clear Hsub Hout. generalize 0%nat.
    induction files as [|f files IH]; intros k Hnone; [done|].
    rewrite filter_cons in Hnone. cbn [Uploads.filesToMediaIds_loop].
    destruct (is_image f) eqn:Ef.
    + by rewrite decide_True in Hnone by (simpl; tauto).
    + rewrite decide_False in Hnone by (simpl; tauto). cbn [negb]. by apply IH.
Qed.

End Client.

(** The same photo listed twice, with a text file between: one upload, two
    results. *)
Example filesToMediaIds_twice :
  let r := filesToMediaIds "agent" (λ s, s) (λ k, accepting (1000 + Z.of_nat k) "media-1")
             [photo; notes; photo] "VIDEO_ASPECT_RATIO_PORTRAIT" ∅ in
  match r.1.1 with inl out => mediaId <$> out | inr _ => [] end = ["media-1"; "media-1"]
  ∧ filter is_upload r.2
    = [ uploadRawImage "..." "VIDEO_ASPECT_RATIO_PORTRAIT";
        uploadCroppedImage "data:image/jpeg;base64,AAAA" "VIDEO_ASPECT_RATIO_PORTRAIT"
          ";1000" ].
Proof. vm_compute. done. Qed.

End UploadsSpec.

(** ** The cover crop *)

Module CropSpec.
Import Double Crop.

(** The quotient of a target size by a source size, with its relative
    error. *)
Lemma div_sizes (T s : Z) :
  0 < T < 2 ^ 10 → 0 < s < 2 ^ 31 →
  ∃ n, div (of_int T) (of_int s) = Fin n
       ∧ 0 ≤ n
       ∧ - (T * unit) ≤ 2 ^ 53 * (n * s - T * unit) ≤ T * unit.
Proof.
  intros HT Hs.
  assert (HU0 : 0 < unit) by (by apply Z.pow_pos_nonneg).
  assert (HTU : 0 < T * unit) by (apply Z.mul_pos_pos; lia).
  assert (HsU : 0 < s * unit) by (apply Z.mul_pos_pos; lia).
  unfold div, of_int.
  destruct (Z.eqb_spec (s * unit) 0) as [E|_]; [lia|].
  destruct (Z.ltb_spec (T * unit) 0) as [|_]; [lia|].
  destruct (Z.ltb_spec (s * unit) 0) as [|_]; [lia|].
  cbn [xorb]. rewrite !Z.abs_eq by lia.
  set (v := T * unit / s).
  assert (Hv : 2 ^ 1043 ≤ v < 2 ^ 1084).
  { unfold v. clear -HT Hs. split.
    - apply Z.div_le_lower_bound; [lia|].
      change unit with (2 ^ 31 * 2 ^ 1043).
      assert (HB : 0 < 2 ^ 1043) by (by apply Z.pow_pos_nonneg).
      revert HB. generalize (2 ^ 1043). intros B HB. nia.
    - apply Z.div_lt_upper_bound; [lia|].
      change (2 ^ 1084) with (2 ^ 10 * unit).
      assert (HB : 0 < unit) by (by apply Z.pow_pos_nonneg).
      revert HB. generalize unit. intros B HB. nia. }
  assert (Hv0 : 0 < v).
  { assert (0 < 2 ^ 1043) by (by apply Z.pow_pos_nonneg). lia. }
  set (e := Z.log2 v + 1).
  destruct (Z.log2_spec v Hv0) as [Hlo Hhi].
  replace (Z.succ (Z.log2 v)) with e in Hhi by (unfold e; lia).
  assert (He : 1044 ≤ e ≤ 1084).
  { unfold e. split.
    - assert (1043 ≤ Z.log2 v); [|lia].
      rewrite <- (Z.log2_pow2 1043) by lia. apply Z.log2_le_mono. lia.
    - assert (Z.log2 v < 1084); [|lia].
      apply Z.log2_lt_pow2; lia. }
  assert (Hpow : 2 ^ Z.log2 v = 2 ^ 52 * 2 ^ (e - 53)).
  { rewrite <- Z.pow_add_r by lia. f_equal. unfold e. lia. }
  assert (Hpow' : 2 ^ e = 2 ^ 53 * 2 ^ (e - 53)).
  { rewrite <- Z.pow_add_r by lia. f_equal. lia. }
  assert (HP : 0 < 2 ^ (e - 53)) by (apply Z.pow_pos_nonneg; lia).
  rewrite Hpow in Hlo. rewrite Hpow' in Hhi.
  assert (Hdm : T * unit = s * v + (T * unit) mod s) by (apply Z.div_mod; lia).
  pose proof (Z.mod_pos_bound (T * unit) s ltac:(lia)) as Hmod.
  fold v in Hdm.
  assert (Hlt : T * unit < s * (2 ^ 53 * 2 ^ (e - 53))).
  { revert Hhi Hdm Hmod HP Hs.
    generalize (T * unit) ((T * unit) mod s) (2 ^ (e - 53)) v. clear. intros. nia. }
  assert (Hlow : 2 ^ 52 * (2 ^ (e - 53) * s) ≤ T * unit).
  { revert Hlo Hdm Hmod HP Hs.
    generalize (T * unit) ((T * unit) mod s) (2 ^ (e - 53)) v. clear. intros. nia. }
  destruct (DoubleSpec.round_below (T * unit * unit) (s * unit) e) as (n & -> & Hn0 & Hn).
  { apply Z.mul_nonneg_nonneg; lia. }
  { done. }
  { rewrite Hpow'. replace (s * unit * (2 ^ 53 * 2 ^ (e - 53)))
      with (s * (2 ^ 53 * 2 ^ (e - 53)) * unit) by ring.
    apply Z.mul_lt_mono_pos_r; done. }
  { lia. }
  { lia. }
  exists n. split; [done|]. split; [done|].
  assert (Hn' : - (2 ^ (e - 53) * s) ≤ 2 * (n * s - T * unit) ≤ 2 ^ (e - 53) * s).
  { revert Hn HU0. generalize (2 ^ (e - 53)) unit. clear. intros P U Hn HU0.
    set (TU := T * U) in *. clearbody TU.
    replace (2 * (n * (s * U) - TU * U)) with (2 * (n * s - TU) * U) in Hn by ring.
    replace (P * (s * U)) with (P * s * U) in Hn by ring.
    nia. }
  revert Hn' Hlow. generalize (2 ^ (e - 53) * s) (T * unit) (n * s). clear.
  intros PS TU ns Hn' Hlow.
  change (2 ^ 53) with 9007199254740992. change (2 ^ 52) with 4503599627370496 in *.
  lia.
Qed.

(** The product of a source size by a scale, rounded up to an integer. *)
Lemma ceil_mul (s n : Z) :
  0 < s < 2 ^ 31 → 0 ≤ n < 2 ^ 11 * unit →
  ∃ D, ceil (mul (of_int s) (Fin n)) = Fin (D * unit)
       ∧ s * n - 2 ^ 1062 ≤ D * unit < s * n + 2 ^ 1062 + unit.
Proof.
  intros Hs Hn.
  assert (HU0 : 0 < unit) by (by apply Z.pow_pos_nonneg).
  unfold mul, of_int.
  assert (HsU : 0 < s * unit) by (apply Z.mul_pos_pos; lia).
  destruct (Z.ltb_spec (s * unit) 0) as [|_]; [lia|].
  destruct (Z.ltb_spec n 0) as [|_]; [lia|].
  cbn [xorb]. rewrite !Z.abs_eq by lia.
  destruct (DoubleSpec.round_below (s * unit * n) unit 1116) as (p & -> & Hp0 & Hp).
  { apply Z.mul_nonneg_nonneg; [apply Z.mul_nonneg_nonneg|]; lia. }
  { done. }
  { change (2 ^ 1116) with (2 ^ 31 * (2 ^ 11 * unit)).
    set (W := 2 ^ 11 * unit) in *. clearbody W.
    replace (s * unit * n) with (unit * (s * n)) by ring.
    apply Z.mul_lt_mono_pos_l; [done|]. nia. }
  { lia. }
  { lia. }
  change (1116 - 53) with 1063 in Hp. change (2 ^ 1063) with (2 * 2 ^ 1062) in Hp.
  cbn [ceil]. exists (- (- p / unit)). split; [done|].
  pose proof (Z.div_mod (- p) unit ltac:(lia)) as Hdm.
  pose proof (Z.mod_pos_bound (- p) unit HU0) as Hmod.
  clear Hn. revert Hp Hdm Hmod. generalize (2 ^ 1062). generalize (- p / unit).
  generalize (- p `mod` unit). revert HU0. generalize unit.
  intros U HU0 m d R Hp Hdm Hmod.
  assert (Hp' : - R ≤ p - s * n ≤ R) by nia.
  nia.
Qed.

Lemma div_two (k : Z) :
  - 2 ^ 53 < k < 2 ^ 53 → div (Fin (k * unit)) (of_int 2) = Fin (k * 2 ^ 1073).
Proof.
  intros Hk.
  assert (HU0 : 0 < unit) by (by apply Z.pow_pos_nonneg).
  assert (HU2 : unit = 2 * 2 ^ 1073) by reflexivity.
  unfold div, of_int.
  destruct (Z.eqb_spec (2 * unit) 0) as [|_]; [lia|].
  destruct (Z.ltb_spec (2 * unit) 0) as [|_]; [lia|].
  rewrite (Z.abs_eq (2 * unit)) by lia.
  destruct (Z.ltb_spec (k * unit) 0) as [Hneg|Hpos]; cbn [xorb].
  - assert (k < 0) by nia.
    replace (Z.abs (k * unit) * unit) with (- k * 2 ^ 1073 * (2 * unit)).
    + rewrite DoubleSpec.round_dyadic by lia. f_equal. lia.
    + rewrite Z.abs_neq by lia. rewrite HU2. ring.
  - assert (0 ≤ k) by nia.
    replace (Z.abs (k * unit) * unit) with (k * 2 ^ 1073 * (2 * unit)).
    + by rewrite DoubleSpec.round_dyadic by lia.
    + rewrite Z.abs_eq by lia. rewrite HU2. ring.
Qed.

(** The offset that centres a drawn size over a target size. *)
Lemma floor_half (T D : Z) :
  0 < T < 2 ^ 10 → T ≤ D < 2 ^ 52 →
  floor (div (sub (of_int T) (Fin (D * unit))) (of_int 2)) = Fin ((T - D) / 2 * unit).
Proof.
  intros HT HD.
  unfold sub, of_int. cbn [neg add].
  replace (T * unit + - (D * unit)) with ((T - D) * unit) by ring.
  rewrite DoubleSpec.round_units_int by lia.
  rewrite div_two by lia.
  cbn [floor]. f_equal. f_equal.
  change unit with (2 * 2 ^ 1073).
  apply Z.div_mul_cancel_r; [lia|].
  assert (0 < 2 ^ 1073) by (by apply Z.pow_pos_nonneg). lia.
Qed.

(** The drawn size for target sizes below 1024 and source sizes below
    [2^31]. *)
Lemma cover_sizes (Tw Th sw sh : Z) :
  0 < Tw < 2 ^ 10 → 0 < Th < 2 ^ 10 → 0 < sw < 2 ^ 31 → 0 < sh < 2 ^ 31 →
  let scale := max (div (of_int Tw) (of_int sw)) (div (of_int Th) (of_int sh)) in
  ∃ W H,
    ceil (mul (of_int sw) scale) = Fin (W * unit)
    ∧ ceil (mul (of_int sh) scale) = Fin (H * unit)
    ∧ Tw ≤ W < 2 ^ 52 ∧ Th ≤ H < 2 ^ 52
    ∧ (W ≤ Tw + 1 ∨ H ≤ Th + 1).
Proof.
  intros HTw HTh Hsw Hsh scale. subst scale.
  destruct (div_sizes Tw sw HTw Hsw) as (n & -> & Hn0 & Hn).
  destruct (div_sizes Th sh HTh Hsh) as (m & -> & Hm0 & Hm).
  cbn [max].
  assert (HQ : 0 < 2 ^ 1021) by (by apply Z.pow_pos_nonneg).
  change unit with (2 ^ 53 * 2 ^ 1021) in Hn, Hm.
  assert (Hk : 0 ≤ Z.max n m < 2 ^ 11 * unit).
  { change unit with (2 ^ 53 * 2 ^ 1021).
    revert HQ Hn Hm. generalize (2 ^ 1021). intros Q HQ Hn Hm.
    change (2 ^ 53) with 9007199254740992 in *. change (2 ^ 11) with 2048.
    change (2 ^ 10) with 1024 in *. change (2 ^ 31) with 2147483648 in *.
    assert (n * 1 ≤ n * sw) by (apply Z.mul_le_mono_nonneg_l; lia).
    assert (m * 1 ≤ m * sh) by (apply Z.mul_le_mono_nonneg_l; lia).
    assert (Tw * Q < 1024 * Q) by (apply Z.mul_lt_mono_pos_r; lia).
    assert (Th * Q < 1024 * Q) by (apply Z.mul_lt_mono_pos_r; lia).
    lia. }
  destruct (ceil_mul sw (Z.max n m) Hsw Hk) as (W & -> & HW).
  destruct (ceil_mul sh (Z.max n m) Hsh Hk) as (H & -> & HH).
  exists W, H. split; [done|]. split; [done|].
  change (2 ^ 1062) with (2 ^ 41 * 2 ^ 1021) in HW, HH.
  change unit with (2 ^ 53 * 2 ^ 1021) in HW, HH, Hk.
  revert HQ Hn Hm Hk HW HH. generalize (2 ^ 1021). intros Q HQ Hn Hm Hk HW HH.
  change (2 ^ 53) with 9007199254740992 in *. change (2 ^ 11) with 2048 in *.
  change (2 ^ 10) with 1024 in *. change (2 ^ 31) with 2147483648 in *.
  change (2 ^ 41) with 2199023255552 in *. change (2 ^ 52) with 4503599627370496.
  assert (Hn1 : sw * n ≤ sw * Z.max n m) by (apply Z.mul_le_mono_nonneg_l; lia).
  assert (Hm1 : sh * m ≤ sh * Z.max n m) by (apply Z.mul_le_mono_nonneg_l; lia).
  assert (Hk1 : sw * Z.max n m ≤ 2147483648 * Z.max n m)
    by (apply Z.mul_le_mono_nonneg_r; lia).
  assert (Hk2 : sh * Z.max n m ≤ 2147483648 * Z.max n m)
    by (apply Z.mul_le_mono_nonneg_r; lia).
  assert (HTw' : Tw * Q < 1024 * Q) by (apply Z.mul_lt_mono_pos_r; lia).
  assert (HTh' : Th * Q < 1024 * Q) by (apply Z.mul_lt_mono_pos_r; lia).
  assert (HWl : (Tw - 1) * Q < W * Q) by lia.
  assert (HHl : (Th - 1) * Q < H * Q) by lia.
  assert (HWu : W * Q < 4503599627370496 * Q) by lia.
  assert (HHu : H * Q < 4503599627370496 * Q) by lia.
  apply Z.mul_lt_mono_pos_r in HWl, HHl, HWu, HHu; try done.
  split; [lia|]. split; [lia|].
  destruct (Z.max_spec n m) as [[_ E]|[_ E]]; rewrite E in *.
  - right. assert (Hu : (H - Th - 2) * Q < 0 * Q) by lia.
    apply Z.mul_lt_mono_pos_r in Hu; [lia|done].
  - left. assert (Hu : (W - Tw - 2) * Q < 0 * Q) by lia.
    apply Z.mul_lt_mono_pos_r in Hu; [lia|done].
Qed.

(** The image is drawn over the whole canvas.  For an image whose width
    and height are positive and below [2^31], the drawn width and height are
    integers not below the target width and height, one of them exceeds its
    target by at most one, and the offsets centre the drawing: they are the
    halves, rounded down, of target minus drawn size, so they are not
    positive, and the drawing extends to the far edges of the canvas. *)
Theorem cover_fills_canvas (aspectRatio : string)
    (naturalWidth naturalHeight width height : Z) :
  let srcW := or_number naturalWidth width in
  let srcH := or_number naturalHeight height in
  let targetW := (Uploads.targetSizeFromAspect aspectRatio).1 in
  let targetH := (Uploads.targetSizeFromAspect aspectRatio).2 in
  0 < srcW < 2 ^ 31 → 0 < srcH < 2 ^ 31 →
  ∃ W H X Y : Z,
    cover aspectRatio naturalWidth naturalHeight width height
    = {| dx := of_int X; dy := of_int Y; drawW := of_int W; drawH := of_int H |}
    ∧ targetW ≤ W ∧ targetH ≤ H
    ∧ (W ≤ targetW + 1 ∨ H ≤ targetH + 1)
    ∧ X = (targetW - W) / 2 ∧ Y = (targetH - H) / 2
    ∧ X ≤ 0 ∧ Y ≤ 0 ∧ targetW ≤ X + W ∧ targetH ≤ Y + H.
Proof.
  intros srcW srcH targetW targetH HW HH.
  assert (HT : 0 < targetW < 2 ^ 10 ∧ 0 < targetH < 2 ^ 10).
  { subst targetW targetH. unfold Uploads.targetSizeFromAspect.
    destruct (String.eqb aspectRatio _); [simpl; lia|].
    destruct (String.eqb aspectRatio _); simpl; lia. }
  destruct HT as [HTw HTh].
  destruct (cover_sizes targetW targetH srcW srcH HTw HTh HW HH) as (W & H & EW & EH & HWb & HHb & Hone).
  exists W, H, ((targetW - W) / 2), ((targetH - H) / 2).
  split.
  { unfold cover. fold srcW srcH.
    destruct (Uploads.targetSizeFromAspect aspectRatio) as [tw th] eqn:Et.
    cbn [fst snd] in *. subst targetW targetH.
    rewrite EW, EH. rewrite !floor_half by lia. reflexivity. }
  split; [lia|]. split; [lia|]. split; [exact Hone|].
  split; [done|]. split; [done|].
  pose proof (Z.div_mod (targetW - W) 2 ltac:(lia)) as H1.
  pose proof (Z.mod_pos_bound (targetW - W) 2 ltac:(lia)) as H2.
  pose proof (Z.div_mod (targetH - H) 2 ltac:(lia)) as H3.
  pose proof (Z.mod_pos_bound (targetH - H) 2 ltac:(lia)) as H4.
  lia.
Qed.

(** A photo of 4000 by 3000 pixels on the landscape canvas. *)
Lemma cover_fills_canvas_witness :
  ∃ W H X Y : Z,
    cover "VIDEO_ASPECT_RATIO_LANDSCAPE" 4000 3000 0 0
    = {| dx := of_int X; dy := of_int Y; drawW := of_int W; drawH := of_int H |}
    ∧ 929 ≤ W ∧ 507 ≤ H ∧ (W ≤ 930 ∨ H ≤ 508).
Proof.
  destruct (cover_fills_canvas "VIDEO_ASPECT_RATIO_LANDSCAPE" 4000 3000 0 0
              ltac:(unfold or_number; simpl; lia) ltac:(unfold or_number; simpl; lia))
    as (W & H & X & Y & E & H1 & H2 & H3 & _).
  exists W, H, X, Y. split; [exact E|]. split; [exact H1|]. split; [exact H2|exact H3].
Defined.

End CropSpec.

(** ** The prompt loop as a whole *)

Module PromptLoopSpec.
Import AutoLogger PromptLoop.

Section Loop.

Variable toString_large : Z → string.
Variable sceneId : string.

Local Abbreviation process_prompt := (AutoLogger.process_prompt toString_large).
Local Abbreviation run_prompts := (AutoLogger.run_prompts toString_large).
Local Abbreviation run := (PromptLoop.run toString_large sceneId).

(** What the download loop does to the chain: only errors are added, at
    most one for each of the two files, and the flag stays set only without
    errors. *)
Lemma download_loop_errors (w : world) (promptNumber : nat) (prompt : string)
    (urls : list string) :
  ∀ i ok c,
    let r := download_loop w promptNumber prompt urls i ok c in
    successCount r.2 = successCount c
    ∧ pauses r.2 = pauses c
    ∧ ∃ errs, errorPrompts r.2 = errorPrompts c ++ errs
              ∧ (length errs ≤ 2 - i)%nat
              ∧ Forall (λ e, e.1.1 = promptNumber) errs
              ∧ r.1 = ok && bool_decide (errs = []).
Proof.
  induction urls as [|u urls IH]; intros i ok c r; subst r.
  { simpl. split; [done|]. split; [done|]. exists [].
    rewrite app_nil_r, andb_true_r. split; [done|]. split; [simpl; lia|]. by split. }
  cbn [download_loop]. destruct (Nat.ltb_spec i 2) as [Hi|Hi].
  2:{ simpl. split; [done|]. split; [done|]. exists [].
      rewrite app_nil_r, andb_true_r. split; [done|]. split; [simpl; lia|]. by split. }
  destruct (download_ok w u).
  - destruct (IH (S i) ok c) as (H1 & H2 & errs & H3 & H4 & H5 & H6).
    split; [done|]. split; [done|]. exists errs.
    split; [done|]. split; [lia|]. by split.
  - match goal with
    | |- context [download_loop w promptNumber prompt urls (S i) false ?c1] =>
        destruct (IH (S i) false c1) as (H1 & H2 & errs & H3 & H4 & H5 & H6)
    end.
    split; [by rewrite H1|]. split; [by rewrite H2|].
    eexists (_ :: errs). cbn [push_error errorPrompts] in H3.
    rewrite <- app_assoc in H3. split; [exact H3|].
    split; [simpl; lia|]. split; [by constructor|].
    rewrite H6. by rewrite andb_false_r.
Qed.

Lemma download_errors (w : world) (promptNumber : nat) (prompt : string)
    (urls : list string) (c : chain) :
  let c1 := download w promptNumber prompt urls c in
  initialClips c1 = initialClips c
  ∧ lastClipId c1 = lastClipId c
  ∧ pauses c1 = pauses c
  ∧ (successCount c ≤ successCount c1 ≤ S (successCount c))%nat
  ∧ ∃ errs, errorPrompts c1 = errorPrompts c ++ errs
            ∧ (length errs ≤ 2)%nat
            ∧ Forall (λ e, e.1.1 = promptNumber) errs.
Proof.
  intros c1. subst c1.
  destruct (AutoLoggerSpec.download_chain w promptNumber prompt urls c) as [Hc Hl].
  split; [exact Hc|]. split; [exact Hl|]. clear Hc Hl.
  unfold download. destruct urls as [|u urls].
  { split; [done|]. split; [lia|]. exists []. rewrite app_nil_r.
    split; [done|]. split; [simpl; lia|]. constructor. }
  destruct (download_loop_errors w promptNumber prompt (u :: urls) 0 true c)
    as (H1 & H2 & errs & H3 & H4 & H5 & _).
  destruct (download_loop w promptNumber prompt (u :: urls) 0 true c) as [ok c1].
  cbn [fst snd] in *.
  destruct ok; cbn [pauses successCount errorPrompts].
  - split; [done|]. split; [lia|]. exists errs. split; [done|]. split; [lia|done].
  - split; [done|]. split; [lia|]. exists errs. split; [done|]. split; [lia|done].
Qed.

(** One iteration: what becomes of each variable that lives across
    prompts. *)
Lemma process_prompt_step (w : world) (promptIndex : nat) (prompt : string) (c : chain) :
  let o := (process_prompt w promptIndex prompt c).1 in
  let c1 := (process_prompt w promptIndex prompt c).2 in
  (if is_done o
   then ∃ selected,
          initialClips c1
          = initialClips c ++ [newClip toString_large (initialClips c) selected prompt]
          ∧ lastClipId c1 = Some selected
          ∧ pauses c1 = pauses c ++ [2000]
   else initialClips c1 = initialClips c ∧ lastClipId c1 = lastClipId c
        ∧ pauses c1 = pauses c)
  ∧ (successCount c ≤ successCount c1
     ≤ successCount c + (if reached_update o then 1 else 0))%nat
  ∧ ∃ errs, errorPrompts c1 = errorPrompts c ++ errs
            ∧ (length errs ≤ 3)%nat
            ∧ (o = Threw → errs = [])
            ∧ Forall (λ e, e.1.1 = (promptIndex + 2)%nat) errs.
Proof.
  intros o c1. subst o c1. unfold AutoLogger.process_prompt.
  destruct (head_throws prompt c).
  { simpl. split; [done|]. split; [lia|]. exists []. rewrite app_nil_r.
    split; [done|]. split; [simpl; lia|]. split; [done|]. constructor. }
  assert (Hone : ∀ (o : outcome) msg,
    is_done o = false → o ≠ Threw →
    let r := (o, push_error (promptIndex + 2) prompt msg c) in
    (if is_done r.1
     then ∃ selected,
            initialClips r.2
            = initialClips c ++ [newClip toString_large (initialClips c) selected prompt]
            ∧ lastClipId r.2 = Some selected
            ∧ pauses r.2 = pauses c ++ [2000]
     else initialClips r.2 = initialClips c ∧ lastClipId r.2 = lastClipId c
          ∧ pauses r.2 = pauses c)
    ∧ (successCount c ≤ successCount r.2
       ≤ successCount c + (if reached_update r.1 then 1 else 0))%nat
    ∧ ∃ errs, errorPrompts r.2 = errorPrompts c ++ errs
              ∧ (length errs ≤ 3)%nat
              ∧ (r.1 = Threw → errs = [])
              ∧ Forall (λ e, e.1.1 = (promptIndex + 2)%nat) errs).
  { intros o msg Ho Hn r. subst r. cbn [fst snd]. rewrite Ho. simpl.
    split; [done|]. split; [lia|].
    eexists [_]. split; [reflexivity|]. split; [simpl; lia|]. split; [done|].
    by repeat constructor. }
  destruct (generate w) as [| |entries].
  - by apply Hone.
  - simpl. split; [done|]. split; [lia|]. exists []. rewrite app_nil_r.
    split; [done|]. split; [simpl; lia|]. split; [done|]. constructor.
  - destruct (Provider.to_handles entries) as [ops|]; [|by apply Hone].
    unfold after_submit.
    destruct (selectedMediaId (poll (replies w) ops)) as [selected|]; [|by apply Hone].
    destruct (pollDone (poll (replies w) ops) && JS.truthy_string selected);
      [|by apply Hone].
    destruct (download_errors w (promptIndex + 2) prompt
                (videoUrls (poll (replies w) ops)) c)
      as (Hc & Hl & Hp & Hs & errs & He & Hn & Hall).
    set (c0 := download w (promptIndex + 2) prompt (videoUrls (poll (replies w) ops)) c)
      in *.
    unfold update_scene. rewrite Hc.
    destruct (update_ok w _).
    + cbn [fst snd is_done reached_update initialClips lastClipId pauses successCount
           errorPrompts].
      split; [exists selected; by rewrite Hp|]. split; [lia|].
      exists errs. split; [done|]. split; [lia|]. split; [done|]. done.
    + cbn [fst snd is_done reached_update push_error initialClips lastClipId pauses
           successCount errorPrompts].
      split; [done|]. split; [lia|].
      eexists (errs ++ [_]). rewrite He, <- app_assoc. split; [reflexivity|].
      rewrite length_app. split; [simpl; lia|]. split; [done|].
      apply Forall_app. split; [done|]. by repeat constructor.
Qed.


Lemma process_prompt_anchored (w : world) (promptIndex : nat) (prompt : string)
    (c : chain) :
  anchored c →
  anchored (process_prompt w promptIndex prompt c).2
  ∧ (initialClips c ≠ [] → initialClips (process_prompt w promptIndex prompt c).2 ≠ []).
Proof.
  intros Hc.
  destruct (process_prompt_step w promptIndex prompt c) as (Hchain & _).
  destruct (is_done (process_prompt w promptIndex prompt c).1).
  - destruct Hchain as (selected & H1 & H2 & _). unfold anchored.
    rewrite H1, H2, last_snoc. split; [done|].
    intros _ E. by apply app_eq_nil in E as [_ ?].
  - destruct Hchain as (H1 & H2 & _). unfold anchored. rewrite H1, H2. by split.
Qed.

Lemma build_request (lastClipId : option string) (prompt : string) (seeds : list Z)
    (call : generate_call) (rq : request) :
  build sceneId lastClipId prompt seeds = Some call →
  rq ∈ requests call →
  textInput_prompt rq = prompt
  ∧ metadata_sceneId rq = sceneId
  ∧ videoInput rq
    = match promptType prompt with
      | new => None
      | continue =>
          (λ id, {| mediaId := id; startFrameIndex := 168; endFrameIndex := 191 |})
            <$> lastClipId
      end.
Proof.
  unfold build. destruct (promptType prompt).
  - intros [= <-]. cbn [requests]. intros H.
    apply list_elem_of_fmap in H as (sd & -> & _). done.
  - destruct lastClipId as [id|]; [|done].
    intros [= <-]. cbn [requests]. intros H.
    apply list_elem_of_fmap in H as (sd & -> & _). done.
Qed.

(** When the loop starts with the last clip id being the id of the last
    clip of the scene, it stays so, and every request of a [continue] prompt
    asks to extend the clip that is last in the scene at that moment, which is
    the clip of the latest successful scene update or else the last one
    found at the start; a [new] prompt carries no video input.  The loop
    processes every prompt unless a [continue] prompt comes up while the
    scene has no clip: that iteration throws before anything is sent, and
    the prompts after it are not processed.  With a clip in the scene at the
    start this cannot happen. *)
Theorem continue_extends_last_clip (worlds : nat → world) (seeds : nat → list Z)
    (prompts : list string) :
  ∀ (promptIndex : nat) (c : chain),
    anchored c →
    let r := run worlds seeds promptIndex prompts c in
    let before k := (run_prompts worlds promptIndex (take k prompts) c).2 in
    anchored r.1.2
    ∧ (∀ k call o, r.1.1 !! k = Some (call, o) →
         ∃ prompt,
           prompts !! k = Some prompt
           ∧ o = (process_prompt (worlds (promptIndex + k)%nat) (promptIndex + k) prompt
                    (before k)).1
           ∧ ∀ rq, rq ∈ requests call →
               textInput_prompt rq = prompt
               ∧ videoInput rq
                 = match promptType prompt with
                   | new => None
                   | continue => extending <$> last (initialClips (before k))
                   end)
    ∧ match r.2 with
      | Finished =>
          (r.1.1.*2, r.1.2) = run_prompts worlds promptIndex prompts c
      | TypeError i =>
          ∃ prompt,
            i = (promptIndex + length r.1.1)%nat
            ∧ prompts !! length r.1.1 = Some prompt
            ∧ promptType prompt = continue
            ∧ r.1.2 = before (length r.1.1)
            ∧ initialClips r.1.2 = []
      end
    ∧ (initialClips c ≠ [] → r.2 = Finished).
Proof.
  induction prompts as [|prompt rest IH]; intros promptIndex c Hc r before;
    subst r before.
  { simpl. split; [done|]. split; [by intros k call o H|]. by split. }
  cbn [PromptLoop.run].
  destruct (build sceneId (lastClipId c) prompt (seeds promptIndex)) as [call|] eqn:Eb.
  2:{ cbn [fst snd]. split; [done|]. split; [by intros k call o H|].
      assert (promptType prompt = continue ∧ lastClipId c = None) as [Ht Hl].
      { unfold build in Eb. destruct (promptType prompt); [done|].
        by destruct (lastClipId c). }
      assert (Hempty : initialClips c = []).
      { unfold anchored in Hc. rewrite Hl in Hc.
        destruct (initialClips c) as [|cl l] using rev_ind; [done|].
        by rewrite last_snoc in Hc. }
      split; [|done].
      exists prompt. cbn [length]. rewrite Nat.add_0_r. by repeat split. }
  destruct (process_prompt_anchored (worlds promptIndex) promptIndex prompt c Hc)
    as [Hc1 Hne1].
  assert (Hhead : head_throws prompt c = false).
  { unfold build in Eb. unfold head_throws. destruct (promptType prompt); [done|].
    by destruct (lastClipId c). }
  pose proof (AutoLoggerSpec.process_prompt_handled toString_large (worlds promptIndex)
                promptIndex prompt c Hhead) as Hnt.
  assert (Hcons : ∀ l,
    run_prompts worlds promptIndex (prompt :: l) c
    = ((process_prompt (worlds promptIndex) promptIndex prompt c).1
         :: (run_prompts worlds (S promptIndex) l
               (process_prompt (worlds promptIndex) promptIndex prompt c).2).1,
       (run_prompts worlds (S promptIndex) l
          (process_prompt (worlds promptIndex) promptIndex prompt c).2).2)).
  { intros l. rewrite (AutoLoggerSpec.run_prompts_cons toString_large).
    by rewrite bool_decide_eq_false_2. }
  destruct (process_prompt (worlds promptIndex) promptIndex prompt c) as [o c1] eqn:Ep.
  cbn [fst snd] in Hc1, Hne1, Hnt, Hcons.
  specialize (IH (S promptIndex) c1 Hc1).
  destruct (run worlds seeds (S promptIndex) rest c1) as [[steps c2] e].
  cbn [fst snd] in IH |- *.
  destruct IH as (Hc2 & Hsteps & Hend & Hfin).
  split; [exact Hc2|]. split; [|split].
  - intros [|k] call' o' Hk.
    + injection Hk as <- <-. exists prompt. rewrite Nat.add_0_r. cbn [take].
      cbn [AutoLogger.run_prompts snd]. rewrite Ep. split; [done|]. split; [done|].
      intros rq Hrq. destruct (build_request _ _ _ _ _ Eb Hrq) as (H1 & _ & H3).
      split; [exact H1|]. rewrite H3. destruct (promptType prompt); [done|].
      rewrite Hc. by destruct (last (initialClips c)).
    + cbn [lookup list_lookup] in Hk. destruct (Hsteps k call' o' Hk) as (p & Hp & Ho & Hrq).
      exists p. split; [exact Hp|].
      replace (promptIndex + S k)%nat with (S promptIndex + k)%nat by lia.
      cbn [take]. rewrite Hcons. cbn [snd]. by split.
  - destruct e as [|i].
    + rewrite fmap_cons, Hcons. cbn [snd].
      destruct (run_prompts worlds (S promptIndex) rest c1) as [os c2'].
      by injection Hend as -> ->.
    + destruct Hend as (p & -> & Hp & Ht & Hb & He).
      exists p. cbn [length]. split; [lia|]. split; [exact Hp|]. split; [exact Ht|].
      split; [|exact He].
      cbn [take]. rewrite Hcons. exact Hb.
  - intros Hne. apply Hfin. by apply Hne1.
Qed.

End Loop.


(** A [new] prompt, then a [continue] prompt whose generate request fails,
    then another [continue] prompt: the last two both extend the clip of the
    first. *)
Lemma continue_extends_last_clip_witness :
  let worlds := λ i, {| generate := if (i =? 1)%nat then GenerateThrows
                                    else GenerateOperations ready;
                        replies := script [ready]; download_ok := λ _, true;
                        update_ok := λ _, true |} in
  let r := PromptLoop.run no_exponent_form "scene-1" worlds (λ _, [7; 9]) 0
             ["a city at dawn (NEW)"; "the camera rises"; "rain begins"] started in
  anchored r.1.2
  ∧ r.2 = Finished
  ∧ (λ s, (λ rq, mediaId <$> videoInput rq) <$> requests s.1) <$> r.1.1
    = [ [None; None]; [Some "media-1"; Some "media-1"]; [Some "media-1"; Some "media-1"] ].
Proof.
  intros worlds r.
  pose proof (continue_extends_last_clip no_exponent_form "scene-1" worlds (λ _, [7; 9])
                ["a city at dawn (NEW)"; "the camera rises"; "rain begins"] 0 started
                eq_refl) as H.
  split; [exact (proj1 H)|].
  split; [exact (proj2 (proj2 (proj2 H)) ltac:(discriminate))|].
  vm_compute. reflexivity.
Defined.

End PromptLoopSpec.
